(** * aang: the grammar store and the ambiguity detector

    A shallow embedding of the grammar compiler's core:

    - the constructor of nonterminal symbols and [addRule], with
      [newTermRule], [newNontermRule], [ruleExists], [calcCost] and
      [ruleErr] (the second module of [unnamed/part_001]);
    - the ambiguity check: [searchPaths], [buildPaths], [findAmbiguity],
      [pairExists], [rulesToTree], [listToArray], [listsEqual],
      [diffTrees], [invertTree] and [nodesEqual] (the first module of
      [unnamed/part_001]);
    - the terminal rule sets of verbs: [newVerbSet] and
      [createVerbTerminalRule] (the second module of [src/parser/CLI.js]).

    JavaScript objects used as maps keep their keys in insertion order,
    so they are association lists here; [for ... in] walks the keys that
    are array indices first, in ascending order, and then the others in
    insertion order ([forIn]).  A property an object lacks is looked up
    in [Object.prototype] where the code reads rules by a symbol's name
    ([rulesAt]).  A [throw] is an explicit outcome, and the store a
    function mutates is passed in and handed back, also when it throws.
    Costs are JavaScript numbers: IEEE 754 binary64, with the operations
    of the standard library's [SpecFloat], which round to nearest, ties
    to even. *)

From Stdlib Require Import List String Ascii Bool Arith Lia ZArith NArith SpecFloat.
Import ListNotations.
Local Open Scope string_scope.
Local Open Scope list_scope.
Local Open Scope nat_scope.

Set Warnings "-register-all".

(** ** JavaScript objects as insertion-ordered maps *)

Section Obj.
Variable V : Type.

Definition obj := list (string * V).

(** [o[k]]: [None] is [undefined]. *)
Fixpoint get (o : obj) (k : string) : option V :=
  match o with
  | [] => None
  | (k', v) :: o' => if String.eqb k' k then Some v else get o' k
  end.

(** [o.hasOwnProperty(k)] *)
Definition hasOwnProperty (o : obj) (k : string) : bool :=
  match get o k with Some _ => true | None => false end.

(** [o[k] = v]: an existing key keeps its place, a new one goes last. *)
Fixpoint set (o : obj) (k : string) (v : V) : obj :=
  match o with
  | [] => [(k, v)]
  | (k', v') :: o' =>
      if String.eqb k' k then (k', v) :: o' else (k', v') :: set o' k v
  end.

Definition keys (o : obj) : list string := map fst o.
End Obj.

Arguments get {V} o k.
Arguments hasOwnProperty {V} o k.
Arguments set {V} o k v.
Arguments keys {V} o.

(** *** The order of [for ... in] *)

(** The value of a decimal digit. *)
Definition digitOf (c : ascii) : option N :=
  let n := N_of_ascii c in
  if (N.leb 48 n && N.leb n 57)%bool then Some (n - 48)%N else None.

(** The number a string of decimal digits writes, after [acc]. *)
Fixpoint numeral (s : string) (acc : N) : option N :=
  match s with
  | EmptyString => Some acc
  | String c s =>
      match digitOf c with
      | Some d => numeral s (10 * acc + d)%N
      | None => None
      end
  end.

(** A property name that is an array index: the decimal numeral, with no
    leading zero, of an integer from 0 to 2^32 - 2. *)
Definition arrayIndex (k : string) : option N :=
  match k with
  | EmptyString => None
  | String c rest =>
      if Ascii.eqb c "0" then
        match rest with EmptyString => Some 0%N | _ => None end
      else
        match numeral k 0 with
        | Some n => if N.ltb n 4294967295 then Some n else None
        | None => None
        end
  end.

(** The array indices among the keys, in ascending order. *)
Fixpoint insertIndex (n : N) (k : string) (sorted : list (N * string))
  : list (N * string) :=
  match sorted with
  | [] => [(n, k)]
  | (m, k') :: sorted' =>
      if N.leb n m then (n, k) :: sorted
      else (m, k') :: insertIndex n k sorted'
  end.

Fixpoint indexKeys (ks : list string) : list (N * string) :=
  match ks with
  | [] => []
  | k :: ks =>
      match arrayIndex k with
      | Some n => insertIndex n k (indexKeys ks)
      | None => indexKeys ks
      end
  end.

(** The keys that are no array indices, in the order they have. *)
Definition nameKeys (ks : list string) : list string :=
  filter (fun k => match arrayIndex k with Some _ => false | None => true end) ks.

(** The keys [for (var k in o)] visits, in its order: the array indices
    ascending, then the other keys in insertion order. *)
Definition forIn {V} (o : obj V) : list string :=
  map snd (indexKeys (keys o)) ++ nameKeys (keys o).

(** *** What every object inherits *)

(** The properties of [Object.prototype], which an object has under a
    name that is no key of its own: functions, each with its [length]
    (the number of its parameters), and [__proto__], which gives the
    prototype itself, an object without a [length]. *)
Definition objectPrototype : obj (option nat) :=
  [("constructor", Some 1); ("toString", Some 0); ("toLocaleString", Some 0);
   ("valueOf", Some 0); ("hasOwnProperty", Some 1); ("isPrototypeOf", Some 1);
   ("propertyIsEnumerable", Some 1); ("__defineGetter__", Some 2);
   ("__defineSetter__", Some 2); ("__lookupGetter__", Some 1);
   ("__lookupSetter__", Some 1); ("__proto__", None)].

(** ** Numbers *)

(** A JavaScript number: a binary64 floating-point number. *)
Definition Number := spec_float.

Module Numbers.

Definition prec : Z := 53.
Definition emax : Z := 1024.

(** [x * y] and [x + y] *)
Definition mul (x y : Number) : Number := SFmul prec emax x y.
Definition add (x y : Number) : Number := SFadd prec emax x y.

(** The number of an array's [length], or of an integer literal. *)
Definition ofNat (n : nat) : Number :=
  binary_normalize prec emax (Z.of_nat n) 0 false.

(** [0] *)
Definition zero : Number := S754_zero false.

(** A number in a condition: [0], [-0] and [NaN] are falsy. *)
Definition falsy (x : Number) : bool :=
  match x with
  | S754_zero _ | S754_nan => true
  | _ => false
  end.

Definition isNaN (x : Number) : bool :=
  match x with S754_nan => true | _ => false end.

(** [x < y] *)
Definition ltb (x y : Number) : bool := SFltb x y.

End Numbers.

(** ** Rules *)

(** A terminal rule's [text]: a display string, or an object of inflected
    forms. *)
Inductive Text :=
| TextString (s : string)
| TextForms (forms : obj string).

(** A rule as stored in the grammar.  [insertionIdx] and [transposition]
    are set on edit rules only; a field that is [undefined] is [None]
    ([false] for the flags, which the code only tests for truth). *)
Record Rule := {
  RHS : list string;
  terminal : bool;
  text : option Text;
  cost : Number;
  insertionCost : option Number;
  semantic : option string;
  gramCase : option string;
  verbForm : option string;
  personNumber : option string;
  transpositionCost : option Number;
  insertionIdx : option nat;
  transposition : bool
}.

(** The grammar: symbol name to the array of its rules. *)
Definition Grammar := obj (list Rule).

(** ** Symbols and their rules *)

Module SymbolJs.

(** What a [throw] carries: the thrown string, and the message written to
    the console just before. *)
Record Exn := { thrown : string; logged : string }.

(** Computations over the grammar that may throw.  The grammar comes back
    in both cases: a [throw] undoes nothing. *)
Definition M (A : Type) := Grammar -> (Exn + A) * Grammar.

Definition ret {A} (a : A) : M A := fun g => (inr a, g).
Definition bind {A B} (m : M A) (k : A -> M B) : M B :=
  fun g => match m g with
           | (inl e, g') => (inl e, g')
           | (inr a, g') => k a g'
           end.
Definition throw {A} (logged thrown : string) : M A :=
  fun g => (inl {| thrown := thrown; logged := logged |}, g).
Definition read : M Grammar := fun g => (inr g, g).
Definition write (name : string) (rules : list Rule) : M unit :=
  fun g => (inr tt, set g name rules).

Notation "x <- m ;; k" := (bind m (fun x => k))
  (at level 61, m at next level, right associativity).
Notation "m ;; k" := (bind m (fun _ => k))
  (at level 61, right associativity).

(** One argument of [new Symbol(grammar, ...)] after the grammar. *)
Inductive NamePart :=
| undefined
| part (s : string).

Definition isUndefined (c : NamePart) : bool :=
  match c with undefined => true | part _ => false end.

Definition partString (c : NamePart) : string :=
  match c with undefined => "" | part s => s end.

(** [symNameChunks.join('-')] *)
Definition join (sep : string) (chunks : list NamePart) : string :=
  String.concat sep (map partString chunks).

(** A [Symbol] object.  Its [rules] field is the very array stored at
    [grammar[name]], so the model keeps that array once, in the grammar,
    and [rulesOf] reads [this.rules] there. *)
Record SymbolObj := { name : string }.

Definition rulesOf (this : SymbolObj) : M (list Rule) :=
  fun g => (inr (match get g (name this) with Some rs => rs | None => [] end), g).

(** [function Symbol(grammar) { ... }] *)
Definition Symbol (symNameChunks : list NamePart) : M SymbolObj :=
  (if existsb isUndefined symNameChunks
   then throw "undefined String in Symbol name" "ill-formed Symbol"
   else ret tt) ;;
  let this := {| name := "[" ++ join "-" symNameChunks ++ "]" |} in
  grammar <- read ;;
  (if hasOwnProperty grammar (name this)
   then throw "duplicate Symbol" "duplicate Symbol"
   else ret tt) ;;
  write (name this) [] ;;
  ret this.

(** The object passed to [addRule].  An absent option is [None]; [terminal]
    is only tested for truth. *)
Inductive RHSOpt :=
| RHSString (s : string)
| RHSSymbols (syms : list SymbolObj).

Record Semantic := { function : string; semCost : Number }.

Record RuleOpts := {
  oRHS : option RHSOpt;
  oTerminal : bool;
  oText : option string;
  oTextForms : option (obj string);
  oInsertionCost : option Number;
  oTranspositionCost : option Number;
  oSemantic : option Semantic;
  oGramCase : option string;
  oVerbForm : option string;
  oPersonNumber : option string
}.

Inductive Schema := termRuleOptsSchema | nontermRuleOptsSchema.

Definition isNone {A} (o : option A) : bool :=
  match o with None => true | Some _ => false end.

(** An optional option whose schema lists its values: absent, or one of
    them. *)
Definition oneOf (values : list string) (option : option string) : bool :=
  match option with
  | Some value => existsb (String.eqb value) values
  | None => true
  end.

(** Modelled from the spec: [util.illFormedOpts], the schema validator of
    the [util] module, which is not among the sources.  A rule is
    validated against its schema: per [termRuleOptsSchema] the RHS of a
    terminal rule is a String and only [insertionCost], [textForms] and
    [text] may accompany it; per [nontermRuleOptsSchema] the RHS of a
    nonterminal rule is an Array of Symbols and only [transpositionCost],
    [semantic], [gramCase], [verbForm] and [personNumber] may accompany
    it, the last three each with one of the values the schema lists for
    it: [[ 'nom', 'obj' ]], [[ 'past' ]] and [[ 'one', 'threeSg', 'pl' ]]. *)
Definition illFormedOpts (schema : Schema) (opts : RuleOpts) : bool :=
  match schema with
  | termRuleOptsSchema =>
      negb (match oRHS opts with Some (RHSString _) => true | _ => false end
            && isNone (oTranspositionCost opts) && isNone (oSemantic opts)
            && isNone (oGramCase opts) && isNone (oVerbForm opts)
            && isNone (oPersonNumber opts))
  | nontermRuleOptsSchema =>
      negb (match oRHS opts with Some (RHSSymbols _) => true | _ => false end
            && negb (oTerminal opts)
            && isNone (oText opts) && isNone (oTextForms opts)
            && isNone (oInsertionCost opts)
            && oneOf ["nom"; "obj"] (oGramCase opts)
            && oneOf ["past"] (oVerbForm opts)
            && oneOf ["one"; "threeSg"; "pl"] (oPersonNumber opts))
  end.

(** Modelled from the spec: [util.arraysMatch], of the same module: two
    RHS are the same when they hold the same symbols in the same order. *)
Fixpoint arraysMatch (a b : list string) : bool :=
  match a, b with
  | [], [] => true
  | x :: a', y :: b' => String.eqb x y && arraysMatch a' b'
  | _, _ => false
  end.

(** [Symbol.prototype.ruleErr]: logs the message and throws. *)
Definition ruleErr {A} (errMessage : string) : M A :=
  throw errMessage "ill-formed rule".

(** [costPenalty || 0]: an absent penalty and a falsy one give [0]. *)
Definition orZero (costPenalty : option Number) : Number :=
  match costPenalty with
  | Some c => if Numbers.falsy c then Numbers.zero else c
  | None => Numbers.zero
  end.

(** [1e-7]: the binary64 number nearest to it,
    [7555786372591432 * 2^-76]. *)
Definition c1e_7 : Number := S754_finite false 7555786372591432 (-76).

(** [Symbol.prototype.calcCost] *)
Definition calcCost (this : SymbolObj) (costPenalty : option Number) : M Number :=
  rules <- rulesOf this ;;
  let costPenalty := orZero costPenalty in
  ret (Numbers.add (Numbers.mul (Numbers.ofNat (List.length rules)) c1e_7)
                   costPenalty).

(** [opts.text || opts.textForms]: an empty string is falsy. *)
Definition textOf (opts : RuleOpts) : option Text :=
  match oText opts with
  | Some s => if String.eqb s "" then option_map TextForms (oTextForms opts)
              else Some (TextString s)
  | None => option_map TextForms (oTextForms opts)
  end.

Definition rhsString (r : option RHSOpt) : list string :=
  match r with Some (RHSString s) => [s] | _ => [] end.

Definition rhsSymbols (r : option RHSOpt) : list SymbolObj :=
  match r with Some (RHSSymbols l) => l | _ => [] end.

(** [Symbol.prototype.newTermRule] *)
Definition newTermRule (this : SymbolObj) (opts : RuleOpts) : M Rule :=
  (if illFormedOpts termRuleOptsSchema opts
   then throw "" "ill-formed terminal rule" else ret tt) ;;
  c <- calcCost this None ;;
  ret {| RHS := rhsString (oRHS opts);
         terminal := true;
         text := textOf opts;
         cost := c;
         insertionCost := oInsertionCost opts;
         semantic := None; gramCase := None; verbForm := None;
         personNumber := None; transpositionCost := None;
         insertionIdx := None; transposition := false |}.

(** [Symbol.prototype.newNontermRule] *)
Definition newNontermRule (this : SymbolObj) (opts : RuleOpts) : M Rule :=
  (if illFormedOpts nontermRuleOptsSchema opts
   then throw "" "ill-formed nonterminal rule" else ret tt) ;;
  let optsRHS := rhsSymbols (oRHS opts) in
  (if Nat.ltb 2 (List.length optsRHS)
   then ruleErr "rules can only have 1 or 2 RHS symbols" else ret tt) ;;
  c <- match oSemantic opts with
       | Some sem => calcCost this (Some (semCost sem))
       | None => calcCost this None
       end ;;
  (match oTranspositionCost opts with
   | Some _ =>
       if negb (Nat.eqb (List.length optsRHS) 2)
       then ruleErr "nonterminal rules with transposition-costs must have 2 RHS symbols"
       else ret tt
   | None => ret tt
   end) ;;
  ret {| RHS := map name optsRHS;
         terminal := false;
         text := None;
         cost := c;
         insertionCost := None;
         semantic := option_map function (oSemantic opts);
         gramCase := oGramCase opts;
         verbForm := oVerbForm opts;
         personNumber := oPersonNumber opts;
         transpositionCost := oTranspositionCost opts;
         insertionIdx := None; transposition := false |}.

(** [Symbol.prototype.ruleExists] *)
Definition ruleExists (this : SymbolObj) (newRule : Rule) : M bool :=
  rules <- rulesOf this ;;
  ret (existsb (fun existingRule => arraysMatch (RHS existingRule) (RHS newRule))
               rules).

(** [Symbol.prototype.addRule] *)
Definition addRule (this : SymbolObj) (opts : RuleOpts) : M unit :=
  (if isNone (oRHS opts)
   then throw "rule missing RHS" "ill-formed rule" else ret tt) ;;
  newRule <- (if oTerminal opts then newTermRule this opts
              else newNontermRule this opts) ;;
  dup <- ruleExists this newRule ;;
  (if dup then ruleErr "duplicate rule" else ret tt) ;;
  rules <- rulesOf this ;;
  write (name this) (rules ++ [newRule]).

End SymbolJs.

(** ** The ambiguity check *)

Module AmbiguityCheck.

(** How a piece of code ends: normally, by [break], or by a throw.  The
    only throw of this module is the [TypeError] of reading a property of
    [undefined].  [OutOfFuel] is not JavaScript: the recursive functions
    of the model count their calls down, and report here when the count
    given was too small. *)
Inductive Error := TypeError | OutOfFuel.

Inductive Outcome (A : Type) :=
| Done (a : A)
| Throw (e : Error).
Arguments Done {A} a.
Arguments Throw {A} e.

(** *** Parse trees *)

(** A parse tree node: [{ symbol, children }]; a node without the
    [children] property has [None]. *)
Inductive node := Node (symbol : string) (children : option (list node)).

Definition symbol (n : node) : string := let (s, _) := n in s.
Definition children (n : node) : option (list node) := let (_, c) := n in c.

(** [lhsSym[0] === '['] *)
Definition startsWithBracket (lhsSym : string) : bool :=
  match lhsSym with
  | String c _ => Ascii.eqb c "["
  | EmptyString => false
  end.

(** The [for] loop of [rulesToTree] over the symbols of [ruleRHS], given
    what the recursive call does. *)
Fixpoint forRHS (rulesToTree : string -> list (list string)
                               -> Outcome (node * list (list string)))
                (ruleRHS : list string) (newNodeChildren : list node)
                (rules : list (list string))
  : Outcome (list node * list (list string)) :=
  match ruleRHS with
  | [] => Done (newNodeChildren, rules)
  | sym :: ruleRHS =>
      match rulesToTree sym rules with
      | Done (child, rules) =>
          forRHS rulesToTree ruleRHS (newNodeChildren ++ [child]) rules
      | Throw e => Throw e
      end
  end.

(** [rulesToTree]: [rules.shift()] consumes the array, which all the
    recursive calls share, so the rules left over are handed back.  Each
    call that makes children has shifted a rule off, and [fuel] bounds that
    nesting; [rulesToTreeFuel_returns] shows the number of rules, plus
    one, suffices. *)
Fixpoint rulesToTreeFuel (fuel : nat) (lhsSym : string) (rules : list (list string))
  : Outcome (node * list (list string)) :=
  match fuel with
  | O => Throw OutOfFuel
  | S fuel =>
      if startsWithBracket lhsSym then
        match rules with
        | ruleRHS :: rules =>
            match forRHS (rulesToTreeFuel fuel) ruleRHS [] rules with
            | Done (newNodeChildren, rules) =>
                Done (Node lhsSym (Some newNodeChildren), rules)
            | Throw e => Throw e
            end
        | [] => Done (Node lhsSym None, rules)
        end
      else Done (Node lhsSym None, rules)
  end.

Definition rulesToTree (lhsSym : string) (rules : list (list string)) : Outcome node :=
  match rulesToTreeFuel (S (List.length rules)) lhsSym rules with
  | Done (tree, _) => Done tree
  | Throw e => Throw e
  end.

(** [nodesEqual] *)
Fixpoint nodesEqual (a b : node) : bool :=
  match a, b with
  | Node symbolA aChildren, Node symbolB bChildren =>
      if negb (String.eqb symbolA symbolB) then false
      else
        match aChildren, bChildren with
        | None, None => true
        | Some aChildren, Some bChildren =>
            if Nat.eqb (List.length aChildren) (List.length bChildren) then
              (fix loop (aChildren bChildren : list node) : bool :=
                 match aChildren, bChildren with
                 | an :: aChildren, bn :: bChildren =>
                     if negb (nodesEqual an bn) then false
                     else loop aChildren bChildren
                 | _, _ => true
                 end) aChildren bChildren
            else false
        | _, _ => false
        end
  end.

(** [pairExists] *)
Fixpoint pairExists (ambigPairs : list (node * node)) (treeA treeB : node) : bool :=
  match ambigPairs with
  | [] => false
  | (otherTreeA, otherTreeB) :: ambigPairs =>
      if nodesEqual otherTreeA treeA && nodesEqual otherTreeB treeB then true
      else if nodesEqual otherTreeA treeB && nodesEqual otherTreeB treeA then true
      else pairExists ambigPairs treeA treeB
  end.

(** *** Trimming a pair of trees

    [diffTrees] changes the two trees in place: [delete node.children].
    The trees it is given are fresh from [rulesToTree] and share no node,
    so a node object is known by the tree it is in and its position there
    (the child indices from the root).  The model keeps each tree as it
    was built, with the positions whose [children] were deleted since; a
    node read through a reference is the built node with those deletions
    applied, [current]. *)

Definition Pos := list nat.

Definition posEqb (p q : Pos) : bool :=
  if list_eq_dec Nat.eq_dec p q then true else false.

Definition deletedAt (deleted : list Pos) (p : Pos) : bool :=
  existsb (posEqb p) deleted.

Fixpoint current (deleted : list Pos) (pos : Pos) (built : node) : node :=
  match built with
  | Node symbol children =>
      Node symbol
        (if deletedAt deleted pos then None
         else match children with
              | None => None
              | Some childNodes =>
                  Some ((fix each (c : nat) (childNodes : list node) :=
                           match childNodes with
                           | [] => []
                           | child :: childNodes =>
                               current deleted (pos ++ [c]) child
                               :: each (S c) childNodes
                           end) 0 childNodes)
              end)
  end.

(** [{ node, par }]: the node is a reference, hence its position [pos]
    beside the node as built. *)
Inductive NodeObj :=
  mkNodeObj (node : node) (pos : Pos) (par : option NodeObj).

Definition nodeOf (o : NodeObj) : node := let (n, _, _) := o in n.
Definition posOf (o : NodeObj) : Pos := let (_, p, _) := o in p.
Definition par (o : NodeObj) : option NodeObj := let (_, _, p) := o in p.

(** [nodeObj.node], as it is now *)
Definition deref (deleted : list Pos) (o : NodeObj) : node :=
  current deleted (posOf o) (nodeOf o).

(** The [for (var c = childNodes.length; c-- > 0;) stack.push(...)] of
    [invertTree]; the head of the list is the top of the stack, which the
    first child ends on. *)
Fixpoint pushChildren (nodeObj : NodeObj) (c : nat) (childNodes : list node)
                      (stack : list NodeObj) : list NodeObj :=
  match childNodes with
  | [] => stack
  | child :: childNodes =>
      mkNodeObj child (posOf nodeObj ++ [c]) (Some nodeObj)
      :: pushChildren nodeObj (S c) childNodes stack
  end.

(** The [while (stack.length)] loop of [invertTree], one turn per unit of
    fuel. *)
Fixpoint invertLoop (fuel : nat) (stack rightmostSyms : list NodeObj)
  : Outcome (list NodeObj) :=
  match stack with
  | [] => Done rightmostSyms
  | nodeObj :: stack =>
      match fuel with
      | O => Throw OutOfFuel
      | S fuel =>
          match children (nodeOf nodeObj) with
          | Some childNodes =>
              invertLoop fuel (pushChildren nodeObj 0 childNodes stack) rightmostSyms
          | None => invertLoop fuel stack (rightmostSyms ++ [nodeObj])
          end
      end
  end.

(** The number of nodes of a tree: the turns the loop takes. *)
Fixpoint size (t : node) : nat :=
  match t with
  | Node _ None => 1
  | Node _ (Some childNodes) =>
      S ((fix sum (l : list node) := match l with
                                     | [] => 0
                                     | c :: l => size c + sum l
                                     end) childNodes)
  end.

(** [invertTree]; it runs before anything is deleted. *)
Definition invertTree (tree : node) : Outcome (list NodeObj) :=
  invertLoop (size tree) [mkNodeObj tree [] None] [].

(** The [while (nodesEqual(nodeObjA.par.node, nodeObjB.par.node))] loop of
    [diffTrees].  Reading [.node] of a [par] that is [undefined] throws. *)
Fixpoint climb (deletedA deletedB : list Pos) (nodeObjA nodeObjB : NodeObj)
  : Outcome (NodeObj * NodeObj) :=
  match nodeObjA, nodeObjB with
  | mkNodeObj _ _ (Some parA), mkNodeObj _ _ (Some parB) =>
      if nodesEqual (deref deletedA parA) (deref deletedB parB)
      then climb deletedA deletedB parA parB
      else Done (nodeObjA, nodeObjB)
  | _, _ => Throw TypeError
  end.

(** The [for] loop of [diffTrees] over the first [minTreeWidth] entries of
    both arrays. *)
Fixpoint diffLoop (deletedA deletedB : list Pos)
                  (invertedTreeA invertedTreeB : list NodeObj)
  : Outcome (list Pos * list Pos) :=
  match invertedTreeA, invertedTreeB with
  | nodeObjA :: invertedTreeA, nodeObjB :: invertedTreeB =>
      match climb deletedA deletedB nodeObjA nodeObjB with
      | Done (nodeObjA, nodeObjB) =>
          diffLoop (posOf nodeObjA :: deletedA) (posOf nodeObjB :: deletedB)
                   invertedTreeA invertedTreeB
      | Throw e => Throw e
      end
  | _, _ => Done (deletedA, deletedB)
  end.

(** [diffTrees]: the pair of trees as it leaves them. *)
Definition diffTrees (a b : node) : Outcome (node * node) :=
  match invertTree a, invertTree b with
  | Done invertedTreeA, Done invertedTreeB =>
      match diffLoop [] [] invertedTreeA invertedTreeB with
      | Done (deletedA, deletedB) =>
          Done (current deletedA [] a, current deletedB [] b)
      | Throw e => Throw e
      end
  | Throw e, _ => Throw e
  | _, Throw e => Throw e
  end.

(** *** Paths *)

(** The options object. *)
Record Opts := {
  symsLimit : nat;
  findAll : bool;
  useTestRules : bool;
  noOutput : bool
}.

(** The linked list [{ sym, next }] of the second symbols of binary rules
    still to be expanded; [undefined] is the empty list. *)
Inductive NextSyms :=
| noSyms
| moreSyms (sym : string) (next : NextSyms).

(** A path: the fields of the object literals [newPath] of [searchPaths]
    and [buildPaths]. *)
Inductive Path :=
  mkPath (nextSym : option string) (nextSyms : NextSyms) (terminals : string)
         (symsCount : nat) (pathRHS : list string) (prev : option Path).

Definition nextSym (p : Path) := let (x, _, _, _, _, _) := p in x.
Definition nextSyms (p : Path) := let (_, x, _, _, _, _) := p in x.
Definition terminals (p : Path) := let (_, _, x, _, _, _) := p in x.
Definition symsCount (p : Path) := let (_, _, _, x, _, _) := p in x.
Definition pathRHS (p : Path) := let (_, _, _, _, x, _) := p in x.
Definition prev (p : Path) := let (_, _, _, _, _, x) := p in x.

(** A string, or [undefined], in a condition: only a non-empty string is
    truthy. *)
Definition truthy (s : option string) : bool :=
  match s with
  | Some s => negb (String.eqb s "")
  | None => false
  end.

(** A string, or [undefined], as a property name or in a concatenation. *)
Definition toString (s : option string) : string :=
  match s with
  | Some s => s
  | None => "undefined"
  end.

(** [rule.insertionIdx === undefined && !rule.transposition] *)
Definition notEditRule (rule : Rule) : bool :=
  match insertionIdx rule with None => true | Some _ => false end
  && negb (transposition rule).

(** The path a root rule starts: the body of the first loop of
    [searchPaths], under its test. *)
Definition rootPath (rule : Rule) : Path :=
  let RHS := RHS rule in
  let RHSLen := List.length RHS in
  if terminal rule then
    mkPath None noSyms ("" ++ " " ++ toString (nth_error RHS 0))%string
           (1 + RHSLen) RHS None
  else
    mkPath (nth_error RHS 0)
           (if Nat.eqb RHSLen 2 then moreSyms (toString (nth_error RHS 1)) noSyms
            else noSyms)
           "" (1 + RHSLen) RHS None.

(** The path a rule extends [lastPath] to: the body of the loop of
    [buildPaths], under its test, up to the store of the new path. *)
Definition newPath (lastPath : Path) (rule : Rule) : Path :=
  let lastNextSyms := nextSyms lastPath in
  let RHS := RHS rule in
  let RHSLen := List.length RHS in
  if terminal rule then
    let terminals :=
      (terminals lastPath ++ " " ++ toString (nth_error RHS 0))%string in
    match lastNextSyms with
    | moreSyms sym next =>
        mkPath (Some sym) next terminals (symsCount lastPath + RHSLen) RHS
               (Some lastPath)
    | noSyms =>
        mkPath None lastNextSyms terminals (symsCount lastPath + RHSLen) RHS
               (Some lastPath)
    end
  else
    mkPath (nth_error RHS 0)
           (if Nat.eqb RHSLen 2
            then moreSyms (toString (nth_error RHS 1)) lastNextSyms
            else lastNextSyms)
           (terminals lastPath) (symsCount lastPath + RHSLen) RHS
           (Some lastPath).

(** The paths of one root rule, by their string of terminal symbols. *)
Definition PathSets := obj (list Path).

(** The end of the loop body of [buildPaths]: file the new path under its
    terminals. *)
Definition storePath (pathSets : PathSets) (newPath : Path) : PathSets :=
  match get pathSets (terminals newPath) with
  | Some paths => set pathSets (terminals newPath) (paths ++ [newPath])
  | None => set pathSets (terminals newPath) [newPath]
  end.

(** [listToArray] *)
Fixpoint listToArrayFrom (path : Path) (array : list (list string))
  : list (list string) :=
  match path with
  | mkPath _ _ _ _ RHS prev =>
      match prev with
      | Some path => listToArrayFrom path (RHS :: array)
      | None => RHS :: array
      end
  end.

Definition listToArray (path : Path) : list (list string) :=
  listToArrayFrom path [].

(** [listsEqual] *)
Fixpoint listsEqual (a b : NextSyms) : bool :=
  match a, b with
  | noSyms, noSyms => true
  | moreSyms symA nextA, moreSyms symB nextB =>
      if negb (String.eqb symA symB) then false else listsEqual nextA nextB
  | _, _ => false
  end.

(** [str.indexOf(sub)], [-1] when [sub] does not occur. *)
Fixpoint indexOfFrom (sub str : string) (i : Z) : Z :=
  if String.prefix sub str then i
  else match str with
       | EmptyString => (-1)%Z
       | String _ str => indexOfFrom sub str (i + 1)%Z
       end.

Definition indexOf (str sub : string) : Z := indexOfFrom sub str 0%Z.

(** [pathsA.sort(function (a, b) { return a.symsCount - b.symsCount })]:
    ascending by [symsCount]; the sort is stable, so paths of equal count
    keep their order.  [insertPath] puts a path before the first of the
    sorted paths that does not have fewer symbols. *)
Fixpoint insertPath (p : Path) (sorted : list Path) : list Path :=
  match sorted with
  | [] => [p]
  | q :: sorted' =>
      if Nat.leb (symsCount p) (symsCount q) then p :: sorted
      else q :: insertPath p sorted'
  end.

Fixpoint sortPaths (paths : list Path) : list Path :=
  match paths with
  | [] => []
  | p :: paths => insertPath p (sortPaths paths)
  end.

(** What the check prints: [util.printWarning('Ambiguity')] with
    [util.log(treeA, treeB)], and [util.printErr(message, nontermSym)]. *)
Inductive Event :=
| Ambiguity (treeA treeB : node)
| Err (message nontermSym : string).

(** The variables of [findAmbiguity] that its loops change. *)
Record FindState := {
  foundAmbiguity : bool;
  ambigPairs : list (node * node);
  printed : list Event
}.

(** How a loop body leaves its loop. *)
Inductive Signal := Next | Break | Thrown (e : Error).

(** [var rules = grammar[sym]] with the head of the loop that follows it
    in [searchPaths] and in [buildPaths], [for (var r = 0, rulesLen =
    rules.length; r < rulesLen; ++r) { var rule = rules[r]; if
    (rule.insertionIdx === undefined ...]: the rules the loop goes
    through.  Under a key of the grammar they are its rules.  Under any
    other name [grammar[sym]] is what the grammar inherits: a function
    with parameters has a [length] above 0 and no element, so reading
    [insertionIdx] of [rules[0]] throws; with a [length] of 0, or none,
    the loop does not run; and of [undefined] reading [length] throws. *)
Definition rulesAt (grammar : Grammar) (sym : string) : Outcome (list Rule) :=
  match get grammar sym with
  | Some rules => Done rules
  | None =>
      match get objectPrototype sym with
      | Some (Some (S _)) => Throw TypeError
      | Some _ => Done []
      | None => Throw TypeError
      end
  end.

Section Check.
Variable grammar : Grammar.
Variable opts : Opts.

(** The [for] loop of [buildPaths] over the rules of [lastPath.nextSym],
    given what the recursive call does. *)
Fixpoint forRules (buildPaths : PathSets -> Path -> Outcome PathSets)
                  (lastPath : Path) (rules : list Rule) (pathSets : PathSets)
  : Outcome PathSets :=
  match rules with
  | [] => Done pathSets
  | rule :: rules =>
      if notEditRule rule then
        let newPath := newPath lastPath rule in
        let pathSets := storePath pathSets newPath in
        if truthy (nextSym newPath)
           && Nat.ltb (symsCount newPath) (symsLimit opts)
        then
          match buildPaths pathSets newPath with
          | Done pathSets => forRules buildPaths lastPath rules pathSets
          | Throw e => Throw e
          end
        else forRules buildPaths lastPath rules pathSets
      else forRules buildPaths lastPath rules pathSets
  end.

(** [buildPaths].  A call is made on a path with a [nextSym], and
    counts [fuel] down; [buildPathsFuel] suffices. *)
Fixpoint buildPaths (fuel : nat) (pathSets : PathSets) (lastPath : Path)
  : Outcome PathSets :=
  match fuel with
  | O => Throw OutOfFuel
  | S fuel =>
      match rulesAt grammar (toString (nextSym lastPath)) with
      | Done rules => forRules (buildPaths fuel) lastPath rules pathSets
      | Throw e => Throw e
      end
  end.

(** The fuel [searchPaths] gives [buildPaths]. *)
Definition buildPathsFuel : nat := 2 * symsLimit opts + 2.

(** The first loop of [searchPaths]: one set of paths per rule that is
    not an edit rule, holding the path the rule starts. *)
Fixpoint initPaths (rules : list Rule) : list PathSets :=
  match rules with
  | [] => []
  | rule :: rules =>
      if notEditRule rule then
        let newPath := rootPath rule in
        set [] (terminals newPath) [newPath] :: initPaths rules
      else initPaths rules
  end.

(** The loop [for (var term in pathSets)] of [searchPaths], over the
    keys the object has when the loop starts: the keys [buildPaths] adds
    meanwhile are not visited. *)
Fixpoint forTerms (terms : list string) (pathSets : PathSets)
  : Outcome PathSets :=
  match terms with
  | [] => Done pathSets
  | term :: terms =>
      match get pathSets term with
      | Some (path :: _) =>
          if truthy (nextSym path) then
            match buildPaths buildPathsFuel pathSets path with
            | Done pathSets => forTerms terms pathSets
            | Throw e => Throw e
            end
          else forTerms terms pathSets
      | _ => Throw TypeError
      end
  end.

Definition expandPaths (pathSets : PathSets) : Outcome PathSets :=
  forTerms (forIn pathSets) pathSets.

(** The second loop of [searchPaths]. *)
Fixpoint expandAll (pathTab : list PathSets) : Outcome (list PathSets) :=
  match pathTab with
  | [] => Done []
  | pathSets :: pathTab =>
      match expandPaths pathSets with
      | Done pathSets =>
          match expandAll pathTab with
          | Done pathTab => Done (pathSets :: pathTab)
          | Throw e => Throw e
          end
      | Throw e => Throw e
      end
  end.

Section FindAmbiguity.
Variable nontermSym : string.

(** The test of a pair of paths filed under the same terminals. *)
Definition ambiguous (pathA pathB : Path) : bool :=
  match nextSym pathB, nextSym pathA with
  | Some b, Some a => String.eqb b a
  | None, None => true
  | _, _ => false
  end
  && listsEqual (nextSyms pathB) (nextSyms pathA).

(** [treeA] and [treeB] as [diffTrees] leaves them: the two calls of
    [rulesToTree] and the call of [diffTrees]. *)
Definition trimmedTrees (pathA pathB : Path) : Outcome (node * node) :=
  match rulesToTree nontermSym (listToArray pathA),
        rulesToTree nontermSym (listToArray pathB) with
  | Done treeA, Done treeB => diffTrees treeA treeB
  | Throw e, _ => Throw e
  | _, Throw e => Throw e
  end.

(** What is done with a pair that passes the test. *)
Definition found (st : FindState) (pathA pathB : Path) : FindState * Signal :=
  let st := {| foundAmbiguity := true;
               ambigPairs := ambigPairs st;
               printed := printed st |} in
  if noOutput opts then (st, Break)
  else
    match trimmedTrees pathA pathB with
    | Done (treeA, treeB) =>
        if negb (findAll opts)
           || negb (pairExists (ambigPairs st) treeA treeB)
        then
          let st := {| foundAmbiguity := foundAmbiguity st;
                       ambigPairs := ambigPairs st;
                       printed := printed st ++ [Ambiguity treeA treeB] |} in
          if findAll opts
          then ({| foundAmbiguity := foundAmbiguity st;
                   ambigPairs := ambigPairs st ++ [(treeA, treeB)];
                   printed := printed st |}, Next)
          else (st, Break)
        else (st, Next)
    | Throw e => (st, Thrown e)
    end.

(** The loop over [pathsB], for one [pathA]. *)
Fixpoint forPathsB (st : FindState) (pathA : Path) (pathsB : list Path)
  : FindState * Signal :=
  match pathsB with
  | [] => (st, Next)
  | pathB :: pathsB =>
      if ambiguous pathA pathB then
        match found st pathA pathB with
        | (st, Next) => forPathsB st pathA pathsB
        | stop => stop
        end
      else forPathsB st pathA pathsB
  end.

(** The loop over [pathsA]; [if (o < pathsBLen) break] passes a
    [break] of the inner loop on. *)
Fixpoint forPathsA (st : FindState) (pathsA pathsB : list Path)
  : FindState * Signal :=
  match pathsA with
  | [] => (st, Next)
  | pathA :: pathsA =>
      match forPathsB st pathA pathsB with
      | (st, Next) => forPathsA st pathsA pathsB
      | stop => stop
      end
  end.

(** The loop over the terminals of [pathSetsA]; [if (p < pathsALen)
    break] passes the [break] on once more, and the loop over [b]
    goes on.  The sort is in place, but [pathsA] is read again only
    here, where sorting it again changes nothing. *)
Fixpoint forTerminals (st : FindState) (pathSetsA pathSetsB : PathSets)
                      (terms : list string) : FindState * Signal :=
  match terms with
  | [] => (st, Next)
  | terminals :: terms =>
      match get pathSetsB terminals with
      | None => forTerminals st pathSetsA pathSetsB terms
      | Some pathsB =>
          match get pathSetsA terminals with
          | Some pathsA =>
              match forPathsA st (sortPaths pathsA) pathsB with
              | (st, Next) => forTerminals st pathSetsA pathSetsB terms
              | (st, Break) => (st, Next)
              | stop => stop
              end
          | None => (st, Thrown TypeError)
          end
      end
  end.

(** The loop over [b], for one [a]. *)
Fixpoint forB (st : FindState) (pathSetsA : PathSets) (later : list PathSets)
  : FindState * Signal :=
  match later with
  | [] => (st, Next)
  | pathSetsB :: later =>
      match forTerminals st pathSetsA pathSetsB (forIn pathSetsA) with
      | (st, Next) => forB st pathSetsA later
      | stop => stop
      end
  end.

(** The loop over [a]. *)
Fixpoint forA (st : FindState) (pathTab : list PathSets) : FindState * Signal :=
  match pathTab with
  | [] => (st, Next)
  | pathSetsA :: pathTab =>
      match forB st pathSetsA pathTab with
      | (st, Next) => forA st pathTab
      | stop => stop
      end
  end.

(** [findAmbiguity] *)
Definition findAmbiguity (pathTab : list PathSets) : FindState * Signal :=
  let st := {| foundAmbiguity := false; ambigPairs := []; printed := [] |} in
  match forA st pathTab with
  | (st, Thrown e) => (st, Thrown e)
  | (st, _) =>
      if negb (foundAmbiguity st) && useTestRules opts
         && Z.eqb (indexOf nontermSym "ambig") 1
      then ({| foundAmbiguity := foundAmbiguity st;
               ambigPairs := ambigPairs st;
               printed := printed st
                          ++ [Err "Ambiguity not found in test rule" nontermSym] |},
            Next)
      else (st, Next)
  end.
End FindAmbiguity.

(** The paths [searchPaths] hands to [findAmbiguity]: its first two
    loops. *)
Definition pathTabOf (nontermSym : string) : Outcome (list PathSets) :=
  match rulesAt grammar nontermSym with
  | Done rules => expandAll (initPaths rules)
  | Throw e => Throw e
  end.

(** [searchPaths]: what it prints, and how it ends. *)
Definition searchPaths (nontermSym : string) : list Event * Signal :=
  match rulesAt grammar nontermSym with
  | Throw e => ([], Thrown e)
  | Done rules =>
      let pathTab := initPaths rules in
      if Nat.eqb (List.length pathTab) 1 then ([], Next)
      else
        match expandAll pathTab with
        | Done pathTab =>
            let (st, signal) := findAmbiguity nontermSym pathTab in
            (printed st, signal)
        | Throw e => ([], Thrown e)
        end
  end.

(** The loop of the exported function over the symbols of the grammar. *)
Fixpoint forSymbols (nontermSyms : list string) : list Event * Signal :=
  match nontermSyms with
  | [] => ([], Next)
  | nontermSym :: nontermSyms =>
      match searchPaths nontermSym with
      | (events, Next) =>
          let (more, signal) := forSymbols nontermSyms in
          (events ++ more, signal)
      | stop => stop
      end
  end.
End Check.

(** The exported function.  With [useTestRules] the grammar is emptied and
    filled anew by the module [ambiguityExamples], which is not among the
    sources: [ambiguityExamples] stands for the grammar it builds.  The
    timer is left out. *)
Definition ambiguityCheck (ambiguityExamples grammar : Grammar) (opts : Opts)
  : list Event * Signal :=
  let grammar := if useTestRules opts then ambiguityExamples else grammar in
  forSymbols grammar opts (forIn grammar).

End AmbiguityCheck.

(** ** Terminal rule sets of verbs *)

Module VerbSet.

(** The inflections of a verb, [VerbTermSet]: three required strings and
    four optional ones. *)
Record VerbTermSet := {
  oneSg : string;
  threeSg : string;
  pl : string;
  past : option string;
  presentSubjunctive : option string;
  presentParticiple : option string;
  pastParticiple : option string
}.

(** The [text] object of the rules of a verb set; a rule's [text] is
    [None] when it is [undefined]. *)
Record TextForms := {
  textOneSg : string;
  textThreeSg : string;
  textPl : string;
  textPast : option string
}.

(** The object [createVerbTerminalRule] returns, with the [insertionCost]
    [newVerbSet] may add to it. *)
Record VerbRule := {
  isTerminal : bool;
  rhs : string;
  text : option TextForms;
  tense : option string;
  insertionCost : option Number
}.

(** [throw new Error(message)] *)
Inductive Result (A : Type) :=
| Ok (a : A)
| Error (message : string).
Arguments Ok {A} a.
Arguments Error {A} message.

(** [createVerbTerminalRule] *)
Definition createVerbTerminalRule (terminalSymbol : string)
    (verbSetTextForms : option TextForms) (tense : string) : Result VerbRule :=
  if negb (String.eqb tense "present") && negb (String.eqb tense "past")
  then Error "Ill-formed verb"
  else
    Ok {| isTerminal := true;
          rhs := terminalSymbol;
          text := verbSetTextForms;
          tense := if String.eqb tense "past" then Some tense else None;
          insertionCost := None |}.

(** Modelled from the spec: [NSymbol.prototype.addRule], of a module that
    is not among the sources: adding a terminal rule fails with a
    duplicate-rule error if the same RHS already belongs to the symbol,
    and appends the rule to the symbol's rules otherwise.  The symbol is
    its array of rules here. *)
Definition addRule (verbSym : list VerbRule) (rule : VerbRule)
  : Result (list VerbRule) :=
  if existsb (fun existing => String.eqb (rhs existing) (rhs rule)) verbSym
  then Error "Duplicate rule"
  else Ok (verbSym ++ [rule]).

(** [addedInlectionTermSyms.indexOf(form) === -1] *)
Definition notAdded (added : list string) (form : string) : bool :=
  negb (existsb (String.eqb form) added).

(** An optional form in a condition: [undefined] and the empty string are
    falsy. *)
Definition given (form : option string) : bool :=
  match form with
  | Some s => negb (String.eqb s "")
  | None => false
  end.

Definition formOf (form : option string) : string :=
  match form with Some s => s | None => "undefined" end.

(** The symbol's rules and [addedInlectionTermSyms], as the steps of one
    verb set change them. *)
Definition Step := (list VerbRule * list string)%type.

(** [verbSym.addRule(createVerbTerminalRule(form, textForms, tense))] and
    [addedInlectionTermSyms.push(form)], with the insertion cost the first
    rule of the first set is given. *)
Definition addForm (cost : option Number) (textForms : option TextForms)
                   (formTense form : string) (st : Step) : Result Step :=
  let (verbSym, added) := st in
  match createVerbTerminalRule form textForms formTense with
  | Error m => Error m
  | Ok rule =>
      let rule := match cost with
                  | Some c => {| isTerminal := isTerminal rule; rhs := rhs rule;
                                 text := text rule; tense := tense rule;
                                 insertionCost := Some c |}
                  | None => rule
                  end in
      match addRule verbSym rule with
      | Error m => Error m
      | Ok verbSym => Ok (verbSym, added ++ [form])
      end
  end.

Definition andThen {A B} (r : Result A) (k : A -> Result B) : Result B :=
  match r with
  | Ok a => k a
  | Error m => Error m
  end.

(** The steps both loops of [newVerbSet] take for one verb set, after the
    schema check: [textForms] is the set's own text object in the first
    loop and [defaultTextForms] in the second, [cost] the insertion cost
    when the set is the first accepted one. *)
Definition addVerbTermSet (textForms : option TextForms) (cost : option Number)
    (verbSym : list VerbRule) (verbTermSet : VerbTermSet)
  : Result (list VerbRule) :=
  andThen (addForm cost textForms "present" (oneSg verbTermSet) (verbSym, []))
  (fun st =>
  andThen (if notAdded (snd st) (threeSg verbTermSet)
           then addForm None textForms "present" (threeSg verbTermSet) st
           else Ok st)
  (fun st =>
  andThen (if notAdded (snd st) (pl verbTermSet)
           then addForm None textForms "present" (pl verbTermSet) st
           else Ok st)
  (fun st =>
  andThen (if given (past verbTermSet) then
             if negb (notAdded (snd st) (formOf (past verbTermSet)))
             then Error "Ill-formed verb"
             else addForm None textForms "past" (formOf (past verbTermSet)) st
           else Ok st)
  (fun st =>
  andThen (if given (presentSubjunctive verbTermSet)
              && notAdded (snd st) (formOf (presentSubjunctive verbTermSet))
           then addForm None textForms "present"
                        (formOf (presentSubjunctive verbTermSet)) st
           else Ok st)
  (fun st =>
  andThen (if given (presentParticiple verbTermSet)
              && notAdded (snd st) (formOf (presentParticiple verbTermSet))
           then addForm None textForms "present"
                        (formOf (presentParticiple verbTermSet)) st
           else Ok st)
  (fun st =>
  andThen (if given (pastParticiple verbTermSet)
              && notAdded (snd st) (formOf (pastParticiple verbTermSet))
           then addForm None textForms "past"
                        (formOf (pastParticiple verbTermSet)) st
           else Ok st)
  (fun st => Ok (fst st)))))))).

(** [verbSetTextForms] *)
Definition verbSetTextForms (verbTermSet : VerbTermSet) : TextForms :=
  {| textOneSg := oneSg verbTermSet;
     textThreeSg := threeSg verbTermSet;
     textPl := pl verbTermSet;
     textPast := past verbTermSet |}.

(** The options of [newVerbSet]. *)
Record Options := {
  symbolName : string;
  optInsertionCost : option Number;
  acceptedVerbTermSets : list VerbTermSet;
  substitutedVerbTermSets : option (list VerbTermSet)
}.

(** The first [forEach] of [newVerbSet], from index [i] on. *)
Fixpoint acceptedLoop (options : Options) (i : nat) (sets : list VerbTermSet)
    (defaultTextForms : option TextForms) (verbSym : list VerbRule)
  : Result (list VerbRule * option TextForms) :=
  match sets with
  | [] => Ok (verbSym, defaultTextForms)
  | verbTermSet :: sets =>
      let textForms := Some (verbSetTextForms verbTermSet) in
      andThen (addVerbTermSet textForms
                 (if Nat.eqb i 0 then optInsertionCost options else None)
                 verbSym verbTermSet)
      (fun verbSym =>
         acceptedLoop options (S i) sets
           (if Nat.eqb i 0 then textForms else defaultTextForms) verbSym)
  end.

(** The second [forEach]; [defaultTextForms] is still [undefined] when
    no verb set was accepted. *)
Fixpoint substitutedLoop (sets : list VerbTermSet)
    (defaultTextForms : option TextForms) (verbSym : list VerbRule)
  : Result (list VerbRule) :=
  match sets with
  | [] => Ok verbSym
  | verbTermSet :: sets =>
      andThen (addVerbTermSet defaultTextForms None verbSym verbTermSet)
              (substitutedLoop sets defaultTextForms)
  end.

(** Modelled from the spec: [this.newSymbol], of a module that is not
    among the sources: it registers a fresh symbol, which has no rule
    yet. *)
Definition newSymbol (symbolName : string) : list VerbRule := [].

(** [newVerbSet]: the rules of the symbol it returns.  The checks of
    [options] and of each verb set against their schemas are what the
    types of the records say. *)
Definition newVerbSet (options : Options) : Result (list VerbRule) :=
  let verbSym := newSymbol (symbolName options) in
  andThen (acceptedLoop options 0 (acceptedVerbTermSets options) None verbSym)
  (fun r =>
     match substitutedVerbTermSets options with
     | Some sets => substitutedLoop sets (snd r) (fst r)
     | None => Ok (fst r)
     end).

End VerbSet.

(** ** The vocabulary of the specified properties *)

Module SymbolSpec.
Import SymbolJs.

(** [this.rules] in a grammar. *)
Definition rulesIn (grammar : Grammar) (this : SymbolObj) : list Rule :=
  match get grammar (name this) with Some rules => rules | None => [] end.

(** The RHS a rule made from [opts] has: the string of a terminal rule, the
    names of the symbols of a nonterminal rule. *)
Definition rhsOf (opts : RuleOpts) : list string :=
  match oRHS opts with
  | Some (RHSString s) => [s]
  | Some (RHSSymbols syms) => map name syms
  | None => []
  end.

(** The cost of the semantic of [opts], zero without one. *)
Definition semanticCost (opts : RuleOpts) : Number :=
  match oSemantic opts with
  | Some sem => semCost sem
  | None => Numbers.zero
  end.

(** The checks [addRule] makes of [opts] before it looks for a duplicate:
    an RHS, the schema of the kind of rule, at most two RHS symbols, and a
    transposition cost only with two. *)
Definition passesValidation (opts : RuleOpts) : bool :=
  if oTerminal opts then negb (illFormedOpts termRuleOptsSchema opts)
  else
    negb (illFormedOpts nontermRuleOptsSchema opts)
    && Nat.leb (List.length (rhsSymbols (oRHS opts))) 2
    && match oTranspositionCost opts with
       | Some _ => Nat.eqb (List.length (rhsSymbols (oRHS opts))) 2
       | None => true
       end.

(** The cost [calcCost] computes for a rule added to a symbol that has
    [n] rules, with the penalty [costPenalty]: [n * 1e-7 + costPenalty],
    a product and a sum of binary64 numbers, each rounded. *)
Definition costAt (n : nat) (costPenalty : Number) : Number :=
  Numbers.add (Numbers.mul (Numbers.ofNat n) c1e_7) costPenalty.

(** The error of the first check of [addRule] that [opts] do not pass:
    the RHS is missing; the options do not fit the schema of their kind;
    a nonterminal rule has more than two RHS symbols; or it has a
    transposition cost and not two RHS symbols. *)
Definition validationError (opts : RuleOpts) : Exn :=
  if isNone (oRHS opts) then
    {| thrown := "ill-formed rule"; logged := "rule missing RHS" |}
  else if oTerminal opts then
    {| thrown := "ill-formed terminal rule"; logged := "" |}
  else if illFormedOpts nontermRuleOptsSchema opts then
    {| thrown := "ill-formed nonterminal rule"; logged := "" |}
  else if Nat.ltb 2 (List.length (rhsSymbols (oRHS opts))) then
    {| thrown := "ill-formed rule";
       logged := "rules can only have 1 or 2 RHS symbols" |}
  else
    {| thrown := "ill-formed rule";
       logged := "nonterminal rules with transposition-costs must have 2 RHS symbols" |}.

(** The error of a duplicate rule, as [ruleErr] throws it. *)
Definition duplicateRule : Exn :=
  {| thrown := "ill-formed rule"; logged := "duplicate rule" |}.

(** A symbol has a rule with the RHS of [opts]. *)
Definition hasRuleWithRHS (grammar : Grammar) (this : SymbolObj) (opts : RuleOpts)
  : Prop :=
  exists rule, In rule (rulesIn grammar this) /\ RHS rule = rhsOf opts.

(** No two rules of a symbol have the same RHS. *)
Definition noDuplicateRHS (grammar : Grammar) : Prop :=
  forall sym rules, get grammar sym = Some rules -> NoDup (map RHS rules).

(** The grammars that calls of [new Symbol] and [addRule] that return
    build from the empty one. *)
Inductive authored : Grammar -> Prop :=
| authored_empty : authored []
| authored_Symbol chunks grammar this grammar' :
    authored grammar ->
    Symbol chunks grammar = (inr this, grammar') ->
    authored grammar'
| authored_addRule this opts grammar grammar' :
    authored grammar ->
    addRule this opts grammar = (inr tt, grammar') ->
    authored grammar'.

(** The last character of a string is [']']. *)
Fixpoint endsWithBracket (s : string) : bool :=
  match s with
  | EmptyString => false
  | String c EmptyString => Ascii.eqb c "]"
  | String _ s => endsWithBracket s
  end.

End SymbolSpec.

Module DetectorSpec.
Import AmbiguityCheck.

(** The nodes on the stack of [invertTree], counted with those below
    them: the turns its loop has yet to take. *)
Definition stackSize (stack : list NodeObj) : nat :=
  list_sum (map (fun o => size (nodeOf o)) stack).

(** The symbols of a linked list, first to last. *)
Fixpoint symbolsOf (l : NextSyms) : list string :=
  match l with
  | noSyms => []
  | moreSyms sym next => sym :: symbolsOf next
  end.

(** The symbols a path goes on with are symbols of the grammar. *)
Definition resumable (grammar : Grammar) (path : Path) : Prop :=
  (forall s, nextSym path = Some s -> hasOwnProperty grammar s = true)
  /\ (forall s, In s (symbolsOf (nextSyms path)) ->
                hasOwnProperty grammar s = true).

(** A path is stored in a table of paths. *)
Definition pathIn (pathTab : list PathSets) (path : Path) : Prop :=
  exists pathSets terminals paths,
    In pathSets pathTab /\ In (terminals, paths) pathSets /\ In path paths.

(** Every path of a set is stored under its terminals, and has the
    property [P]. *)
Definition stored (P : Path -> Prop) (pathSets : PathSets) : Prop :=
  forall terms paths path,
    In (terms, paths) pathSets -> In path paths ->
    terminals path = terms /\ P path.

(** The grammar with its edit rules taken out. *)
Definition withoutEditRules (grammar : Grammar) : Grammar :=
  map (fun entry => (fst entry, filter notEditRule (snd entry))) grammar.

(** The paths that rules which are no edit rules start from a symbol and
    extend, each by a rule of the [nextSym] of the path before. *)
Inductive fromNonEditRules (grammar : Grammar) (nontermSym : string)
  : Path -> Prop :=
| fromRootRule rule rules :
    get grammar nontermSym = Some rules ->
    In rule rules ->
    notEditRule rule = true ->
    fromNonEditRules grammar nontermSym (rootPath rule)
| fromNextRule lastPath rule rules :
    fromNonEditRules grammar nontermSym lastPath ->
    get grammar (toString (nextSym lastPath)) = Some rules ->
    In rule rules ->
    notEditRule rule = true ->
    fromNonEditRules grammar nontermSym (newPath lastPath rule).

(** The paths [buildPaths] is called on: a path with a [nextSym] that is
    the path of a root rule or has fewer symbols than the limit. *)
Definition expandable (opts : Opts) (path : Path) : Prop :=
  truthy (nextSym path) = true
  /\ (prev path = None \/ symsCount path < symsLimit opts).

(** Every symbol on the RHS of a nonterminal rule has rules of its own in
    the grammar. *)
Definition closedGrammar (grammar : Grammar) : Prop :=
  forall sym rules rule s,
    get grammar sym = Some rules -> In rule rules -> terminal rule = false ->
    In s (RHS rule) -> hasOwnProperty grammar s = true.

(** What bounds the calls of [buildPaths] nested in one on [path]: twice
    the symbols the path may still take, and the symbols it has to come
    back to. *)
Definition potential (opts : Opts) (path : Path) : nat :=
  2 * (symsLimit opts - symsCount path) + List.length (symbolsOf (nextSyms path)).

(** Two paths have the same fringe: the same terminals, the same
    [nextSym], and [nextSyms] that spell the same symbols. *)
Definition sameFringe (pathA pathB : Path) : Prop :=
  terminals pathA = terminals pathB
  /\ nextSym pathA = nextSym pathB
  /\ symbolsOf (nextSyms pathA) = symbolsOf (nextSyms pathB).

(** The pairs of paths the loop over the terminals [terms] ranges over:
    stored under the same terminals in both sets. *)
Definition pairIn (pathSetsA pathSetsB : PathSets) (terms : list string)
                  (pathA pathB : Path) : Prop :=
  exists terminals pathsA pathsB,
    In terminals terms
    /\ get pathSetsA terminals = Some pathsA /\ In pathA pathsA
    /\ get pathSetsB terminals = Some pathsB /\ In pathB pathsB.

(** The pairs of paths the loops of [findAmbiguity] range over: of the
    sets of two root rules, and stored under the same terminals there. *)
Definition paired (pathTab : list PathSets) (pathA pathB : Path) : Prop :=
  exists before pathSetsA between pathSetsB after,
    pathTab = before ++ pathSetsA :: between ++ pathSetsB :: after
    /\ pairIn pathSetsA pathSetsB (keys pathSetsA) pathA pathB.

(** A pair of paths drawn from two root rules: [pathA] of the set of one
    rule, [pathB] of the set of a later one. *)
Definition fromTwoRootRules (pathTab : list PathSets) (pathA pathB : Path)
  : Prop :=
  exists before pathSetsA between pathSetsB after termsA pathsA termsB pathsB,
    pathTab = before ++ pathSetsA :: between ++ pathSetsB :: after
    /\ get pathSetsA termsA = Some pathsA /\ In pathA pathsA
    /\ get pathSetsB termsB = Some pathsB /\ In pathB pathsB.

(** What a part of [findAmbiguity] whose loops range over the pairs [R]
    does to the state: ambiguity is found after it if and only if it was
    found before or a pair of [R] passes the test; it stops only with
    ambiguity found; what it prints are the trimmed trees of pairs of [R]
    that pass the test; and with no ambiguity found it has changed
    nothing. *)
Definition compares (opts : Opts) (nontermSym : string)
    (R : Path -> Path -> Prop) (st : FindState) (result : FindState * Signal)
  : Prop :=
  (foundAmbiguity (fst result) = true
   <-> foundAmbiguity st = true
       \/ exists pathA pathB, R pathA pathB /\ ambiguous pathA pathB = true)
  /\ (snd result <> Next -> foundAmbiguity (fst result) = true)
  /\ (forall treeA treeB,
        In (Ambiguity treeA treeB) (printed (fst result)) ->
        In (Ambiguity treeA treeB) (printed st)
        \/ exists pathA pathB,
            R pathA pathB /\ ambiguous pathA pathB = true
            /\ trimmedTrees nontermSym pathA pathB = Done (treeA, treeB))
  /\ (foundAmbiguity (fst result) = false -> result = (st, Next)).

(** The sets of two root rules, in the order the loops over [a] and [b]
    of [findAmbiguity] take them. *)
Fixpoint rootRulePairs (pathTab : list PathSets) : list (PathSets * PathSets) :=
  match pathTab with
  | [] => []
  | pathSetsA :: pathTab =>
      map (pair pathSetsA) pathTab ++ rootRulePairs pathTab
  end.

(** The pairs of paths that the sets of two root rules hold under the
    same terminals, in the order they are compared: the paths of the
    first rule sorted by their [symsCount], each with the paths of the
    other rule in their order. *)
Definition pairsUnder (pathSetsA pathSetsB : PathSets) (terminals : string)
  : list (Path * Path) :=
  match get pathSetsB terminals, get pathSetsA terminals with
  | Some pathsB, Some pathsA => list_prod (sortPaths pathsA) pathsB
  | _, _ => []
  end.

(** The pairs of paths of the sets of two root rules in the order they
    are compared: by the terminals of the first set, as its [for]-[in]
    loop takes them. *)
Definition comparedPairs (pathSetsA pathSetsB : PathSets) : list (Path * Path) :=
  flat_map (pairsUnder pathSetsA pathSetsB) (forIn pathSetsA).

(** A pair of paths passes the test. *)
Definition passes (paths : Path * Path) : bool :=
  ambiguous (fst paths) (snd paths).

(** The first pair of paths of two root rules, in the order they are
    compared, that passes the test. *)
Definition firstFound (pathSetsA pathSetsB : PathSets) : option (Path * Path) :=
  find passes (comparedPairs pathSetsA pathSetsB).

(** The first pair found of each two root rules that have one. *)
Definition firstFounds (pathTab : list PathSets) : list (Path * Path) :=
  flat_map (fun sets => match firstFound (fst sets) (snd sets) with
                        | Some paths => [paths]
                        | None => []
                        end)
           (rootRulePairs pathTab).

(** The trimmed trees of the pairs of paths [founds], one pair after the
    other, up to the first pair whose trees cannot be trimmed, with which
    it ends as [trimmedTrees] has thrown. *)
Fixpoint treesOf (nontermSym : string) (founds : list (Path * Path))
  : list (node * node) * Signal :=
  match founds with
  | [] => ([], Next)
  | (pathA, pathB) :: founds =>
      match trimmedTrees nontermSym pathA pathB with
      | Done trees =>
          (trees :: fst (treesOf nontermSym founds),
           snd (treesOf nontermSym founds))
      | Throw e => ([], Thrown e)
      end
  end.

(** Every pair of trees recorded in [ambigPairs] has been printed. *)
Definition allPrinted (st : FindState) : Prop :=
  forall treeA treeB,
    In (treeA, treeB) (ambigPairs st) ->
    In (Ambiguity treeA treeB) (printed st).

(** What a part of [findAmbiguity] whose loops range over the pairs [R]
    does when every distinct pair of trees is printed: it does not
    break; it throws only what the trimming of a pair of [R] that passes
    the test has thrown; and when it ends normally, the pairs of trees
    recorded before are still recorded, all that are recorded have been
    printed if they had been before, and of every pair of [R] that passes
    the test the trimmed trees are recorded, in this order or the
    other. *)
Definition reportsAll (nontermSym : string) (R : Path -> Path -> Prop)
    (st : FindState) (result : FindState * Signal) : Prop :=
  snd result <> Break
  /\ (forall e, snd result = Thrown e ->
                exists pathA pathB,
                  R pathA pathB /\ ambiguous pathA pathB = true
                  /\ trimmedTrees nontermSym pathA pathB = Throw e)
  /\ (snd result = Next ->
      (forall trees, In trees (ambigPairs st) ->
                     In trees (ambigPairs (fst result)))
      /\ (allPrinted st -> allPrinted (fst result))
      /\ forall pathA pathB,
          R pathA pathB -> ambiguous pathA pathB = true ->
          exists treeA treeB,
            trimmedTrees nontermSym pathA pathB = Done (treeA, treeB)
            /\ (In (treeA, treeB) (ambigPairs (fst result))
                \/ In (treeB, treeA) (ambigPairs (fst result)))).

(** [str] contains [sub]. *)
Definition contains (str sub : string) : Prop := indexOf str sub <> (-1)%Z.

End DetectorSpec.

Module VerbSetSpec.
Import VerbSet.

(** An optional form, when it is given. *)
Definition optionalForm (form : option string) : list string :=
  if given form then [formOf form] else [].

(** The surface forms of a verb set. *)
Definition forms (verbTermSet : VerbTermSet) : list string :=
  oneSg verbTermSet :: threeSg verbTermSet :: pl verbTermSet
  :: optionalForm (past verbTermSet)
  ++ optionalForm (presentSubjunctive verbTermSet)
  ++ optionalForm (presentParticiple verbTermSet)
  ++ optionalForm (pastParticiple verbTermSet).

(** The past form is given and is one of the three present forms. *)
Definition pastIsPresent (verbTermSet : VerbTermSet) : bool :=
  given (past verbTermSet)
  && existsb (String.eqb (formOf (past verbTermSet)))
             [oneSg verbTermSet; threeSg verbTermSet; pl verbTermSet].

(** The rules [rules] have been added to [verbSym] for the forms in
    [added], one each, all with the text [textForms]. *)
Definition addedSoFar (textForms : option TextForms) (verbSym : list VerbRule)
                      (rules : list VerbRule) (st : Step) : Prop :=
  fst st = verbSym ++ rules
  /\ map rhs rules = snd st
  /\ NoDup (snd st)
  /\ forall rule, In rule rules -> text rule = textForms /\ isTerminal rule = true.

End VerbSetSpec.

(** ** Small grammars and rules to run the definitions on *)

Module Examples.
Import SymbolJs.

Definition symX : SymbolObj := {| name := "[X]" |}.
Definition symA : SymbolObj := {| name := "[A]" |}.

(** [{ RHS: syms }], [{ RHS: syms, semantic: sem }], [{ RHS: syms,
    transpositionCost: 1 }] and [{ terminal: true, RHS: str, text: str }] *)
Definition nonterminalOpts (syms : list SymbolObj) (sem : option Semantic)
                           (transpositionCost : option Number) : RuleOpts :=
  {| oRHS := Some (RHSSymbols syms); oTerminal := false; oText := None;
     oTextForms := None; oInsertionCost := None;
     oTranspositionCost := transpositionCost; oSemantic := sem;
     oGramCase := None; oVerbForm := None; oPersonNumber := None |}.

Definition terminalOpts (str : string) : RuleOpts :=
  {| oRHS := Some (RHSString str); oTerminal := true; oText := Some str;
     oTextForms := None; oInsertionCost := None; oTranspositionCost := None;
     oSemantic := None; oGramCase := None; oVerbForm := None;
     oPersonNumber := None |}.

(** A semantic of cost [0.3]: the binary64 number nearest to it,
    [5404319552844595 * 2^-54]. *)
Definition intersectSemantic : Semantic :=
  {| function := "intersect";
     semCost := S754_finite false 5404319552844595 (-54) |}.

(** [X = new Symbol('X')], [A = new Symbol('A')] *)
Definition grammar0 : Grammar := snd (Symbol [part "X"] []).
Definition grammar1 : Grammar := snd (Symbol [part "A"] grammar0).
(** [X.addRule({ RHS: [ A ] })] *)
Definition grammar2 : Grammar :=
  snd (addRule symX (nonterminalOpts [symA] None None) grammar1).
(** [X.addRule({ RHS: [ A, A ], semantic: intersectSemantic })] *)
Definition grammar3 : Grammar :=
  snd (addRule symX (nonterminalOpts [symA; symA] (Some intersectSemantic) None)
               grammar2).

(** [X] with thirteen terminal rules, [X.addRule({ terminal: true, RHS:
    'a', text: 'a' })] and so on. *)
Definition grammar13 : Grammar :=
  fold_left (fun grammar str => snd (addRule symX (terminalOpts str) grammar))
            ["a"; "b"; "c"; "d"; "e"; "f"; "g"; "h"; "i"; "j"; "k"; "l"; "m"]
            grammar0.

(** A semantic whose cost is [NaN]. *)
Definition nanSemantic : Semantic :=
  {| function := "intersect"; semCost := S754_nan |}.

(** [{ RHS: syms, gramCase: gramCase }] *)
Definition caseOpts (syms : list SymbolObj) (gramCase : string) : RuleOpts :=
  {| oRHS := Some (RHSSymbols syms); oTerminal := false; oText := None;
     oTextForms := None; oInsertionCost := None;
     oTranspositionCost := None; oSemantic := None;
     oGramCase := Some gramCase; oVerbForm := None; oPersonNumber := None |}.

(** Rules as the grammar holds them: [lhs -> rhs] of nonterminal symbols,
    [lhs -> "str"], and the insertion rule and the transposition the edit
    rules add. *)
Definition nonterminalRule (rhs : list string) : Rule :=
  {| RHS := rhs; terminal := false; text := None; cost := Numbers.zero;
     insertionCost := None; semantic := None; gramCase := None;
     verbForm := None; personNumber := None; transpositionCost := None;
     insertionIdx := None; transposition := false |}.

Definition terminalRule (str : string) : Rule :=
  {| RHS := [str]; terminal := true; text := Some (TextString str); cost := Numbers.zero;
     insertionCost := None; semantic := None; gramCase := None;
     verbForm := None; personNumber := None; transpositionCost := None;
     insertionIdx := None; transposition := false |}.

Definition insertionRule (rhs : list string) (idx : nat) : Rule :=
  {| RHS := rhs; terminal := false; text := None; cost := Numbers.ofNat 1;
     insertionCost := None; semantic := None; gramCase := None;
     verbForm := None; personNumber := None; transpositionCost := None;
     insertionIdx := Some idx; transposition := false |}.

Definition transpositionRule (rhs : list string) : Rule :=
  {| RHS := rhs; terminal := false; text := None; cost := Numbers.ofNat 1;
     insertionCost := None; semantic := None; gramCase := None;
     verbForm := None; personNumber := None; transpositionCost := None;
     insertionIdx := None; transposition := true |}.

Definition options (limit : nat) (all test : bool) : AmbiguityCheck.Opts :=
  {| AmbiguityCheck.symsLimit := limit; AmbiguityCheck.findAll := all;
     AmbiguityCheck.useTestRules := test; AmbiguityCheck.noOutput := false |}.

(** [S -> A | B], [A -> "x"], [B -> "x"] *)
Definition directGrammar : Grammar :=
  [("[S]", [nonterminalRule ["[A]"]; nonterminalRule ["[B]"]]);
   ("[A]", [terminalRule "x"]);
   ("[B]", [terminalRule "x"])].

(** [S -> A | B], [A -> "x"], [B -> "x" | C], [C -> "x"] *)
Definition twiceGrammar : Grammar :=
  [("[S]", [nonterminalRule ["[A]"]; nonterminalRule ["[B]"]]);
   ("[A]", [terminalRule "x"]);
   ("[B]", [terminalRule "x"; nonterminalRule ["[C]"]]);
   ("[C]", [terminalRule "x"])].

(** [directGrammar] with edit rules: [S -> B A] transposed and [S -> A]
    with [B] inserted, of an [S -> A B] that is left out here. *)
Definition editedGrammar : Grammar :=
  [("[S]", [nonterminalRule ["[A]"]; nonterminalRule ["[B]"];
            transpositionRule ["[B]"; "[A]"]; insertionRule ["[A]"] 1]);
   ("[A]", [terminalRule "x"]);
   ("[B]", [terminalRule "x"; insertionRule ["[A]"] 0])].

(** Test rules: a symbol said to be ambiguous that is not, and one said to
    be unambiguous. *)
Definition testRules : Grammar :=
  [("[ambig-none]", [terminalRule "x"; terminalRule "y"]);
   ("[unambig]", [terminalRule "x"; terminalRule "y"])].

(** [X -> "x" | X] *)
Definition loopGrammar : Grammar :=
  [("[X]", [terminalRule "x"; nonterminalRule ["[X]"]])].

(** The paths [S -> A], [S -> B] and those they extend to. *)
Definition pathSA : AmbiguityCheck.Path :=
  AmbiguityCheck.rootPath (nonterminalRule ["[A]"]).
Definition pathSAx : AmbiguityCheck.Path :=
  AmbiguityCheck.newPath pathSA (terminalRule "x").
Definition pathSB : AmbiguityCheck.Path :=
  AmbiguityCheck.rootPath (nonterminalRule ["[B]"]).
Definition pathSBx : AmbiguityCheck.Path :=
  AmbiguityCheck.newPath pathSB (terminalRule "x").
Definition pathSBCx : AmbiguityCheck.Path :=
  AmbiguityCheck.newPath
    (AmbiguityCheck.newPath pathSB (nonterminalRule ["[C]"])) (terminalRule "x").

Definition pathSBC : AmbiguityCheck.Path :=
  AmbiguityCheck.newPath pathSB (nonterminalRule ["[C]"]).

(** The table of the paths of [S] in [directGrammar], and in
    [twiceGrammar]. *)
Definition directPathTab : list AmbiguityCheck.PathSets :=
  [[("", [pathSA]); (" x", [pathSAx])];
   [("", [pathSB]); (" x", [pathSBx])]].
Definition twicePathTab : list AmbiguityCheck.PathSets :=
  [[("", [pathSA]); (" x", [pathSAx])];
   [("", [pathSB; pathSBC]); (" x", [pathSBx; pathSBCx])]].

(** The trees of [S -> A -> "x"], of [S -> B -> "x"] and of
    [S -> B -> C -> "x"]. *)
Definition treeSAx : AmbiguityCheck.node :=
  AmbiguityCheck.Node "[S]"
    (Some [AmbiguityCheck.Node "[A]" (Some [AmbiguityCheck.Node "x" None])]).
Definition treeSBx : AmbiguityCheck.node :=
  AmbiguityCheck.Node "[S]"
    (Some [AmbiguityCheck.Node "[B]" (Some [AmbiguityCheck.Node "x" None])]).
Definition treeSBCx : AmbiguityCheck.node :=
  AmbiguityCheck.Node "[S]"
    (Some [AmbiguityCheck.Node "[B]"
             (Some [AmbiguityCheck.Node "[C]"
                      (Some [AmbiguityCheck.Node "x" None])])]).

(** The verb "put": its past is its plural. *)
Definition putVerb : VerbSet.VerbTermSet :=
  {| VerbSet.oneSg := "put"; VerbSet.threeSg := "puts"; VerbSet.pl := "put";
     VerbSet.past := Some "put"; VerbSet.presentSubjunctive := None;
     VerbSet.presentParticiple := Some "putting";
     VerbSet.pastParticiple := Some "put" |}.

(** The verb "like". *)
Definition likeVerb : VerbSet.VerbTermSet :=
  {| VerbSet.oneSg := "like"; VerbSet.threeSg := "likes"; VerbSet.pl := "like";
     VerbSet.past := Some "liked"; VerbSet.presentSubjunctive := None;
     VerbSet.presentParticiple := Some "liking";
     VerbSet.pastParticiple := Some "liked" |}.

Definition verbOptions (verbTermSet : VerbSet.VerbTermSet) : VerbSet.Options :=
  {| VerbSet.symbolName := "verb"; VerbSet.optInsertionCost := None;
     VerbSet.acceptedVerbTermSets := [verbTermSet];
     VerbSet.substitutedVerbTermSets := None |}.

End Examples.
(** ** The vocabulary of the further properties: parse trees *)

Module TreeSpec.
Import AmbiguityCheck.

(** The nodes of a tree that have no [children], left to right. *)
Fixpoint leaves (t : node) : list node :=
  match t with
  | Node _ None => [t]
  | Node _ (Some childNodes) => flat_map leaves childNodes
  end.

(** The node at a position of a tree: down the child indices from the
    root. *)
Fixpoint subtreeAt (t : node) (pos : Pos) : option node :=
  match pos with
  | [] => Some t
  | c :: pos =>
      match children t with
      | Some childNodes =>
          match nth_error childNodes c with
          | Some child => subtreeAt child pos
          | None => None
          end
      | None => None
      end
  end.

(** An entry of an inverted tree is linked into the tree [t]: its node is
    the node of [t] at its position, its [par] is the entry of the node
    one step up, linked likewise, and only the root has none. *)
Fixpoint linked (t : node) (o : NodeObj) : Prop :=
  match o with
  | mkNodeObj n pos par =>
      subtreeAt t pos = Some n
      /\ match par with
         | None => pos = []
         | Some p => (exists c, pos = posOf p ++ [c]) /\ linked t p
         end
  end.

(** The entries of the childless nodes of a tree that sits at [pos] under
    [par], left to right. *)
Fixpoint inverted (t : node) (pos : Pos) (par : option NodeObj) : list NodeObj :=
  match t with
  | Node _ None => [mkNodeObj t pos par]
  | Node _ (Some childNodes) =>
      (fix each (c : nat) (childNodes : list node) : list NodeObj :=
         match childNodes with
         | [] => []
         | child :: childNodes =>
             inverted child (pos ++ [c]) (Some (mkNodeObj t pos par))
             ++ each (S c) childNodes
         end) 0 childNodes
  end.

(** The entries of the children of [this], from child [c] on. *)
Fixpoint invertedFrom (this : NodeObj) (c : nat) (childNodes : list node)
  : list NodeObj :=
  match childNodes with
  | [] => []
  | child :: childNodes =>
      inverted child (posOf this ++ [c]) (Some this)
      ++ invertedFrom this (S c) childNodes
  end.

(** The nodes above an entry, from its parent up to the root. *)
Fixpoint ancestors (o : NodeObj) : list node :=
  match o with
  | mkNodeObj _ _ (Some p) => nodeOf p :: ancestors p
  | mkNodeObj _ _ None => []
  end.

(** [trimmed] is [t] with the [children] of some of its nodes deleted. *)
Inductive prunes : node -> node -> Prop :=
| prunes_deleted symbol children :
    prunes (Node symbol None) (Node symbol children)
| prunes_kept symbol trimmed childNodes :
    Forall2 prunes trimmed childNodes ->
    prunes (Node symbol (Some trimmed)) (Node symbol (Some childNodes)).

(** The tree [t] with nodes put around it, the outermost given first: each
    has the tree so far as its first child, and [siblings] after it. *)
Fixpoint wrap (around : list (string * list node)) (t : node) : node :=
  match around with
  | [] => t
  | (symbol, siblings) :: around =>
      Node symbol (Some (wrap around t :: siblings))
  end.

End TreeSpec.
(** ** The vocabulary of the further properties: paths and their trees *)

Module PathSpec.
Import AmbiguityCheck DetectorSpec TreeSpec.

(** The symbols at the childless nodes of a tree, left to right. *)
Definition fringe (t : node) : list string := map symbol (leaves t).

(** Terminal symbols as a path writes them into [terminals]: each after a
    space. *)
Definition spell (terminalSyms : list string) : string :=
  fold_left (fun terminals sym => terminals ++ " " ++ sym)%string terminalSyms "".

(** The symbols a path has yet to expand: [nextSym], then [nextSyms]. *)
Definition pending (path : Path) : list string :=
  match nextSym path with
  | Some sym => sym :: symbolsOf (nextSyms path)
  | None => symbolsOf (nextSyms path)
  end.

(** A rule as [addRule] makes them, with names that tell the kind of a
    symbol: a terminal rule has one RHS symbol, which does not begin with
    a bracket, a nonterminal rule one or two, which do. *)
Definition wellFormedRule (rule : Rule) : bool :=
  if terminal rule then
    match RHS rule with
    | [sym] => negb (startsWithBracket sym)
    | _ => false
    end
  else
    match RHS rule with
    | [sym] => startsWithBracket sym
    | [symA; symB] => startsWithBracket symA && startsWithBracket symB
    | _ => false
    end.

(** Every rule of the grammar that is no edit rule is such a rule. *)
Definition wellFormed (grammar : Grammar) : bool :=
  forallb (fun entry =>
             forallb (fun rule => negb (notEditRule rule) || wellFormedRule rule)
                     (snd entry))
          grammar.

(** No rule of the grammar that is no edit rule has more than two RHS
    symbols. *)
Definition atMostBinary (grammar : Grammar) : bool :=
  forallb (fun entry =>
             forallb (fun rule => negb (notEditRule rule)
                                  || Nat.leb (List.length (RHS rule)) 2)
                     (snd entry))
          grammar.

(** The symbols that rules, applied in turn to the first symbol that
    begins with a bracket, leave of the symbols [stack]: a leftmost
    derivation.  Rules left when no such symbol is are not applied. *)
Fixpoint run (rules : list (list string)) : list string -> list string :=
  match rules with
  | [] => fun stack => stack
  | rule :: rules =>
      fix skip (stack : list string) : list string :=
        match stack with
        | [] => []
        | sym :: stack =>
            if startsWithBracket sym then run rules (rule ++ stack)
            else sym :: skip stack
        end
  end.

(** The symbols such a derivation has gone through: those of [stack] and
    those of the rules applied. *)
Fixpoint count (rules : list (list string)) : list string -> nat :=
  match rules with
  | [] => fun stack => List.length stack
  | rule :: rules =>
      fix skip (stack : list string) : nat :=
        match stack with
        | [] => 0
        | sym :: stack =>
            if startsWithBracket sym then S (count rules (rule ++ stack))
            else S (skip stack)
        end
  end.

(** A path from [nontermSym] is a leftmost derivation: its rules lead
    from the symbol to the terminal symbols it has spelled and the
    symbols it has yet to expand, and it has counted the symbols. *)
Definition derives (nontermSym : string) (path : Path) : Prop :=
  exists terminalSyms,
    run (listToArray path) [nontermSym] = terminalSyms ++ pending path
    /\ Forall (fun sym => startsWithBracket sym = false) terminalSyms
    /\ Forall (fun sym => startsWithBracket sym = true) (pending path)
    /\ spell terminalSyms = terminals path
    /\ count (listToArray path) [nontermSym] = symsCount path.

(** The bound on the symbols of a path: a path of a root rule has at most
    three. *)
Definition bounded (opts : Opts) (path : Path) : Prop :=
  symsCount path <= Nat.max 5 (symsLimit opts + 1)
  /\ (prev path = None -> symsCount path <= 3).

End PathSpec.
(** ** The vocabulary of the further properties: what the check prints *)

Module FindSpec.
Import AmbiguityCheck.

Definition isAmbiguity (event : Event) : bool :=
  match event with
  | Ambiguity _ _ => true
  | Err _ _ => false
  end.

(** The instances of ambiguity among what was printed. *)
Definition countAmbiguity (events : list Event) : nat :=
  List.length (filter isAmbiguity events).

(** The pairs of trees printed, in the order of printing. *)
Definition pairsPrinted (events : list Event) : list (node * node) :=
  flat_map (fun event => match event with
                         | Ambiguity treeA treeB => [(treeA, treeB)]
                         | Err _ _ => []
                         end) events.

(** The pairs of [n] root rules: [n (n - 1) / 2]. *)
Fixpoint pairsOf (n : nat) : nat :=
  match n with
  | O => 0
  | S n => n + pairsOf n
  end.

(** No pair of trees is in the list twice, in the same order or the
    other. *)
Definition distinctPairs (pairs : list (node * node)) : Prop :=
  NoDup pairs
  /\ forall treeA treeB,
      In (treeA, treeB) pairs -> In (treeB, treeA) pairs -> treeA = treeB.

(** A part of [findAmbiguity] has printed nothing and has not thrown. *)
Definition quiet (st : FindState) (result : FindState * Signal) : Prop :=
  printed (fst result) = printed st
  /\ (snd result = Next \/ snd result = Break).

(** A part of [findAmbiguity] has gone through without printing, or has
    stopped with at most one instance of ambiguity printed. *)
Definition printsOnce (st : FindState) (result : FindState * Signal) : Prop :=
  (snd result = Next /\ printed (fst result) = printed st)
  \/ (snd result <> Next
      /\ countAmbiguity (printed (fst result)) <= countAmbiguity (printed st) + 1).

(** The pairs of trees printed are those recorded in [ambigPairs], and
    they are distinct. *)
Definition recorded (st : FindState) : Prop :=
  pairsPrinted (printed st) = ambigPairs st /\ distinctPairs (ambigPairs st).

End FindSpec.
(** ** The vocabulary of the further properties: grammars as built *)

Module GrammarSpec.
Import SymbolJs SymbolSpec.

(** The grammars that calls of [new Symbol] and [addRule] that return
    build from the empty one, when the symbol a rule is added to and the
    symbols on its RHS are objects the constructor has made on this
    grammar, as the objects of the program are. *)
Inductive constructed : Grammar -> Prop :=
| constructed_empty : constructed []
| constructed_Symbol chunks grammar this grammar' :
    constructed grammar ->
    Symbol chunks grammar = (inr this, grammar') ->
    constructed grammar'
| constructed_addRule this opts grammar grammar' :
    constructed grammar ->
    hasOwnProperty grammar (name this) = true ->
    (forall sym, In sym (rhsSymbols (oRHS opts)) ->
                 hasOwnProperty grammar (name sym) = true) ->
    addRule this opts grammar = (inr tt, grammar') ->
    constructed grammar'.

(** The shape of a rule [addRule] stores: no edit rule; a terminal rule
    has one RHS symbol and none of the properties of nonterminal rules; a
    nonterminal rule has at most two RHS symbols, two when it has a
    transposition cost, and none of the properties of terminal rules. *)
Definition ruleShape (rule : Rule) : bool :=
  AmbiguityCheck.notEditRule rule
  && if terminal rule then
       Nat.eqb (List.length (RHS rule)) 1
       && isNone (semantic rule) && isNone (transpositionCost rule)
       && isNone (gramCase rule) && isNone (verbForm rule)
       && isNone (personNumber rule)
     else
       Nat.leb (List.length (RHS rule)) 2
       && isNone (text rule) && isNone (insertionCost rule)
       && match transpositionCost rule with
          | Some _ => Nat.eqb (List.length (RHS rule)) 2
          | None => true
          end.

(** The cost of the rule at index [i] of a symbol that has no semantic:
    [i * 1e-7], the product rounded. *)
Definition baseCost (i : nat) : Number := Numbers.mul (Numbers.ofNat i) c1e_7.

(** The same cost, of an index that is an integer in binary. *)
Definition costOfIndex (i : Z) : Number :=
  Numbers.mul (binary_normalize Numbers.prec Numbers.emax i 0 false) c1e_7.

(** The costs of the [n] indices from [i] on rise from each to the
    next. *)
Fixpoint costsRise (n : nat) (i : Z) : bool :=
  match n with
  | O => true
  | S n => Numbers.ltb (costOfIndex i) (costOfIndex (i + 1))
           && costsRise n (i + 1)
  end.

(** The number of indices the costs are computed of, to compare them. *)
Definition indicesCompared : nat := 2 ^ 16.

End GrammarSpec.
(** ** Checks of terminal rule sets *)

Module TerminalRuleSets.
Import VerbSet.

(** The [text] of a terminal rule: a string, or an object of text forms.
    A form the object lacks is the empty string here: the checks only
    test the forms for truth, and both are falsy. *)
Inductive RuleText :=
| StringText (s : string)
| ObjectText (forms : TextForms).

(** A terminal rule as the checks read it: its [text], [None] when it is
    [undefined]. *)
Record TerminalRule := { text : option RuleText }.

(** An [NSymbol] as the checks read it. *)
Record NSymbol := { name : string; rules : list TerminalRule }.

(** What [printTerminalRuleSetErr] writes with the two functions of the
    [util] module it calls: [util.logError] with the message, the name of
    the symbol and the text of the rule at fault, and
    [util.logPathAndObject] with the options object. *)
Inductive Logged :=
| LogError (errMsg symName : string) (shown : option RuleText)
| LogPathAndObject (options : obj NSymbol).

(** How a check ends: it returns, having logged, or it throws the
    [TypeError] of reading a property of [undefined]. *)
Inductive Checked :=
| Returns (result : bool) (logged : list Logged)
| TypeError.

(** [printTerminalRuleSetErr]: what it logs, in order. *)
Definition printTerminalRuleSetErr (options : obj NSymbol) (paramName : string)
    (terminalRule : TerminalRule) (description : string) : option (list Logged) :=
  let errMsg := ("'" ++ paramName ++ "' " ++ description ++ ":")%string in
  match get options paramName with
  | Some termRuleSetSym =>
      Some [LogError errMsg (name termRuleSetSym) (text terminalRule);
            LogPathAndObject options]
  | None => None
  end.

(** [printTerminalRuleSetErr(...); return false] *)
Definition fails (logged : option (list Logged)) : Checked :=
  match logged with
  | Some logged => Returns false logged
  | None => TypeError
  end.

(** A string in a condition. *)
Definition truthy (s : string) : bool := negb (String.eqb s "").

(** [textForms.constructor !== Object || !textForms.oneSg ||
    !textForms.threeSg || !textForms.pl] *)
Definition notVerbText (textForms : RuleText) : bool :=
  match textForms with
  | StringText _ => true
  | ObjectText forms =>
      negb (truthy (textOneSg forms)) || negb (truthy (textThreeSg forms))
      || negb (truthy (textPl forms))
  end.

(** [textForms.past], of a text that is an object. *)
Definition pastOf (textForms : RuleText) : option string :=
  match textForms with
  | StringText _ => None
  | ObjectText forms => textPast forms
  end.

(** [baseIsVerb] *)
Definition baseIsVerb (options : obj NSymbol) (paramName : string)
                      (hasPastTense : bool) : Checked :=
  match get options paramName with
  | None => TypeError
  | Some sym =>
      match rules sym with
      | [] => TypeError
      | terminalRule :: _ =>
          match text terminalRule with
          | None => TypeError
          | Some textForms =>
              if notVerbText textForms then
                fails (printTerminalRuleSetErr options paramName terminalRule
                         "is not a verb created by `g.newVerbSet()`")
              else if hasPastTense then
                if negb (given (pastOf textForms)) then
                  fails (printTerminalRuleSetErr options paramName terminalRule
                           "lacks past tense inflection")
                else Returns true []
              else
                if given (pastOf textForms) then
                  fails (printTerminalRuleSetErr options paramName terminalRule
                           "has past tense inflection")
                else Returns true []
          end
      end
  end.

(** [exports.isVerb] *)
Definition isVerb (options : obj NSymbol) (paramName : string) : Checked :=
  baseIsVerb options paramName true.

(** [exports.isPresentVerb] *)
Definition isPresentVerb (options : obj NSymbol) (paramName : string) : Checked :=
  baseIsVerb options paramName false.

(** The loop of [isInvariableTerm]. *)
Fixpoint forTerminalRules (options : obj NSymbol) (paramName : string)
                          (terminalRules : list TerminalRule) : Checked :=
  match terminalRules with
  | [] => Returns true []
  | terminalRule :: terminalRules =>
      match text terminalRule with
      | None => TypeError
      | Some (StringText _) => forTerminalRules options paramName terminalRules
      | Some (ObjectText _) =>
          fails (printTerminalRuleSetErr options paramName terminalRule
                   "has inflections")
      end
  end.

(** [exports.isInvariableTerm] *)
Definition isInvariableTerm (options : obj NSymbol) (paramName : string) : Checked :=
  match get options paramName with
  | None => TypeError
  | Some sym => forTerminalRules options paramName (rules sym)
  end.

(** The symbol [newVerbSet] returns, as the checks read it. *)
Definition verbSymbol (symbolName : string) (verbRules : list VerbRule) : NSymbol :=
  {| name := symbolName;
     rules := map (fun rule => {| text := option_map ObjectText (VerbSet.text rule) |})
                  verbRules |}.

End TerminalRuleSets.

(** ** The vocabulary of the further properties: what a check logs *)

Module TerminalRuleSetsSpec.
Import TerminalRuleSets.

(** What a check logs of a rule at fault: the error, with the message
    made of the name of the option and the description, the name of the
    symbol and the text of the rule; and then the options object. *)
Definition errorLogged (options : obj NSymbol) (paramName : string)
    (sym : NSymbol) (terminalRule : TerminalRule) (description : string)
  : list Logged :=
  [LogError ("'" ++ paramName ++ "' " ++ description ++ ":")%string
            (name sym) (text terminalRule);
   LogPathAndObject options].

End TerminalRuleSetsSpec.

(** ** The vocabulary of the further properties: verb sets *)

Module VerbRulesSpec.
Import VerbSet VerbSetSpec.

(** A rule made for a form of a verb set, with the text [textForms]: it
    is terminal, and its tense is [past] only when it was made for the
    past form or the past participle. *)
Definition ruleOfSet (textForms : option TextForms) (verbTermSet : VerbTermSet)
                     (rule : VerbRule) : Prop :=
  isTerminal rule = true
  /\ VerbSet.text rule = textForms
  /\ In (rhs rule) (forms verbTermSet)
  /\ (tense rule = None
      \/ tense rule = Some "past"
         /\ (given (past verbTermSet) = true
             /\ rhs rule = formOf (past verbTermSet)
             \/ given (pastParticiple verbTermSet) = true
                /\ rhs rule = formOf (pastParticiple verbTermSet))).

(** The rules made for one verb set: first the rule of [oneSg], which
    alone may have an insertion cost, then at most [more] others. *)
Definition rulesOfSet (textForms : option TextForms) (cost : option Number)
    (verbTermSet : VerbTermSet) (more : nat) (added : list VerbRule) : Prop :=
  exists first rest,
    added = first :: rest
    /\ rhs first = oneSg verbTermSet
    /\ tense first = None
    /\ insertionCost first = cost
    /\ List.length rest <= more
    /\ Forall (fun rule => insertionCost rule = None) rest
    /\ Forall (ruleOfSet textForms verbTermSet) added.

(** The rules made for verb sets in turn, from index [i] on. *)
Fixpoint rulesOfSets (textFormsOf : VerbTermSet -> option TextForms)
    (costOf : nat -> option Number) (i : nat) (sets : list VerbTermSet)
    (added : list VerbRule) : Prop :=
  match sets with
  | [] => added = []
  | verbTermSet :: sets =>
      exists forSet forRest,
        added = forSet ++ forRest
        /\ rulesOfSet (textFormsOf verbTermSet) (costOf i) verbTermSet 6 forSet
        /\ rulesOfSets textFormsOf costOf (S i) sets forRest
  end.

(** The verb sets [newVerbSet] substitutes, none when the option is
    absent. *)
Definition substituted (options : Options) : list VerbTermSet :=
  match substitutedVerbTermSets options with
  | Some sets => sets
  | None => []
  end.

End VerbRulesSpec.

(** ** The toggles of the command line *)

Module CLI.

(** The variables [parseCommand] changes. *)
Record Toggles := {
  printTime : bool;
  printStack : bool;
  printForest : bool;
  printGraph : bool;
  parserPath : string
}.

Definition parserNewPath : string := "./Parser.js".
Definition parserOldPath : string := "./util/ParserBreadthFirst.js".

(** The variables as the program starts. *)
Definition initial : Toggles :=
  {| printTime := false; printStack := false; printForest := false;
     printGraph := false; parserPath := parserNewPath |}.

(** A boolean as [console.log] prints it. *)
Definition shown (b : bool) : string := if b then "true" else "false".

(** [parseCommand]: what it returns, the variables after it, and the
    lines it prints. *)
Definition parseCommand (query : string) (st : Toggles)
  : bool * Toggles * list string :=
  if String.eqb query "-t" then
    let printTime := negb (printTime st) in
    (true,
     {| printTime := printTime; printStack := printStack st;
        printForest := printForest st; printGraph := printGraph st;
        parserPath := parserPath st |},
     [("print time: " ++ shown printTime)%string])
  else if String.eqb query "-s" then
    let printStack := negb (printStack st) in
    (true,
     {| printTime := CLI.printTime st; printStack := printStack;
        printForest := printForest st; printGraph := printGraph st;
        parserPath := parserPath st |},
     [("print stack: " ++ shown printStack)%string])
  else if String.eqb query "-f" then
    let printForest := negb (printForest st) in
    (true,
     {| printTime := CLI.printTime st; printStack := CLI.printStack st;
        printForest := printForest; printGraph := printGraph st;
        parserPath := parserPath st |},
     [("print forest: " ++ shown printForest)%string])
  else if String.eqb query "-g" then
    let printGraph := negb (printGraph st) in
    (true,
     {| printTime := CLI.printTime st; printStack := CLI.printStack st;
        printForest := CLI.printForest st; printGraph := printGraph;
        parserPath := parserPath st |},
     [("print graph: " ++ shown printGraph)%string])
  else if String.eqb query "-p" then
    let parserPath := if String.eqb (parserPath st) parserNewPath
                      then parserOldPath else parserNewPath in
    (true,
     {| printTime := CLI.printTime st; printStack := CLI.printStack st;
        printForest := CLI.printForest st; printGraph := CLI.printGraph st;
        parserPath := parserPath |},
     [("parser path: " ++ parserPath)%string])
  else if String.eqb query "-h" then
    (true, st,
     ["TOGGLES:";
      ("-t  print time: " ++ shown (printTime st))%string;
      ("-s  print stack: " ++ shown (printStack st))%string;
      ("-f  print forest: " ++ shown (printForest st))%string;
      ("-g  print graph: " ++ shown (printGraph st))%string;
      ("-p  parser path: " ++ parserPath st)%string])
  else (false, st, []).

(** The variables after the commands [queries], in turn. *)
Definition after (queries : list string) : Toggles :=
  fold_left (fun st query => snd (fst (parseCommand query st))) queries initial.

End CLI.
(** ** More grammars and verbs to run the definitions on *)

Module MoreExamples.
Import SymbolJs Examples.

(** [S -> A B | C], [A -> "x"], [B -> "y"], [C -> A B] *)
Definition binaryGrammar : Grammar :=
  [("[S]", [nonterminalRule ["[A]"; "[B]"]; nonterminalRule ["[C]"]]);
   ("[A]", [terminalRule "x"]);
   ("[B]", [terminalRule "y"]);
   ("[C]", [nonterminalRule ["[A]"; "[B]"]])].

(** The paths [S -> A B], [S -> A B -> "x" B] and [S -> A B -> "x" "y"],
    and the paths [S -> C] and those it extends to. *)
Definition pathSAB : AmbiguityCheck.Path :=
  AmbiguityCheck.rootPath (nonterminalRule ["[A]"; "[B]"]).
Definition pathSABx : AmbiguityCheck.Path :=
  AmbiguityCheck.newPath pathSAB (terminalRule "x").
Definition pathSABxy : AmbiguityCheck.Path :=
  AmbiguityCheck.newPath pathSABx (terminalRule "y").
Definition pathSC : AmbiguityCheck.Path :=
  AmbiguityCheck.rootPath (nonterminalRule ["[C]"]).
Definition pathSCAB : AmbiguityCheck.Path :=
  AmbiguityCheck.newPath pathSC (nonterminalRule ["[A]"; "[B]"]).
Definition pathSCABx : AmbiguityCheck.Path :=
  AmbiguityCheck.newPath pathSCAB (terminalRule "x").
Definition pathSCABxy : AmbiguityCheck.Path :=
  AmbiguityCheck.newPath pathSCABx (terminalRule "y").

(** The table of the paths of [S] in [binaryGrammar]. *)
Definition binaryPathTab : list AmbiguityCheck.PathSets :=
  [[("", [pathSAB]); (" x", [pathSABx]); (" x y", [pathSABxy])];
   [("", [pathSC; pathSCAB]); (" x", [pathSCABx]); (" x y", [pathSCABxy])]].

(** [S -> A | B], [A -> "x"], and no entry for [B]. *)
Definition danglingGrammar : Grammar :=
  [("[S]", [nonterminalRule ["[A]"]; nonterminalRule ["[B]"]]);
   ("[A]", [terminalRule "x"])].

(** [S -> A | toString], [A -> "x"], and no entry for [toString], a name
    under which every object inherits a function without parameters. *)
Definition inheritingGrammar : Grammar :=
  [("[S]", [nonterminalRule ["[A]"]; nonterminalRule ["toString"]]);
   ("[A]", [terminalRule "x"])].

(** The options with [noOutput] set. *)
Definition quietOptions (limit : nat) : AmbiguityCheck.Opts :=
  {| AmbiguityCheck.symsLimit := limit; AmbiguityCheck.findAll := false;
     AmbiguityCheck.useTestRules := false; AmbiguityCheck.noOutput := true |}.

(** [S = new Symbol('S')], [A = new Symbol('A')], [B = new Symbol('B')],
    [S.addRule({ RHS: [ A ] })], [S.addRule({ RHS: [ B ] })],
    [A.addRule({ terminal: true, RHS: 'x', text: 'x' })] and the same
    for [B]. *)
Definition symS : SymbolObj := {| name := "[S]" |}.
Definition symB : SymbolObj := {| name := "[B]" |}.

Definition built1 : Grammar := snd (Symbol [part "S"] []).
Definition built2 : Grammar := snd (Symbol [part "A"] built1).
Definition built3 : Grammar := snd (Symbol [part "B"] built2).
Definition built4 : Grammar :=
  snd (addRule symS (nonterminalOpts [symA] None None) built3).
Definition built5 : Grammar :=
  snd (addRule symS (nonterminalOpts [symB] None None) built4).
Definition built6 : Grammar := snd (addRule symA (terminalOpts "x") built5).
Definition builtGrammar : Grammar := snd (addRule symB (terminalOpts "x") built6).

(** The verb "love", and a verb set of "like" with an insertion cost,
    [0.8] (the binary64 number [7205759403792794 * 2^-53]), that "love"
    is substituted by. *)
Definition loveVerb : VerbSet.VerbTermSet :=
  {| VerbSet.oneSg := "love"; VerbSet.threeSg := "loves"; VerbSet.pl := "love";
     VerbSet.past := Some "loved"; VerbSet.presentSubjunctive := None;
     VerbSet.presentParticiple := Some "loving";
     VerbSet.pastParticiple := Some "loved" |}.

Definition likeOptions : VerbSet.Options :=
  {| VerbSet.symbolName := "like";
     VerbSet.optInsertionCost := Some (S754_finite false 7205759403792794 (-53));
     VerbSet.acceptedVerbTermSets := [likeVerb];
     VerbSet.substitutedVerbTermSets := Some [loveVerb] |}.

(** The rules [newVerbSet] makes of them. *)
Definition likeRules : list VerbSet.VerbRule :=
  match VerbSet.newVerbSet likeOptions with
  | VerbSet.Ok verbRules => verbRules
  | VerbSet.Error _ => []
  end.

End MoreExamples.
(** ** The rules of a category *)

Module CategoryJs.
Import SymbolJs.

(** [catOpts]; [person] and [entity] are only tested for truth, and
    [false] when absent.  The check of [catOpts] against
    [categoryOptsSchema] is what the type of the record says. *)
Record CatOpts := {
  sg : string;
  pl : string;
  person : bool;
  entity : bool
}.

(** What the module requires of modules that are not among the sources:
    [g.emptyTermSym], the symbols [relPronouns.who] and [relPronouns.that],
    [auxVerbs.beNon1Sg], [auxVerbs.bePast] and [auxVerbs.have],
    [stopWords.sentenceAdverbial], [operators.and] and [operators.union],
    and the object [new g.Semantic({ name: 'intersect', cost: 0 })]
    makes. *)
Record Required := {
  emptyTermSym : string;
  relPronouns_who : SymbolObj;
  relPronouns_that : SymbolObj;
  auxVerbs_beNon1Sg : SymbolObj;
  auxVerbs_bePast : SymbolObj;
  auxVerbs_have : SymbolObj;
  stopWords_sentenceAdverbial : SymbolObj;
  operators_and : SymbolObj;
  operators_union : SymbolObj;
  intersectSemantic : Semantic
}.

(** The object the constructor [Category] fills: the properties it sets
    on [this]; those set under a condition are [None] when it fails. *)
Record CategoryObj := {
  nameSg : string;
  namePl : string;
  lhs : SymbolObj;
  head : SymbolObj;
  headMayPoss : option SymbolObj;
  possessible : option SymbolObj;
  passive : SymbolObj;
  subjFilter : SymbolObj;
  objFilter : SymbolObj;
  noRelativePossessive : SymbolObj;
  plural : SymbolObj;
  catPl : SymbolObj;
  catSg : option SymbolObj;
  catPlPlus : option SymbolObj
}.

(** [{ RHS: syms }] with the options given besides. *)
Definition ruleOpts (syms : list SymbolObj) (transpositionCost : option Number)
    (semantic : option Semantic) (personNumber : option string) : RuleOpts :=
  {| oRHS := Some (RHSSymbols syms); oTerminal := false; oText := None;
     oTextForms := None; oInsertionCost := None;
     oTranspositionCost := transpositionCost; oSemantic := semantic;
     oGramCase := None; oVerbForm := None; oPersonNumber := personNumber |}.

(** [{ RHS: [ ... ] }] *)
Definition nontermRHS (syms : list SymbolObj) : RuleOpts :=
  ruleOpts syms None None None.

(** [{ terminal: true, RHS: str }] *)
Definition terminalRHS (str : string) : RuleOpts :=
  {| oRHS := Some (RHSString str); oTerminal := true; oText := None;
     oTextForms := None; oInsertionCost := None; oTranspositionCost := None;
     oSemantic := None; oGramCase := None; oVerbForm := None;
     oPersonNumber := None |}.

(** [var start = new g.Symbol('start')], when the module is loaded;
    [g.Symbol] is the constructor on the grammar of the program. *)
Definition newStart : M SymbolObj := Symbol [part "start"].

(** The part of [Category] under [if (!catOpts.person)], the first. *)
Definition mayPoss (catOpts : CatOpts) (lhs head : SymbolObj)
  : M (option SymbolObj * option SymbolObj) :=
  if negb (person catOpts) then
    headMayPoss <- Symbol [part (sg catOpts); part "head"; part "may"; part "poss"] ;;
    addRule head (nontermRHS [headMayPoss]) ;;
    possessible <- Symbol [part (sg catOpts); part "possessible"] ;;
    addRule possessible (nontermRHS [lhs; headMayPoss]) ;;
    ret (Some headMayPoss, Some possessible)
  else ret (None, None).

(** The part under [if (catOpts.entity)]. *)
Definition entitySymbol (catOpts : CatOpts) (catPl : SymbolObj)
  : M (option SymbolObj) :=
  if entity catOpts then
    catSg <- Symbol [part (sg catOpts)] ;;
    addRule catSg (terminalRHS ("{" ++ sg catOpts ++ "}")) ;;
    (if negb (person catOpts) then addRule catPl (nontermRHS [catSg])
     else ret tt) ;;
    ret (Some catSg)
  else ret None.

(** The part under the last [if (!catOpts.person)]. *)
Definition plusSymbols (required : Required) (catOpts : CatOpts)
                       (catPl : SymbolObj) : M (option SymbolObj) :=
  if negb (person catOpts) then
    catPlPlus <- Symbol [part (pl catOpts ++ "+")] ;;
    addRule catPlPlus (nontermRHS [catPl]) ;;
    andCatPlPlus <- Symbol [part "and"; part (pl catOpts ++ "+")] ;;
    addRule andCatPlPlus (nontermRHS [operators_and required; catPlPlus]) ;;
    addRule catPlPlus (nontermRHS [catPl; andCatPlPlus]) ;;
    orCatPlPlus <- Symbol [part "or"; part (pl catOpts ++ "+")] ;;
    addRule orCatPlPlus (nontermRHS [operators_union required; catPlPlus]) ;;
    addRule catPlPlus (nontermRHS [catPl; orCatPlPlus]) ;;
    ret (Some catPlPlus)
  else ret None.

(** [function Category(catOpts)], with the [start] of the module. *)
Definition Category (required : Required) (start : SymbolObj) (catOpts : CatOpts)
  : M CategoryObj :=
  let nameSg := sg catOpts in
  let namePl := pl catOpts in
  let whoOrThat := if person catOpts then "who" else "that" in
  lhs <- Symbol [part nameSg; part "lhs"] ;;
  addRule lhs (terminalRHS (emptyTermSym required)) ;;
  head <- Symbol [part nameSg; part "head"] ;;
  poss <- mayPoss catOpts lhs head ;;
  lhsHead <- Symbol [part nameSg; part "lhs"; part nameSg; part "head"] ;;
  addRule lhsHead (ruleOpts [lhs; head] (Some (Numbers.ofNat 1)) None None) ;;
  passivePlus <- Symbol [part nameSg; part "passive+"] ;;
  passive <- Symbol [part nameSg; part "passive"] ;;
  addRule passivePlus (nontermRHS [passive]) ;;
  andPassivePlus <- Symbol [part "and"; part nameSg; part "passive+"] ;;
  addRule andPassivePlus (nontermRHS [operators_and required; passivePlus]) ;;
  addRule passivePlus (nontermRHS [passive; andPassivePlus]) ;;
  orPassivePlus <- Symbol [part "or"; part nameSg; part "passive+"] ;;
  addRule orPassivePlus (nontermRHS [operators_union required; passivePlus]) ;;
  addRule passivePlus (nontermRHS [passive; orPassivePlus]) ;;
  reducedNoTense <- Symbol [part nameSg; part "reduced"; part "no"; part "tense"] ;;
  addRule reducedNoTense (nontermRHS [passivePlus]) ;;
  reduced <- Symbol [part nameSg; part "reduced"] ;;
  addRule reduced (nontermRHS [reducedNoTense]) ;;
  subjFilter <- Symbol [part nameSg; part "subj"; part "filter"] ;;
  objFilterPlus <- Symbol [part nameSg; part "obj"; part "filter+"] ;;
  objFilter <- Symbol [part nameSg; part "obj"; part "filter"] ;;
  addRule objFilterPlus (nontermRHS [objFilter]) ;;
  andObjFilterPlus <- Symbol [part "and"; part nameSg; part "obj"; part "filter+"] ;;
  addRule andObjFilterPlus (nontermRHS [operators_and required; objFilterPlus]) ;;
  addRule objFilterPlus (nontermRHS [objFilter; andObjFilterPlus]) ;;
  orObjFilterPlus <- Symbol [part "or"; part nameSg; part "obj"; part "filter+"] ;;
  addRule orObjFilterPlus (nontermRHS [operators_union required; objFilterPlus]) ;;
  addRule objFilterPlus (nontermRHS [objFilter; orObjFilterPlus]) ;;
  rhsExt <- Symbol [part nameSg; part "rhs"; part "ext"] ;;
  addRule rhsExt (nontermRHS [objFilterPlus]) ;;
  rhs <- Symbol [part nameSg; part "rhs"] ;;
  addRule rhs (terminalRHS (emptyTermSym required)) ;;
  addRule rhs (nontermRHS [reduced]) ;;
  addRule rhs (nontermRHS [rhsExt]) ;;
  addRule rhs (nontermRHS [rhs; stopWords_sentenceAdverbial required]) ;;
  noRelativeBase <- Symbol [part nameSg; part "no"; part "relative"; part "base"] ;;
  addRule noRelativeBase (ruleOpts [lhsHead; rhs] (Some (Numbers.ofNat 1)) None None) ;;
  noRelative <- Symbol [part nameSg; part "no"; part "relative"] ;;
  addRule noRelative (nontermRHS [noRelativeBase]) ;;
  noRelativePossessive <-
    Symbol [part nameSg; part "no"; part "relative"; part "possessive"] ;;
  addRule noRelative (ruleOpts [noRelativePossessive; rhs] (Some (Numbers.ofNat 1)) None None) ;;
  filter <- Symbol [part nameSg; part "filter"] ;;
  addRule filter (nontermRHS [subjFilter]) ;;
  addRule filter (nontermRHS [objFilter]) ;;
  addRule filter (nontermRHS [filter; stopWords_sentenceAdverbial required]) ;;
  addRule filter (nontermRHS [auxVerbs_beNon1Sg required; noRelative]) ;;
  addRule filter (nontermRHS [auxVerbs_beNon1Sg required; reducedNoTense]) ;;
  bePastReducedNoTense <-
    Symbol [part "be"; part "past"; part nameSg; part "reduced"; part "no";
            part "tense"] ;;
  addRule bePastReducedNoTense
          (nontermRHS [auxVerbs_bePast required; reducedNoTense]) ;;
  addRule filter (ruleOpts [auxVerbs_have required; bePastReducedNoTense]
                           None None (Some "pl")) ;;
  filterPlus <- Symbol [part nameSg; part "filter+"] ;;
  addRule filterPlus (nontermRHS [filter]) ;;
  andFilterPlus <- Symbol [part "and"; part nameSg; part "filter+"] ;;
  addRule andFilterPlus (nontermRHS [operators_and required; filterPlus]) ;;
  addRule filterPlus (nontermRHS [filter; andFilterPlus]) ;;
  relPronounFilterPlus <- Symbol [part whoOrThat; part nameSg; part "filter+"] ;;
  addRule relPronounFilterPlus
          (nontermRHS [if person catOpts then relPronouns_who required
                        else relPronouns_that required; filterPlus]) ;;
  andRelPronounFilterPlus <-
    Symbol [part "and"; part whoOrThat; part nameSg; part "filter+"] ;;
  addRule andRelPronounFilterPlus
          (nontermRHS [operators_and required; relPronounFilterPlus]) ;;
  addRule filterPlus (nontermRHS [filter; andRelPronounFilterPlus]) ;;
  orFilterPlus <- Symbol [part "or"; part nameSg; part "filter+"] ;;
  addRule orFilterPlus (nontermRHS [operators_union required; filterPlus]) ;;
  addRule filterPlus (nontermRHS [filter; orFilterPlus]) ;;
  orRelPronounFilterPlus <-
    Symbol [part "or"; part whoOrThat; part nameSg; part "filter+"] ;;
  addRule orRelPronounFilterPlus
          (nontermRHS [operators_union required; relPronounFilterPlus]) ;;
  addRule filterPlus (nontermRHS [filter; orRelPronounFilterPlus]) ;;
  relativeclause <- Symbol [part nameSg; part "relativeclause"] ;;
  (if person catOpts
   then addRule relativeclause (nontermRHS [relPronouns_who required; filterPlus])
   else addRule relativeclause
                (nontermRHS [relPronouns_that required; filterPlus])) ;;
  plural <- Symbol [part nameSg; part "plural"] ;;
  addRule plural (ruleOpts [noRelative] None (Some (intersectSemantic required))
                           None) ;;
  addRule plural (ruleOpts [noRelative; relativeclause] None
                           (Some (intersectSemantic required)) None) ;;
  catPl <- Symbol [part namePl] ;;
  addRule catPl (nontermRHS [plural]) ;;
  catSg <- entitySymbol catOpts catPl ;;
  catPlPlus <- plusSymbols required catOpts catPl ;;
  addRule start (nontermRHS [catPl]) ;;
  ret {| nameSg := nameSg; namePl := namePl; lhs := lhs; head := head;
         headMayPoss := fst poss; possessible := snd poss;
         passive := passive; subjFilter := subjFilter; objFilter := objFilter;
         noRelativePossessive := noRelativePossessive; plural := plural;
         catPl := catPl; catSg := catSg; catPlPlus := catPlPlus |}.

End CategoryJs.

(** ** The vocabulary of the further properties: how a grammar grows *)

Module GrowthSpec.
Import SymbolJs.

(** [grammar'] has the symbols of [grammar], each with the rules it had,
    in their order, and maybe more after them. *)
Definition extends (grammar grammar' : Grammar) : Prop :=
  forall sym rules,
    get grammar sym = Some rules ->
    exists more, get grammar' sym = Some (rules ++ more).

(** A computation that, returning or throwing, leaves a grammar that
    extends the one it was run on. *)
Definition grows {A} (m : M A) : Prop :=
  forall grammar, extends grammar (snd (m grammar)).

(** The error of a symbol made twice. *)
Definition duplicateSymbol : Exn :=
  {| thrown := "duplicate Symbol"; logged := "duplicate Symbol" |}.

(** The symbols [grammar0] had are in [grammar], and all but [start] have
    the rules they had. *)
Definition framed (grammar0 : Grammar) (start : string) (grammar : Grammar)
  : Prop :=
  forall sym, hasOwnProperty grammar0 sym = true ->
              hasOwnProperty grammar sym = true
              /\ (sym <> start -> get grammar sym = get grammar0 sym).

(** Run on a grammar that is [framed] and in which [start] has the rules
    it had in [grammar0], the computation, when it returns, returns a
    value and leaves a grammar that have [post]. *)
Definition leads {A} (grammar0 : Grammar) (start : string) (m : M A)
                 (post : A -> Grammar -> Prop) : Prop :=
  forall grammar,
    framed grammar0 start grammar ->
    get grammar start = get grammar0 start ->
    match m grammar with
    | (inr a, grammar') => post a grammar'
    | (inl _, _) => True
    end.

(** The grammar is still [framed], [start] still has the rules it had,
    and the value returned has [holds]. *)
Definition kept {A} (grammar0 : Grammar) (start : string) (holds : A -> Prop)
  : A -> Grammar -> Prop :=
  fun a grammar =>
    framed grammar0 start grammar
    /\ get grammar start = get grammar0 start
    /\ holds a.

(** A symbol the constructor has made of [chunks] that [grammar0] did not
    have. *)
Definition fresh (grammar0 : Grammar) (chunks : list NamePart) (sym : SymbolObj)
  : Prop :=
  hasOwnProperty grammar0 (name sym) = false
  /\ name sym = ("[" ++ join "-" chunks ++ "]")%string.

End GrowthSpec.

(** ** The vocabulary of the further properties: a category as built *)

Module CategorySpec.
Import SymbolJs GrammarSpec CategoryJs GrowthSpec.

(** The symbols of other modules that the rules of a category have on
    their RHS. *)
Definition requiredSymbols (required : Required) : list SymbolObj :=
  [relPronouns_who required; relPronouns_that required;
   auxVerbs_beNon1Sg required; auxVerbs_bePast required;
   auxVerbs_have required; stopWords_sentenceAdverbial required;
   operators_and required; operators_union required].

(** Run on a grammar that is [constructed] and has the symbols named in
    [known], the computation, returning or throwing, leaves a grammar
    that is [constructed] and extends it. *)
Definition builds {A} (known : list string) (m : M A) : Prop :=
  forall grammar,
    constructed grammar ->
    (forall sym, In sym known -> hasOwnProperty grammar sym = true) ->
    constructed (snd (m grammar)) /\ extends grammar (snd (m grammar)).

End CategorySpec.
(** ** A category on a small grammar *)

Module CategoryExamples.
Import SymbolJs CategoryJs.

Definition sym (symName : string) : SymbolObj := {| name := symName |}.

(** The symbols and the semantic of the modules [Category] requires. *)
Definition required : Required :=
  {| emptyTermSym := "<empty>";
     relPronouns_who := sym "[who]";
     relPronouns_that := sym "[that]";
     auxVerbs_beNon1Sg := sym "[be-non-1-sg]";
     auxVerbs_bePast := sym "[be-past]";
     auxVerbs_have := sym "[have]";
     stopWords_sentenceAdverbial := sym "[sentence-adverbial]";
     operators_and := sym "[and]";
     operators_union := sym "[union]";
     intersectSemantic := {| function := "intersect"; semCost := Numbers.zero |} |}.

(** The grammar after [new g.Symbol('start')] and the symbols of the
    modules required, with one rule of another category on [start]. *)
Definition makeStart : M unit :=
  start <- newStart ;;
  Symbol [part "who"] ;;
  Symbol [part "that"] ;;
  Symbol [part "be"; part "non"; part "1"; part "sg"] ;;
  Symbol [part "be"; part "past"] ;;
  Symbol [part "have"] ;;
  Symbol [part "sentence"; part "adverbial"] ;;
  Symbol [part "and"] ;;
  Symbol [part "union"] ;;
  repos <- Symbol [part "repos"] ;;
  addRule start (nontermRHS [repos]).

Definition startGrammar : Grammar := snd (makeStart []).

(** [new Category({ sg: 'user', pl: 'users', person: true, entity: true })] *)
Definition userOpts : CatOpts :=
  {| sg := "user"; pl := "users"; person := true; entity := true |}.

Definition userCategory : CategoryObj :=
  {| nameSg := "user"; namePl := "users";
     lhs := sym "[user-lhs]"; head := sym "[user-head]";
     headMayPoss := None; possessible := None;
     passive := sym "[user-passive]";
     subjFilter := sym "[user-subj-filter]";
     objFilter := sym "[user-obj-filter]";
     noRelativePossessive := sym "[user-no-relative-possessive]";
     plural := sym "[user-plural]";
     catPl := sym "[users]"; catSg := Some (sym "[user]");
     catPlPlus := None |}.

Definition userGrammar : Grammar :=
  snd (Category required (sym "[start]") userOpts startGrammar).

(** [new Category({ sg: 'fish', pl: 'fish', entity: true })] *)
Definition fishOpts : CatOpts :=
  {| sg := "fish"; pl := "fish"; person := false; entity := true |}.

End CategoryExamples.

(** * Properties *)

(** ** Objects *)

Section ObjFacts.
Variable V : Type.
Implicit Types (o : obj V) (k : string) (v : V).

Lemma get_set_same o k v : get (set o k v) k = Some v.
Proof.
  induction o as [|[k' v'] o IH]; simpl.
  - now rewrite String.eqb_refl.
  - destruct (String.eqb k' k) eqn:E; simpl; rewrite E; auto.
Qed.

Lemma get_set_other o k v k' : k' <> k -> get (set o k v) k' = get o k'.
Proof.
  intros Hne. induction o as [|[k0 v0] o IH]; simpl.
  - destruct (String.eqb k k') eqn:E; auto.
    apply String.eqb_eq in E. congruence.
  - destruct (String.eqb k0 k) eqn:E; simpl.
    + apply String.eqb_eq in E. subst k0.
      destruct (String.eqb k k') eqn:E'; auto.
      apply String.eqb_eq in E'. congruence.
    + now rewrite IH.
Qed.

Lemma set_fresh o k v : get o k = None -> set o k v = o ++ [(k, v)].
Proof.
  induction o as [|[k' v'] o IH]; simpl; auto.
  destruct (String.eqb k' k); [discriminate|].
  intros H. now rewrite IH.
Qed.

Lemma get_In o k v : get o k = Some v -> In (k, v) o.
Proof.
  induction o as [|[k' v'] o IH]; simpl; [discriminate|].
  destruct (String.eqb k' k) eqn:E.
  - apply String.eqb_eq in E. intros [= ->]. subst. now left.
  - auto.
Qed.

Lemma In_keys_get o k : In k (keys o) -> exists v, get o k = Some v.
Proof.
  induction o as [|[k' v'] o IH]; simpl; [tauto|].
  intros [->|H].
  - rewrite String.eqb_refl. eauto.
  - destruct (String.eqb k' k); eauto.
Qed.

Lemma get_In_keys o k v : get o k = Some v -> In k (keys o).
Proof.
  intros H. apply get_In in H. unfold keys.
  change k with (fst (k, v)). now apply in_map.
Qed.
End ObjFacts.

(** *** The keys [for ... in] visits *)

Lemma insertIndex_In n k sorted p :
  In p (insertIndex n k sorted) <-> p = (n, k) \/ In p sorted.
Proof.
  induction sorted as [|[m k'] sorted IH]; simpl.
  - split; intros [H|H]; auto.
  - destruct (N.leb n m); simpl.
    + split; intros [H|H]; auto.
    + rewrite IH. split; intros [H|[H|H]]; auto.
Qed.

Lemma indexKeys_In ks n k :
  In (n, k) (indexKeys ks) <-> In k ks /\ arrayIndex k = Some n.
Proof.
  induction ks as [|k0 ks IH]; simpl; [tauto|].
  destruct (arrayIndex k0) as [n0|] eqn:E.
  - rewrite insertIndex_In, IH. split.
    + intros [[= -> ->]|[H1 H2]]; auto.
    + intros [[->|H1] H2]; [left; congruence | auto].
  - rewrite IH. split; [tauto|].
    intros [[->|H1] H2]; [congruence | auto].
Qed.

(** [for ... in] visits the keys of the object, each of them. *)
Lemma forIn_In {V} (o : obj V) k : In k (forIn o) <-> In k (keys o).
Proof.
  unfold forIn, nameKeys. rewrite in_app_iff, in_map_iff, filter_In. split.
  - intros [[[n k'] [<- H]]|[H _]]; [|exact H].
    now apply indexKeys_In in H.
  - intros H. destruct (arrayIndex k) as [n|] eqn:E.
    + left. exists (n, k). split; [reflexivity|]. now apply indexKeys_In.
    + right. auto.
Qed.

(** An object with one key. *)
Lemma forIn_one {V} k (v : V) : forIn [(k, v)] = [k].
Proof.
  unfold forIn, nameKeys. simpl. now destruct (arrayIndex k).
Qed.

(** With no array index among the keys, [for ... in] visits them in
    insertion order. *)
Lemma forIn_names {V} (o : obj V) :
  (forall k, In k (keys o) -> arrayIndex k = None) -> forIn o = keys o.
Proof.
  unfold forIn. intros H.
  assert (E : indexKeys (keys o) = [] /\ nameKeys (keys o) = keys o).
  { induction (keys o) as [|k ks IH]; [split; reflexivity|].
    destruct IH as [E1 E2]; [intros k0 H0; apply H; now right|].
    unfold nameKeys in *. simpl. rewrite (H k (or_introl eq_refl)).
    split; [exact E1 | now rewrite E2]. }
  destruct E as [-> ->]. reflexivity.
Qed.

(** ** Symbols and rules *)

Module SymbolFacts.
Import SymbolJs SymbolSpec.

Lemma arraysMatch_eq a b : arraysMatch a b = true <-> a = b.
Proof.
  revert b. induction a as [|x a IH]; destruct b as [|y b]; simpl;
    try (split; [discriminate | congruence]); [tauto|].
  rewrite andb_true_iff, String.eqb_eq, IH.
  split; [intros [-> ->]; reflexivity | intros [= -> ->]; auto].
Qed.

Lemma ruleExists_spec this newRule g :
  exists b, ruleExists this newRule g = (inr b, g) /\
    (b = true <-> exists rule, In rule (rulesIn g this) /\ RHS rule = RHS newRule).
Proof.
  unfold ruleExists, bind, rulesOf, ret, rulesIn.
  eexists; split; [reflexivity|].
  rewrite existsb_exists. split; intros [r [Hin H]]; exists r; split; auto;
    now apply arraysMatch_eq.
Qed.

Lemma calcCost_spec this penalty g :
  exists c, calcCost this penalty g = (inr c, g) /\
    c = costAt (List.length (rulesIn g this)) (orZero penalty).
Proof. unfold calcCost, bind, rulesOf, ret, rulesIn, costAt. eauto. Qed.

(** *** Costs, as binary64 numbers *)

(** A number that is not below zero, [-0] included, or is [NaN]. *)
Definition notNegative (x : Number) : Prop :=
  match x with
  | S754_zero s | S754_infinity s | S754_finite s _ _ => s = false
  | S754_nan => True
  end.

Lemma binary_round_aux_sign sx mx ex lx :
  match binary_round_aux Numbers.prec Numbers.emax sx mx ex lx with
  | S754_zero s | S754_infinity s | S754_finite s _ _ => s = sx
  | S754_nan => True
  end.
Proof.
  unfold binary_round_aux.
  destruct (shr_fexp _ _ _ _ _) as [mrs' e'].
  destruct (shr_fexp _ _ _ _ _) as [mrs'' e''].
  destruct (shr_m mrs''); auto.
  destruct (Z.leb _ _); reflexivity.
Qed.

Lemma ofNat_notNegative n : notNegative (Numbers.ofNat n).
Proof.
  unfold Numbers.ofNat, binary_normalize.
  destruct (Z.of_nat n) eqn:E; [reflexivity | | lia].
  unfold binary_round. destruct (shl_align _ _ _) as [mz ez].
  apply binary_round_aux_sign.
Qed.

(** [n * 1e-7] is not below zero. *)
Lemma baseCost_notNegative n :
  notNegative (Numbers.mul (Numbers.ofNat n) c1e_7).
Proof.
  pose proof (ofNat_notNegative n) as H.
  unfold Numbers.mul, c1e_7, SFmul.
  destruct (Numbers.ofNat n) as [s|s| |s m e]; simpl in *; subst; auto.
  apply binary_round_aux_sign.
Qed.

(** Adding a zero, of either sign, to a number that is not below zero
    gives the number. *)
Lemma add_zero x s : notNegative x -> Numbers.add x (S754_zero s) = x.
Proof.
  unfold Numbers.add, SFadd.
  destruct x as [sx|sx| |sx m e]; simpl; intros H; subst; try reflexivity.
  now destruct s.
Qed.

(** The cost with the penalty [costPenalty || 0] is the cost with the
    penalty itself, unless that is [NaN]. *)
Lemma costAt_orZero n c :
  Numbers.isNaN c = false -> costAt n (orZero (Some c)) = costAt n c.
Proof.
  unfold orZero, costAt. intros Hnan.
  destruct c as [s|s| |s m e]; try reflexivity; [|discriminate].
  change (Numbers.falsy (S754_zero s)) with true. cbv iota.
  unfold Numbers.zero.
  now rewrite !add_zero by apply baseCost_notNegative.
Qed.

Lemma costAt_zero n :
  costAt n Numbers.zero = Numbers.mul (Numbers.ofNat n) c1e_7.
Proof. unfold costAt, Numbers.zero. apply add_zero, baseCost_notNegative. Qed.

Lemma bind_returns {A B} {m : M A} {k : A -> M B} {g a g'} :
  m g = (inr a, g') -> bind m k g = k a g'.
Proof. unfold bind. now intros ->. Qed.

Lemma guard_passes {c : bool} {l t} g :
  c = false -> (if c then throw l t else ret tt) g = (inr tt, g).
Proof. now intros ->. Qed.

(** What [newTermRule] and [newNontermRule] return for options that pass
    the validation; neither changes the grammar. *)
Lemma newRule_spec this opts g :
  passesValidation opts = true ->
  exists rule,
    (if oTerminal opts then newTermRule this opts
     else newNontermRule this opts) g = (inr rule, g)
    /\ RHS rule = rhsOf opts
    /\ cost rule = costAt (List.length (rulesIn g this))
                          (orZero (option_map semCost (oSemantic opts))).
Proof.
  unfold passesValidation, rhsOf.
  destruct (oTerminal opts) eqn:Ht.
  - intros Hv. apply negb_true_iff in Hv.
    unfold newTermRule.
    rewrite (bind_returns (guard_passes _ Hv)).
    destruct (calcCost_spec this None g) as [c [Hcalc Hc]].
    rewrite (bind_returns Hcalc).
    eexists; split; [reflexivity|]. cbn.
    unfold illFormedOpts in Hv. apply negb_false_iff in Hv.
    repeat (apply andb_true_iff in Hv; destruct Hv as [Hv ?]).
    destruct (oRHS opts) as [[s|l]|]; try discriminate.
    destruct (oSemantic opts); try discriminate.
    split; [reflexivity|]. rewrite Hc. reflexivity.
  - intros Hv.
    apply andb_true_iff in Hv; destruct Hv as [Hv Htr].
    apply andb_true_iff in Hv; destruct Hv as [Hv Hlen].
    apply negb_true_iff in Hv.
    unfold newNontermRule.
    rewrite (bind_returns (guard_passes _ Hv)).
    assert (Hlt : Nat.ltb 2 (List.length (rhsSymbols (oRHS opts))) = false).
    { apply Nat.ltb_ge. now apply Nat.leb_le. }
    unfold ruleErr.
    rewrite (bind_returns (guard_passes _ Hlt)).
    assert (Hrhs : map name (rhsSymbols (oRHS opts))
                   = match oRHS opts with
                     | Some (RHSString s) => [s]
                     | Some (RHSSymbols syms) => map name syms
                     | None => []
                     end).
    { unfold illFormedOpts in Hv. apply negb_false_iff in Hv.
      repeat (apply andb_true_iff in Hv; destruct Hv as [Hv ?]).
      destruct (oRHS opts) as [[s|l]|]; try discriminate. reflexivity. }
    assert (Hcalc : exists c,
               match oSemantic opts with
               | Some sem => calcCost this (Some (semCost sem))
               | None => calcCost this None
               end g = (inr c, g)
               /\ c = costAt (List.length (rulesIn g this))
                             (orZero (option_map semCost (oSemantic opts)))).
    { destruct (oSemantic opts) as [sem|];
        match goal with
        | |- context [calcCost ?t ?p ?g] =>
            destruct (calcCost_spec t p g) as [c [-> Hc]]
        end; exists c; (split; [reflexivity|]); exact Hc. }
    destruct Hcalc as [c [Hcalc Hc]].
    rewrite (bind_returns Hcalc).
    assert (Hguard :
              match oTranspositionCost opts with
              | Some _ =>
                  if negb (Nat.eqb (List.length (rhsSymbols (oRHS opts))) 2)
                  then throw "nonterminal rules with transposition-costs must have 2 RHS symbols"
                             "ill-formed rule"
                  else ret tt
              | None => ret tt
              end g = (inr tt, g)).
    { destruct (oTranspositionCost opts); [|reflexivity]. now rewrite Htr. }
    rewrite (bind_returns Hguard).
    eexists; split; [reflexivity|]. cbn. now split.
Qed.

Lemma bind_ret {A B} (a : A) (k : A -> M B) : bind (ret a) k = k a.
Proof. reflexivity. Qed.

(** A call of [addRule] that returns was given options that pass the
    validation. *)
Lemma addRule_returns_valid this opts g g' :
  addRule this opts g = (inr tt, g') -> passesValidation opts = true.
Proof.
  unfold addRule, passesValidation.
  destruct (isNone (oRHS opts)); [discriminate|].
  cbv iota. rewrite bind_ret.
  destruct (oTerminal opts).
  - unfold newTermRule.
    destruct (illFormedOpts termRuleOptsSchema opts); [discriminate|reflexivity].
  - unfold newNontermRule, ruleErr.
    destruct (illFormedOpts nontermRuleOptsSchema opts); [discriminate|].
    cbv iota. rewrite bind_ret.
    destruct (Nat.ltb 2 (List.length (rhsSymbols (oRHS opts)))) eqn:Hlt;
      [discriminate|].
    cbv iota. rewrite bind_ret.
    apply Nat.ltb_ge in Hlt. apply Nat.leb_le in Hlt. rewrite Hlt.
    intros H. cbn [negb andb].
    destruct (oTranspositionCost opts); [|reflexivity].
    destruct (Nat.eqb (List.length (rhsSymbols (oRHS opts))) 2); [reflexivity|].
    exfalso. revert H.
    destruct (oSemantic opts); unfold bind;
      match goal with
      | |- context [calcCost ?t ?p ?g] =>
          destruct (calcCost_spec t p g) as [c [-> _]]
      end; discriminate.
Qed.

(** [addRule] on options that pass the validation: a duplicate RHS throws
    and leaves the grammar, any other RHS appends the rule. *)
Lemma addRule_valid this opts g :
  passesValidation opts = true ->
  exists rule dup,
    RHS rule = rhsOf opts
    /\ cost rule = costAt (List.length (rulesIn g this))
                          (orZero (option_map semCost (oSemantic opts)))
    /\ (dup = true <-> hasRuleWithRHS g this opts)
    /\ addRule this opts g
       = if dup then (inl duplicateRule, g)
         else (inr tt, set g (name this) (rulesIn g this ++ [rule])).
Proof.
  intros Hv.
  destruct (newRule_spec this opts g Hv) as [rule [Hnew [Hrhs Hcost]]].
  destruct (ruleExists_spec this rule g) as [dup [Hex Hdup]].
  exists rule, dup. repeat split; auto.
  - intros ->. unfold hasRuleWithRHS. rewrite <- Hrhs. now apply Hdup.
  - unfold hasRuleWithRHS. rewrite <- Hrhs. now apply Hdup.
  - unfold addRule.
    assert (HR : isNone (oRHS opts) = false).
    { unfold passesValidation, illFormedOpts in Hv.
      destruct (oRHS opts); [reflexivity|].
      destruct (oTerminal opts); discriminate. }
    rewrite (bind_returns (guard_passes _ HR)); cbv beta.
    rewrite (bind_returns Hnew); cbv beta.
    rewrite (bind_returns Hex); cbv beta.
    destruct dup; [reflexivity|].
    rewrite bind_ret. reflexivity.
Qed.

(** The constructor, case by case. *)
Lemma Symbol_spec symNameChunks grammar :
  let symName := ("[" ++ join "-" symNameChunks ++ "]")%string in
  Symbol symNameChunks grammar =
    if existsb isUndefined symNameChunks
    then (inl {| thrown := "ill-formed Symbol";
                 logged := "undefined String in Symbol name" |}, grammar)
    else if hasOwnProperty grammar symName
    then (inl {| thrown := "duplicate Symbol"; logged := "duplicate Symbol" |},
          grammar)
    else (inr {| name := symName |}, set grammar symName []).
Proof.
  intros symName. unfold Symbol.
  destruct (existsb isUndefined symNameChunks); [reflexivity|].
  rewrite bind_ret. unfold bind, read. cbn [name]. fold symName.
  destruct (hasOwnProperty grammar symName) eqn:E; reflexivity.
Qed.

Lemma NoDup_snoc {A} (l : list A) (x : A) :
  NoDup l -> ~ In x l -> NoDup (l ++ [x]).
Proof.
  intros Hl Hx. induction Hl as [|y l Hy Hl IH]; simpl.
  - constructor; [tauto | constructor].
  - constructor.
    + rewrite in_app_iff. simpl. intros [H|[H|[]]]; [tauto|].
      subst. apply Hx. now left.
    + apply IH. intros H. apply Hx. now right.
Qed.

Lemma rulesIn_noDuplicate g this :
  noDuplicateRHS g -> NoDup (map RHS (rulesIn g this)).
Proof.
  intros H. unfold rulesIn.
  destruct (get g (name this)) eqn:E; [eauto | constructor].
Qed.

Lemma authored_noDuplicateRHS g : authored g -> noDuplicateRHS g.
Proof.
  induction 1 as [|chunks g this g' _ IH HS|this opts g g' _ IH HA].
  - intros sym rules. discriminate.
  - rewrite Symbol_spec in HS. cbv zeta in HS.
    remember ("[" ++ join "-" chunks ++ "]")%string as symName.
    destruct (existsb isUndefined chunks); [discriminate|].
    destruct (hasOwnProperty g symName); [discriminate|].
    injection HS as <- <-.
    intros sym rules.
    destruct (String.eqb_spec sym symName) as [->|Hne].
    + rewrite get_set_same. intros [= <-]. constructor.
    + rewrite get_set_other by assumption. apply IH.
  - pose proof (addRule_returns_valid _ _ _ _ HA) as Hv.
    destruct (addRule_valid this opts g Hv) as [rule [dup [Hrhs [_ [Hdup HA']]]]].
    rewrite HA in HA'. destruct dup; [discriminate|].
    injection HA' as ->.
    intros sym rules.
    destruct (String.eqb_spec sym (name this)) as [->|Hne].
    + rewrite get_set_same. intros [= <-].
      rewrite map_app. apply NoDup_snoc.
      * now apply rulesIn_noDuplicate.
      * simpl. intros Hin. apply in_map_iff in Hin.
        destruct Hin as [r [Hr Hin]].
        assert (false = true); [|discriminate].
        apply Hdup. exists r. split; congruence.
    + rewrite get_set_other by assumption. apply IH.
Qed.

(** C9. The constructor of [Symbol] either throws and leaves the grammar
    as it was -- which it does exactly when a part of the name is
    [undefined] or the joined, bracketed name is already a key of the
    grammar -- or returns the symbol of that name, which was no key of the
    grammar, and the grammar with the empty rule list under that name
    added and every other entry as before. *)
Theorem Symbol_atomic (symNameChunks : list NamePart) (grammar : Grammar) :
  let symName := ("[" ++ join "-" symNameChunks ++ "]")%string in
  match Symbol symNameChunks grammar with
  | (inl e, grammar') =>
      grammar' = grammar
      /\ (existsb isUndefined symNameChunks = true
          \/ hasOwnProperty grammar symName = true)
  | (inr this, grammar') =>
      existsb isUndefined symNameChunks = false
      /\ name this = symName
      /\ hasOwnProperty grammar symName = false
      /\ grammar' = grammar ++ [(symName, [])]
      /\ get grammar' symName = Some []
      /\ forall sym, sym <> symName -> get grammar' sym = get grammar sym
  end.
Proof.
  intros symName. rewrite Symbol_spec. fold symName.
  destruct (existsb isUndefined symNameChunks); [auto|].
  destruct (hasOwnProperty grammar symName) eqn:E; [auto|].
  assert (Hget : get grammar symName = None).
  { unfold hasOwnProperty in E. now destruct (get grammar symName). }
  repeat split; auto.
  - now apply set_fresh.
  - apply get_set_same.
  - intros sym Hne. now apply get_set_other.
Qed.

(** [addRule] on options that do not pass the validation throws the
    validation's error, whatever the grammar. *)
Lemma addRule_invalid this opts g :
  passesValidation opts = false ->
  addRule this opts g = (inl (validationError opts), g).
Proof.
  unfold passesValidation, validationError, addRule.
  destruct (isNone (oRHS opts)) eqn:HR; [reflexivity|].
  cbv iota. rewrite bind_ret.
  destruct (oTerminal opts) eqn:Ht.
  - intros Hv. apply negb_false_iff in Hv.
    unfold newTermRule. now rewrite Hv.
  - unfold newNontermRule, ruleErr.
    destruct (illFormedOpts nontermRuleOptsSchema opts); [reflexivity|].
    cbv iota. rewrite bind_ret. cbn [negb andb].
    destruct (Nat.ltb 2 (List.length (rhsSymbols (oRHS opts)))) eqn:Hlt;
      [reflexivity|].
    apply Nat.ltb_ge in Hlt. apply Nat.leb_le in Hlt. rewrite Hlt.
    cbv iota. rewrite bind_ret. cbn [andb].
    destruct (oTranspositionCost opts) as [t|]; [|discriminate].
    intros Hlen. rewrite Hlen. cbn [negb].
    destruct (oSemantic opts); unfold bind;
      match goal with
      | |- context [calcCost ?t ?p ?g] =>
          destruct (calcCost_spec t p g) as [c [-> _]]
      end; reflexivity.
Qed.

Lemma validationError_other opts : validationError opts <> duplicateRule.
Proof.
  unfold validationError, duplicateRule.
  repeat match goal with
         | |- (if ?c then _ else _) <> _ => destruct c
         end; discriminate.
Qed.

(** C5, amended.  When [addRule] returns, it has appended one rule to the
    rules of the symbol, and the cost of that rule is the binary64 number
    that [n * 1e-7 + penalty] computes, product and sum each rounded,
    where [n] is the number of rules the symbol had before.  With a
    semantic whose cost is not [NaN] the penalty is that cost.  Without a
    semantic the penalty is [0], and the cost is [n * 1e-7].  With a
    semantic whose cost is [NaN] the cost is [n * 1e-7] too, as
    [costPenalty || 0] is [0] then. *)
Theorem addRule_cost (this : SymbolObj) (opts : RuleOpts) (grammar grammar' : Grammar) :
  addRule this opts grammar = (inr tt, grammar') ->
  exists newRule,
    get grammar' (name this) = Some (rulesIn grammar this ++ [newRule])
    /\ (forall sem,
          oSemantic opts = Some sem -> Numbers.isNaN (semCost sem) = false ->
          cost newRule
          = Numbers.add
              (Numbers.mul (Numbers.ofNat (List.length (rulesIn grammar this)))
                           c1e_7)
              (semCost sem))
    /\ (oSemantic opts = None ->
        cost newRule
        = Numbers.add
            (Numbers.mul (Numbers.ofNat (List.length (rulesIn grammar this)))
                         c1e_7)
            Numbers.zero
        /\ cost newRule
           = Numbers.mul (Numbers.ofNat (List.length (rulesIn grammar this)))
                         c1e_7)
    /\ (forall sem,
          oSemantic opts = Some sem -> Numbers.isNaN (semCost sem) = true ->
          cost newRule
          = Numbers.mul (Numbers.ofNat (List.length (rulesIn grammar this)))
                        c1e_7).
Proof.
  intros HA.
  pose proof (addRule_returns_valid _ _ _ _ HA) as Hv.
  destruct (addRule_valid this opts grammar Hv) as [rule [dup [_ [Hc [_ HA']]]]].
  rewrite HA in HA'. destruct dup; [discriminate|].
  injection HA' as ->.
  exists rule. split; [apply get_set_same|].
  rewrite Hc. split; [|split].
  - intros sem -> Hnan. cbn [option_map]. now apply costAt_orZero.
  - intros ->. cbn [option_map orZero]. split; [reflexivity | apply costAt_zero].
  - intros sem -> Hnan. cbn [option_map orZero].
    destruct (semCost sem); try discriminate Hnan.
    cbn [Numbers.falsy]. apply costAt_zero.
Qed.

(** C6, amended.  In a grammar built by calls of [new Symbol] and
    [addRule] that returned, adding a rule whose options pass the
    validation of [addRule] fails with the duplicate-rule error if and
    only if the symbol already has a rule with the same RHS; adding a
    rule whose options do not pass it fails with the error of the
    validation, which is another, and does so whatever rules the symbol
    has; and no two rules of a symbol of that grammar have the same
    RHS. *)
Theorem addRule_duplicate (grammar : Grammar) :
  authored grammar ->
  (forall this opts,
      passesValidation opts = true ->
      (fst (addRule this opts grammar) = inl duplicateRule
       <-> hasRuleWithRHS grammar this opts))
  /\ (forall this opts,
         passesValidation opts = false ->
         addRule this opts grammar = (inl (validationError opts), grammar)
         /\ validationError opts <> duplicateRule)
  /\ noDuplicateRHS grammar.
Proof.
  intros Hg. split; [|split; [|now apply authored_noDuplicateRHS]].
  - intros this opts Hv.
    destruct (addRule_valid this opts grammar Hv) as [rule [dup [_ [_ [Hdup ->]]]]].
    rewrite <- Hdup. destruct dup; simpl; split; auto; discriminate.
  - intros this opts Hv. split; [now apply addRule_invalid|].
    apply validationError_other.
Qed.

End SymbolFacts.

Module SymbolExamples.
Import SymbolJs SymbolSpec SymbolFacts Examples.

Lemma authored_grammar2 : authored grammar2.
Proof.
  apply (authored_addRule symX (nonterminalOpts [symA] None None) grammar1);
    [|reflexivity].
  apply (authored_Symbol [part "A"] grammar0 symA); [|reflexivity].
  apply (authored_Symbol [part "X"] [] symX); [|reflexivity].
  apply authored_empty.
Defined.

(** The second rule of [X], added with a semantic of cost 0.3, costs
    [1 * 1e-7 + 0.3], which is [0.3000001]: the binary64 number
    [5404321354284446 * 2^-54]. *)
Lemma addRule_cost_witness :
  exists newRule,
    get grammar3 (name symX) = Some (rulesIn grammar2 symX ++ [newRule])
    /\ cost newRule
       = Numbers.add
           (Numbers.mul (Numbers.ofNat (List.length (rulesIn grammar2 symX)))
                        c1e_7)
           (semCost intersectSemantic)
    /\ cost newRule = S754_finite false 5404321354284446 (-54).
Proof.
  destruct (addRule_cost symX
              (nonterminalOpts [symA; symA] (Some intersectSemantic) None)
              grammar2 grammar3 eq_refl) as [newRule [Hget [Hcost _]]].
  exists newRule. split; [exact Hget|].
  split; [exact (Hcost intersectSemantic eq_refl eq_refl)|].
  rewrite (Hcost intersectSemantic eq_refl eq_refl). vm_compute. reflexivity.
Defined.

(** The cost is not the product of the number of rules and 10^-7, nor
    that product rounded.  [X]
    has thirteen rules; the rule added next costs [13 * 1e-7], which in
    binary64 is [6139076427730538 * 2^-72], printed
    [0.0000012999999999999998].  The product of 13 and 10^-7 lies between
    that number and the next, [6139076427730539 * 2^-72], printed
    [0.0000013], and nearer to the next.  And a rule added with a
    semantic whose cost is [NaN] costs [n * 1e-7], not [NaN]. *)
Lemma addRule_cost_rounded :
  List.length (rulesIn grammar13 symX) = 13
  /\ (exists newRule,
         get (snd (addRule symX (terminalOpts "n") grammar13)) (name symX)
         = Some (rulesIn grammar13 symX ++ [newRule])
         /\ cost newRule = S754_finite false 6139076427730538 (-72))
  /\ (6139076427730538 * 10 ^ 7 < 13 * 2 ^ 72 < 6139076427730539 * 10 ^ 7)%Z
  /\ (6139076427730539 * 10 ^ 7 - 13 * 2 ^ 72
      < 13 * 2 ^ 72 - 6139076427730538 * 10 ^ 7)%Z
  /\ (exists newRule,
         get (snd (addRule symX (nonterminalOpts [symA; symA] (Some nanSemantic) None)
                           grammar2)) (name symX)
         = Some (rulesIn grammar2 symX ++ [newRule])
         /\ cost newRule = c1e_7
         /\ Numbers.isNaN (cost newRule) = false).
Proof.
  split; [reflexivity|].
  split; [eexists; split; vm_compute; reflexivity|].
  split; [split; reflexivity|].
  split; [reflexivity|].
  eexists. split; [vm_compute; reflexivity|]. split; reflexivity.
Qed.

(** [X] has the rule [X -> A]; adding [{ RHS: [ A ], transpositionCost: 1 }]
    fails, but with the error of a transposition cost on a unary rule. *)
Lemma same_RHS_other_error :
  hasRuleWithRHS grammar2 symX
                 (nonterminalOpts [symA] None (Some (Numbers.ofNat 1)))
  /\ fst (addRule symX (nonterminalOpts [symA] None (Some (Numbers.ofNat 1)))
                  grammar2)
     <> inl duplicateRule
  /\ addRule symX (nonterminalOpts [symA] None (Some (Numbers.ofNat 1))) grammar2
     = (inl {| thrown := "ill-formed rule";
               logged := "nonterminal rules with transposition-costs must have 2 RHS symbols" |},
        grammar2).
Proof.
  split; [|split; [discriminate | reflexivity]].
  eexists. split; [left; reflexivity | reflexivity].
Qed.

(** [X -> A] added again fails as a duplicate; added with a [gramCase]
    the schema does not list, it fails as an ill-formed nonterminal rule,
    as it does on a symbol that has no rule. *)
Lemma addRule_duplicate_witness :
  (fst (addRule symX (nonterminalOpts [symA] None None) grammar2)
     = inl duplicateRule
   <-> hasRuleWithRHS grammar2 symX (nonterminalOpts [symA] None None))
  /\ (addRule symX (caseOpts [symA] "xyz") grammar2
      = (inl {| thrown := "ill-formed nonterminal rule"; logged := "" |},
         grammar2)
      /\ hasRuleWithRHS grammar2 symX (caseOpts [symA] "xyz"))
  /\ noDuplicateRHS grammar2.
Proof.
  destruct (addRule_duplicate grammar2 authored_grammar2) as [H1 [H2 H3]].
  split; [apply H1; reflexivity|]. split; [|exact H3].
  split; [exact (proj1 (H2 symX (caseOpts [symA] "xyz") eq_refl))|].
  eexists. split; [left; reflexivity | reflexivity].
Defined.

End SymbolExamples.

(** ** Parse trees *)

Module TreeFacts.
Import SymbolJs SymbolSpec SymbolFacts AmbiguityCheck DetectorSpec.

(** Induction on a tree, with the property for the children of a node. *)
Lemma node_induction (P : node -> Prop) :
  (forall symbol, P (Node symbol None)) ->
  (forall symbol childNodes,
      Forall P childNodes -> P (Node symbol (Some childNodes))) ->
  forall n, P n.
Proof.
  intros Hleaf Hnode. fix IH 1. intros [symbol [childNodes|]].
  - apply Hnode. induction childNodes as [|c l IHl]; constructor.
    + apply IH.
    + exact IHl.
  - apply Hleaf.
Qed.

(** *** [rulesToTree] returns *)

Lemma forRHS_returns rec fuel :
  (forall sym rules, List.length rules < fuel ->
     exists t rest, rec sym rules = Done (t, rest)
                    /\ List.length rest <= List.length rules) ->
  forall ruleRHS acc rules, List.length rules < fuel ->
    exists children rest,
      forRHS rec ruleRHS acc rules = Done (children, rest)
      /\ List.length rest <= List.length rules.
Proof.
  intros Hrec. induction ruleRHS as [|sym ruleRHS IH]; intros acc rules Hlen; simpl.
  - eauto.
  - destruct (Hrec sym rules Hlen) as [t [rest [-> Hrest]]].
    destruct (IH (acc ++ [t]) rest) as [ch [rest' [-> Hrest']]]; [lia|].
    exists ch, rest'. split; [reflexivity | lia].
Qed.

Lemma rulesToTreeFuel_returns fuel :
  forall lhsSym rules, List.length rules < fuel ->
    exists tree rest,
      rulesToTreeFuel fuel lhsSym rules = Done (tree, rest)
      /\ List.length rest <= List.length rules.
Proof.
  induction fuel as [|fuel IH]; intros lhsSym rules Hlen; [lia|]. simpl.
  destruct (startsWithBracket lhsSym); [|eauto].
  destruct rules as [|ruleRHS rules]; [eauto|].
  simpl in Hlen.
  destruct (forRHS_returns (rulesToTreeFuel fuel) fuel IH ruleRHS [] rules)
    as [ch [rest [-> Hrest]]]; [lia|].
  exists (Node lhsSym (Some ch)), rest. split; [reflexivity | simpl; lia].
Qed.

Lemma rulesToTree_returns lhsSym rules :
  exists tree, rulesToTree lhsSym rules = Done tree.
Proof.
  unfold rulesToTree.
  destruct (rulesToTreeFuel_returns (S (List.length rules)) lhsSym rules)
    as [tree [rest [-> _]]]; [lia|].
  eauto.
Qed.

(** A call that returns has made children exactly of a symbol that starts
    with a bracket while a rule was left. *)
Lemma rulesToTreeFuel_children fuel lhsSym rules tree rest :
  rulesToTreeFuel fuel lhsSym rules = Done (tree, rest) ->
  symbol tree = lhsSym
  /\ (children tree <> None
      <-> startsWithBracket lhsSym = true /\ rules <> []).
Proof.
  destruct fuel as [|fuel]; simpl; [discriminate|].
  destruct (startsWithBracket lhsSym).
  - destruct rules as [|ruleRHS rules].
    + intros [= <- <-]. simpl. split; [reflexivity|]. split; [tauto|].
      intros [_ H]. congruence.
    + destruct (forRHS _ _ _ _) as [[ch rest']|e]; [|discriminate].
      intros [= <- <-]. simpl. split; [reflexivity|].
      split; intros _; [split; [reflexivity|discriminate] | discriminate].
  - intros [= <- <-]. simpl. split; [reflexivity|]. split; [tauto|].
    intros [H _]. discriminate.
Qed.

(** *** [nodesEqual] and [diffTrees] are symmetric *)

Lemma nodesEqual_sym a : forall b, nodesEqual a b = nodesEqual b a.
Proof.
  induction a as [sa|sa la IH] using node_induction;
    intros [sb [lb|]]; simpl; rewrite (String.eqb_sym sa sb);
    destruct (String.eqb sb sa); simpl; try reflexivity.
  rewrite (Nat.eqb_sym (List.length la) (List.length lb)).
  destruct (Nat.eqb (List.length lb) (List.length la)); [|reflexivity].
  revert lb. induction IH as [|x la Hx _ IHla]; intros [|y lb]; try reflexivity.
  rewrite Hx. destruct (nodesEqual y x); simpl; [apply IHla | reflexivity].
Qed.

Lemma climb_sym :
  forall nodeObjA nodeObjB deletedA deletedB,
    climb deletedB deletedA nodeObjB nodeObjA =
    match climb deletedA deletedB nodeObjA nodeObjB with
    | Done (a, b) => Done (b, a)
    | Throw e => Throw e
    end.
Proof.
  fix IH 1.
  intros [na pa [parA|]] [nb pb [parB|]] deletedA deletedB; simpl;
    try reflexivity.
  rewrite nodesEqual_sym.
  destruct (nodesEqual (deref deletedA parA) (deref deletedB parB));
    [apply IH | reflexivity].
Qed.

Lemma diffLoop_sym invertedTreeA :
  forall invertedTreeB deletedA deletedB,
    diffLoop deletedB deletedA invertedTreeB invertedTreeA =
    match diffLoop deletedA deletedB invertedTreeA invertedTreeB with
    | Done (a, b) => Done (b, a)
    | Throw e => Throw e
    end.
Proof.
  induction invertedTreeA as [|nodeObjA invertedTreeA IH];
    intros [|nodeObjB invertedTreeB] deletedA deletedB; simpl; try reflexivity.
  rewrite climb_sym.
  destruct (climb deletedA deletedB nodeObjA nodeObjB) as [[a b]|e];
    [apply IH | reflexivity].
Qed.

(** *** [invertTree] returns *)

Lemma size_Node symbol childNodes :
  size (Node symbol (Some childNodes)) = S (list_sum (map size childNodes)).
Proof.
  simpl. f_equal. induction childNodes as [|c l IH]; simpl; [reflexivity|].
  now rewrite IH.
Qed.

Lemma stackSize_pushChildren nodeObj childNodes :
  forall c stack,
    stackSize (pushChildren nodeObj c childNodes stack)
    = list_sum (map size childNodes) + stackSize stack.
Proof.
  induction childNodes as [|child l IH]; intros c stack; simpl; [reflexivity|].
  unfold stackSize in *. simpl. rewrite IH. lia.
Qed.

Lemma invertLoop_returns fuel :
  forall stack rightmostSyms,
    stackSize stack <= fuel ->
    exists inverted, invertLoop fuel stack rightmostSyms = Done inverted.
Proof.
  induction fuel as [|fuel IH]; intros [|nodeObj stack] acc Hsize; simpl;
    eauto.
  - exfalso. unfold stackSize in Hsize. simpl in Hsize.
    destruct (nodeOf nodeObj) as [s [l|]]; simpl in Hsize; lia.
  - unfold stackSize in Hsize. simpl in Hsize.
    destruct (nodeOf nodeObj) as [s [l|]] eqn:E; simpl.
    + apply IH. rewrite stackSize_pushChildren.
      rewrite size_Node in Hsize. unfold stackSize. lia.
    + apply IH. unfold stackSize. simpl in Hsize. lia.
Qed.

Lemma invertTree_returns tree :
  exists inverted, invertTree tree = Done inverted.
Proof.
  apply invertLoop_returns. unfold stackSize. simpl. lia.
Qed.

(** [diffTrees] runs out of no fuel: it returns, or throws the
    [TypeError] of [climb]. *)
Lemma diffTrees_no_OutOfFuel a b : diffTrees a b <> Throw OutOfFuel.
Proof.
  unfold diffTrees.
  destruct (invertTree_returns a) as [ia ->].
  destruct (invertTree_returns b) as [ib ->].
  assert (H : forall ia ib dA dB, diffLoop dA dB ia ib <> Throw OutOfFuel).
  { clear. induction ia as [|oa ia IH]; intros [|ob ib] dA dB; simpl;
      try discriminate.
    assert (Hc : forall oa ob, climb dA dB oa ob <> Throw OutOfFuel).
    { fix IHc 1. intros [na pa [parA|]] [nb pb [parB|]]; simpl;
        try discriminate.
      destruct (nodesEqual _ _); [apply IHc | discriminate]. }
    specialize (Hc oa ob).
    destruct (climb dA dB oa ob) as [[a b]|[|]]; try discriminate;
      [apply IH | congruence]. }
  specialize (H ia ib [] []).
  destruct (diffLoop [] [] ia ib) as [[dA dB]|[|]]; try discriminate.
  congruence.
Qed.

(** *** [nodesEqual] and [pairExists] *)

Lemma nodesEqual_eq a : forall b, nodesEqual a b = true <-> a = b.
Proof.
  induction a as [sa|sa ca IH] using node_induction; intros [sb [cb|]]; simpl;
    destruct (String.eqb_spec sa sb) as [->|Hne]; simpl;
    try (split; [discriminate | congruence]);
    try (split; congruence).
  destruct (Nat.eqb_spec (List.length ca) (List.length cb)) as [Hlen|Hlen];
    [|split; [discriminate | intros [= ->]; congruence]].
  enough (H : (fix loop (aChildren bChildren : list node) : bool :=
                 match aChildren, bChildren with
                 | an :: aChildren, bn :: bChildren =>
                     if negb (nodesEqual an bn) then false
                     else loop aChildren bChildren
                 | _, _ => true
                 end) ca cb = true <-> ca = cb).
  { rewrite H. split; congruence. }
  clear sb. revert cb Hlen.
  induction IH as [|c ca Hc _ IHl]; intros [|d cb] Hlen; simpl in *;
    try discriminate; [tauto|].
  destruct (nodesEqual c d) eqn:E; simpl.
  - apply Hc in E. subst d. rewrite IHl by lia. split; congruence.
  - split; [discriminate|]. intros [= -> _].
    assert (nodesEqual d d = true) by now apply Hc. congruence.
Qed.

Lemma nodesEqual_refl a : nodesEqual a a = true.
Proof. now apply nodesEqual_eq. Qed.

Lemma pairExists_In ambigPairs treeA treeB :
  pairExists ambigPairs treeA treeB = true
  <-> In (treeA, treeB) ambigPairs \/ In (treeB, treeA) ambigPairs.
Proof.
  induction ambigPairs as [|[otherA otherB] l IH]; simpl; [intuition discriminate|].
  destruct (nodesEqual otherA treeA && nodesEqual otherB treeB) eqn:E1.
  - apply andb_true_iff in E1. destruct E1 as [Ha%nodesEqual_eq Hb%nodesEqual_eq].
    subst. tauto.
  - destruct (nodesEqual otherA treeB && nodesEqual otherB treeA) eqn:E2.
    + apply andb_true_iff in E2.
      destruct E2 as [Ha%nodesEqual_eq Hb%nodesEqual_eq]. subst. tauto.
    + rewrite IH. split; [tauto|].
      intros [[[= -> ->]|H]|[[= -> ->]|H]]; auto.
      * rewrite !nodesEqual_refl in E1. discriminate.
      * rewrite !nodesEqual_refl in E2. discriminate.
Qed.

(** C4. [diffTrees] is symmetric: on two trees given in the other order it
    leaves the same two trimmed trees, in the other order, and it throws
    on the one order if and only if it throws on the other. *)
Theorem diffTrees_symmetric (t1 t2 : node) :
  diffTrees t2 t1 =
  match diffTrees t1 t2 with
  | Done (trimmed1, trimmed2) => Done (trimmed2, trimmed1)
  | Throw e => Throw e
  end.
Proof.
  unfold diffTrees.
  destruct (invertTree_returns t1) as [inverted1 ->].
  destruct (invertTree_returns t2) as [inverted2 ->].
  rewrite diffLoop_sym.
  destruct (diffLoop [] [] inverted1 inverted2) as [[deleted1 deleted2]|e];
    reflexivity.
Qed.

Lemma endsWithBracket_app s : endsWithBracket (s ++ "]") = true.
Proof.
  induction s as [|c s IH]; [reflexivity|].
  simpl. destruct (s ++ "]")%string eqn:E; [|exact IH].
  destruct s; discriminate.
Qed.

(** C10, amended.  The name of a symbol the constructor registers begins
    with ['['] and ends with [']'].  [rulesToTree] always returns a tree,
    and each of its calls gives the node of its symbol children if and
    only if the symbol begins with ['['] and a rule is left for it: a
    symbol that does not begin with ['['] becomes a leaf, and so does a
    bracketed symbol once the rules are used up. *)
Theorem bracketed_symbols_expand :
  (forall symNameChunks grammar this grammar',
      Symbol symNameChunks grammar = (inr this, grammar') ->
      startsWithBracket (name this) = true /\ endsWithBracket (name this) = true)
  /\ (forall lhsSym rules, exists tree, rulesToTree lhsSym rules = Done tree)
  /\ (forall fuel lhsSym rules tree rest,
        rulesToTreeFuel fuel lhsSym rules = Done (tree, rest) ->
        symbol tree = lhsSym
        /\ (children tree <> None
            <-> startsWithBracket lhsSym = true /\ rules <> [])).
Proof.
  split; [|split].
  - intros chunks g this g' H. rewrite Symbol_spec in H. cbv zeta in H.
    destruct (existsb isUndefined chunks); [discriminate|].
    destruct (hasOwnProperty g _); [discriminate|].
    injection H as <- _. cbn [name]. split; [reflexivity|].
    exact (endsWithBracket_app ("[" ++ join "-" chunks)).
  - apply rulesToTree_returns.
  - apply rulesToTreeFuel_children.
Qed.

End TreeFacts.

Module TreeExamples.
Import SymbolJs SymbolSpec AmbiguityCheck TreeFacts Examples.

(** The tree of the path [S -> A C], [A -> "x"]: no rule is left for [C],
    which stays a leaf for all its bracket. *)
Lemma rulesToTree_bracketed_leaf :
  rulesToTree "[S]" [["[A]"; "[C]"]; ["x"]]
  = Done (Node "[S]" (Some [Node "[A]" (Some [Node "x" None]); Node "[C]" None]))
  /\ ~ (children (Node "[C]" None) <> None
        <-> startsWithBracket (symbol (Node "[C]" None)) = true).
Proof.
  split; [reflexivity|]. intros [_ H]. apply H; reflexivity.
Qed.

Lemma bracketed_symbols_expand_witness :
  (startsWithBracket (name symX) = true /\ endsWithBracket (name symX) = true)
  /\ (symbol (Node "[C]" None) = "[C]"
      /\ (children (Node "[C]" None) <> None
          <-> startsWithBracket "[C]" = true /\ @nil (list string) <> [])).
Proof.
  destruct bracketed_symbols_expand as [Hname [_ Htree]].
  split.
  - exact (Hname [part "X"] [] symX grammar0 eq_refl).
  - exact (Htree 1 "[C]" [] (Node "[C]" None) [] eq_refl).
Defined.

Lemma diffTrees_example :
  diffTrees (Node "[S]" (Some [Node "[A]" (Some [Node "x" None]);
                               Node "[C]" (Some [Node "y" None])]))
            (Node "[S]" (Some [Node "[B]" (Some [Node "x" None]);
                               Node "[C]" (Some [Node "y" None])]))
  = Done (Node "[S]" (Some [Node "[A]" (Some [Node "x" None]); Node "[C]" None]),
          Node "[S]" (Some [Node "[B]" (Some [Node "x" None]); Node "[C]" None])).
Proof. reflexivity. Qed.

End TreeExamples.

(** ** The enumeration of paths *)

Module PathFacts.
Import AmbiguityCheck DetectorSpec.

Lemma In_set {V} (o : obj V) k v k' v' :
  In (k', v') (set o k v) -> (k' = k /\ v' = v) \/ In (k', v') o.
Proof.
  induction o as [|[k0 v0] o IH]; simpl.
  - intros [[= <- <-]|[]]. now left.
  - destruct (String.eqb_spec k0 k) as [->|Hne]; simpl.
    + intros [[= <- <-]|H]; auto.
    + intros [H|H]; auto. destruct (IH H); auto.
Qed.

(** *** The rules read at a symbol *)

Lemma rulesAt_own grammar sym rules :
  get grammar sym = Some rules -> rulesAt grammar sym = Done rules.
Proof. unfold rulesAt. now intros ->. Qed.

(** The rules a loop goes through are the rules the grammar has under
    the symbol, or none. *)
Lemma rulesAt_Done grammar sym rules :
  rulesAt grammar sym = Done rules ->
  get grammar sym = Some rules \/ get grammar sym = None /\ rules = [].
Proof.
  unfold rulesAt. destruct (get grammar sym) as [own|].
  - intros [= ->]. now left.
  - destruct (get objectPrototype sym) as [[[|n]|]|]; try discriminate;
      intros [= <-]; now right.
Qed.

Lemma rulesAt_Throw grammar sym e :
  rulesAt grammar sym = Throw e -> e = TypeError /\ get grammar sym = None.
Proof.
  unfold rulesAt. destruct (get grammar sym) as [own|]; [discriminate|].
  destruct (get objectPrototype sym) as [[[|n]|]|]; try discriminate;
    intros [= <-]; auto.
Qed.

Section Enumeration.
Variable grammar : Grammar.
Variable opts : Opts.

(** *** An invariant of the stored paths

    A property of paths that the paths of the root rules have and that
    each step of [buildPaths] keeps holds of every stored path; and
    every path is stored under its terminals. *)
Section Invariant.
Variable P : Path -> Prop.

Hypothesis P_step :
  forall lastPath rule rules,
    P lastPath -> expandable opts lastPath ->
    get grammar (toString (nextSym lastPath)) = Some rules ->
    In rule rules -> notEditRule rule = true ->
    P (newPath lastPath rule).

Lemma stored_storePath pathSets path :
  stored P pathSets -> P path -> stored P (storePath pathSets path).
Proof.
  intros Hs Hp terms paths p Hin Hp'. unfold storePath in Hin.
  unfold stored in Hs.
  destruct (get pathSets (terminals path)) as [old|] eqn:E;
    apply In_set in Hin; destruct Hin as [[-> ->]|Hin]; eauto.
  - apply in_app_iff in Hp'. destruct Hp' as [Hp'|[<-|[]]]; [|auto].
    apply get_In in E. eauto.
  - destruct Hp' as [<-|[]]. auto.
Qed.

Lemma forRules_stored rec lastPath allRules :
  P lastPath -> expandable opts lastPath ->
  get grammar (toString (nextSym lastPath)) = Some allRules ->
  (forall pathSets path pathSets',
      P path -> expandable opts path -> stored P pathSets ->
      rec pathSets path = Done pathSets' -> stored P pathSets') ->
  forall rules pathSets pathSets',
    incl rules allRules -> stored P pathSets ->
    forRules opts rec lastPath rules pathSets = Done pathSets' ->
    stored P pathSets'.
Proof.
  intros HP Hexp Hget Hrec.
  induction rules as [|rule rules IH]; intros pathSets pathSets' Hincl Hs; simpl.
  - now intros [= <-].
  - assert (Hin : In rule allRules) by (apply Hincl; now left).
    assert (Hincl' : incl rules allRules)
      by (intros r Hr; apply Hincl; now right).
    destruct (notEditRule rule) eqn:Hne; [|now apply IH].
    assert (HP' : P (newPath lastPath rule)) by eauto.
    pose proof (stored_storePath _ _ Hs HP') as Hs'.
    destruct (truthy (nextSym (newPath lastPath rule))
              && Nat.ltb (symsCount (newPath lastPath rule)) (symsLimit opts))
      eqn:Hgo; [|now apply IH].
    apply andb_true_iff in Hgo. destruct Hgo as [Ht Hlt].
    apply Nat.ltb_lt in Hlt.
    destruct (rec _ _) as [ps|e] eqn:Hr; [|discriminate].
    apply IH; auto.
    eapply Hrec; [exact HP' | | exact Hs' | exact Hr].
    split; auto.
Qed.

Lemma buildPaths_stored fuel :
  forall pathSets lastPath pathSets',
    P lastPath -> expandable opts lastPath -> stored P pathSets ->
    buildPaths grammar opts fuel pathSets lastPath = Done pathSets' ->
    stored P pathSets'.
Proof.
  induction fuel as [|fuel IH]; intros pathSets lastPath pathSets' HP Hexp Hs;
    simpl; [discriminate|].
  destruct (rulesAt grammar (toString (nextSym lastPath))) as [rules|e]
    eqn:Hat; [|discriminate].
  destruct (rulesAt_Done _ _ _ Hat) as [Hget|[_ ->]].
  - eapply forRules_stored; eauto. apply incl_refl.
  - simpl. now intros [= <-].
Qed.

Lemma expandPaths_root path :
  expandPaths grammar opts [(terminals path, [path])]
  = if truthy (nextSym path)
    then buildPaths grammar opts (buildPathsFuel opts)
                    [(terminals path, [path])] path
    else Done [(terminals path, [path])].
Proof.
  unfold expandPaths. rewrite forIn_one. simpl. rewrite String.eqb_refl.
  destruct (truthy (nextSym path)); [|reflexivity].
  now destruct (buildPaths _ _ _ _ _).
Qed.

Lemma prev_rootPath rule : prev (rootPath rule) = None.
Proof. unfold rootPath. now destruct (terminal rule). Qed.

Lemma expandAll_initPaths_stored allRules :
  (forall rule, In rule allRules -> notEditRule rule = true ->
                P (rootPath rule)) ->
  forall rules pathTab,
    incl rules allRules ->
    expandAll grammar opts (initPaths rules) = Done pathTab ->
    forall pathSets, In pathSets pathTab -> stored P pathSets.
Proof.
  intros Hroot. induction rules as [|rule rules IH]; intros pathTab Hincl; simpl.
  - intros [= <-] ps [].
  - assert (Hin : In rule allRules) by (apply Hincl; now left).
    assert (Hincl' : incl rules allRules)
      by (intros r Hr; apply Hincl; now right).
    destruct (notEditRule rule) eqn:Hne; [|now apply IH].
    simpl. rewrite expandPaths_root.
    assert (Hs0 : stored P [(terminals (rootPath rule), [rootPath rule])]).
    { intros t ps p [[= <- <-]|[]] [<-|[]]. auto. }
    destruct (truthy (nextSym (rootPath rule))) eqn:Ht.
    + destruct (buildPaths _ _ _ _ _) as [ps|e] eqn:Hb; [|discriminate].
      destruct (expandAll _ _ _) as [tab|e] eqn:He; [|discriminate].
      intros [= <-] pathSets [<-|Hin'].
      * eapply buildPaths_stored; [| |exact Hs0|exact Hb]; auto.
        split; [exact Ht | left; apply prev_rootPath].
      * eapply IH; eauto.
    + destruct (expandAll _ _ _) as [tab|e] eqn:He; [|discriminate].
      intros [= <-] pathSets [<-|Hin']; [exact Hs0|].
      eapply IH; eauto.
Qed.

Lemma pathTabOf_stored nontermSym pathTab :
  (forall rule rules,
      get grammar nontermSym = Some rules -> In rule rules ->
      notEditRule rule = true -> P (rootPath rule)) ->
  pathTabOf grammar opts nontermSym = Done pathTab ->
  forall pathSets, In pathSets pathTab -> stored P pathSets.
Proof.
  unfold pathTabOf. intros Hroot.
  destruct (rulesAt grammar nontermSym) as [rules|e] eqn:Hat; [|discriminate].
  destruct (rulesAt_Done _ _ _ Hat) as [Hget|[_ ->]].
  - intros H. eapply expandAll_initPaths_stored; [|apply incl_refl|exact H].
    eauto.
  - simpl. intros [= <-] pathSets [].
Qed.
End Invariant.
End Enumeration.

(** *** Edit rules take no part *)

Lemma get_withoutEditRules grammar sym :
  get (withoutEditRules grammar) sym
  = option_map (filter notEditRule) (get grammar sym).
Proof.
  induction grammar as [|[k rules] grammar IH]; simpl; [reflexivity|].
  destruct (String.eqb k sym); [reflexivity | exact IH].
Qed.

Lemma rulesAt_withoutEditRules grammar sym :
  rulesAt (withoutEditRules grammar) sym
  = match rulesAt grammar sym with
    | Done rules => Done (filter notEditRule rules)
    | Throw e => Throw e
    end.
Proof.
  unfold rulesAt. rewrite get_withoutEditRules.
  destruct (get grammar sym) as [rules|]; cbn [option_map]; [reflexivity|].
  now destruct (get objectPrototype sym) as [[[|n]|]|].
Qed.

Lemma forRules_filter opts rec lastPath rules :
  forall pathSets,
    forRules opts rec lastPath (filter notEditRule rules) pathSets
    = forRules opts rec lastPath rules pathSets.
Proof.
  induction rules as [|rule rules IH]; intros pathSets; simpl; [reflexivity|].
  destruct (notEditRule rule) eqn:E; [|apply IH].
  simpl. rewrite E.
  destruct (truthy _ && _); [|apply IH].
  destruct (rec _ _); [apply IH | reflexivity].
Qed.

Lemma forRules_ext opts rec1 rec2 lastPath rules :
  (forall pathSets path, rec1 pathSets path = rec2 pathSets path) ->
  forall pathSets,
    forRules opts rec1 lastPath rules pathSets
    = forRules opts rec2 lastPath rules pathSets.
Proof.
  intros Hrec. induction rules as [|rule rules IH]; intros pathSets; simpl;
    [reflexivity|].
  destruct (notEditRule rule); [|apply IH].
  destruct (truthy _ && _); [|apply IH].
  rewrite Hrec. destruct (rec2 _ _); [apply IH | reflexivity].
Qed.

Lemma buildPaths_withoutEditRules grammar opts fuel :
  forall pathSets lastPath,
    buildPaths (withoutEditRules grammar) opts fuel pathSets lastPath
    = buildPaths grammar opts fuel pathSets lastPath.
Proof.
  induction fuel as [|fuel IH]; intros pathSets lastPath; simpl; [reflexivity|].
  rewrite rulesAt_withoutEditRules.
  destruct (rulesAt grammar _) as [rules|e]; simpl; [|reflexivity].
  rewrite forRules_filter. now apply forRules_ext.
Qed.

Lemma initPaths_filter rules :
  initPaths (filter notEditRule rules) = initPaths rules.
Proof.
  induction rules as [|rule rules IH]; simpl; [reflexivity|].
  destruct (notEditRule rule) eqn:E; [|exact IH].
  simpl. rewrite E. now rewrite IH.
Qed.

Lemma forTerms_withoutEditRules grammar opts terms :
  forall pathSets,
    forTerms (withoutEditRules grammar) opts terms pathSets
    = forTerms grammar opts terms pathSets.
Proof.
  induction terms as [|term terms IH]; intros pathSets; simpl; [reflexivity|].
  destruct (get pathSets term) as [[|path paths]|]; try reflexivity.
  destruct (truthy (nextSym path)); [|apply IH].
  rewrite buildPaths_withoutEditRules.
  destruct (buildPaths _ _ _ _ _); [apply IH | reflexivity].
Qed.

Lemma expandAll_withoutEditRules grammar opts pathTab :
  expandAll (withoutEditRules grammar) opts pathTab
  = expandAll grammar opts pathTab.
Proof.
  induction pathTab as [|pathSets pathTab IH]; simpl; [reflexivity|].
  unfold expandPaths. rewrite forTerms_withoutEditRules.
  destruct (forTerms _ _ _ _); [|reflexivity]. now rewrite IH.
Qed.

(** C2. Edit rules -- those with [insertionIdx] defined or [transposition]
    true -- start and extend no path: the table of paths of a symbol is the
    one the grammar without its edit rules gives, and every path in it is
    the path of a root rule that is no edit rule, or an extension, by a
    rule that is no edit rule, of such a path. *)
Theorem edit_rules_excluded (grammar : Grammar) (opts : Opts) (nontermSym : string) :
  pathTabOf (withoutEditRules grammar) opts nontermSym
  = pathTabOf grammar opts nontermSym
  /\ forall pathTab path,
      pathTabOf grammar opts nontermSym = Done pathTab ->
      pathIn pathTab path ->
      fromNonEditRules grammar nontermSym path.
Proof.
  split.
  - unfold pathTabOf. rewrite rulesAt_withoutEditRules.
    destruct (rulesAt grammar nontermSym) as [rules|e]; simpl; [|reflexivity].
    rewrite initPaths_filter. apply expandAll_withoutEditRules.
  - intros pathTab path Htab [pathSets [terms [paths [Hsets [Hin Hpath]]]]].
    refine (proj2 (pathTabOf_stored grammar opts
                     (fromNonEditRules grammar nontermSym) _ nontermSym pathTab
                     _ Htab pathSets Hsets terms paths path Hin Hpath)).
    + intros lastPath rule rules HP _ Hget Hrule Hne.
      eapply fromNextRule; eauto.
    + intros rule rules Hget Hrule Hne. eapply fromRootRule; eauto.
Qed.

(** *** The enumeration ends *)

Lemma symsCount_newPath lastPath rule :
  symsCount (newPath lastPath rule)
  = symsCount lastPath + List.length (RHS rule).
Proof.
  unfold newPath. destruct (terminal rule); [|reflexivity].
  now destruct (nextSyms lastPath).
Qed.

Lemma prev_newPath lastPath rule : prev (newPath lastPath rule) = Some lastPath.
Proof.
  unfold newPath. destruct (terminal rule); [|reflexivity].
  now destruct (nextSyms lastPath).
Qed.

Lemma pathRHS_newPath lastPath rule : pathRHS (newPath lastPath rule) = RHS rule.
Proof.
  unfold newPath. destruct (terminal rule); [|reflexivity].
  now destruct (nextSyms lastPath).
Qed.

(** A new path on which [buildPaths] calls itself has less potential than
    the path it extends. *)
Lemma potential_newPath opts lastPath rule :
  truthy (nextSym (newPath lastPath rule)) = true ->
  symsCount (newPath lastPath rule) < symsLimit opts ->
  potential opts (newPath lastPath rule) < potential opts lastPath.
Proof.
  unfold potential. rewrite symsCount_newPath.
  unfold newPath. destruct (terminal rule).
  - destruct (nextSyms lastPath) as [|sym next]; simpl; [discriminate|].
    intros _ Hlt. lia.
  - simpl. destruct (RHS rule) as [|sym0 rhs]; simpl; [discriminate|].
    intros _ Hlt.
    destruct (Nat.eqb (List.length rhs) 1); simpl; lia.
Qed.

Lemma forRules_no_OutOfFuel opts rec lastPath bound :
  (forall pathSets path,
      potential opts path < bound -> rec pathSets path <> Throw OutOfFuel) ->
  potential opts lastPath <= bound ->
  forall rules pathSets,
    forRules opts rec lastPath rules pathSets <> Throw OutOfFuel.
Proof.
  intros Hrec Hpot. induction rules as [|rule rules IH]; intros pathSets; simpl;
    [discriminate|].
  destruct (notEditRule rule); [|apply IH].
  destruct (truthy _ && _) eqn:Hgo; [|apply IH].
  apply andb_true_iff in Hgo. destruct Hgo as [Ht Hlt].
  apply Nat.ltb_lt in Hlt.
  pose proof (potential_newPath opts lastPath rule Ht Hlt) as Hdec.
  specialize (Hrec (storePath pathSets (newPath lastPath rule))
                   (newPath lastPath rule)).
  destruct (rec _ _) as [ps|[|]]; [apply IH | discriminate |].
  exfalso. apply Hrec; [lia | reflexivity].
Qed.

Lemma buildPaths_no_OutOfFuel grammar opts fuel :
  forall pathSets lastPath,
    potential opts lastPath < fuel ->
    buildPaths grammar opts fuel pathSets lastPath <> Throw OutOfFuel.
Proof.
  induction fuel as [|fuel IH]; intros pathSets lastPath Hpot; [lia|]. simpl.
  destruct (rulesAt grammar _) as [rules|e] eqn:Hat.
  - apply forRules_no_OutOfFuel with (bound := fuel); [exact IH | lia].
  - apply rulesAt_Throw in Hat. destruct Hat as [-> _]. discriminate.
Qed.

Lemma potential_rootPath opts rule :
  potential opts (rootPath rule) < buildPathsFuel opts.
Proof.
  unfold potential, buildPathsFuel, rootPath.
  destruct (terminal rule); simpl; [lia|].
  destruct (Nat.eqb _ 2); simpl; lia.
Qed.

Lemma expandAll_initPaths_no_OutOfFuel grammar opts rules :
  expandAll grammar opts (initPaths rules) <> Throw OutOfFuel.
Proof.
  induction rules as [|rule rules IH]; simpl; [discriminate|].
  destruct (notEditRule rule); [|exact IH].
  simpl. rewrite expandPaths_root.
  pose proof (buildPaths_no_OutOfFuel grammar opts (buildPathsFuel opts)
                [(terminals (rootPath rule), [rootPath rule])] (rootPath rule)
                (potential_rootPath opts rule)) as Hb.
  destruct (truthy (nextSym (rootPath rule))).
  - destruct (buildPaths _ _ _ _ _) as [ps|[|]]; try discriminate; [|congruence].
    destruct (expandAll _ _ _) as [tab|[|]]; try discriminate. congruence.
  - destruct (expandAll _ _ _) as [tab|[|]]; try discriminate. congruence.
Qed.

(** *** In a closed grammar the enumeration returns *)

Lemma nth_error_0_In (rhs : list string) s : nth_error rhs 0 = Some s -> In s rhs.
Proof. destruct rhs; simpl; [discriminate|]. intros [= ->]. now left. Qed.

Lemma second_In (rhs : list string) :
  Nat.eqb (List.length rhs) 2 = true -> In (toString (nth_error rhs 1)) rhs.
Proof.
  destruct rhs as [|a [|b [|c rhs]]]; simpl; try discriminate. auto.
Qed.

Lemma resumable_rootPath grammar sym rules rule :
  closedGrammar grammar ->
  get grammar sym = Some rules -> In rule rules ->
  resumable grammar (rootPath rule).
Proof.
  intros Hclosed Hget Hin. unfold resumable, rootPath.
  destruct (terminal rule) eqn:Ht; simpl.
  - split; [discriminate | intros s []].
  - split.
    + intros s Hs. apply nth_error_0_In in Hs. eauto.
    + intros s. destruct (Nat.eqb _ 2) eqn:E; simpl; [|intros []].
      intros [<-|[]]. apply second_In in E. eauto.
Qed.

Lemma resumable_newPath grammar lastPath rules rule :
  closedGrammar grammar ->
  resumable grammar lastPath ->
  get grammar (toString (nextSym lastPath)) = Some rules -> In rule rules ->
  resumable grammar (newPath lastPath rule).
Proof.
  intros Hclosed [Hnext Hstack] Hget Hin. unfold resumable, newPath.
  destruct (terminal rule) eqn:Ht.
  - destruct (nextSyms lastPath) as [|sym next]; simpl in *.
    + split; [discriminate | intros s []].
    + split; [intros s [= <-]; auto | auto].
  - simpl. split.
    + intros s Hs. apply nth_error_0_In in Hs. eauto.
    + intros s. destruct (Nat.eqb _ 2) eqn:E; simpl; [|auto].
      intros [<-|Hs]; [|auto]. apply second_In in E. eauto.
Qed.

Lemma forRules_no_TypeError grammar opts rec lastPath allRules :
  closedGrammar grammar ->
  resumable grammar lastPath ->
  get grammar (toString (nextSym lastPath)) = Some allRules ->
  (forall pathSets path,
      resumable grammar path -> truthy (nextSym path) = true ->
      rec pathSets path <> Throw TypeError) ->
  forall rules pathSets,
    incl rules allRules ->
    forRules opts rec lastPath rules pathSets <> Throw TypeError.
Proof.
  intros Hclosed Hres Hget Hrec.
  induction rules as [|rule rules IH]; intros pathSets Hincl; simpl;
    [discriminate|].
  assert (Hin : In rule allRules) by (apply Hincl; now left).
  assert (Hincl' : incl rules allRules) by (intros r Hr; apply Hincl; now right).
  destruct (notEditRule rule); [|now apply IH].
  destruct (truthy _ && _) eqn:Hgo; [|now apply IH].
  apply andb_true_iff in Hgo. destruct Hgo as [Ht _].
  pose proof (resumable_newPath grammar lastPath allRules rule
                Hclosed Hres Hget Hin) as Hres'.
  specialize (Hrec (storePath pathSets (newPath lastPath rule))
                   (newPath lastPath rule) Hres' Ht).
  destruct (rec _ _) as [ps|[|]]; [now apply IH | | discriminate].
  congruence.
Qed.

Lemma buildPaths_no_TypeError grammar opts fuel :
  closedGrammar grammar ->
  forall pathSets lastPath,
    resumable grammar lastPath -> truthy (nextSym lastPath) = true ->
    buildPaths grammar opts fuel pathSets lastPath <> Throw TypeError.
Proof.
  intros Hclosed.
  induction fuel as [|fuel IH]; intros pathSets lastPath Hres Ht; simpl;
    [discriminate|].
  destruct (nextSym lastPath) as [s|] eqn:Hs; [|discriminate].
  pose proof (proj1 Hres s Hs) as Hdef. unfold hasOwnProperty in Hdef.
  simpl. destruct (get grammar s) as [rules|] eqn:Hget; [|discriminate].
  rewrite (rulesAt_own _ _ _ Hget).
  apply forRules_no_TypeError with (grammar := grammar) (allRules := rules);
    auto.
  - now rewrite Hs.
  - apply incl_refl.
Qed.

Lemma expandAll_initPaths_no_TypeError grammar opts sym allRules :
  closedGrammar grammar ->
  get grammar sym = Some allRules ->
  forall rules,
    incl rules allRules ->
    expandAll grammar opts (initPaths rules) <> Throw TypeError.
Proof.
  intros Hclosed Hget.
  induction rules as [|rule rules IH]; intros Hincl; simpl; [discriminate|].
  assert (Hin : In rule allRules) by (apply Hincl; now left).
  assert (Hincl' : incl rules allRules) by (intros r Hr; apply Hincl; now right).
  specialize (IH Hincl').
  destruct (notEditRule rule); [|exact IH].
  simpl. rewrite expandPaths_root.
  pose proof (resumable_rootPath grammar sym allRules rule Hclosed Hget Hin)
    as Hres.
  destruct (truthy (nextSym (rootPath rule))) eqn:Ht.
  - pose proof (buildPaths_no_TypeError grammar opts (buildPathsFuel opts)
                  Hclosed [(terminals (rootPath rule), [rootPath rule])]
                  (rootPath rule) Hres Ht) as Hb.
    destruct (buildPaths _ _ _ _ _) as [ps|[|]]; try discriminate;
      [|congruence].
    destruct (expandAll _ _ _) as [tab|[|]]; try discriminate. congruence.
  - destruct (expandAll _ _ _) as [tab|[|]]; try discriminate. congruence.
Qed.

(** C3, amended.  For every grammar and every limit the enumeration of the
    paths of a symbol ends, and in a grammar that has rules for every
    symbol on the RHS of its nonterminal rules it returns the table of
    paths.  Every stored path that has a parent extends it by a rule of
    the parent's [nextSym], which adds the length of the rule's RHS to
    [symsCount]; and the parent has a [nextSym] and is the path of a root
    rule, which is expanded whatever the limit, or has a [symsCount] below
    [symsLimit]. *)
Theorem enumeration_terminates (grammar : Grammar) (opts : Opts) (nontermSym : string) :
  pathTabOf grammar opts nontermSym <> Throw OutOfFuel
  /\ (closedGrammar grammar -> hasOwnProperty grammar nontermSym = true ->
      exists pathTab, pathTabOf grammar opts nontermSym = Done pathTab)
  /\ forall pathTab path parent,
      pathTabOf grammar opts nontermSym = Done pathTab ->
      pathIn pathTab path ->
      prev path = Some parent ->
      (exists rule rules,
          get grammar (toString (nextSym parent)) = Some rules
          /\ In rule rules /\ path = newPath parent rule
          /\ symsCount path = symsCount parent + List.length (RHS rule))
      /\ truthy (nextSym parent) = true
      /\ (prev parent = None \/ symsCount parent < symsLimit opts).
Proof.
  assert (Hfuel : pathTabOf grammar opts nontermSym <> Throw OutOfFuel).
  { unfold pathTabOf.
    destruct (rulesAt grammar nontermSym) as [rules|e] eqn:Hat.
    - apply expandAll_initPaths_no_OutOfFuel.
    - apply rulesAt_Throw in Hat. destruct Hat as [-> _]. discriminate. }
  split; [exact Hfuel|]. split.
  - intros Hclosed Hkey. unfold pathTabOf in *. unfold hasOwnProperty in Hkey.
    destruct (get grammar nontermSym) as [rules|] eqn:Hget; [|discriminate].
    rewrite (rulesAt_own _ _ _ Hget) in *.
    pose proof (expandAll_initPaths_no_TypeError grammar opts nontermSym rules
                  Hclosed Hget rules (incl_refl _)) as Htype.
    destruct (expandAll grammar opts (initPaths rules)) as [tab|[|]];
      [eauto | congruence | congruence].
  - intros pathTab path parent Htab [pathSets [terms [paths [Hsets [Hin Hpath]]]]].
    pose (P := fun path =>
                 forall parent, prev path = Some parent ->
                   (exists rule rules,
                       get grammar (toString (nextSym parent)) = Some rules
                       /\ In rule rules /\ path = newPath parent rule
                       /\ symsCount path
                          = symsCount parent + List.length (RHS rule))
                   /\ expandable opts parent).
    assert (HP : P path).
    { refine (proj2 (pathTabOf_stored grammar opts P _ nontermSym pathTab
                       _ Htab pathSets Hsets terms paths path Hin Hpath)).
      - intros lastPath rule rules _ Hexp Hget Hrule _ parent'.
        rewrite prev_newPath. intros [= <-]. split; [|exact Hexp].
        exists rule, rules. repeat split; auto. apply symsCount_newPath.
      - intros rule rules _ _ _ parent'. rewrite prev_rootPath. discriminate. }
    intros Hprev. destruct (HP parent Hprev) as [Hrule [Ht Hlim]]. auto.
Qed.

End PathFacts.

(** ** The search for ambiguity *)

Module FindFacts.
Import AmbiguityCheck DetectorSpec PathFacts.

Lemma listsEqual_symbolsOf a :
  forall b, listsEqual a b = true <-> symbolsOf a = symbolsOf b.
Proof.
  induction a as [|symA nextA IH]; intros [|symB nextB]; simpl;
    try (split; [reflexivity | reflexivity]);
    try (split; discriminate).
  destruct (String.eqb_spec symA symB) as [->|Hne]; simpl.
  - rewrite IH. split; [intros ->; reflexivity | intros [= H]; exact H].
  - split; [discriminate | intros [= H _]; contradiction].
Qed.

Lemma ambiguous_spec pathA pathB :
  ambiguous pathA pathB = true
  <-> nextSym pathA = nextSym pathB
      /\ symbolsOf (nextSyms pathA) = symbolsOf (nextSyms pathB).
Proof.
  unfold ambiguous. rewrite andb_true_iff, listsEqual_symbolsOf.
  destruct (nextSym pathB) as [b|], (nextSym pathA) as [a|];
    try rewrite String.eqb_eq;
    (split; intros [H1 H2]; split; congruence).
Qed.

Lemma insertPath_In p q sorted :
  In p (insertPath q sorted) <-> p = q \/ In p sorted.
Proof.
  induction sorted as [|r sorted IH]; simpl.
  - split; intros [H|H]; auto.
  - destruct (Nat.leb (symsCount q) (symsCount r)); simpl.
    + split; intros [H|H]; auto.
    + rewrite IH. split; intros [H|[H|H]]; auto.
Qed.

Lemma sortPaths_In p paths : In p (sortPaths paths) <-> In p paths.
Proof.
  induction paths as [|q paths IH]; simpl; [tauto|].
  rewrite insertPath_In, IH. split; intros [H|H]; auto.
Qed.

(** The sort is stable: paths that have as many symbols as the first
    stay behind it, in their order. *)
Lemma sortPaths_ties p paths :
  Forall (fun q => symsCount q = symsCount p) paths ->
  sortPaths (p :: paths) = p :: paths.
Proof.
  revert p. induction paths as [|q paths IH]; intros p Hall; [reflexivity|].
  inversion Hall as [|? ? Hq Hrest]; subst.
  change (sortPaths (p :: q :: paths))
    with (insertPath p (sortPaths (q :: paths))).
  rewrite IH.
  - simpl. rewrite Hq, Nat.leb_refl. reflexivity.
  - eapply Forall_impl; [|exact Hrest]. intros r Hr. simpl in Hr. congruence.
Qed.

(** *** The loops of [findAmbiguity], part by part

    A property [covers R st result] of the parts of [findAmbiguity] --
    of the pairs [R] a part ranges over, the state before it and what it
    leaves -- holds of all the loops when it holds of a part that meets
    no pair that passes the test, of [found], of two parts one after the
    other, and of a longer part when a part of it has stopped. *)
Section Loops.
Variable opts : Opts.
Variable nontermSym : string.
Variable covers :
  (Path -> Path -> Prop) -> FindState -> FindState * Signal -> Prop.

Hypothesis covers_none :
  forall (R : Path -> Path -> Prop) st,
    (forall pathA pathB, R pathA pathB -> ambiguous pathA pathB = false) ->
    covers R st (st, Next).
Hypothesis covers_next :
  forall (R1 R2 R : Path -> Path -> Prop) st st1 result,
    covers R1 st (st1, Next) -> covers R2 st1 result ->
    (forall pathA pathB, R pathA pathB <-> R1 pathA pathB \/ R2 pathA pathB) ->
    covers R st result.
Hypothesis covers_stop :
  forall (R R' : Path -> Path -> Prop) st st' signal,
    covers R st (st', signal) -> signal <> Next ->
    (forall pathA pathB, R pathA pathB -> R' pathA pathB) ->
    covers R' st (st', signal).
Hypothesis covers_break :
  forall (R R' : Path -> Path -> Prop) st st',
    covers R st (st', Break) ->
    (forall pathA pathB, R pathA pathB -> R' pathA pathB) ->
    covers R' st (st', Next).
Hypothesis covers_found :
  forall st pathA pathB,
    ambiguous pathA pathB = true ->
    covers (fun a b => a = pathA /\ b = pathB) st
           (found opts nontermSym st pathA pathB).

(** A part that covers the pairs of a relation covers the pairs of any
    relation that holds of the same pairs. *)
Lemma covers_equiv (R R' : Path -> Path -> Prop) st result :
  (forall pathA pathB, R pathA pathB <-> R' pathA pathB) ->
  covers R st result -> covers R' st result.
Proof.
  intros HR H.
  apply (covers_next (fun _ _ => False) R R' st st result); auto.
  - apply covers_none. intros a b [].
  - intros a b. rewrite <- HR. tauto.
Qed.

Lemma forPathsB_covers pathA pathsB :
  forall st,
    covers (fun a b => a = pathA /\ In b pathsB) st
           (forPathsB opts nontermSym st pathA pathsB).
Proof.
  induction pathsB as [|pathB pathsB IH]; intros st; simpl.
  - apply covers_none. intros a b [_ []].
  - destruct (ambiguous pathA pathB) eqn:Ha.
    + pose proof (covers_found st pathA pathB Ha) as Hf.
      destruct (found opts nontermSym st pathA pathB) as [st1 [| |e]].
      * eapply covers_next; [exact Hf | apply IH |].
        intros a b. simpl. intuition congruence.
      * eapply covers_stop; [exact Hf | discriminate |].
        intros a b [-> ->]. simpl. auto.
      * eapply covers_stop; [exact Hf | discriminate |].
        intros a b [-> ->]. simpl. auto.
    + eapply covers_next; [|apply IH|].
      * apply (covers_none (fun a b => a = pathA /\ b = pathB)).
        intros a b [-> ->]. exact Ha.
      * intros a b. simpl. intuition congruence.
Qed.

Lemma forPathsA_covers pathsA pathsB :
  forall st,
    covers (fun a b => In a pathsA /\ In b pathsB) st
           (forPathsA opts nontermSym st pathsA pathsB).
Proof.
  induction pathsA as [|pathA pathsA IH]; intros st; simpl.
  - apply covers_none. intros a b [[] _].
  - pose proof (forPathsB_covers pathA pathsB st) as Hb.
    destruct (forPathsB opts nontermSym st pathA pathsB) as [st1 [| |e]].
    + eapply covers_next; [exact Hb | apply IH |].
      intros a b. simpl. intuition congruence.
    + eapply covers_stop; [exact Hb | discriminate |].
      intros a b [-> Hin]. simpl. auto.
    + eapply covers_stop; [exact Hb | discriminate |].
      intros a b [-> Hin]. simpl. auto.
Qed.

Lemma forTerminals_covers pathSetsA pathSetsB terms :
  (forall t, In t terms -> In t (keys pathSetsA)) ->
  forall st,
    covers (pairIn pathSetsA pathSetsB terms) st
           (forTerminals opts nontermSym st pathSetsA pathSetsB terms).
Proof.
  induction terms as [|t terms IH]; intros Hkeys st; simpl.
  - apply covers_none. intros a b [t [pa [pb [[] _]]]].
  - assert (Hkeys' : forall t', In t' terms -> In t' (keys pathSetsA))
      by (intros t' Ht'; apply Hkeys; now right).
    destruct (get pathSetsB t) as [pathsB|] eqn:HB.
    + destruct (In_keys_get _ pathSetsA t (Hkeys t (or_introl eq_refl)))
        as [pathsA HA].
      rewrite HA.
      pose proof (forPathsA_covers (sortPaths pathsA) pathsB st) as Hc.
      assert (Hone : forall a b,
                 In a (sortPaths pathsA) /\ In b pathsB ->
                 pairIn pathSetsA pathSetsB (t :: terms) a b).
      { intros a b [Hin Hb]. apply (proj1 (sortPaths_In _ _)) in Hin.
        exists t, pathsA, pathsB. simpl. repeat split; auto. }
      destruct (forPathsA opts nontermSym st (sortPaths pathsA) pathsB)
        as [st1 [| |e]].
      * eapply covers_next; [exact Hc | apply IH; exact Hkeys' |].
        intros a b. split.
        -- intros [t' [pa [pb [[<-|Ht'] [Hga [Hia [Hgb Hib]]]]]]].
           ++ left. rewrite sortPaths_In. split; congruence.
           ++ right. exists t', pa, pb. repeat split; auto.
        -- intros [H|[t' [pa [pb [Ht' H]]]]]; [now apply Hone|].
           exists t', pa, pb. simpl. auto.
      * eapply covers_break; [exact Hc | exact Hone].
      * eapply covers_stop; [exact Hc | discriminate | exact Hone].
    + eapply covers_next; [|apply IH; exact Hkeys'|].
      * apply (covers_none (fun _ _ => False)). intros a b [].
      * intros a b. split.
        -- intros [t' [pa [pb [[<-|Ht'] [Hga [Hia [Hgb Hib]]]]]]];
             [congruence|].
           right. exists t', pa, pb. repeat split; auto.
        -- intros [[]|[t' [pa [pb [Ht' H]]]]].
           exists t', pa, pb. simpl. auto.
Qed.

Lemma pairIn_forIn pathSetsA pathSetsB pathA pathB :
  pairIn pathSetsA pathSetsB (forIn pathSetsA) pathA pathB
  <-> pairIn pathSetsA pathSetsB (keys pathSetsA) pathA pathB.
Proof.
  unfold pairIn.
  split; intros [t [pa [pb [Ht H]]]]; exists t, pa, pb; split; auto;
    now apply forIn_In.
Qed.

Lemma forB_covers pathSetsA later :
  forall st,
    covers (fun a b => exists pathSetsB,
                In pathSetsB later
                /\ pairIn pathSetsA pathSetsB (keys pathSetsA) a b) st
           (forB opts nontermSym st pathSetsA later).
Proof.
  induction later as [|pathSetsB later IH]; intros st; simpl.
  - apply covers_none. intros a b [B [[] _]].
  - pose proof (forTerminals_covers pathSetsA pathSetsB (forIn pathSetsA)
                  (fun t H => proj1 (forIn_In pathSetsA t) H) st) as Ht.
    apply (covers_equiv _ _ _ _ (pairIn_forIn pathSetsA pathSetsB)) in Ht.
    destruct (forTerminals opts nontermSym st pathSetsA pathSetsB
                           (forIn pathSetsA)) as [st1 [| |e]].
    + eapply covers_next; [exact Ht | apply IH |].
      intros a b. split.
      * intros [B [[<-|HB] H]]; [auto|]. right. eauto.
      * intros [H|[B [HB H]]]; [exists pathSetsB | exists B]; simpl; auto.
    + eapply covers_stop; [exact Ht | discriminate |].
      intros a b H. exists pathSetsB. simpl. auto.
    + eapply covers_stop; [exact Ht | discriminate |].
      intros a b H. exists pathSetsB. simpl. auto.
Qed.

Lemma forA_covers pathTab :
  forall st,
    covers (paired pathTab) st (forA opts nontermSym st pathTab).
Proof.
  induction pathTab as [|pathSetsA pathTab IH]; intros st; simpl.
  - apply covers_none.
    intros a b [before [A [between [B [after [H _]]]]]].
    destruct before; discriminate.
  - pose proof (forB_covers pathSetsA pathTab st) as Hb.
    assert (Hhead : forall a b,
               (exists pathSetsB,
                   In pathSetsB pathTab
                   /\ pairIn pathSetsA pathSetsB (keys pathSetsA) a b) ->
               paired (pathSetsA :: pathTab) a b).
    { intros a b [B [HB H]]. apply in_split in HB.
      destruct HB as [between [after ->]].
      exists [], pathSetsA, between, B, after. auto. }
    destruct (forB opts nontermSym st pathSetsA pathTab) as [st1 [| |e]].
    + eapply covers_next; [exact Hb | apply IH |].
      intros a b. split.
      * intros [before [A [between [B [after [Heq H]]]]]].
        destruct before as [|x before]; simpl in Heq.
        -- injection Heq as <- ->. left. exists B. split; [|exact H].
           apply in_or_app. right. now left.
        -- injection Heq as <- ->. right.
           exists before, A, between, B, after. auto.
      * intros [H|[before [A [between [B [after [-> H]]]]]]]; [auto|].
        exists (pathSetsA :: before), A, between, B, after. auto.
    + eapply covers_stop; [exact Hb | discriminate | exact Hhead].
    + eapply covers_stop; [exact Hb | discriminate | exact Hhead].
Qed.

End Loops.

(** *** What the loops find *)

Section Compares.
Variable opts : Opts.
Variable nontermSym : string.

#[local] Abbreviation compares := (compares opts nontermSym).

(** A part that meets no pair that passes the test leaves the state. *)
Lemma compares_none (R : Path -> Path -> Prop) st :
  (forall pathA pathB, R pathA pathB -> ambiguous pathA pathB = false) ->
  compares R st (st, Next).
Proof.
  intros HR. split; [|split; [|split]]; simpl.
  - split; [auto|]. intros [H|[pA [pB [Hr Ha]]]]; [exact H|].
    rewrite (HR _ _ Hr) in Ha. discriminate.
  - congruence.
  - auto.
  - reflexivity.
Qed.

(** A part that stopped has paired what any longer part compares. *)
Lemma compares_stop (R R' : Path -> Path -> Prop) st st' signal signal' :
  compares R st (st', signal) -> signal <> Next ->
  (forall pathA pathB, R pathA pathB -> R' pathA pathB) ->
  compares R' st (st', signal').
Proof.
  intros [Hflag [Hstop [Hprint _]]] Hsig Hincl. simpl in *.
  specialize (Hstop Hsig).
  split; [|split; [|split]]; simpl.
  - split; [|auto]. intros _.
    destruct (proj1 Hflag Hstop) as [H|[pA [pB [Hr Ha]]]]; [auto|].
    right. exists pA, pB. auto.
  - auto.
  - intros tA tB Hin.
    destruct (Hprint tA tB Hin) as [H|[pA [pB [Hr H]]]]; [auto|].
    right. exists pA, pB. auto.
  - congruence.
Qed.

(** Two parts, one after the other. *)
Lemma compares_next (R1 R2 R : Path -> Path -> Prop) st st1 result :
  compares R1 st (st1, Next) -> compares R2 st1 result ->
  (forall pathA pathB, R pathA pathB <-> R1 pathA pathB \/ R2 pathA pathB) ->
  compares R st result.
Proof.
  intros [Hflag1 [_ [Hprint1 Hsame1]]] [Hflag2 [Hstop2 [Hprint2 Hsame2]]] HR.
  simpl in *.
  split; [|split; [|split]].
  - rewrite Hflag2, Hflag1. split.
    + intros [[H|[pA [pB [Hr Ha]]]]|[pA [pB [Hr Ha]]]]; auto;
        right; exists pA, pB; rewrite HR; auto.
    + intros [H|[pA [pB [Hr Ha]]]]; auto.
      apply HR in Hr. destruct Hr as [Hr|Hr]; eauto 6.
  - exact Hstop2.
  - intros tA tB Hin.
    destruct (Hprint2 tA tB Hin) as [H|[pA [pB [Hr H]]]].
    + destruct (Hprint1 tA tB H) as [H'|[pA [pB [Hr H']]]]; [auto|].
      right. exists pA, pB. rewrite HR. auto.
    + right. exists pA, pB. rewrite HR. auto.
  - intros Hnot. pose proof (Hsame2 Hnot) as Hres. subst result.
    apply Hsame1. exact Hnot.
Qed.

Lemma found_compares st pathA pathB :
  ambiguous pathA pathB = true ->
  compares (fun a b => a = pathA /\ b = pathB) st
           (found opts nontermSym st pathA pathB).
Proof.
  intros Ha. unfold found.
  assert (Hex : exists a b, (a = pathA /\ b = pathB) /\ ambiguous a b = true)
    by (exists pathA, pathB; auto).
  destruct (noOutput opts).
  { split; [|split; [|split]]; simpl; auto; [split; auto | discriminate]. }
  destruct (trimmedTrees nontermSym pathA pathB) as [[treeA treeB]|e] eqn:Ht.
  2: { split; [|split; [|split]]; simpl; auto; [split; auto | discriminate]. }
  cbn [ambigPairs foundAmbiguity printed].
  destruct (negb (findAll opts) || negb (pairExists (ambigPairs st) treeA treeB)).
  2: { split; [|split; [|split]]; simpl; auto; [split; auto | discriminate]. }
  assert (Hprint : forall tA tB,
             In (Ambiguity tA tB) (printed st ++ [Ambiguity treeA treeB]) ->
             In (Ambiguity tA tB) (printed st)
             \/ exists a b, (a = pathA /\ b = pathB) /\ ambiguous a b = true
                            /\ trimmedTrees nontermSym a b = Done (tA, tB)).
  { intros tA tB Hin. apply in_app_iff in Hin.
    destruct Hin as [Hin|[[= <- <-]|[]]]; [auto|].
    right. exists pathA, pathB. auto. }
  destruct (findAll opts); (split; [|split; [|split]]); simpl; auto;
    try (split; auto); discriminate.
Qed.

Lemma forA_compares pathTab st :
  compares (paired pathTab) st (forA opts nontermSym st pathTab).
Proof.
  apply (forA_covers opts nontermSym compares).
  - exact compares_none.
  - exact compares_next.
  - intros R R' st0 st' signal. apply compares_stop.
  - intros R R' st0 st' H. apply (compares_stop R R' st0 st' Break Next H).
    discriminate.
  - exact found_compares.
Qed.

End Compares.

(** *** With [findAll], every pair that passes the test is reported *)

Section ReportsAll.
Variable opts : Opts.
Variable nontermSym : string.
Hypothesis HfindAll : findAll opts = true.
Hypothesis HnoOutput : noOutput opts = false.

#[local] Abbreviation reportsAll := (reportsAll nontermSym).

Lemma reportsAll_none (R : Path -> Path -> Prop) st :
  (forall pathA pathB, R pathA pathB -> ambiguous pathA pathB = false) ->
  reportsAll R st (st, Next).
Proof.
  intros HR. split; [discriminate|]. split; [discriminate|].
  intros _. simpl. split; [auto|]. split; [auto|].
  intros a b Hr Ha. rewrite (HR _ _ Hr) in Ha. discriminate.
Qed.

Lemma reportsAll_next (R1 R2 R : Path -> Path -> Prop) st st1 result :
  reportsAll R1 st (st1, Next) -> reportsAll R2 st1 result ->
  (forall pathA pathB, R pathA pathB <-> R1 pathA pathB \/ R2 pathA pathB) ->
  reportsAll R st result.
Proof.
  intros [_ [_ H1]] [Hb [Hthrow H2]] HR. simpl in *.
  destruct (H1 eq_refl) as [Hmono1 [Hkept1 Hall1]].
  split; [exact Hb|]. split.
  - intros e He. destruct (Hthrow e He) as [a [b [Hr H]]].
    exists a, b. rewrite HR. auto.
  - intros Hnext. destruct (H2 Hnext) as [Hmono2 [Hkept2 Hall2]].
    split; [auto|]. split; [auto|].
    intros a b Hr Ha. apply HR in Hr. destruct Hr as [Hr|Hr]; [|auto].
    destruct (Hall1 a b Hr Ha) as [tA [tB [Ht [H|H]]]];
      exists tA, tB; auto.
Qed.

Lemma reportsAll_stop (R R' : Path -> Path -> Prop) st st' signal :
  reportsAll R st (st', signal) -> signal <> Next ->
  (forall pathA pathB, R pathA pathB -> R' pathA pathB) ->
  reportsAll R' st (st', signal).
Proof.
  intros [Hb [Hthrow _]] Hsig Hincl. simpl in *.
  split; [exact Hb|]. split; [|contradiction].
  intros e He. destruct (Hthrow e He) as [a [b [Hr H]]]. exists a, b. auto.
Qed.

Lemma reportsAll_break (R R' : Path -> Path -> Prop) st st' :
  reportsAll R st (st', Break) ->
  (forall pathA pathB, R pathA pathB -> R' pathA pathB) ->
  reportsAll R' st (st', Next).
Proof. intros [Hb _]. now contradiction Hb. Qed.

Lemma found_reportsAll st pathA pathB :
  ambiguous pathA pathB = true ->
  reportsAll (fun a b => a = pathA /\ b = pathB) st
             (found opts nontermSym st pathA pathB).
Proof.
  intros Ha. unfold found. rewrite HnoOutput, HfindAll.
  cbn [ambigPairs foundAmbiguity printed negb orb].
  destruct (trimmedTrees nontermSym pathA pathB) as [[treeA treeB]|e] eqn:Ht.
  - destruct (pairExists (ambigPairs st) treeA treeB) eqn:Hex;
      cbn [negb]; (split; [discriminate|]); (split; [discriminate|]);
      intros _; cbn [fst ambigPairs printed].
    + split; [auto|]. split; [intros H; exact H|].
      intros a b [-> ->] _. exists treeA, treeB. split; [exact Ht|].
      now apply TreeFacts.pairExists_In.
    + split; [intros trees H; apply in_or_app; now left|]. split.
      * intros Hkept tA tB Hin. unfold allPrinted in *.
        cbn [ambigPairs printed] in *. apply in_or_app.
        apply in_app_or in Hin. destruct Hin as [Hin|[[= <- <-]|[]]];
          [left; auto | right; now left].
      * intros a b [-> ->] _. exists treeA, treeB. split; [exact Ht|].
        left. apply in_or_app. right. now left.
  - split; [discriminate|]. split; [|discriminate].
    intros e' [= <-]. exists pathA, pathB. auto.
Qed.

Lemma forA_reportsAll pathTab st :
  reportsAll (paired pathTab) st (forA opts nontermSym st pathTab).
Proof.
  apply (forA_covers opts nontermSym reportsAll).
  - exact reportsAll_none.
  - exact reportsAll_next.
  - exact reportsAll_stop.
  - exact reportsAll_break.
  - exact found_reportsAll.
Qed.

End ReportsAll.

(** *** By default, the first pair of each two root rules is reported *)

Lemma find_app {A} (f : A -> bool) (l l' : list A) :
  find f (l ++ l')
  = match find f l with Some x => Some x | None => find f l' end.
Proof.
  induction l as [|x l IH]; simpl; [reflexivity|].
  destruct (f x); [reflexivity | exact IH].
Qed.

Lemma find_pairs pathA pathsB :
  find passes (map (pair pathA) pathsB)
  = option_map (pair pathA) (find (ambiguous pathA) pathsB).
Proof.
  induction pathsB as [|pathB pathsB IH]; simpl; [reflexivity|].
  unfold passes at 1. simpl.
  destruct (ambiguous pathA pathB); [reflexivity | exact IH].
Qed.

Lemma treesOf_app nontermSym founds more :
  treesOf nontermSym (founds ++ more)
  = match treesOf nontermSym founds with
    | (trees, Next) =>
        (trees ++ fst (treesOf nontermSym more),
         snd (treesOf nontermSym more))
    | stopped => stopped
    end.
Proof.
  induction founds as [|[pathA pathB] founds IH]; simpl.
  - now destruct (treesOf nontermSym more).
  - destruct (trimmedTrees nontermSym pathA pathB) as [trees|e];
      [|reflexivity].
    rewrite IH.
    destruct (treesOf nontermSym founds) as [rest [| |e]]; reflexivity.
Qed.

Section FirstFound.
Variable opts : Opts.
Variable nontermSym : string.
Hypothesis HfindAll : findAll opts = false.
Hypothesis HnoOutput : noOutput opts = false.

(** What [found] does by default: it prints the trimmed trees and
    breaks, or throws. *)
Lemma found_default st pathA pathB :
  found opts nontermSym st pathA pathB
  = match trimmedTrees nontermSym pathA pathB with
    | Done (treeA, treeB) =>
        ({| foundAmbiguity := true; ambigPairs := ambigPairs st;
            printed := printed st ++ [Ambiguity treeA treeB] |}, Break)
    | Throw e =>
        ({| foundAmbiguity := true; ambigPairs := ambigPairs st;
            printed := printed st |}, Thrown e)
    end.
Proof.
  unfold found. rewrite HnoOutput, HfindAll.
  destruct (trimmedTrees nontermSym pathA pathB) as [[treeA treeB]|e];
    reflexivity.
Qed.

(** A part of [findAmbiguity] has done what [found] does with the first
    pair of [pairs] that passes the test; [stop] is how it ends when
    [found] has broken. *)
#[local] Abbreviation atFirst stop st pairs result :=
  (result
   = match find passes pairs with
     | Some (pathA, pathB) =>
         match found opts nontermSym st pathA pathB with
         | (st', Break) => (st', stop)
         | stopped => stopped
         end
     | None => (st, Next)
     end).

Lemma found_stops st pathA pathB :
  snd (found opts nontermSym st pathA pathB) <> Next.
Proof.
  rewrite found_default.
  destruct (trimmedTrees nontermSym pathA pathB) as [[treeA treeB]|e];
    discriminate.
Qed.

Lemma forPathsB_first pathA pathsB st :
  atFirst Break st (map (pair pathA) pathsB)
          (forPathsB opts nontermSym st pathA pathsB).
Proof.
  induction pathsB as [|pathB pathsB IH]; simpl; [reflexivity|].
  unfold passes at 1. simpl.
  destruct (ambiguous pathA pathB); [|exact IH].
  pose proof (found_stops st pathA pathB) as Hs.
  destruct (found opts nontermSym st pathA pathB) as [st' [| |e]];
    [now contradiction Hs | reflexivity | reflexivity].
Qed.

Lemma forPathsA_first pathsA pathsB st :
  atFirst Break st (list_prod pathsA pathsB)
          (forPathsA opts nontermSym st pathsA pathsB).
Proof.
  induction pathsA as [|pathA pathsA IH]; simpl; [reflexivity|].
  rewrite find_app, (forPathsB_first pathA pathsB st).
  destruct (find passes (map (pair pathA) pathsB)) as [[a b]|].
  - pose proof (found_stops st a b) as Hs.
    destruct (found opts nontermSym st a b) as [st' [| |e]];
      [now contradiction Hs | reflexivity | reflexivity].
  - exact IH.
Qed.

Lemma forTerminals_first pathSetsA pathSetsB terms :
  (forall t, In t terms -> In t (keys pathSetsA)) ->
  forall st,
    atFirst Next st (flat_map (pairsUnder pathSetsA pathSetsB) terms)
            (forTerminals opts nontermSym st pathSetsA pathSetsB terms).
Proof.
  induction terms as [|t terms IH]; intros Hkeys st; simpl; [reflexivity|].
  assert (Hkeys' : forall t', In t' terms -> In t' (keys pathSetsA))
    by (intros t' Ht'; apply Hkeys; now right).
  rewrite find_app. unfold pairsUnder at 1.
  destruct (get pathSetsB t) as [pathsB|]; [|now apply IH].
  destruct (In_keys_get _ pathSetsA t (Hkeys t (or_introl eq_refl)))
    as [pathsA ->].
  rewrite (forPathsA_first (sortPaths pathsA) pathsB st).
  destruct (find passes (list_prod (sortPaths pathsA) pathsB)) as [[a b]|];
    [|now apply IH].
  pose proof (found_stops st a b) as Hs.
  destruct (found opts nontermSym st a b) as [st' [| |e]];
    [now contradiction Hs | reflexivity | reflexivity].
Qed.

(** What a part has printed are the trees printed before and then the
    trimmed trees of [founds], the part ending as the trimming of those
    trees does. *)
#[local] Abbreviation printsFirst st founds result :=
  (FindSpec.pairsPrinted (printed (fst result))
   = FindSpec.pairsPrinted (printed st) ++ fst (treesOf nontermSym founds)
   /\ snd result = snd (treesOf nontermSym founds)
   /\ (foundAmbiguity (fst result) = false -> printed (fst result) = [])).

Lemma pairsPrinted_snoc events treeA treeB :
  FindSpec.pairsPrinted (events ++ [Ambiguity treeA treeB])
  = FindSpec.pairsPrinted events ++ [(treeA, treeB)].
Proof. unfold FindSpec.pairsPrinted. now rewrite flat_map_app. Qed.

Lemma forB_first pathSetsA later :
  forall st,
    (foundAmbiguity st = false -> printed st = []) ->
    printsFirst st
      (flat_map (fun sets => match firstFound (fst sets) (snd sets) with
                             | Some paths => [paths]
                             | None => []
                             end)
                (map (pair pathSetsA) later))
      (forB opts nontermSym st pathSetsA later).
Proof.
  induction later as [|pathSetsB later IH]; intros st Hst; simpl.
  - now rewrite app_nil_r.
  - rewrite (forTerminals_first pathSetsA pathSetsB (forIn pathSetsA)
               (fun t H => proj1 (forIn_In pathSetsA t) H) st).
    change (find passes
              (flat_map (pairsUnder pathSetsA pathSetsB) (forIn pathSetsA)))
      with (firstFound pathSetsA pathSetsB).
    destruct (firstFound pathSetsA pathSetsB) as [[a b]|];
      [|exact (IH st Hst)].
    rewrite found_default. simpl.
    destruct (trimmedTrees nontermSym a b) as [[treeA treeB]|e]; simpl.
    + destruct (IH {| foundAmbiguity := true; ambigPairs := ambigPairs st;
                      printed := printed st ++ [Ambiguity treeA treeB] |})
        as [Hp [Hs Hf]]; [discriminate|].
      cbn [printed] in Hp.
      rewrite Hp, pairsPrinted_snoc, <- app_assoc. auto.
    + rewrite app_nil_r. split; [reflexivity|]. split; [reflexivity|].
      discriminate.
Qed.

Lemma forA_first pathTab :
  forall st,
    (foundAmbiguity st = false -> printed st = []) ->
    printsFirst st (firstFounds pathTab) (forA opts nontermSym st pathTab).
Proof.
  unfold firstFounds.
  induction pathTab as [|pathSetsA pathTab IH]; intros st Hst; simpl.
  - now rewrite app_nil_r.
  - rewrite flat_map_app, treesOf_app.
    destruct (forB_first pathSetsA pathTab st Hst) as [Hp [Hs Hf]].
    destruct (forB opts nontermSym st pathSetsA pathTab) as [st1 signal];
      simpl in Hp, Hs, Hf.
    destruct (treesOf nontermSym
                (flat_map _ (map (pair pathSetsA) pathTab)))
      as [trees stop]; simpl in Hp, Hs; subst signal.
    destruct stop as [| |e]; [|auto|auto].
    destruct (IH st1 Hf) as [Hp' [Hs' Hf']].
    rewrite Hp', Hp, <- app_assoc. auto.
Qed.

End FirstFound.


Lemma findAmbiguity_compares opts nontermSym pathTab :
  compares opts nontermSym (paired pathTab)
    {| foundAmbiguity := false; ambigPairs := []; printed := [] |}
    (forA opts nontermSym
          {| foundAmbiguity := false; ambigPairs := []; printed := [] |} pathTab)
  /\ foundAmbiguity (fst (findAmbiguity opts nontermSym pathTab))
     = foundAmbiguity
         (fst (forA opts nontermSym
                 {| foundAmbiguity := false; ambigPairs := []; printed := [] |}
                 pathTab))
  /\ forall treeA treeB,
      In (Ambiguity treeA treeB)
         (printed (fst (findAmbiguity opts nontermSym pathTab))) ->
      In (Ambiguity treeA treeB)
         (printed
            (fst (forA opts nontermSym
                    {| foundAmbiguity := false; ambigPairs := []; printed := [] |}
                    pathTab))).
Proof.
  split; [apply forA_compares|].
  unfold findAmbiguity.
  assert (Herr : forall st tA tB,
             In (Ambiguity tA tB)
                (printed st ++ [Err "Ambiguity not found in test rule" nontermSym]) ->
             In (Ambiguity tA tB) (printed st)).
  { intros st tA tB Hin. apply in_app_iff in Hin.
    destruct Hin as [Hin|[Hin|[]]]; [exact Hin | discriminate]. }
  destruct (forA opts nontermSym _ pathTab) as [st [| |e]]; cbn [fst];
    [| |split; [reflexivity | auto]];
    destruct (negb (foundAmbiguity st) && useTestRules opts
              && Z.eqb (indexOf nontermSym "ambig") 1);
    cbn [fst foundAmbiguity printed]; (split; [reflexivity | auto]).
Qed.

(** In a table whose paths are stored under their terminals, the pairs
    that are paired and pass the test are the pairs from two root rules
    that have the same fringe. *)
Lemma paired_same_fringe P pathTab pathA pathB :
  (forall pathSets, In pathSets pathTab -> stored P pathSets) ->
  (paired pathTab pathA pathB /\ ambiguous pathA pathB = true
   <-> fromTwoRootRules pathTab pathA pathB /\ sameFringe pathA pathB).
Proof.
  intros Hstored. unfold sameFringe. rewrite ambiguous_spec. split.
  - intros [[before [A [between [B [after [Heq Hpair]]]]]] [Hn Hs]].
    destruct Hpair as [t [pathsA [pathsB [Ht [HgA [HiA [HgB HiB]]]]]]].
    assert (HA : In A pathTab) by (rewrite Heq; apply in_or_app; right; now left).
    assert (HB : In B pathTab).
    { rewrite Heq. apply in_or_app. right. right.
      apply in_or_app. right. now left. }
    destruct (Hstored A HA t pathsA pathA (get_In _ _ _ _ HgA) HiA) as [HtA _].
    destruct (Hstored B HB t pathsB pathB (get_In _ _ _ _ HgB) HiB) as [HtB _].
    split; [|repeat split; congruence].
    exists before, A, between, B, after, t, pathsA, t, pathsB. auto 6.
  - intros [[before [A [between [B [after [tA [pathsA [tB [pathsB H]]]]]]]]]
              [Ht [Hn Hs]]].
    destruct H as [Heq [HgA [HiA [HgB HiB]]]].
    assert (HA : In A pathTab) by (rewrite Heq; apply in_or_app; right; now left).
    assert (HB : In B pathTab).
    { rewrite Heq. apply in_or_app. right. right.
      apply in_or_app. right. now left. }
    destruct (Hstored A HA tA pathsA pathA (get_In _ _ _ _ HgA) HiA) as [HtA _].
    destruct (Hstored B HB tB pathsB pathB (get_In _ _ _ _ HgB) HiB) as [HtB _].
    split; [|auto].
    exists before, A, between, B, after. split; [exact Heq|].
    exists tA, pathsA, pathsB. repeat split; auto.
    + eapply get_In_keys; eauto.
    + congruence.
Qed.

Lemma pathTabOf_keyed grammar opts nontermSym pathTab :
  pathTabOf grammar opts nontermSym = Done pathTab ->
  forall pathSets, In pathSets pathTab -> stored (fun _ => True) pathSets.
Proof.
  intros Htab. eapply pathTabOf_stored; eauto.
Qed.

Lemma rootRulePairs_In pathTab pathSetsA pathSetsB :
  In (pathSetsA, pathSetsB) (rootRulePairs pathTab)
  <-> exists before between after,
      pathTab = before ++ pathSetsA :: between ++ pathSetsB :: after.
Proof.
  induction pathTab as [|X pathTab IH]; simpl.
  - split; [intros [] | intros [[|? ?] [? [? H]]]; discriminate].
  - rewrite in_app_iff, in_map_iff, IH. split.
    + intros [[B [[= <- <-] HB]]|[before [between [after ->]]]].
      * apply in_split in HB. destruct HB as [between [after ->]].
        now exists [], between, after.
      * now exists (X :: before), between, after.
    + intros [[|Y before] [between [after Heq]]]; simpl in Heq;
        injection Heq as -> ->.
      * left. exists pathSetsB. split; [reflexivity|].
        apply in_or_app. right. now left.
      * right. now exists before, between, after.
Qed.

Lemma comparedPairs_In pathSetsA pathSetsB pathA pathB :
  In (pathA, pathB) (comparedPairs pathSetsA pathSetsB)
  <-> pairIn pathSetsA pathSetsB (keys pathSetsA) pathA pathB.
Proof.
  unfold comparedPairs, pairIn. rewrite in_flat_map. split.
  - intros [t [Ht Hin]]. unfold pairsUnder in Hin.
    destruct (get pathSetsB t) as [pathsB|] eqn:HB; [|destruct Hin].
    destruct (get pathSetsA t) as [pathsA|] eqn:HA; [|destruct Hin].
    apply in_prod_iff in Hin. destruct Hin as [Ha Hb].
    apply (proj1 (sortPaths_In _ _)) in Ha.
    apply (proj1 (forIn_In _ _)) in Ht.
    exists t, pathsA, pathsB. repeat split; assumption.
  - intros [t [pathsA [pathsB [Ht [HA [Ha [HB Hb]]]]]]].
    exists t. split; [now apply forIn_In|].
    unfold pairsUnder. rewrite HA, HB.
    apply in_prod_iff. split; [now apply sortPaths_In | exact Hb].
Qed.

(** The first pair found of two root rules passes the test, and there is
    none only when no pair of the two does. *)
Lemma firstFound_spec pathSetsA pathSetsB :
  match firstFound pathSetsA pathSetsB with
  | Some (pathA, pathB) =>
      pairIn pathSetsA pathSetsB (keys pathSetsA) pathA pathB
      /\ ambiguous pathA pathB = true
  | None =>
      forall pathA pathB,
        pairIn pathSetsA pathSetsB (keys pathSetsA) pathA pathB ->
        ambiguous pathA pathB = false
  end.
Proof.
  unfold firstFound.
  destruct (find passes (comparedPairs pathSetsA pathSetsB)) as [[a b]|] eqn:E.
  - apply find_some in E. destruct E as [Hin Hp].
    split; [now apply comparedPairs_In | exact Hp].
  - intros a b Hin. apply comparedPairs_In in Hin.
    exact (find_none _ _ E (a, b) Hin).
Qed.

Lemma treesOf_signal nontermSym founds :
  snd (treesOf nontermSym founds) <> Break.
Proof.
  induction founds as [|[a b] founds IH]; simpl; [discriminate|].
  destruct (trimmedTrees nontermSym a b); [exact IH | discriminate].
Qed.

(** The pairs of trees [findAmbiguity] has printed, and how it ends, are
    those of its loops. *)
Lemma findAmbiguity_forA opts nontermSym pathTab :
  let st := {| foundAmbiguity := false; ambigPairs := []; printed := [] |} in
  FindSpec.pairsPrinted (printed (fst (findAmbiguity opts nontermSym pathTab)))
  = FindSpec.pairsPrinted (printed (fst (forA opts nontermSym st pathTab)))
  /\ (forall event,
         In event (printed (fst (forA opts nontermSym st pathTab))) ->
         In event (printed (fst (findAmbiguity opts nontermSym pathTab))))
  /\ (forall e,
         snd (findAmbiguity opts nontermSym pathTab) = Thrown e
         <-> snd (forA opts nontermSym st pathTab) = Thrown e)
  /\ (snd (findAmbiguity opts nontermSym pathTab) = Next
      <-> snd (forA opts nontermSym st pathTab) = Next
          \/ snd (forA opts nontermSym st pathTab) = Break).
Proof.
  intros st0. unfold findAmbiguity. fold st0.
  assert (Herr : forall events,
             FindSpec.pairsPrinted
               (events ++ [Err "Ambiguity not found in test rule" nontermSym])
             = FindSpec.pairsPrinted events).
  { intros events. unfold FindSpec.pairsPrinted.
    rewrite flat_map_app. simpl. apply app_nil_r. }
  destruct (forA opts nontermSym st0 pathTab) as [st [| |e]]; cbn [fst snd];
    try destruct (negb (foundAmbiguity st) && useTestRules opts
                  && Z.eqb (indexOf nontermSym "ambig") 1);
    cbn [fst snd printed]; rewrite ?Herr;
    (split; [reflexivity|]);
    (split; [intros event H; try apply in_or_app; auto|]);
    (split; [intros e'; split; congruence|]);
    (split; [auto | intros [H|H]; congruence]).
Qed.

(** C1, amended.  [listsEqual] answers true exactly when the two lists
    spell the same symbols.  A pair of paths drawn from two root rules of
    a symbol meets the test of [findAmbiguity] -- the two are stored under
    the same terminals, and [pathB.nextSym === nextSym &&
    listsEqual(pathB.nextSyms, nextSyms)] holds -- if and only if the two
    have the same terminals, the same [nextSym] and [nextSyms] equal symbol
    for symbol.  Ambiguity is found for the symbol if and only if there is
    such a pair, and every pair of trees that is printed is the trimmed
    pair of trees of such a pair.  What is reported of these pairs, when
    [noOutput] is not set, depends on [findAll].  Without it, one pair is
    reported for each two root rules that have such a pair, the first
    found in the order they are compared: the pairs of trees printed are
    the trimmed trees of these first pairs, in the order of the root
    rules, up to the first pair whose trees cannot be trimmed, where the
    search throws.  With it, a search that ends normally has reported
    every such pair: the trimmed trees of each have been printed, in this
    order or the other; and the search throws only what the trimming of
    the trees of such a pair throws. *)
Theorem ambiguity_test (grammar : Grammar) (opts : Opts) (nontermSym : string)
                       (pathTab : list PathSets) :
  pathTabOf grammar opts nontermSym = Done pathTab ->
  (forall a b, listsEqual a b = true <-> symbolsOf a = symbolsOf b)
  /\ (forall pathA pathB,
        paired pathTab pathA pathB /\ ambiguous pathA pathB = true
        <-> fromTwoRootRules pathTab pathA pathB /\ sameFringe pathA pathB)
  /\ (foundAmbiguity (fst (findAmbiguity opts nontermSym pathTab)) = true
      <-> exists pathA pathB,
          fromTwoRootRules pathTab pathA pathB /\ sameFringe pathA pathB)
  /\ (forall treeA treeB,
        In (Ambiguity treeA treeB)
           (printed (fst (findAmbiguity opts nontermSym pathTab))) ->
        exists pathA pathB,
          fromTwoRootRules pathTab pathA pathB /\ sameFringe pathA pathB
          /\ trimmedTrees nontermSym pathA pathB = Done (treeA, treeB))
  /\ (forall pathSetsA pathSetsB,
        In (pathSetsA, pathSetsB) (rootRulePairs pathTab) ->
        match firstFound pathSetsA pathSetsB with
        | Some (pathA, pathB) =>
            fromTwoRootRules pathTab pathA pathB /\ sameFringe pathA pathB
        | None =>
            forall termsA pathsA termsB pathsB pathA pathB,
              get pathSetsA termsA = Some pathsA -> In pathA pathsA ->
              get pathSetsB termsB = Some pathsB -> In pathB pathsB ->
              ~ sameFringe pathA pathB
        end)
  /\ (findAll opts = false -> noOutput opts = false ->
      (FindSpec.pairsPrinted
         (printed (fst (findAmbiguity opts nontermSym pathTab))),
       snd (findAmbiguity opts nontermSym pathTab))
      = treesOf nontermSym (firstFounds pathTab))
  /\ (findAll opts = true -> noOutput opts = false ->
      (forall e,
          snd (findAmbiguity opts nontermSym pathTab) = Thrown e ->
          exists pathA pathB,
            fromTwoRootRules pathTab pathA pathB /\ sameFringe pathA pathB
            /\ trimmedTrees nontermSym pathA pathB = Throw e)
      /\ (snd (findAmbiguity opts nontermSym pathTab) = Next ->
          forall pathA pathB,
            fromTwoRootRules pathTab pathA pathB -> sameFringe pathA pathB ->
            exists treeA treeB,
              trimmedTrees nontermSym pathA pathB = Done (treeA, treeB)
              /\ (In (Ambiguity treeA treeB)
                     (printed (fst (findAmbiguity opts nontermSym pathTab)))
                  \/ In (Ambiguity treeB treeA)
                        (printed
                           (fst (findAmbiguity opts nontermSym pathTab)))))).
Proof.
  intros Htab.
  pose proof (pathTabOf_keyed grammar opts nontermSym pathTab Htab) as Hkeyed.
  pose proof (paired_same_fringe (fun _ => True) pathTab) as Hsame.
  destruct (findAmbiguity_compares opts nontermSym pathTab)
    as [[Hflag [_ [Hprint _]]] [Hfound Hprinted]].
  destruct (findAmbiguity_forA opts nontermSym pathTab)
    as [Hpairs [Hevents [Hthrown Hnext]]].
  split; [intros a b; apply listsEqual_symbolsOf|].
  split; [intros a b; now apply Hsame|].
  split; [|split; [|split; [|split]]].
  - rewrite Hfound, Hflag. simpl. split.
    + intros [H|[a [b H]]]; [discriminate|].
      exists a, b. now apply Hsame.
    + intros [a [b H]]. right. exists a, b. now apply Hsame.
  - intros tA tB Hin. apply Hprinted in Hin.
    destruct (Hprint tA tB Hin) as [[]|[a [b [Hc [Ha Ht]]]]].
    exists a, b.
    destruct (proj1 (Hsame a b Hkeyed) (conj Hc Ha)) as [H1 H2]. auto.
  - intros A B Hin. apply rootRulePairs_In in Hin.
    destruct Hin as [before [between [after Heq]]].
    pose proof (firstFound_spec A B) as Hfirst.
    destruct (firstFound A B) as [[a b]|].
    + destruct Hfirst as [Hpair Ha]. apply Hsame; [exact Hkeyed|].
      split; [|exact Ha]. now exists before, A, between, B, after.
    + intros tA pathsA tB pathsB a b HgA HiA HgB HiB Hfringe.
      assert (Hfrom : fromTwoRootRules pathTab a b).
      { exists before, A, between, B, after, tA, pathsA, tB, pathsB. auto. }
      assert (HA : In A pathTab)
        by (rewrite Heq; apply in_or_app; right; now left).
      assert (HB : In B pathTab).
      { rewrite Heq. apply in_or_app. right. right.
        apply in_or_app. right. now left. }
      destruct (Hkeyed A HA tA pathsA a (get_In _ _ _ _ HgA) HiA) as [HtA _].
      destruct (Hkeyed B HB tB pathsB b (get_In _ _ _ _ HgB) HiB) as [HtB _].
      destruct Hfringe as [Ht [Hn Hs]].
      assert (Hpass : ambiguous a b = true) by now apply ambiguous_spec.
      rewrite (Hfirst a b) in Hpass; [discriminate|].
      exists tA, pathsA, pathsB. repeat split; auto.
      * eapply get_In_keys; eauto.
      * congruence.
  - intros HfindAll HnoOutput.
    destruct (forA_first opts nontermSym HfindAll HnoOutput pathTab
                {| foundAmbiguity := false; ambigPairs := []; printed := [] |}
                (fun _ => eq_refl)) as [Hp [Hs _]].
    simpl in Hp. rewrite Hpairs, Hp.
    pose proof (treesOf_signal nontermSym (firstFounds pathTab)) as Hb.
    destruct (treesOf nontermSym (firstFounds pathTab)) as [trees signal].
    simpl in *. f_equal.
    destruct signal as [| |e]; [|now contradiction Hb|].
    + apply Hnext. now left.
    + now apply Hthrown.
  - intros HfindAll HnoOutput.
    destruct (forA_reportsAll opts nontermSym HfindAll HnoOutput pathTab
                {| foundAmbiguity := false; ambigPairs := []; printed := [] |})
      as [Hb [Hthrow Hall]].
    split.
    + intros e He. apply Hthrown in He.
      destruct (Hthrow e He) as [a [b [Hc [Ha Ht]]]].
      exists a, b.
      destruct (proj1 (Hsame a b Hkeyed) (conj Hc Ha)) as [H1 H2]. auto.
    + intros Hn a b Hfrom Hfringe. apply Hnext in Hn.
      destruct Hn as [Hn|Hn]; [|contradiction].
      destruct (Hall Hn) as [_ [Hkept Hevery]].
      destruct (proj2 (Hsame a b Hkeyed) (conj Hfrom Hfringe)) as [Hc Ha].
      destruct (Hevery a b Hc Ha) as [tA [tB [Ht Hin]]].
      exists tA, tB. split; [exact Ht|].
      assert (Hk : allPrinted
                     {| foundAmbiguity := false; ambigPairs := [];
                        printed := [] |}) by (intros ? ? []).
      specialize (Hkept Hk).
      destruct Hin as [Hin|Hin]; [left | right];
        apply Hevents; now apply Hkept.
Qed.

(** With no pair of the same fringe, the loops of [findAmbiguity] leave
    the state as they found it. *)
Lemma forA_nothing grammar opts nontermSym pathTab :
  pathTabOf grammar opts nontermSym = Done pathTab ->
  (forall pathA pathB,
      fromTwoRootRules pathTab pathA pathB -> ~ sameFringe pathA pathB) ->
  forA opts nontermSym
       {| foundAmbiguity := false; ambigPairs := []; printed := [] |} pathTab
  = ({| foundAmbiguity := false; ambigPairs := []; printed := [] |}, Next).
Proof.
  intros Htab Hnone.
  pose proof (pathTabOf_keyed grammar opts nontermSym pathTab Htab) as Hkeyed.
  destruct (forA_compares opts nontermSym pathTab
              {| foundAmbiguity := false; ambigPairs := []; printed := [] |})
    as [Hflag [_ [_ Hsame]]].
  apply Hsame.
  apply not_true_is_false. intros E. apply Hflag in E. simpl in E.
  destruct E as [E|[a [b [Hc Ha]]]]; [discriminate|].
  destruct (proj1 (paired_same_fringe (fun _ => True) pathTab a b Hkeyed)
                  (conj Hc Ha)) as [H1 H2].
  exact (Hnone a b H1 H2).
Qed.

(** C8, amended.  With [useTestRules] the check runs over the symbols of
    the test rules.  For a symbol of theirs whose name has [ambig] at index
    1, right after the bracket, and which has not exactly one rule that is
    no edit rule: if no two paths from two of its root rules have the same
    fringe, the search of the symbol prints the error that names it, and
    nothing else, and ends normally.  And whenever the search of a symbol
    ends normally, whatever it printed, the check goes on with the
    symbols after it.  The symbols are taken in the order of the
    [for]-[in] loop, which is the order they were added in when no name
    is an array index. *)
Theorem test_rules_checked (ambiguityExamples grammar : Grammar) (opts : Opts) :
  useTestRules opts = true ->
  (ambiguityCheck ambiguityExamples grammar opts
   = forSymbols ambiguityExamples opts (forIn ambiguityExamples)
   /\ ((forall nontermSym, In nontermSym (keys ambiguityExamples) ->
                           arrayIndex nontermSym = None) ->
       ambiguityCheck ambiguityExamples grammar opts
       = forSymbols ambiguityExamples opts (keys ambiguityExamples)))
  /\ (forall nontermSym rules pathTab,
        get ambiguityExamples nontermSym = Some rules ->
        List.length (initPaths rules) <> 1 ->
        pathTabOf ambiguityExamples opts nontermSym = Done pathTab ->
        indexOf nontermSym "ambig" = 1%Z ->
        (forall pathA pathB,
            fromTwoRootRules pathTab pathA pathB -> ~ sameFringe pathA pathB) ->
        searchPaths ambiguityExamples opts nontermSym
        = ([Err "Ambiguity not found in test rule" nontermSym], Next))
  /\ (forall nontermSym nontermSyms events,
        searchPaths ambiguityExamples opts nontermSym = (events, Next) ->
        forSymbols ambiguityExamples opts (nontermSym :: nontermSyms)
        = (events ++ fst (forSymbols ambiguityExamples opts nontermSyms),
           snd (forSymbols ambiguityExamples opts nontermSyms))).
Proof.
  intros Htest. split; [|split].
  - unfold ambiguityCheck. rewrite Htest. split; [reflexivity|].
    intros Hnames. now rewrite (forIn_names _ Hnames).
  - intros nontermSym rules pathTab Hget Hlen Htab Hidx Hnone.
    pose proof (forA_nothing ambiguityExamples opts nontermSym pathTab Htab Hnone)
      as HforA.
    unfold searchPaths. unfold pathTabOf in Htab.
    rewrite (rulesAt_own _ _ _ Hget) in *.
    apply Nat.eqb_neq in Hlen. rewrite Hlen, Htab.
    unfold findAmbiguity. rewrite HforA. cbn [foundAmbiguity negb andb].
    rewrite Htest, Hidx. reflexivity.
  - intros nontermSym nontermSyms events Hsearch. simpl. rewrite Hsearch.
    now destruct (forSymbols ambiguityExamples opts nontermSyms).
Qed.

End FindFacts.

(** ** Verb sets *)

Module VerbSetFacts.
Import VerbSet VerbSetSpec.

Lemma notAdded_spec added form :
  notAdded added form = true <-> ~ In form added.
Proof.
  unfold notAdded. rewrite negb_true_iff.
  split.
  - intros H Hin. assert (Ht : existsb (String.eqb form) added = true).
    { apply existsb_exists. exists form. split; [exact Hin|].
      apply String.eqb_refl. }
    congruence.
  - intros H. apply not_true_is_false. intros Ht.
    apply existsb_exists in Ht. destruct Ht as [x [Hin Heq]].
    apply String.eqb_eq in Heq. subst. contradiction.
Qed.

Lemma addRule_fresh verbSym rule :
  ~ In (rhs rule) (map rhs verbSym) ->
  addRule verbSym rule = Ok (verbSym ++ [rule]).
Proof.
  intros H. unfold addRule.
  destruct (existsb _ verbSym) eqn:E; [|reflexivity].
  exfalso. apply H. apply existsb_exists in E.
  destruct E as [r [Hin Heq]]. apply String.eqb_eq in Heq.
  rewrite <- Heq. now apply in_map.
Qed.

Section OneVerbSet.
Variable textForms : option TextForms.
Variable verbSym : list VerbRule.

(** Adding a form that no rule has yet. *)
Lemma addForm_fresh cost formTense form rules st :
  formTense = "present" \/ formTense = "past" ->
  addedSoFar textForms verbSym rules st ->
  ~ In form (map rhs verbSym) -> ~ In form (snd st) ->
  exists rule,
    addForm cost textForms formTense form st
    = Ok (verbSym ++ rules ++ [rule], snd st ++ [form])
    /\ addedSoFar textForms verbSym (rules ++ [rule])
                  (verbSym ++ rules ++ [rule], snd st ++ [form]).
Proof.
  intros Htense [Hfst [Hmap [Hnd Htext]]] Hfresh Hnew.
  destruct st as [syms added]. simpl in *. subst syms.
  unfold addForm.
  assert (Hcreate : exists rule,
             createVerbTerminalRule form textForms formTense = Ok rule
             /\ rhs rule = form /\ text rule = textForms
             /\ isTerminal rule = true).
  { destruct Htense as [-> | ->]; eexists; (split; [reflexivity|]); auto. }
  destruct Hcreate as [rule0 [-> [Hrhs [Htf Hterm]]]].
  set (rule := match cost with
               | Some c => {| isTerminal := isTerminal rule0; rhs := rhs rule0;
                              text := text rule0; tense := tense rule0;
                              insertionCost := Some c |}
               | None => rule0
               end).
  assert (Hrule : rhs rule = form /\ text rule = textForms
                  /\ isTerminal rule = true).
  { unfold rule. destruct cost; simpl; auto. }
  destruct Hrule as [Hrhs' [Htf' Hterm']].
  rewrite addRule_fresh.
  2: { rewrite Hrhs', map_app, in_app_iff, Hmap. tauto. }
  exists rule. rewrite <- app_assoc. split; [reflexivity|].
  split; [reflexivity|]. simpl. split; [|split].
  - rewrite map_app, Hmap. simpl. now rewrite Hrhs'.
  - apply SymbolFacts.NoDup_snoc; assumption.
  - intros r Hin. apply in_app_iff in Hin.
    destruct Hin as [Hin|[<-|[]]]; auto.
Qed.

(** A step that adds a wanted form unless it was added before. *)
Lemma step_adds (wanted : bool) formTense form rules st :
  formTense = "present" \/ formTense = "past" ->
  addedSoFar textForms verbSym rules st ->
  (wanted = true -> ~ In form (map rhs verbSym)) ->
  exists rules' st',
    (if wanted && notAdded (snd st) form
     then addForm None textForms formTense form st else Ok st) = Ok st'
    /\ addedSoFar textForms verbSym rules' st'
    /\ forall f, In f (snd st') <-> In f (snd st) \/ (wanted = true /\ f = form).
Proof.
  intros Htense Hinv Hfresh.
  destruct wanted; simpl.
  - destruct (notAdded (snd st) form) eqn:E.
    + apply notAdded_spec in E.
      destruct (addForm_fresh None formTense form rules st Htense Hinv
                  (Hfresh eq_refl) E) as [rule [-> Hinv']].
      eexists; eexists; split; [reflexivity|]. split; [exact Hinv'|].
      intros f. simpl. rewrite in_app_iff. simpl. intuition.
    + exists rules, st. split; [reflexivity|]. split; [exact Hinv|].
      intros f. split; [auto|]. intros [H|[_ ->]]; [exact H|].
      destruct (notAdded_spec (snd st) form) as [_ H2].
      destruct (in_dec string_dec form (snd st)) as [Hin|Hnin]; [exact Hin|].
      rewrite (H2 Hnin) in E. discriminate.
  - exists rules, st. split; [reflexivity|]. split; [exact Hinv|].
    intros f. split; [auto|]. intros [H|[H _]]; [exact H | discriminate].
Qed.

End OneVerbSet.

Lemma In_optionalForm f form :
  In f (optionalForm form) <-> given form = true /\ f = formOf form.
Proof.
  unfold optionalForm. destruct (given form); simpl.
  - split; [intros [<-|[]]; auto | intros [_ ->]; auto].
  - split; [intros [] | intros [H _]; discriminate].
Qed.

(** The steps of one verb set whose forms no rule of the symbol has. *)
Lemma addVerbTermSet_spec textForms cost verbSym verbTermSet :
  (forall form, In form (forms verbTermSet) -> ~ In form (map rhs verbSym)) ->
  if pastIsPresent verbTermSet
  then addVerbTermSet textForms cost verbSym verbTermSet = Error "Ill-formed verb"
  else exists added,
      addVerbTermSet textForms cost verbSym verbTermSet = Ok (verbSym ++ added)
      /\ NoDup (map rhs added)
      /\ (forall form, In form (map rhs added) <-> In form (forms verbTermSet))
      /\ (forall rule, In rule added ->
                       text rule = textForms /\ isTerminal rule = true).
Proof.
  intros Hfresh. unfold addVerbTermSet.
  assert (H0 : addedSoFar textForms verbSym [] (verbSym, [])).
  { split; [now rewrite app_nil_r|]. split; [reflexivity|].
    split; [constructor | intros r []]. }
  assert (Hf : forall form, In form (forms verbTermSet) ->
                            ~ In form (map rhs verbSym)) by exact Hfresh.
  unfold forms in Hf.
  destruct (addForm_fresh textForms verbSym cost "present" (oneSg verbTermSet)
              [] (verbSym, []) (or_introl eq_refl) H0)
    as [r1 [-> H1]]; [apply Hf; now left | intros [] |].
  cbn [andThen snd].
  destruct (step_adds textForms verbSym true "present" (threeSg verbTermSet)
              _ _ (or_introl eq_refl) H1)
    as [rules2 [st2 [E2 [H2 M2]]]]; [intros _; apply Hf; simpl; auto|].
  cbn [andb snd] in E2. rewrite E2. cbn [andThen].
  destruct (step_adds textForms verbSym true "present" (pl verbTermSet)
              _ _ (or_introl eq_refl) H2)
    as [rules3 [st3 [E3 [H3 M3]]]]; [intros _; apply Hf; simpl; auto|].
  cbn [andb] in E3. rewrite E3. cbn [andThen].
  assert (M3' : forall f, In f (snd st3)
                          <-> In f [oneSg verbTermSet; threeSg verbTermSet;
                                    pl verbTermSet]).
  { intros f. rewrite M3, M2. simpl. intuition. }
  assert (Hpast : negb (notAdded (snd st3) (formOf (past verbTermSet)))
                  = existsb (String.eqb (formOf (past verbTermSet)))
                            [oneSg verbTermSet; threeSg verbTermSet;
                             pl verbTermSet]).
  { destruct (existsb _ [_; _; _]) eqn:E.
    - apply negb_true_iff. apply not_true_is_false. intros Hn.
      apply notAdded_spec in Hn. apply Hn. apply M3'.
      apply existsb_exists in E. destruct E as [x [Hin Heq]].
      apply String.eqb_eq in Heq. now subst.
    - apply negb_false_iff. apply notAdded_spec. intros Hin.
      apply M3' in Hin.
      assert (Ht : existsb (String.eqb (formOf (past verbTermSet)))
                     [oneSg verbTermSet; threeSg verbTermSet; pl verbTermSet]
                   = true).
      { apply existsb_exists. eexists. split; [exact Hin|].
        apply String.eqb_refl. }
      congruence. }
  unfold pastIsPresent. rewrite <- Hpast.
  destruct (given (past verbTermSet)) eqn:Gp; cbn [andb].
  - destruct (negb (notAdded (snd st3) (formOf (past verbTermSet)))) eqn:Np;
      [reflexivity|].
    apply negb_false_iff in Np.
    destruct (step_adds textForms verbSym true "past"
                (formOf (past verbTermSet)) _ _ (or_intror eq_refl) H3)
      as [rules4 [st4 [E4 [H4 M4]]]].
    { intros _. apply Hf. simpl. right. right. right.
      rewrite in_app_iff, In_optionalForm. auto. }
    cbn [andb] in E4. rewrite Np in E4. rewrite E4. cbn [andThen].
    destruct (step_adds textForms verbSym (given (presentSubjunctive verbTermSet))
                "present" (formOf (presentSubjunctive verbTermSet)) _ _
                (or_introl eq_refl) H4)
      as [rules5 [st5 [E5 [H5 M5]]]].
    { intros G. apply Hf. simpl. right. right. right.
      rewrite !in_app_iff, !In_optionalForm. auto. }
    rewrite E5. cbn [andThen].
    destruct (step_adds textForms verbSym (given (presentParticiple verbTermSet))
                "present" (formOf (presentParticiple verbTermSet)) _ _
                (or_introl eq_refl) H5)
      as [rules6 [st6 [E6 [H6 M6]]]].
    { intros G. apply Hf. simpl. right. right. right.
      rewrite !in_app_iff, !In_optionalForm. auto 6. }
    rewrite E6. cbn [andThen].
    destruct (step_adds textForms verbSym (given (pastParticiple verbTermSet))
                "past" (formOf (pastParticiple verbTermSet)) _ _
                (or_intror eq_refl) H6)
      as [rules7 [st7 [E7 [H7 M7]]]].
    { intros G. apply Hf. simpl. right. right. right.
      rewrite !in_app_iff, !In_optionalForm. auto 6. }
    rewrite E7. cbn [andThen].
    destruct H7 as [Hfst [Hmap [Hnd Htext]]].
    exists rules7. rewrite Hfst, Hmap.
    split; [reflexivity|]. split; [exact Hnd|]. split; [|exact Htext].
    intros f. rewrite M7, M6, M5, M4, M3'. unfold forms. simpl.
    rewrite !in_app_iff, !In_optionalForm. rewrite Gp. intuition.
  - cbn [andThen].
    destruct (step_adds textForms verbSym (given (presentSubjunctive verbTermSet))
                "present" (formOf (presentSubjunctive verbTermSet)) _ _
                (or_introl eq_refl) H3)
      as [rules5 [st5 [E5 [H5 M5]]]].
    { intros G. apply Hf. simpl. right. right. right.
      rewrite !in_app_iff, !In_optionalForm. auto. }
    rewrite E5. cbn [andThen].
    destruct (step_adds textForms verbSym (given (presentParticiple verbTermSet))
                "present" (formOf (presentParticiple verbTermSet)) _ _
                (or_introl eq_refl) H5)
      as [rules6 [st6 [E6 [H6 M6]]]].
    { intros G. apply Hf. simpl. right. right. right.
      rewrite !in_app_iff, !In_optionalForm. auto 6. }
    rewrite E6. cbn [andThen].
    destruct (step_adds textForms verbSym (given (pastParticiple verbTermSet))
                "past" (formOf (pastParticiple verbTermSet)) _ _
                (or_intror eq_refl) H6)
      as [rules7 [st7 [E7 [H7 M7]]]].
    { intros G. apply Hf. simpl. right. right. right.
      rewrite !in_app_iff, !In_optionalForm. auto 6. }
    rewrite E7. cbn [andThen].
    destruct H7 as [Hfst [Hmap [Hnd Htext]]].
    exists rules7. rewrite Hfst, Hmap.
    split; [reflexivity|]. split; [exact Hnd|]. split; [|exact Htext].
    intros f. rewrite M7, M6, M5, M3'. unfold forms. simpl.
    rewrite !in_app_iff, !In_optionalForm. rewrite Gp. intuition congruence.
Qed.

(** C7, amended.  In the loop over the accepted verb sets, for a verb set
    none of whose forms the symbol has a rule for yet: if its past form is
    given and is one of its three present forms, the loop throws
    "Ill-formed verb"; otherwise it adds exactly one terminal rule for each
    distinct form of the set, other repeated forms being passed over in
    silence, every one of these rules has for text the one object of the
    set's [oneSg], [threeSg], [pl] and [past], and the loop goes on with
    the next set. *)
Theorem verb_forms_collapsed (options : Options) (i : nat)
    (verbTermSet : VerbTermSet) (sets : list VerbTermSet)
    (defaultTextForms : option TextForms) (verbSym : list VerbRule) :
  (forall form, In form (forms verbTermSet) -> ~ In form (map rhs verbSym)) ->
  if pastIsPresent verbTermSet
  then acceptedLoop options i (verbTermSet :: sets) defaultTextForms verbSym
       = Error "Ill-formed verb"
  else exists added,
      NoDup (map rhs added)
      /\ (forall form, In form (map rhs added) <-> In form (forms verbTermSet))
      /\ (forall rule, In rule added ->
                       text rule = Some (verbSetTextForms verbTermSet)
                       /\ isTerminal rule = true)
      /\ acceptedLoop options i (verbTermSet :: sets) defaultTextForms verbSym
         = acceptedLoop options (S i) sets
             (if Nat.eqb i 0 then Some (verbSetTextForms verbTermSet)
              else defaultTextForms)
             (verbSym ++ added).
Proof.
  intros Hfresh.
  pose proof (addVerbTermSet_spec (Some (verbSetTextForms verbTermSet))
                (if Nat.eqb i 0 then optInsertionCost options else None)
                verbSym verbTermSet Hfresh) as H.
  cbn [acceptedLoop].
  destruct (pastIsPresent verbTermSet).
  - now rewrite H.
  - destruct H as [added [-> [Hnd [Hforms Htext]]]].
    exists added. split; [exact Hnd|]. split; [exact Hforms|].
    split; [exact Htext | reflexivity].
Qed.

End VerbSetFacts.

Module VerbSetExamples.
Import VerbSet VerbSetSpec VerbSetFacts Examples.

(** "put" is the past of "put", and the verb is refused. *)
Lemma verb_past_is_present_refused :
  newVerbSet (verbOptions putVerb) = Error "Ill-formed verb"
  /\ past putVerb = Some (pl putVerb)
  /\ pastParticiple putVerb = Some (oneSg putVerb).
Proof. repeat split. Qed.

(** "like" gives the rules of like, likes, liked and liking. *)
Lemma verb_forms_collapsed_witness :
  exists added,
    NoDup (map rhs added)
    /\ (forall form, In form (map rhs added) <-> In form (forms likeVerb))
    /\ (forall rule, In rule added ->
                     text rule = Some (verbSetTextForms likeVerb)
                     /\ isTerminal rule = true)
    /\ acceptedLoop (verbOptions likeVerb) 0 [likeVerb] None []
       = acceptedLoop (verbOptions likeVerb) 1 []
           (Some (verbSetTextForms likeVerb)) ([] ++ added).
Proof.
  exact (verb_forms_collapsed (verbOptions likeVerb) 0 likeVerb [] None []
           (fun form _ (H : In form []) => H)).
Defined.

Lemma newVerbSet_like :
  option_map (map rhs)
    (match newVerbSet (verbOptions likeVerb) with
     | Ok rules => Some rules
     | Error _ => None
     end)
  = Some ["like"; "likes"; "liked"; "liking"].
Proof. reflexivity. Qed.

End VerbSetExamples.

Module DetectorExamples.
Import AmbiguityCheck DetectorSpec PathFacts FindFacts Examples.

(** [for ... in] over an object with the keys [[b]], [10], [2] and [01],
    added in this order: the array indices first, ascending. *)
Lemma forIn_indices_first :
  forIn [("[b]", 1); ("10", 2); ("2", 3); ("01", 4)] = ["2"; "10"; "[b]"; "01"].
Proof. reflexivity. Qed.

(** The check on [S -> A | B], [A -> "x"], [B -> "x"]. *)
Lemma ambiguityCheck_direct :
  ambiguityCheck [] directGrammar (options 14 false false)
  = ([Ambiguity (Node "[S]" (Some [Node "[A]" (Some [Node "x" None])]))
                (Node "[S]" (Some [Node "[B]" (Some [Node "x" None])]))],
     Next).
Proof. reflexivity. Qed.

(** The check on [X -> "x" | X]: the trees of [X -> "x"] and of
    [X -> X -> "x"] are equal from the leaf up to the root of the first,
    and [diffTrees] reads the [par] the root lacks. *)
Lemma ambiguityCheck_loop_throws :
  ambiguityCheck [] loopGrammar (options 14 false false) = ([], Thrown TypeError).
Proof. reflexivity. Qed.

(** [S -> A -> "x"] has the fringe of [S -> B -> "x"] and of
    [S -> B -> C -> "x"]; with [findAll] false only the first pair is
    printed. *)
Lemma second_pair_not_printed :
  exists pathTab,
    pathTabOf twiceGrammar (options 14 false false) "[S]" = Done pathTab
    /\ fromTwoRootRules pathTab pathSAx pathSBCx
    /\ sameFringe pathSAx pathSBCx
    /\ trimmedTrees "[S]" pathSAx pathSBCx
       = Done (Node "[S]" (Some [Node "[A]" (Some [Node "x" None])]),
               Node "[S]" (Some [Node "[B]" (Some [Node "[C]"
                                                     (Some [Node "x" None])])]))
    /\ printed (fst (findAmbiguity (options 14 false false) "[S]" pathTab))
       = [Ambiguity (Node "[S]" (Some [Node "[A]" (Some [Node "x" None])]))
                    (Node "[S]" (Some [Node "[B]" (Some [Node "x" None])]))]
    /\ ~ In (Ambiguity
               (Node "[S]" (Some [Node "[A]" (Some [Node "x" None])]))
               (Node "[S]" (Some [Node "[B]" (Some [Node "[C]"
                                                     (Some [Node "x" None])])])))
            (printed (fst (findAmbiguity (options 14 false false) "[S]" pathTab))).
Proof.
  eexists. split; [vm_compute; reflexivity|].
  split.
  { exists [], [("", [pathSA]); (" x", [pathSAx])], [],
           [("", [pathSB; newPath pathSB (nonterminalRule ["[C]"])]);
            (" x", [pathSBx; pathSBCx])], [],
           " x", [pathSAx], " x", [pathSBx; pathSBCx].
    repeat split; simpl; auto. }
  split; [repeat split|].
  split; [reflexivity|].
  split; [reflexivity|].
  intros [H|[]]. discriminate H.
Qed.

Lemma fromTwoRootRules_twice : fromTwoRootRules twicePathTab pathSAx pathSBCx.
Proof.
  exists [], [("", [pathSA]); (" x", [pathSAx])], [],
         [("", [pathSB; pathSBC]); (" x", [pathSBx; pathSBCx])], [],
         " x", [pathSAx], " x", [pathSBx; pathSBCx].
  repeat split; simpl; auto.
Defined.

Lemma sameFringe_twice : sameFringe pathSAx pathSBCx.
Proof. repeat split. Defined.

(** On [directGrammar] the test and what is found; on [twiceGrammar],
    where [S -> A -> "x"] has the fringe of [S -> B -> "x"] and of
    [S -> B -> C -> "x"], the one pair reported by default, the first
    found, and with [findAll] the other pair reported as well. *)
Lemma ambiguity_test_witness :
  ((forall a b, listsEqual a b = true <-> symbolsOf a = symbolsOf b)
   /\ (forall pathA pathB,
         paired directPathTab pathA pathB /\ ambiguous pathA pathB = true
         <-> fromTwoRootRules directPathTab pathA pathB
             /\ sameFringe pathA pathB)
   /\ (foundAmbiguity
         (fst (findAmbiguity (options 14 false false) "[S]" directPathTab))
       = true
       <-> exists pathA pathB,
           fromTwoRootRules directPathTab pathA pathB
           /\ sameFringe pathA pathB)
   /\ (forall treeA treeB,
         In (Ambiguity treeA treeB)
            (printed
               (fst (findAmbiguity (options 14 false false) "[S]"
                       directPathTab))) ->
         exists pathA pathB,
           fromTwoRootRules directPathTab pathA pathB
           /\ sameFringe pathA pathB
           /\ trimmedTrees "[S]" pathA pathB = Done (treeA, treeB)))
  /\ (firstFounds twicePathTab = [(pathSAx, pathSBx)]
      /\ fromTwoRootRules twicePathTab pathSAx pathSBx
      /\ sameFringe pathSAx pathSBx
      /\ (FindSpec.pairsPrinted
            (printed
               (fst (findAmbiguity (options 14 false false) "[S]"
                       twicePathTab))),
          snd (findAmbiguity (options 14 false false) "[S]" twicePathTab))
         = ([(treeSAx, treeSBx)], Next))
  /\ (exists treeA treeB,
         trimmedTrees "[S]" pathSAx pathSBCx = Done (treeA, treeB)
         /\ (In (Ambiguity treeA treeB)
                (printed
                   (fst (findAmbiguity (options 14 true false) "[S]"
                           twicePathTab)))
             \/ In (Ambiguity treeB treeA)
                   (printed
                      (fst (findAmbiguity (options 14 true false) "[S]"
                              twicePathTab))))).
Proof.
  split; [|split].
  - destruct (ambiguity_test directGrammar (options 14 false false) "[S]"
                directPathTab eq_refl) as [H1 [H2 [H3 [H4 _]]]].
    auto.
  - destruct (ambiguity_test twiceGrammar (options 14 false false) "[S]"
                twicePathTab eq_refl) as [_ [_ [_ [_ [Hfirst [Hdefault _]]]]]].
    split; [reflexivity|].
    specialize (Hfirst [("", [pathSA]); (" x", [pathSAx])]
                       [("", [pathSB; pathSBC]); (" x", [pathSBx; pathSBCx])]
                       (or_introl eq_refl)).
    split; [exact (proj1 Hfirst)|]. split; [exact (proj2 Hfirst)|].
    rewrite (Hdefault eq_refl eq_refl). reflexivity.
  - destruct (ambiguity_test twiceGrammar (options 14 true false) "[S]"
                twicePathTab eq_refl) as [_ [_ [_ [_ [_ [_ Hall]]]]]].
    destruct (Hall eq_refl eq_refl) as [_ Hevery].
    exact (Hevery eq_refl pathSAx pathSBCx fromTwoRootRules_twice
                  sameFringe_twice).
Defined.

(** The edit rules of [editedGrammar] start and extend no path. *)
Lemma edit_rules_excluded_witness :
  pathTabOf (withoutEditRules editedGrammar) (options 14 false false) "[S]"
  = pathTabOf editedGrammar (options 14 false false) "[S]"
  /\ fromNonEditRules editedGrammar "[S]" pathSBx.
Proof.
  destruct (edit_rules_excluded editedGrammar (options 14 false false) "[S]")
    as [H1 H2].
  split; [exact H1|].
  apply (H2 [[("", [pathSA]); (" x", [pathSAx])];
             [("", [pathSB]); (" x", [pathSBx])]]); [reflexivity|].
  exists [("", [pathSB]); (" x", [pathSBx])], " x", [pathSBx].
  simpl. auto 6.
Defined.

(** With a limit of 1 the path [S -> A], of 2 symbols, is expanded all the
    same. *)
Lemma root_path_expanded_over_limit :
  pathTabOf directGrammar (options 1 false false) "[S]"
  = Done [[("", [pathSA]); (" x", [pathSAx])];
          [("", [pathSB]); (" x", [pathSBx])]]
  /\ pathIn [[("", [pathSA]); (" x", [pathSAx])];
             [("", [pathSB]); (" x", [pathSBx])]] pathSAx
  /\ prev pathSAx = Some pathSA
  /\ ~ symsCount pathSA < symsLimit (options 1 false false).
Proof.
  split; [reflexivity|]. split.
  - exists [("", [pathSA]); (" x", [pathSAx])], " x", [pathSAx].
    simpl. auto 6.
  - split; [reflexivity|]. simpl. lia.
Qed.

Lemma directGrammar_closed : closedGrammar directGrammar.
Proof.
  intros sym rules rule s Hget Hin Ht Hs. simpl in Hget.
  repeat match type of Hget with
         | (if ?c then _ else _) = _ => destruct c
         end; try discriminate; injection Hget as <-; simpl in Hin;
    repeat match type of Hin with
           | _ \/ _ => destruct Hin as [<-|Hin]
           | False => destruct Hin
           end; try discriminate Ht; simpl in Hs;
    repeat match type of Hs with
           | _ \/ _ => destruct Hs as [<-|Hs]
           | False => destruct Hs
           end; reflexivity.
Qed.

Lemma enumeration_terminates_witness :
  pathTabOf directGrammar (options 14 false false) "[S]" <> Throw OutOfFuel
  /\ (exists pathTab,
         pathTabOf directGrammar (options 14 false false) "[S]" = Done pathTab)
  /\ ((exists rule rules,
          get directGrammar (toString (nextSym pathSA)) = Some rules
          /\ In rule rules /\ pathSAx = newPath pathSA rule
          /\ symsCount pathSAx = symsCount pathSA + List.length (RHS rule))
      /\ truthy (nextSym pathSA) = true
      /\ (prev pathSA = None \/ symsCount pathSA < symsLimit (options 14 false false))).
Proof.
  destruct (enumeration_terminates directGrammar (options 14 false false) "[S]")
    as [H1 [H2 H3]].
  split; [exact H1|]. split; [exact (H2 directGrammar_closed eq_refl)|].
  apply (H3 [[("", [pathSA]); (" x", [pathSAx])];
             [("", [pathSB]); (" x", [pathSBx])]]); [reflexivity | | reflexivity].
  exists [("", [pathSA]); (" x", [pathSAx])], " x", [pathSAx].
  simpl. auto 6.
Defined.

(** A table of two sets with one path each, under different terminals,
    has no pair of the same fringe. *)
Lemma different_terminals_no_pair termsA pathA termsB pathB :
  terminals pathA <> terminals pathB ->
  forall a b,
    fromTwoRootRules [[(termsA, [pathA])]; [(termsB, [pathB])]] a b ->
    ~ sameFringe a b.
Proof.
  intros Hne a b
    [before [A [between [B [after [tA [pathsA [tB [pathsB [Heq H]]]]]]]]]].
  destruct H as [HgA [HiA [HgB HiB]]].
  assert (HAB : A = [(termsA, [pathA])] /\ B = [(termsB, [pathB])]).
  { destruct before as [|x [|y before]]; simpl in Heq.
    - injection Heq as <- Heq.
      destruct between as [|z between]; simpl in Heq.
      + injection Heq as <- _. auto.
      + injection Heq as _ Heq. destruct between; discriminate.
    - injection Heq as _ Heq. destruct between; discriminate.
    - injection Heq as _ _ Heq. destruct before; discriminate. }
  destruct HAB as [-> ->]. simpl in HgA, HgB.
  destruct (String.eqb termsA tA); [|discriminate].
  destruct (String.eqb termsB tB); [|discriminate].
  injection HgA as <-. injection HgB as <-.
  destruct HiA as [<-|[]]. destruct HiB as [<-|[]].
  intros [Ht _]. contradiction.
Qed.

(** [unambig] contains [ambig], at index 3; no ambiguity is found for the
    symbol, and no error is printed. *)
Lemma unambig_miss_not_reported :
  useTestRules (options 14 false true) = true
  /\ In "[unambig]" (keys testRules)
  /\ contains "[unambig]" "ambig"
  /\ indexOf "[unambig]" "ambig" = 3%Z
  /\ (exists pathTab,
         pathTabOf testRules (options 14 false true) "[unambig]" = Done pathTab
         /\ foundAmbiguity
              (fst (findAmbiguity (options 14 false true) "[unambig]" pathTab))
            = false)
  /\ searchPaths testRules (options 14 false true) "[unambig]" = ([], Next)
  /\ ambiguityCheck testRules [] (options 14 false true)
     = ([Err "Ambiguity not found in test rule" "[ambig-none]"], Next).
Proof.
  split; [reflexivity|]. split; [simpl; auto|].
  split; [discriminate|]. split; [reflexivity|].
  split; [eexists; split; reflexivity|].
  split; reflexivity.
Qed.

Lemma test_rules_checked_witness :
  ambiguityCheck testRules directGrammar (options 14 false true)
  = forSymbols testRules (options 14 false true) (keys testRules)
  /\ searchPaths testRules (options 14 false true) "[ambig-none]"
     = ([Err "Ambiguity not found in test rule" "[ambig-none]"], Next)
  /\ forSymbols testRules (options 14 false true) ["[ambig-none]"; "[unambig]"]
     = ([Err "Ambiguity not found in test rule" "[ambig-none]"]
        ++ fst (forSymbols testRules (options 14 false true) ["[unambig]"]),
        snd (forSymbols testRules (options 14 false true) ["[unambig]"])).
Proof.
  destruct (test_rules_checked testRules directGrammar (options 14 false true)
              eq_refl) as [[_ H1] [H2 H3]].
  split.
  { apply H1. intros sym [<-|[<-|[]]]; reflexivity. }
  split.
  - apply (H2 "[ambig-none]" [terminalRule "x"; terminalRule "y"]
              [[(" x", [rootPath (terminalRule "x")])];
               [(" y", [rootPath (terminalRule "y")])]]);
      try reflexivity.
    + simpl. lia.
    + apply different_terminals_no_pair. discriminate.
  - apply H3. reflexivity.
Defined.

End DetectorExamples.
(** ** More on parse trees *)

Module TreeMore.
Import AmbiguityCheck DetectorSpec TreeSpec TreeFacts.

(** *** [nodesEqual] and [pairExists] *)

(** [nodesEqual] tells exactly whether two trees are the same: the same
    symbol, and the same children in the same order, all the way down;
    a node with an empty array of children is no node without. *)
Theorem nodesEqual_same_tree (a b : node) :
  (nodesEqual a b = true <-> a = b)
  /\ nodesEqual (Node (symbol a) (Some [])) (Node (symbol a) None) = false.
Proof.
  split; [apply nodesEqual_eq|].
  simpl. now rewrite String.eqb_refl.
Qed.

(** [pairExists] finds a pair of trees exactly when the pair has been
    recorded, in this order or the other. *)
Theorem pairExists_recorded (ambigPairs : list (node * node)) (treeA treeB : node) :
  (pairExists ambigPairs treeA treeB = true
   <-> In (treeA, treeB) ambigPairs \/ In (treeB, treeA) ambigPairs)
  /\ pairExists ambigPairs treeA treeB = pairExists ambigPairs treeB treeA
  /\ pairExists (ambigPairs ++ [(treeA, treeB)]) treeA treeB = true.
Proof.
  split; [apply pairExists_In|]. split.
  - destruct (pairExists ambigPairs treeB treeA) eqn:E.
    + apply pairExists_In. apply pairExists_In in E. tauto.
    + apply not_true_is_false. intros H. apply pairExists_In in H.
      assert (pairExists ambigPairs treeB treeA = true)
        by (apply pairExists_In; tauto).
      congruence.
  - apply pairExists_In. left. apply in_app_iff. right. now left.
Qed.

(** *** [invertTree] *)

Lemma inverted_Node symbol childNodes pos par :
  inverted (Node symbol (Some childNodes)) pos par
  = invertedFrom (mkNodeObj (Node symbol (Some childNodes)) pos par) 0 childNodes.
Proof.
  simpl. generalize 0 as c.
  generalize (Node symbol (Some childNodes)) at 1 2 as t.
  induction childNodes as [|child l IH]; intros t c; simpl; [reflexivity|].
  now rewrite IH.
Qed.

Lemma inverted_pushChildren this childNodes :
  forall c stack,
    flat_map (fun o => inverted (nodeOf o) (posOf o) (par o))
             (pushChildren this c childNodes stack)
    = invertedFrom this c childNodes
      ++ flat_map (fun o => inverted (nodeOf o) (posOf o) (par o)) stack.
Proof.
  induction childNodes as [|child l IH]; intros c stack; simpl; [reflexivity|].
  rewrite IH. now rewrite app_assoc.
Qed.

Lemma invertLoop_inverted fuel :
  forall stack rightmostSyms,
    stackSize stack <= fuel ->
    invertLoop fuel stack rightmostSyms
    = Done (rightmostSyms
            ++ flat_map (fun o => inverted (nodeOf o) (posOf o) (par o)) stack).
Proof.
  induction fuel as [|fuel IH]; intros [|nodeObj stack] acc Hsize; simpl;
    try now rewrite app_nil_r.
  - exfalso. unfold stackSize in Hsize. simpl in Hsize.
    destruct (nodeOf nodeObj) as [s [l|]]; simpl in Hsize; lia.
  - unfold stackSize in Hsize. simpl in Hsize.
    destruct nodeObj as [[s [l|]] pos parent]; simpl in *.
    + rewrite IH.
      * rewrite inverted_pushChildren.
        pose proof (inverted_Node s l pos parent) as E. simpl in E.
        now rewrite E.
      * rewrite stackSize_pushChildren.
        pose proof (size_Node s l) as E. simpl in E. unfold stackSize. lia.
    + rewrite IH by (unfold stackSize; lia).
      now rewrite <- app_assoc.
Qed.

Lemma invertTree_inverted tree : invertTree tree = Done (inverted tree [] None).
Proof.
  unfold invertTree. rewrite invertLoop_inverted.
  - simpl. now rewrite app_nil_r.
  - unfold stackSize. simpl. lia.
Qed.

Lemma nodeOf_inverted t :
  forall pos par, map nodeOf (inverted t pos par) = leaves t.
Proof.
  induction t as [s|s cs IH] using node_induction; intros pos parent;
    [reflexivity|].
  rewrite inverted_Node. simpl leaves.
  generalize (mkNodeObj (Node s (Some cs)) pos parent) as this.
  generalize 0 as c.
  induction IH as [|child l Hc _ IHl]; intros c this; simpl; [reflexivity|].
  now rewrite map_app, Hc, IHl.
Qed.

Lemma subtreeAt_app t :
  forall p q,
    subtreeAt t (p ++ q)
    = match subtreeAt t p with Some s => subtreeAt s q | None => None end.
Proof.
  intros p. revert t. induction p as [|c p IH]; intros t q; simpl; [reflexivity|].
  destruct (children t) as [cs|]; [|reflexivity].
  destruct (nth_error cs c); [apply IH | reflexivity].
Qed.

Lemma linked_inverted t sub :
  forall pos par,
    linked t (mkNodeObj sub pos par) ->
    Forall (linked t) (inverted sub pos par).
Proof.
  induction sub as [s|s cs IH] using node_induction; intros pos parent Hl.
  - simpl. constructor; [exact Hl | constructor].
  - rewrite inverted_Node.
    set (this := mkNodeObj (Node s (Some cs)) pos parent) in *.
    assert (Hsub : forall c child, nth_error cs c = Some child ->
                     linked t (mkNodeObj child (posOf this ++ [c]) (Some this))).
    { intros c child Hnth. simpl. split.
      - rewrite subtreeAt_app. destruct Hl as [-> _]. simpl. now rewrite Hnth.
      - split; [now exists c | exact Hl]. }
    clearbody this.
    assert (Hfrom : forall c l, (forall i child, nth_error l i = Some child ->
                                    nth_error cs (c + i) = Some child) ->
                      Forall (fun child => forall pos par,
                                linked t (mkNodeObj child pos par) ->
                                Forall (linked t) (inverted child pos par)) l ->
                      Forall (linked t) (invertedFrom this c l)).
    { intros c l. revert c. induction l as [|child l IHl]; intros c Hnth Hall;
        simpl; [constructor|].
      inversion Hall as [|? ? Hc Hrest]; subst.
      apply Forall_app. split.
      - apply Hc. apply Hsub. specialize (Hnth 0 child eq_refl).
        now rewrite Nat.add_0_r in Hnth.
      - apply IHl; [|exact Hrest].
        intros i ch Hi. specialize (Hnth (S i) ch Hi).
        now rewrite Nat.add_succ_r in Hnth. }
    apply Hfrom; [|exact IH]. intros i child Hi. exact Hi.
Qed.

(** [invertTree] returns the childless nodes of the tree, left to right,
    each linked to the entries of the nodes above it up to the root,
    which alone has no [par]. *)
Theorem invertTree_leaves (tree : node) :
  exists invertedTree,
    invertTree tree = Done invertedTree
    /\ map nodeOf invertedTree = leaves tree
    /\ Forall (linked tree) invertedTree.
Proof.
  exists (inverted tree [] None). split; [apply invertTree_inverted|].
  split; [apply nodeOf_inverted|].
  apply linked_inverted. simpl. auto.
Qed.

(** *** What [diffTrees] leaves, and when it throws *)

Lemma current_prunes t :
  forall deleted pos, prunes (current deleted pos t) t.
Proof.
  induction t as [s|s cs IH] using node_induction; intros deleted pos; simpl.
  - destruct (deletedAt deleted pos); constructor.
  - destruct (deletedAt deleted pos); [constructor|].
    constructor. generalize 0 as c.
    induction IH as [|child l Hc _ IHl]; intros c; constructor; auto.
Qed.

Lemma current_nil t : forall pos, current [] pos t = t.
Proof.
  induction t as [s|s cs IH] using node_induction; intros pos; simpl;
    [reflexivity|].
  do 2 f_equal. generalize 0 as c.
  induction IH as [|child l Hc _ IHl]; intros c; [reflexivity|].
  now rewrite Hc, IHl.
Qed.

(** The entries [climb] stops at have a [par], as have the entries of
    the nodes below a root: their positions are not the root's. *)
Lemma climb_below_root (a b : node) (deletedA deletedB : list Pos) :
  forall nodeObjA nodeObjB stopA stopB,
    linked a nodeObjA -> linked b nodeObjB ->
    climb deletedA deletedB nodeObjA nodeObjB = Done (stopA, stopB) ->
    posOf stopA <> [] /\ posOf stopB <> [].
Proof.
  fix IH 1. intros [na pa [parA|]] [nb pb [parB|]] stopA stopB; simpl;
    try discriminate.
  intros [_ [[ca ->] HlA]] [_ [[cb ->] HlB]].
  destruct (nodesEqual (deref deletedA parA) (deref deletedB parB)).
  - now apply IH.
  - intros [= <- <-]. simpl.
    split; intros H; apply app_eq_nil in H; destruct H; discriminate.
Qed.

Lemma diffLoop_below_root (a b : node) :
  forall invertedTreeA invertedTreeB deletedA deletedB deletedA' deletedB',
    Forall (linked a) invertedTreeA -> Forall (linked b) invertedTreeB ->
    deletedAt deletedA [] = false -> deletedAt deletedB [] = false ->
    diffLoop deletedA deletedB invertedTreeA invertedTreeB
    = Done (deletedA', deletedB') ->
    deletedAt deletedA' [] = false /\ deletedAt deletedB' [] = false.
Proof.
  induction invertedTreeA as [|nodeObjA invertedTreeA IH];
    intros [|nodeObjB invertedTreeB] deletedA deletedB deletedA' deletedB'
           HlA HlB HdA HdB; simpl; try (intros [= <- <-]; now split).
  inversion HlA as [|? ? HoA HrA]; inversion HlB as [|? ? HoB HrB]; subst.
  destruct (climb deletedA deletedB nodeObjA nodeObjB) as [[stopA stopB]|] eqn:E;
    [|discriminate].
  destruct (climb_below_root a b _ _ _ _ _ _ HoA HoB E) as [HpA HpB].
  apply IH; auto; simpl; unfold posEqb.
  - destruct (list_eq_dec Nat.eq_dec [] (posOf stopA)); [congruence | exact HdA].
  - destruct (list_eq_dec Nat.eq_dec [] (posOf stopB)); [congruence | exact HdB].
Qed.

Lemma current_root_kept deleted t :
  deletedAt deleted [] = false ->
  (children (current deleted [] t) = None <-> children t = None).
Proof.
  intros H. destruct t as [s [cs|]]; simpl; rewrite H; simpl;
    split; congruence.
Qed.

(** [diffTrees] only deletes [children], and never those of a root: each
    tree it leaves is the tree it was given with the children of some
    nodes deleted, and its root has children if it had any, the loop
    that climbs from a leaf stopping below the root or throwing. *)
Theorem diffTrees_prunes (a b trimmedA trimmedB : node) :
  diffTrees a b = Done (trimmedA, trimmedB) ->
  prunes trimmedA a /\ prunes trimmedB b
  /\ (children trimmedA = None <-> children a = None)
  /\ (children trimmedB = None <-> children b = None).
Proof.
  unfold diffTrees. rewrite !invertTree_inverted.
  destruct (diffLoop [] [] (inverted a [] None) (inverted b [] None))
    as [[dA dB]|] eqn:E; [|discriminate].
  intros [= <- <-].
  destruct (diffLoop_below_root a b _ _ [] [] _ _
              (linked_inverted a a [] None (conj eq_refl eq_refl))
              (linked_inverted b b [] None (conj eq_refl eq_refl))
              eq_refl eq_refl E) as [HdA HdB].
  split; [apply current_prunes|]. split; [apply current_prunes|].
  split; now apply current_root_kept.
Qed.

Lemma ancestors_mk n pos p :
  ancestors (mkNodeObj n pos p)
  = match p with Some p => nodeOf p :: ancestors p | None => [] end.
Proof. reflexivity. Qed.

Lemma climb_reaches_root :
  forall nodeObjA nodeObjB more,
    ancestors nodeObjB = ancestors nodeObjA ++ more ->
    climb [] [] nodeObjA nodeObjB = Throw TypeError.
Proof.
  fix IH 1. intros [na pa [parA|]] [nb pb [parB|]] more; simpl;
    try reflexivity.
  intros [= Hn Hrest]. unfold deref. rewrite !current_nil, Hn, nodesEqual_refl.
  now apply IH with more.
Qed.

(** The first entry of an inverted tree with leaves: the nodes above it
    inside the tree do not depend on where the tree sits. *)
Lemma first_inverted t :
  leaves t <> [] ->
  exists inside,
    forall pos par,
      exists o rest,
        inverted t pos par = o :: rest
        /\ ancestors o
           = inside ++ match par with
                       | Some p => nodeOf p :: ancestors p
                       | None => []
                       end.
Proof.
  induction t as [s|s cs IH] using node_induction; intros Hleaves.
  - exists []. intros pos parent. now exists (mkNodeObj (Node s None) pos parent), [].
  - simpl in Hleaves.
    assert (H : exists inside,
               forall this c,
                 exists o rest,
                   invertedFrom this c cs = o :: rest
                   /\ ancestors o = inside ++ nodeOf this :: ancestors this).
    { induction IH as [|child l Hc _ IHl]; [now destruct Hleaves|].
      simpl in Hleaves.
      destruct (leaves child) as [|leaf more] eqn:El.
      - destruct IHl as [inside Hin]; [exact Hleaves|].
        exists inside. intros this c. simpl.
        assert (E : inverted child (posOf this ++ [c]) (Some this) = []).
        { apply map_eq_nil with (f := nodeOf). now rewrite nodeOf_inverted. }
        rewrite E. apply Hin.
      - destruct Hc as [inside Hin]; [discriminate|].
        exists inside. intros this c. simpl.
        destruct (Hin (posOf this ++ [c]) (Some this)) as [o [rest [-> Ha]]].
        now exists o, (rest ++ invertedFrom this (S c) l). }
    destruct H as [inside Hin].
    exists (inside ++ [Node s (Some cs)]). intros pos parent.
    rewrite inverted_Node.
    destruct (Hin (mkNodeObj (Node s (Some cs)) pos parent) 0) as [o [rest [-> Ha]]].
    exists o, rest. split; [reflexivity|].
    rewrite Ha. simpl. now rewrite <- app_assoc.
Qed.

Lemma first_inverted_wrap t inside :
  (forall pos par,
      exists o rest,
        inverted t pos par = o :: rest
        /\ ancestors o
           = inside ++ match par with
                       | Some p => nodeOf p :: ancestors p
                       | None => []
                       end) ->
  forall around pos par,
    exists o rest more,
      inverted (wrap around t) pos par = o :: rest
      /\ ancestors o = inside ++ more.
Proof.
  intros Ht. induction around as [|[s siblings] around IH]; intros pos parent.
  - simpl. destruct (Ht pos parent) as [o [rest [-> Ha]]]. eauto.
  - simpl wrap. rewrite inverted_Node. simpl.
    destruct (IH (pos ++ [0])
                 (Some (mkNodeObj (Node s (Some (wrap around t :: siblings)))
                                  pos parent)))
      as [o [rest [more [-> Ha]]]].
    simpl. eauto.
Qed.

(** [diffTrees] throws a [TypeError] on a tree and that tree with nodes
    around it, the tree their first child, and so on two trees that are
    the same: from the first childless node the nodes above are equal
    pair by pair up to the root of the smaller tree, and the loop goes on
    to read the [node] of the [par] that the root lacks. *)
Theorem diffTrees_throws (tree : node) (around : list (string * list node)) :
  leaves tree <> [] ->
  diffTrees tree (wrap around tree) = Throw TypeError
  /\ diffTrees (wrap around tree) tree = Throw TypeError.
Proof.
  intros Hleaves.
  destruct (first_inverted tree Hleaves) as [inside Hin].
  destruct (Hin [] None) as [oa [restA [Ea Ha]]].
  destruct (first_inverted_wrap tree inside Hin around [] None)
    as [ob [restB [more [Eb Hb]]]].
  rewrite app_nil_r in Ha.
  assert (Hc : climb [] [] oa ob = Throw TypeError).
  { apply climb_reaches_root with more. now rewrite Ha, Hb. }
  unfold diffTrees. rewrite !invertTree_inverted, Ea, Eb. simpl.
  rewrite (climb_sym oa ob [] []), Hc. auto.
Qed.

End TreeMore.

Module TreeMoreExamples.
Import AmbiguityCheck TreeSpec TreeMore.

Lemma diffTrees_prunes_witness :
  prunes (Node "[S]" (Some [Node "[A]" (Some [Node "x" None]); Node "[C]" None]))
         (Node "[S]" (Some [Node "[A]" (Some [Node "x" None]);
                            Node "[C]" (Some [Node "y" None])]))
  /\ prunes (Node "[S]" (Some [Node "[B]" (Some [Node "x" None]); Node "[C]" None]))
            (Node "[S]" (Some [Node "[B]" (Some [Node "x" None]);
                               Node "[C]" (Some [Node "y" None])]))
  /\ (children (Node "[S]" (Some [Node "[A]" (Some [Node "x" None]);
                                  Node "[C]" None])) = None
      <-> children (Node "[S]" (Some [Node "[A]" (Some [Node "x" None]);
                                      Node "[C]" (Some [Node "y" None])]))
          = None)
  /\ (children (Node "[S]" (Some [Node "[B]" (Some [Node "x" None]);
                                  Node "[C]" None])) = None
      <-> children (Node "[S]" (Some [Node "[B]" (Some [Node "x" None]);
                                      Node "[C]" (Some [Node "y" None])]))
          = None).
Proof.
  apply (diffTrees_prunes
           (Node "[S]" (Some [Node "[A]" (Some [Node "x" None]);
                              Node "[C]" (Some [Node "y" None])]))
           (Node "[S]" (Some [Node "[B]" (Some [Node "x" None]);
                              Node "[C]" (Some [Node "y" None])]))).
  reflexivity.
Defined.

Lemma diffTrees_throws_witness :
  diffTrees (Node "[X]" (Some [Node "x" None]))
            (Node "[X]" (Some [Node "[X]" (Some [Node "x" None])]))
  = Throw TypeError
  /\ diffTrees (Node "[X]" (Some [Node "[X]" (Some [Node "x" None])]))
               (Node "[X]" (Some [Node "x" None]))
     = Throw TypeError.
Proof.
  apply (diffTrees_throws (Node "[X]" (Some [Node "x" None])) [("[X]", [])]).
  simpl. discriminate.
Defined.

End TreeMoreExamples.
(** ** More on the enumeration of paths *)

Module PathMore.
Import AmbiguityCheck DetectorSpec TreeSpec PathSpec TreeFacts PathFacts.

(** *** The tree of a path *)

Lemma run_nil_stack rules : run rules [] = [].
Proof. now destruct rules. Qed.

Lemma count_nil_stack rules : count rules [] = 0.
Proof. now destruct rules. Qed.

Lemma run_terminal rules sym stack :
  startsWithBracket sym = false ->
  run rules (sym :: stack) = sym :: run rules stack.
Proof. intros H. destruct rules; simpl; [reflexivity | now rewrite H]. Qed.

Lemma count_terminal rules sym stack :
  startsWithBracket sym = false ->
  count rules (sym :: stack) = S (count rules stack).
Proof. intros H. destruct rules; simpl; [reflexivity | now rewrite H]. Qed.

Lemma run_nonterminal rule rules sym stack :
  startsWithBracket sym = true ->
  run (rule :: rules) (sym :: stack) = run rules (rule ++ stack).
Proof. intros H. simpl. now rewrite H. Qed.

Lemma count_nonterminal rule rules sym stack :
  startsWithBracket sym = true ->
  count (rule :: rules) (sym :: stack) = S (count rules (rule ++ stack)).
Proof. intros H. simpl. now rewrite H. Qed.

Lemma fringe_Node symbol childNodes :
  fringe (Node symbol (Some childNodes)) = flat_map fringe childNodes.
Proof.
  unfold fringe. simpl.
  induction childNodes as [|c l IH]; simpl; [reflexivity|].
  now rewrite map_app, IH.
Qed.

Lemma forRHS_run rec :
  (forall sym rules t rest,
      rec sym rules = Done (t, rest) ->
      forall stack,
        run rules (sym :: stack) = fringe t ++ run rest stack
        /\ count rules (sym :: stack) = size t + count rest stack) ->
  forall ruleRHS acc rules childNodes rest,
    forRHS rec ruleRHS acc rules = Done (childNodes, rest) ->
    exists new,
      childNodes = acc ++ new
      /\ forall stack,
          run rules (ruleRHS ++ stack) = flat_map fringe new ++ run rest stack
          /\ count rules (ruleRHS ++ stack)
             = list_sum (map size new) + count rest stack.
Proof.
  intros Hrec. induction ruleRHS as [|sym ruleRHS IH];
    intros acc rules childNodes rest; simpl.
  - intros [= <- <-]. exists []. now rewrite app_nil_r.
  - destruct (rec sym rules) as [[child rules1]|e] eqn:E; [|discriminate].
    intros H. apply IH in H. destruct H as [new [-> Hnew]].
    exists (child :: new). split; [now rewrite <- app_assoc|].
    intros stack. destruct (Hrec _ _ _ _ E (ruleRHS ++ stack)) as [-> ->].
    destruct (Hnew stack) as [-> ->]. simpl.
    split; [now rewrite app_assoc | lia].
Qed.

Lemma rulesToTreeFuel_run fuel :
  forall sym rules t rest,
    rulesToTreeFuel fuel sym rules = Done (t, rest) ->
    forall stack,
      run rules (sym :: stack) = fringe t ++ run rest stack
      /\ count rules (sym :: stack) = size t + count rest stack.
Proof.
  induction fuel as [|fuel IH]; intros sym rules t rest; simpl; [discriminate|].
  destruct (startsWithBracket sym) eqn:Hb.
  - destruct rules as [|rule rules].
    + intros [= <- <-] stack. now split.
    + destruct (forRHS _ _ _ _) as [[childNodes rest']|e] eqn:E; [|discriminate].
      intros [= <- <-] stack.
      destruct (forRHS_run _ IH _ _ _ _ _ E) as [new [Hc Hnew]].
      simpl in Hc. subst childNodes.
      rewrite run_nonterminal, count_nonterminal by exact Hb.
      destruct (Hnew stack) as [-> ->].
      rewrite fringe_Node, size_Node. split; [reflexivity | lia].
  - intros [= <- <-] stack.
    rewrite run_terminal, count_terminal by exact Hb. now split.
Qed.

Lemma rulesToTree_run lhsSym rules :
  exists tree,
    rulesToTree lhsSym rules = Done tree
    /\ fringe tree = run rules [lhsSym]
    /\ size tree = count rules [lhsSym].
Proof.
  unfold rulesToTree.
  destruct (rulesToTreeFuel_returns (S (List.length rules)) lhsSym rules)
    as [tree [rest [E _]]]; [lia|].
  rewrite E. exists tree. split; [reflexivity|].
  destruct (rulesToTreeFuel_run _ _ _ _ _ E []) as [-> ->].
  rewrite run_nil_stack, count_nil_stack, app_nil_r. split; [reflexivity | lia].
Qed.

(** One more rule expands the first symbol with a bracket. *)
Lemma run_snoc rule sym rest :
  startsWithBracket sym = true ->
  forall rules stack terminalSyms,
    Forall (fun s => startsWithBracket s = false) terminalSyms ->
    run rules stack = terminalSyms ++ sym :: rest ->
    run (rules ++ [rule]) stack = terminalSyms ++ rule ++ rest
    /\ count (rules ++ [rule]) stack = count rules stack + List.length rule.
Proof.
  intros Hb. induction rules as [|rule0 rules IH].
  - intros stack terminalSyms Hts. simpl run at 1. intros ->.
    induction Hts as [|t ts Ht _ IHts].
    + simpl. rewrite Hb. rewrite length_app. split; [reflexivity | lia].
    + change ((t :: ts) ++ sym :: rest) with (t :: (ts ++ sym :: rest)).
      rewrite run_terminal, count_terminal by exact Ht.
      destruct IHts as [-> ->]. simpl. split; [reflexivity | lia].
  - induction stack as [|s stack IHs]; intros terminalSyms Hts.
    + simpl. destruct terminalSyms; discriminate.
    + destruct (startsWithBracket s) eqn:Hs.
      * change ((rule0 :: rules) ++ [rule]) with (rule0 :: (rules ++ [rule])).
        rewrite !run_nonterminal, !count_nonterminal by exact Hs.
        intros H. destruct (IH _ _ Hts H) as [-> ->]. split; [reflexivity | lia].
      * change ((rule0 :: rules) ++ [rule]) with (rule0 :: (rules ++ [rule])).
        rewrite !run_terminal, !count_terminal by exact Hs.
        destruct terminalSyms as [|t ts]; cbn [app].
        -- intros [= -> _]. congruence.
        -- intros [= <- H]. inversion Hts as [|? ? _ Hts']; subst.
           destruct (IHs _ Hts' H) as [E1 E2].
           change ((rule0 :: rules) ++ [rule]) with (rule0 :: (rules ++ [rule])) in *.
           rewrite E1, E2. split; [reflexivity | lia].
Qed.

Lemma listToArrayFrom_app :
  forall path array, listToArrayFrom path array = listToArray path ++ array.
Proof.
  fix IH 1. intros [ns nss t sc rhs [before|]] array; unfold listToArray; simpl.
  - rewrite (IH before (rhs :: array)), (IH before [rhs]).
    now rewrite <- app_assoc.
  - reflexivity.
Qed.

Lemma listToArray_newPath lastPath rule :
  listToArray (newPath lastPath rule) = listToArray lastPath ++ [RHS rule].
Proof.
  unfold newPath.
  destruct (terminal rule); [destruct (nextSyms lastPath)|];
    unfold listToArray; simpl; apply listToArrayFrom_app.
Qed.

Lemma notEditRule_In (check : Rule -> bool) grammar sym rules rule :
  forallb (fun entry =>
             forallb (fun rule => negb (notEditRule rule) || check rule)
                     (snd entry)) grammar = true ->
  get grammar sym = Some rules -> In rule rules -> notEditRule rule = true ->
  check rule = true.
Proof.
  intros Hall Hget Hin Hne.
  rewrite forallb_forall in Hall. apply get_In in Hget.
  specialize (Hall _ Hget). simpl in Hall.
  rewrite forallb_forall in Hall. specialize (Hall _ Hin).
  now rewrite Hne in Hall.
Qed.

Lemma spell_snoc terminalSyms sym :
  spell (terminalSyms ++ [sym]) = (spell terminalSyms ++ " " ++ sym)%string.
Proof. unfold spell. now rewrite fold_left_app. Qed.

Lemma derives_rootPath nontermSym rule :
  startsWithBracket nontermSym = true ->
  wellFormedRule rule = true ->
  derives nontermSym (rootPath rule).
Proof.
  intros Hb Hwf. unfold wellFormedRule in Hwf. unfold derives, rootPath.
  destruct (terminal rule).
  - destruct (RHS rule) as [|t [|? ?]] eqn:E; try discriminate.
    apply negb_true_iff in Hwf.
    exists [t]. unfold listToArray, pending. simpl. rewrite Hb. simpl.
    repeat split; auto.
  - destruct (RHS rule) as [|a [|b [|? ?]]] eqn:E; try discriminate.
    + exists []. unfold listToArray, pending. simpl. rewrite Hb. simpl.
      repeat split; auto.
    + apply andb_true_iff in Hwf. destruct Hwf as [Ha Hb'].
      exists []. unfold listToArray, pending. simpl. rewrite Hb. simpl.
      repeat split; auto.
Qed.

Lemma truthy_Some s : truthy s = true -> exists sym, s = Some sym.
Proof. destruct s; [eauto | discriminate]. Qed.

Lemma derives_newPath nontermSym lastPath rule :
  derives nontermSym lastPath ->
  truthy (nextSym lastPath) = true ->
  wellFormedRule rule = true ->
  derives nontermSym (newPath lastPath rule).
Proof.
  intros [ts [Hrun [Hts [Hpend [Hspell Hcount]]]]] Htruthy Hwf.
  destruct (truthy_Some _ Htruthy) as [a Ha].
  unfold pending in Hrun, Hpend. rewrite Ha in Hrun, Hpend.
  inversion Hpend as [|? ? Hba Hrest]; subst.
  unfold derives. rewrite listToArray_newPath.
  destruct (run_snoc (RHS rule) a _ Hba _ _ _ Hts Hrun) as [Erun Ecount].
  rewrite Erun, Ecount, Hcount.
  unfold wellFormedRule in Hwf. unfold newPath, pending.
  destruct (terminal rule).
  - destruct (RHS rule) as [|t [|? ?]] eqn:E; try discriminate.
    apply negb_true_iff in Hwf.
    exists (ts ++ [t]).
    destruct (nextSyms lastPath) as [|sym next] eqn:En; simpl in *;
      rewrite spell_snoc, Hspell, <- app_assoc;
      (repeat split; auto; apply Forall_app; auto).
  - destruct (RHS rule) as [|a' [|b' [|? ?]]] eqn:E; try discriminate.
    + exists ts. simpl. repeat split; auto.
    + apply andb_true_iff in Hwf. destruct Hwf as [Ha' Hb'].
      exists ts. simpl. repeat split; auto.
Qed.

(** The tree [rulesToTree] makes of a stored path, in a grammar whose
    symbols begin with a bracket exactly when they are nonterminal: its
    childless nodes, left to right, are the terminal symbols the path has
    spelled into [terminals] and then the symbols it has yet to expand,
    [nextSym] and [nextSyms]; and [symsCount] is the number of its
    nodes. *)
Theorem path_tree (grammar : Grammar) (opts : Opts) (nontermSym : string)
                  (pathTab : list PathSets) (path : Path) :
  wellFormed grammar = true ->
  startsWithBracket nontermSym = true ->
  pathTabOf grammar opts nontermSym = Done pathTab ->
  pathIn pathTab path ->
  exists tree terminalSyms,
    rulesToTree nontermSym (listToArray path) = Done tree
    /\ fringe tree = terminalSyms ++ pending path
    /\ spell terminalSyms = terminals path
    /\ size tree = symsCount path.
Proof.
  intros Hwf Hb Htab [pathSets [terms [paths [Hps [Hin Hp]]]]].
  assert (Hd : derives nontermSym path).
  { refine (proj2 (pathTabOf_stored grammar opts (derives nontermSym) _
                     nontermSym pathTab _ Htab pathSets Hps terms paths path
                     Hin Hp)).
    - intros lastPath rule rules Hlast [Ht _] Hget Hrule Hne.
      apply derives_newPath; auto.
      eapply (notEditRule_In wellFormedRule); eauto.
    - intros rule rules Hget Hrule Hne. apply derives_rootPath; auto.
      eapply (notEditRule_In wellFormedRule); eauto. }
  destruct Hd as [ts [Hrun [_ [_ [Hspell Hcount]]]]].
  destruct (rulesToTree_run nontermSym (listToArray path)) as [tree [E [Hf Hs]]].
  exists tree, ts. rewrite Hf, Hs. auto.
Qed.

(** *** The size of paths *)

Lemma symsCount_rootPath rule :
  symsCount (rootPath rule) = 1 + List.length (RHS rule).
Proof. unfold rootPath. now destruct (terminal rule). Qed.

(** With rules of at most two RHS symbols, a stored path has at most
    [symsLimit + 1] symbols, or five when the limit is below four: a
    path of a root rule has at most three, and a path is extended, by
    one rule, when it is the path of a root rule or has fewer symbols
    than the limit. *)
Theorem symsCount_bound (grammar : Grammar) (opts : Opts) (nontermSym : string)
                        (pathTab : list PathSets) (path : Path) :
  atMostBinary grammar = true ->
  pathTabOf grammar opts nontermSym = Done pathTab ->
  pathIn pathTab path ->
  symsCount path <= Nat.max 5 (symsLimit opts + 1)
  /\ (prev path = None -> symsCount path <= 3).
Proof.
  intros Hbin Htab [pathSets [terms [paths [Hps [Hin Hp]]]]].
  refine (proj2 (pathTabOf_stored grammar opts (bounded opts) _
                   nontermSym pathTab _ Htab pathSets Hps terms paths path
                   Hin Hp)).
  - intros lastPath rule rules [Hmax Hroot] [_ Hexp] Hget Hrule Hne.
    pose proof (notEditRule_In (fun rule => Nat.leb (List.length (RHS rule)) 2)
                  _ _ _ _ Hbin Hget Hrule Hne) as Hlen.
    apply Nat.leb_le in Hlen.
    unfold bounded. rewrite symsCount_newPath, prev_newPath.
    split; [|discriminate].
    destruct Hexp as [Hnone|Hlt]; [specialize (Hroot Hnone)|]; lia.
  - intros rule rules Hget Hrule Hne.
    pose proof (notEditRule_In (fun rule => Nat.leb (List.length (RHS rule)) 2)
                  _ _ _ _ Hbin Hget Hrule Hne) as Hlen.
    apply Nat.leb_le in Hlen.
    unfold bounded. rewrite symsCount_rootPath. split; intros; lia.
Qed.

(** *** A symbol the grammar lacks *)

Lemma expandAll_Done grammar opts pathTab :
  forall expanded,
    expandAll grammar opts pathTab = Done expanded ->
    forall pathSets, In pathSets pathTab ->
                     exists pathSets', expandPaths grammar opts pathSets = Done pathSets'.
Proof.
  induction pathTab as [|ps pathTab IH]; intros expanded; simpl; [intros _ ? []|].
  destruct (expandPaths grammar opts ps) as [ps'|e] eqn:E; [|discriminate].
  destruct (expandAll grammar opts pathTab) as [tab|e]; [|discriminate].
  intros _ pathSets [<-|Hin]; eauto.
Qed.

Lemma initPaths_In rules rule :
  In rule rules -> notEditRule rule = true ->
  In [(terminals (rootPath rule), [rootPath rule])] (initPaths rules).
Proof.
  induction rules as [|r rules IH]; simpl; [tauto|].
  intros [->|Hin] Hne.
  - rewrite Hne. now left.
  - destruct (notEditRule r); [right|]; auto.
Qed.

(** Under a name in brackets that is no key of the grammar there is
    nothing: no object inherits a property of such a name. *)
Lemma rulesAt_bracketed grammar sym :
  get grammar sym = None -> startsWithBracket sym = true ->
  rulesAt grammar sym = Throw TypeError.
Proof.
  intros Hmiss Hb. unfold rulesAt. rewrite Hmiss.
  destruct sym as [|c rest]; [discriminate|]. simpl in Hb.
  apply Ascii.eqb_eq in Hb. subst c. reflexivity.
Qed.

Lemma missing_throws grammar opts nontermSym rules rule sym :
  get grammar nontermSym = Some rules ->
  List.length (initPaths rules) <> 1 ->
  In rule rules ->
  notEditRule rule = true ->
  terminal rule = false ->
  nth_error (RHS rule) 0 = Some sym ->
  sym <> "" ->
  rulesAt grammar sym = Throw TypeError ->
  searchPaths grammar opts nontermSym = ([], Thrown TypeError)
  /\ pathTabOf grammar opts nontermSym = Throw TypeError.
Proof.
  intros Hget Hlen Hin Hne Hterm Hnth Hsym Hmiss.
  assert (E : expandAll grammar opts (initPaths rules) = Throw TypeError).
  { pose proof (expandAll_initPaths_no_OutOfFuel grammar opts rules) as Hfuel.
    destruct (expandAll grammar opts (initPaths rules)) as [tab|[|]] eqn:E;
      [|reflexivity|congruence].
    exfalso.
    destruct (expandAll_Done _ _ _ _ E _ (initPaths_In _ _ Hin Hne)) as [ps Hps].
    rewrite expandPaths_root in Hps.
    assert (Hnext : nextSym (rootPath rule) = Some sym)
      by (unfold rootPath; now rewrite Hterm).
    rewrite Hnext in Hps. simpl in Hps.
    destruct (String.eqb_spec sym ""); [contradiction|]. simpl in Hps.
    unfold buildPathsFuel in Hps. cbn [Nat.add Nat.mul buildPaths] in Hps.
    rewrite Nat.add_comm in Hps. cbn [Nat.add buildPaths] in Hps.
    rewrite Hnext in Hps. cbn [toString] in Hps.
    rewrite Hmiss in Hps. discriminate. }
  unfold searchPaths, pathTabOf. rewrite (rulesAt_own _ _ _ Hget), E.
  destruct (Nat.eqb_spec (List.length (initPaths rules)) 1); [contradiction|].
  auto.
Qed.

(** When a root rule of a symbol begins with a symbol in brackets that
    the grammar has no entry for, the search of the symbol throws a
    [TypeError], from the [rules.length] of [buildPaths], and prints
    nothing; unless the rule is the only one of the symbol that is no
    edit rule, which is then not expanded.  The same holds of any symbol
    but the empty string under which the grammar neither has nor
    inherits anything, or inherits a function with parameters; under a
    name such as [toString], where it inherits a function without
    parameters, the loop of [buildPaths] does not run. *)
Theorem missing_symbol_throws (grammar : Grammar) (opts : Opts)
    (nontermSym : string) (rules : list Rule) (rule : Rule) (sym : string) :
  get grammar nontermSym = Some rules ->
  List.length (initPaths rules) <> 1 ->
  In rule rules ->
  notEditRule rule = true ->
  terminal rule = false ->
  nth_error (RHS rule) 0 = Some sym ->
  get grammar sym = None ->
  (startsWithBracket sym = true ->
   searchPaths grammar opts nontermSym = ([], Thrown TypeError)
   /\ pathTabOf grammar opts nontermSym = Throw TypeError)
  /\ (sym <> "" ->
      match get objectPrototype sym with
      | None | Some (Some (S _)) =>
          searchPaths grammar opts nontermSym = ([], Thrown TypeError)
          /\ pathTabOf grammar opts nontermSym = Throw TypeError
      | Some _ =>
          forall fuel pathSets,
            buildPaths grammar opts (S fuel) pathSets (rootPath rule)
            = Done pathSets
      end).
Proof.
  intros Hget Hlen Hin Hne Hterm Hnth Hmiss. split.
  - intros Hb. eapply missing_throws; eauto.
    + intros ->. discriminate Hb.
    + now apply rulesAt_bracketed.
  - intros Hsym.
    assert (Hnext : nextSym (rootPath rule) = Some sym)
      by (unfold rootPath; now rewrite Hterm).
    assert (Hat : rulesAt grammar sym
                  = match get objectPrototype sym with
                    | Some (Some (S _)) => Throw TypeError
                    | Some _ => Done []
                    | None => Throw TypeError
                    end)
      by (unfold rulesAt; now rewrite Hmiss).
    destruct (get objectPrototype sym) as [[[|n]|]|];
      try (eapply missing_throws; eauto; fail);
      intros fuel pathSets; cbn [buildPaths]; rewrite Hnext; cbn [toString];
      rewrite Hat; reflexivity.
Qed.

End PathMore.
(** ** More on the search for ambiguity *)

Module FindMore.
Import AmbiguityCheck DetectorSpec TreeSpec FindSpec PathFacts FindFacts.
Import TreeFacts TreeMore.

(** *** Without output *)

Section Quiet.
Variable opts : Opts.
Variable nontermSym : string.
Hypothesis no_output : noOutput opts = true.

Lemma quiet_refl st : quiet st (st, Next).
Proof. split; auto. Qed.

Lemma quiet_trans st st1 signal result :
  quiet st (st1, signal) -> quiet st1 result -> quiet st result.
Proof. intros [H1 _] [H2 H3]. simpl in *. split; [congruence | exact H3]. Qed.

Lemma found_quiet st pathA pathB :
  quiet st (found opts nontermSym st pathA pathB).
Proof. unfold found. rewrite no_output. split; simpl; auto. Qed.

Lemma forPathsB_quiet pathA pathsB :
  forall st, quiet st (forPathsB opts nontermSym st pathA pathsB).
Proof.
  induction pathsB as [|pathB pathsB IH]; intros st; simpl;
    [apply quiet_refl|].
  destruct (ambiguous pathA pathB); [|apply IH].
  pose proof (found_quiet st pathA pathB) as H.
  destruct (found opts nontermSym st pathA pathB) as [st1 [| |e]]; auto.
  eapply quiet_trans; [exact H | apply IH].
Qed.

Lemma forPathsA_quiet pathsA pathsB :
  forall st, quiet st (forPathsA opts nontermSym st pathsA pathsB).
Proof.
  induction pathsA as [|pathA pathsA IH]; intros st; simpl;
    [apply quiet_refl|].
  pose proof (forPathsB_quiet pathA pathsB st) as H.
  destruct (forPathsB opts nontermSym st pathA pathsB) as [st1 [| |e]]; auto.
  eapply quiet_trans; [exact H | apply IH].
Qed.

Lemma forTerminals_quiet pathSetsA pathSetsB terms :
  (forall t, In t terms -> In t (keys pathSetsA)) ->
  forall st,
    quiet st (forTerminals opts nontermSym st pathSetsA pathSetsB terms)
    /\ snd (forTerminals opts nontermSym st pathSetsA pathSetsB terms) = Next.
Proof.
  induction terms as [|t terms IH]; intros Hkeys st; simpl;
    [split; [apply quiet_refl | reflexivity]|].
  assert (Hkeys' : forall t, In t terms -> In t (keys pathSetsA))
    by (intros; apply Hkeys; now right).
  destruct (get pathSetsB t) as [pathsB|]; [|now apply IH].
  destruct (In_keys_get _ pathSetsA t (Hkeys t (or_introl eq_refl)))
    as [pathsA ->].
  pose proof (forPathsA_quiet (sortPaths pathsA) pathsB st) as H.
  destruct (forPathsA opts nontermSym st (sortPaths pathsA) pathsB)
    as [st1 [| |e]].
  - destruct (IH Hkeys' st1) as [H1 H2]. split; [|exact H2].
    eapply quiet_trans; [exact H | exact H1].
  - split; [|reflexivity]. destruct H as [H _]. split; simpl; auto.
  - destruct H as [_ [H|H]]; discriminate H.
Qed.

Lemma forB_quiet pathSetsA later :
  forall st,
    quiet st (forB opts nontermSym st pathSetsA later)
    /\ snd (forB opts nontermSym st pathSetsA later) = Next.
Proof.
  induction later as [|pathSetsB later IH]; intros st; simpl;
    [split; [apply quiet_refl | reflexivity]|].
  destruct (forTerminals_quiet pathSetsA pathSetsB (forIn pathSetsA)
              (fun t H => proj1 (forIn_In pathSetsA t) H) st) as [H1 H2].
  destruct (forTerminals opts nontermSym st pathSetsA pathSetsB (forIn pathSetsA))
    as [st1 signal]. simpl in H2. subst signal.
  destruct (IH st1) as [H3 H4]. split; [|exact H4].
  eapply quiet_trans; [exact H1 | exact H3].
Qed.

Lemma forA_quiet pathTab :
  forall st,
    quiet st (forA opts nontermSym st pathTab)
    /\ snd (forA opts nontermSym st pathTab) = Next.
Proof.
  induction pathTab as [|pathSetsA pathTab IH]; intros st; simpl;
    [split; [apply quiet_refl | reflexivity]|].
  destruct (forB_quiet pathSetsA pathTab st) as [H1 H2].
  destruct (forB opts nontermSym st pathSetsA pathTab) as [st1 signal].
  simpl in H2. subst signal.
  destruct (IH st1) as [H3 H4]. split; [|exact H4].
  eapply quiet_trans; [exact H1 | exact H3].
Qed.

Lemma findAmbiguity_quiet pathTab :
  snd (findAmbiguity opts nontermSym pathTab) = Next
  /\ (forall treeA treeB,
         ~ In (Ambiguity treeA treeB)
              (printed (fst (findAmbiguity opts nontermSym pathTab))))
  /\ (useTestRules opts = false ->
      printed (fst (findAmbiguity opts nontermSym pathTab)) = []).
Proof.
  unfold findAmbiguity.
  destruct (forA_quiet pathTab
              {| foundAmbiguity := false; ambigPairs := []; printed := [] |})
    as [[H1 _] H2].
  destruct (forA opts nontermSym _ pathTab) as [st signal].
  simpl in H1, H2. subst signal.
  destruct (useTestRules opts).
  - destruct (negb (foundAmbiguity st) && true && _); simpl; rewrite H1;
      (split; [reflexivity|]); (split; [|discriminate]); simpl.
    + intros a b [H|[]]. discriminate H.
    + intros a b [].
  - rewrite andb_false_r. simpl. rewrite H1. auto.
Qed.
End Quiet.

Lemma searchPaths_quiet grammar opts nontermSym rules :
  noOutput opts = true ->
  closedGrammar grammar ->
  get grammar nontermSym = Some rules ->
  snd (searchPaths grammar opts nontermSym) = Next
  /\ (forall treeA treeB,
         ~ In (Ambiguity treeA treeB) (fst (searchPaths grammar opts nontermSym)))
  /\ (useTestRules opts = false -> fst (searchPaths grammar opts nontermSym) = []).
Proof.
  intros Hno Hclosed Hget. unfold searchPaths.
  rewrite (rulesAt_own _ _ _ Hget).
  destruct (Nat.eqb (List.length (initPaths rules)) 1); [simpl; auto|].
  pose proof (expandAll_initPaths_no_OutOfFuel grammar opts rules) as Hfuel.
  pose proof (expandAll_initPaths_no_TypeError grammar opts nontermSym rules
                Hclosed Hget rules (incl_refl _)) as Htype.
  destruct (expandAll grammar opts (initPaths rules)) as [pathTab|[|]];
    [|congruence|congruence].
  pose proof (findAmbiguity_quiet opts nontermSym Hno pathTab) as H.
  destruct (findAmbiguity opts nontermSym pathTab) as [st signal]. exact H.
Qed.

Lemma forSymbols_quiet grammar opts :
  noOutput opts = true ->
  closedGrammar grammar ->
  forall nontermSyms,
    (forall sym, In sym nontermSyms -> In sym (keys grammar)) ->
    snd (forSymbols grammar opts nontermSyms) = Next
    /\ (forall treeA treeB,
           ~ In (Ambiguity treeA treeB) (fst (forSymbols grammar opts nontermSyms)))
    /\ (useTestRules opts = false -> fst (forSymbols grammar opts nontermSyms) = []).
Proof.
  intros Hno Hclosed. induction nontermSyms as [|sym syms IH]; intros Hkeys; simpl.
  - split; [reflexivity|]. split; [intros a b []|reflexivity].
  - destruct (In_keys_get _ grammar sym (Hkeys sym (or_introl eq_refl)))
      as [rules Hget].
    destruct (searchPaths_quiet grammar opts sym rules Hno Hclosed Hget)
      as [H1 [H2 H3]].
    destruct (searchPaths grammar opts sym) as [events signal].
    simpl in H1, H2, H3. subst signal.
    destruct IH as [H4 [H5 H6]]; [intros; apply Hkeys; now right|].
    destruct (forSymbols grammar opts syms) as [more signal].
    simpl in *. split; [exact H4|]. split.
    + intros a b Hin. apply in_app_iff in Hin. destruct Hin; [eapply H2|eapply H5]; eauto.
    + intros Htest. now rewrite H3, H6.
Qed.

(** With [noOutput], on a grammar in which every RHS symbol of a
    nonterminal rule has an entry, the check goes through all symbols
    without a throw and prints no instance of ambiguity: no trees are
    made, so [diffTrees] is not called.  It prints nothing at all unless
    it runs on the test rules. *)
Theorem noOutput_quiet (ambiguityExamples grammar : Grammar) (opts : Opts) :
  noOutput opts = true ->
  closedGrammar (if useTestRules opts then ambiguityExamples else grammar) ->
  snd (ambiguityCheck ambiguityExamples grammar opts) = Next
  /\ (forall treeA treeB,
         ~ In (Ambiguity treeA treeB)
              (fst (ambiguityCheck ambiguityExamples grammar opts)))
  /\ (useTestRules opts = false ->
      ambiguityCheck ambiguityExamples grammar opts = ([], Next)).
Proof.
  intros Hno Hclosed. unfold ambiguityCheck.
  destruct (forSymbols_quiet _ opts Hno Hclosed
              (forIn (if useTestRules opts then ambiguityExamples else grammar))
              (fun sym H => proj1 (forIn_In _ sym) H)) as [H1 [H2 H3]].
  split; [exact H1|]. split; [exact H2|].
  intros Htest. specialize (H3 Htest).
  destruct (forSymbols _ opts _) as [events signal]. simpl in *. congruence.
Qed.

(** *** One instance for two root rules *)

Lemma countAmbiguity_app events more :
  countAmbiguity (events ++ more) = countAmbiguity events + countAmbiguity more.
Proof. unfold countAmbiguity. now rewrite filter_app, length_app. Qed.

Section Once.
Variable opts : Opts.
Variable nontermSym : string.
Hypothesis first_only : findAll opts = false.

Lemma found_once st pathA pathB :
  snd (found opts nontermSym st pathA pathB) <> Next
  /\ countAmbiguity (printed (fst (found opts nontermSym st pathA pathB)))
     <= countAmbiguity (printed st) + 1.
Proof.
  unfold found. rewrite first_only.
  destruct (noOutput opts); simpl; [split; [discriminate | lia]|].
  destruct (trimmedTrees nontermSym pathA pathB) as [[treeA treeB]|e]; simpl.
  - split; [discriminate|]. rewrite countAmbiguity_app.
    change (countAmbiguity [Ambiguity treeA treeB]) with 1. lia.
  - split; [discriminate | lia].
Qed.

Lemma forPathsB_once pathA pathsB :
  forall st, printsOnce st (forPathsB opts nontermSym st pathA pathsB).
Proof.
  induction pathsB as [|pathB pathsB IH]; intros st; simpl; [left; auto|].
  destruct (ambiguous pathA pathB); [|apply IH].
  pose proof (found_once st pathA pathB) as [H1 H2].
  destruct (found opts nontermSym st pathA pathB) as [st1 [| |e]];
    simpl in *; [contradiction| |]; right; simpl; auto.
Qed.

Lemma forPathsA_once pathsA pathsB :
  forall st, printsOnce st (forPathsA opts nontermSym st pathsA pathsB).
Proof.
  induction pathsA as [|pathA pathsA IH]; intros st; simpl; [left; auto|].
  pose proof (forPathsB_once pathA pathsB st) as H.
  destruct (forPathsB opts nontermSym st pathA pathsB) as [st1 [| |e]].
  - destruct H as [[_ H]|[H _]]; [|now destruct H]. simpl in H.
    specialize (IH st1). unfold printsOnce in *. now rewrite <- H.
  - exact H.
  - exact H.
Qed.

Lemma forTerminals_once pathSetsA pathSetsB terms :
  forall st,
    countAmbiguity
      (printed (fst (forTerminals opts nontermSym st pathSetsA pathSetsB terms)))
    <= countAmbiguity (printed st) + 1.
Proof.
  induction terms as [|t terms IH]; intros st; simpl; [lia|].
  destruct (get pathSetsB t) as [pathsB|]; [|apply IH].
  destruct (get pathSetsA t) as [pathsA|]; [|simpl; lia].
  pose proof (forPathsA_once (sortPaths pathsA) pathsB st) as H.
  destruct (forPathsA opts nontermSym st (sortPaths pathsA) pathsB)
    as [st1 [| |e]].
  - destruct H as [[_ H]|[H _]]; [|now destruct H]. simpl in H.
    specialize (IH st1). now rewrite H in IH.
  - destruct H as [[H _]|[_ H]]; [discriminate H | exact H].
  - destruct H as [[H _]|[_ H]]; [discriminate H | exact H].
Qed.

Lemma forB_once pathSetsA later :
  forall st,
    countAmbiguity (printed (fst (forB opts nontermSym st pathSetsA later)))
    <= countAmbiguity (printed st) + List.length later.
Proof.
  induction later as [|pathSetsB later IH]; intros st; simpl; [lia|].
  pose proof (forTerminals_once pathSetsA pathSetsB (forIn pathSetsA) st) as H.
  destruct (forTerminals opts nontermSym st pathSetsA pathSetsB (forIn pathSetsA))
    as [st1 [| |e]]; simpl in *; [|lia|lia].
  specialize (IH st1). lia.
Qed.

Lemma forA_once pathTab :
  forall st,
    countAmbiguity (printed (fst (forA opts nontermSym st pathTab)))
    <= countAmbiguity (printed st) + pairsOf (List.length pathTab).
Proof.
  induction pathTab as [|pathSetsA pathTab IH]; intros st; simpl; [lia|].
  pose proof (forB_once pathSetsA pathTab st) as H.
  destruct (forB opts nontermSym st pathSetsA pathTab) as [st1 [| |e]];
    simpl in *; [|lia|lia].
  specialize (IH st1). lia.
Qed.
End Once.

Lemma pairsOf_twice n : 2 * pairsOf n = n * (n - 1).
Proof.
  induction n as [|n IH]; [reflexivity|].
  change (pairsOf (S n)) with (n + pairsOf n).
  replace (S n - 1) with n by lia.
  destruct n as [|n]; [reflexivity|].
  replace (S n - 1) with n in IH by lia. nia.
Qed.

(** With [findAll] false, at most one instance of ambiguity is printed
    for each two root rules of the symbol: of [n] sets of paths no more
    than [n (n - 1) / 2] instances. *)
Theorem default_prints_once (opts : Opts) (nontermSym : string)
                            (pathTab : list PathSets) :
  findAll opts = false ->
  2 * countAmbiguity (printed (fst (findAmbiguity opts nontermSym pathTab)))
  <= List.length pathTab * (List.length pathTab - 1).
Proof.
  intros Hall. rewrite <- pairsOf_twice. unfold findAmbiguity.
  pose proof (forA_once opts nontermSym Hall pathTab
                {| foundAmbiguity := false; ambigPairs := []; printed := [] |}) as H.
  destruct (forA opts nontermSym _ pathTab) as [st signal]. simpl in H.
  assert (H' : countAmbiguity (printed st) <= pairsOf (List.length pathTab))
    by exact H.
  destruct signal; cbn [fst]; try lia;
    destruct (negb (foundAmbiguity st) && useTestRules opts && _);
    cbn [fst printed]; rewrite ?countAmbiguity_app;
    change (countAmbiguity [Err "Ambiguity not found in test rule" nontermSym])
      with 0; lia.
Qed.

(** *** Every distinct pair once *)

Lemma pairsPrinted_app events more :
  pairsPrinted (events ++ more) = pairsPrinted events ++ pairsPrinted more.
Proof. unfold pairsPrinted. apply flat_map_app. Qed.

Lemma distinctPairs_snoc pairs treeA treeB :
  distinctPairs pairs ->
  pairExists pairs treeA treeB = false ->
  distinctPairs (pairs ++ [(treeA, treeB)]).
Proof.
  intros [Hnd Hsym] Hnew.
  assert (Hnot : ~ (In (treeA, treeB) pairs \/ In (treeB, treeA) pairs)).
  { intros H. apply pairExists_In in H. congruence. }
  split.
  - apply SymbolFacts.NoDup_snoc; tauto.
  - intros a b Ha Hb. apply in_app_iff in Ha, Hb.
    destruct Ha as [Ha|[[= <- <-]|[]]], Hb as [Hb|[[= Eb Ea]|[]]]; subst; auto;
      tauto.
Qed.

Section Distinct.
Variable opts : Opts.
Variable nontermSym : string.
Hypothesis find_all : findAll opts = true.

Lemma found_recorded st pathA pathB :
  recorded st -> recorded (fst (found opts nontermSym st pathA pathB)).
Proof.
  intros [Hp Hd]. unfold found. rewrite find_all.
  destruct (noOutput opts); simpl; [split; auto|].
  destruct (trimmedTrees nontermSym pathA pathB) as [[treeA treeB]|e]; simpl;
    [|split; auto].
  destruct (pairExists (ambigPairs st) treeA treeB) eqn:E; simpl;
    [split; auto|].
  split; simpl.
  - rewrite pairsPrinted_app, Hp. reflexivity.
  - now apply distinctPairs_snoc.
Qed.

Lemma forPathsB_recorded pathA pathsB :
  forall st, recorded st ->
             recorded (fst (forPathsB opts nontermSym st pathA pathsB)).
Proof.
  induction pathsB as [|pathB pathsB IH]; intros st Hst; simpl; [exact Hst|].
  destruct (ambiguous pathA pathB); [|now apply IH].
  pose proof (found_recorded st pathA pathB Hst) as H.
  destruct (found opts nontermSym st pathA pathB) as [st1 [| |e]]; auto.
Qed.

Lemma forPathsA_recorded pathsA pathsB :
  forall st, recorded st ->
             recorded (fst (forPathsA opts nontermSym st pathsA pathsB)).
Proof.
  induction pathsA as [|pathA pathsA IH]; intros st Hst; simpl; [exact Hst|].
  pose proof (forPathsB_recorded pathA pathsB st Hst) as H.
  destruct (forPathsB opts nontermSym st pathA pathsB) as [st1 [| |e]]; auto.
Qed.

Lemma forTerminals_recorded pathSetsA pathSetsB terms :
  forall st, recorded st ->
             recorded (fst (forTerminals opts nontermSym st pathSetsA pathSetsB
                                         terms)).
Proof.
  induction terms as [|t terms IH]; intros st Hst; simpl; [exact Hst|].
  destruct (get pathSetsB t) as [pathsB|]; [|now apply IH].
  destruct (get pathSetsA t) as [pathsA|]; [|exact Hst].
  pose proof (forPathsA_recorded (sortPaths pathsA) pathsB st Hst) as H.
  destruct (forPathsA opts nontermSym st (sortPaths pathsA) pathsB)
    as [st1 [| |e]]; auto.
Qed.

Lemma forB_recorded pathSetsA later :
  forall st, recorded st ->
             recorded (fst (forB opts nontermSym st pathSetsA later)).
Proof.
  induction later as [|pathSetsB later IH]; intros st Hst; simpl; [exact Hst|].
  pose proof (forTerminals_recorded pathSetsA pathSetsB (forIn pathSetsA) st Hst)
    as H.
  destruct (forTerminals opts nontermSym st pathSetsA pathSetsB (forIn pathSetsA))
    as [st1 [| |e]]; auto.
Qed.

Lemma forA_recorded pathTab :
  forall st, recorded st -> recorded (fst (forA opts nontermSym st pathTab)).
Proof.
  induction pathTab as [|pathSetsA pathTab IH]; intros st Hst; simpl;
    [exact Hst|].
  pose proof (forB_recorded pathSetsA pathTab st Hst) as H.
  destruct (forB opts nontermSym st pathSetsA pathTab) as [st1 [| |e]]; auto.
Qed.
End Distinct.

(** With [findAll] true, no pair of trees is printed twice for a symbol,
    in the same order or the other: a pair is printed when [pairExists]
    does not find it among those printed before. *)
Theorem findAll_prints_distinct (opts : Opts) (nontermSym : string)
                                (pathTab : list PathSets) :
  findAll opts = true ->
  distinctPairs
    (pairsPrinted (printed (fst (findAmbiguity opts nontermSym pathTab)))).
Proof.
  intros Hall. unfold findAmbiguity.
  assert (H0 : recorded {| foundAmbiguity := false; ambigPairs := [];
                           printed := [] |}).
  { split; [reflexivity|]. split; [constructor | intros a b []]. }
  pose proof (forA_recorded opts nontermSym Hall pathTab _ H0) as [Hp Hd].
  destruct (forA opts nontermSym _ pathTab) as [st signal]. simpl in Hp, Hd.
  assert (H : distinctPairs (pairsPrinted (printed st))) by now rewrite Hp.
  destruct signal; simpl; auto;
    destruct (negb (foundAmbiguity st) && useTestRules opts && _); simpl; auto;
    rewrite pairsPrinted_app; simpl; now rewrite app_nil_r.
Qed.

End FindMore.
(** ** More on symbols and rules *)

Module GrammarMore.
Import SymbolJs SymbolSpec GrammarSpec SymbolFacts.
Import AmbiguityCheck DetectorSpec PathSpec PathFacts.

(** *** [addRule], whole or not at all *)

Lemma newRule_made this opts g rule g1 :
  (if oTerminal opts then newTermRule this opts
   else newNontermRule this opts) g = (inr rule, g1) ->
  g1 = g
  /\ terminal rule = oTerminal opts
  /\ ruleShape rule = true
  /\ (terminal rule = false -> RHS rule = map name (rhsSymbols (oRHS opts)))
  /\ (semantic rule = None ->
      cost rule = baseCost (List.length (rulesIn g this))).
Proof.
  unfold newTermRule, newNontermRule, ruleErr, calcCost, bind, rulesOf, ret,
    throw, rulesIn, baseCost, ruleShape, notEditRule.
  destruct (oTerminal opts) eqn:Ht.
  - destruct (illFormedOpts termRuleOptsSchema opts) eqn:Hill; [discriminate|].
    intros [= <- <-]. cbn.
    unfold illFormedOpts in Hill. apply negb_false_iff in Hill.
    repeat (apply andb_true_iff in Hill; destruct Hill as [Hill ?]).
    destruct (oRHS opts) as [[s|l]|]; try discriminate.
    repeat split; try discriminate.
    intros _. exact (costAt_zero _).
  - destruct (illFormedOpts nontermRuleOptsSchema opts) eqn:Hill; [discriminate|].
    destruct (Nat.ltb 2 (List.length (rhsSymbols (oRHS opts)))) eqn:Hlt;
      [discriminate|].
    apply Nat.ltb_ge in Hlt.
    destruct (oSemantic opts) as [sem|] eqn:Hsem;
      (destruct (oTranspositionCost opts) as [tc|] eqn:Htc;
       [destruct (Nat.eqb (List.length (rhsSymbols (oRHS opts))) 2) eqn:Htwo;
        [|discriminate]|]);
      intros [= <- <-]; cbn; rewrite ?Hsem, ?Htc, ?length_map, ?Htwo; cbn;
      (repeat split; try discriminate; try reflexivity);
      try (rewrite (proj2 (Nat.leb_le _ _) Hlt); reflexivity);
      try (intros _; exact (costAt_zero _)).
Qed.

Lemma addRule_steps this opts g :
  match addRule this opts g with
  | (inl e, g') => g' = g
  | (inr _, g') =>
      exists rule,
        g' = set g (name this) (rulesIn g this ++ [rule])
        /\ terminal rule = oTerminal opts
        /\ ruleShape rule = true
        /\ RHS rule = rhsOf opts
        /\ (terminal rule = false ->
            RHS rule = map name (rhsSymbols (oRHS opts)))
        /\ (semantic rule = None ->
            cost rule = baseCost (List.length (rulesIn g this)))
        /\ ~ In (RHS rule) (map RHS (rulesIn g this))
  end.
Proof.
  destruct (passesValidation opts) eqn:Hv.
  - destruct (addRule_valid this opts g Hv) as [rule [dup [Hrhs [_ [Hdup E]]]]].
    destruct (newRule_spec this opts g Hv) as [rule' [Hnew [Hrhs' _]]].
    (* the rule of [addRule_valid] is the one [newRule_spec] returns *)
    unfold addRule in *.
    assert (HR : isNone (oRHS opts) = false).
    { unfold passesValidation, illFormedOpts in Hv.
      destruct (oRHS opts); [reflexivity|].
      destruct (oTerminal opts); discriminate. }
    rewrite (bind_returns (guard_passes _ HR)); cbv beta.
    rewrite (bind_returns Hnew); cbv beta.
    destruct (ruleExists_spec this rule' g) as [dup' [Hex Hdup']].
    rewrite (bind_returns Hex); cbv beta.
    destruct dup'; [reflexivity|].
    rewrite bind_ret. unfold bind, rulesOf, write. fold (rulesIn g this).
    destruct (newRule_made this opts g rule' g Hnew) as [_ [Ht [Hs [Hn Hc]]]].
    exists rule'. repeat split; auto.
    intros Hin. apply in_map_iff in Hin. destruct Hin as [r [Hr Hin]].
    assert (false = true) by (apply Hdup'; eauto). discriminate.
  - destruct (addRule this opts g) as [[e|[]] g'] eqn:E.
    + revert E. unfold addRule.
      destruct (isNone (oRHS opts)); [now intros [= _ <-]|].
      cbv iota. rewrite bind_ret. unfold bind at 1.
      destruct ((if oTerminal opts then newTermRule this opts
                 else newNontermRule this opts) g) as [[e'|rule] g1] eqn:Hnew.
      * intros [= _ <-]. revert Hnew.
        unfold newTermRule, newNontermRule, ruleErr, calcCost, bind, rulesOf,
          ret, throw.
        repeat match goal with
               | |- context [if ?c then _ else _] => destruct c
               | |- context [match ?c with Some _ => _ | None => _ end] =>
                   destruct c
               end; now intros [= _ <-].
      * apply newRule_made in Hnew. destruct Hnew as [-> _].
        cbv beta iota delta [bind ruleExists rulesOf ret ruleErr throw write].
        match goal with
        | |- context [existsb ?f ?l] => destruct (existsb f l)
        end; [now intros [= _ <-] | discriminate].
    + apply addRule_returns_valid in E. congruence.
Qed.

Lemma keys_set {V} (o : obj V) k v :
  hasOwnProperty o k = true -> keys (set o k v) = keys o.
Proof.
  unfold hasOwnProperty.
  induction o as [|[k' v'] o IH]; simpl; [discriminate|].
  destruct (String.eqb_spec k' k) as [->|Hne]; simpl; [reflexivity|].
  intros H. now rewrite IH.
Qed.

(** [addRule] adds its rule or changes nothing.  When it throws, for
    whichever reason, the grammar is as it was.  When it returns, it has
    appended one rule to the rules of its symbol, a rule with the RHS
    asked for that no rule of the symbol had, terminal when [terminal]
    was set, and of the shape of its kind; the rules of the other symbols
    are as they were, and so is the order of the symbols. *)
Theorem addRule_atomic (this : SymbolObj) (opts : RuleOpts) (grammar : Grammar) :
  match addRule this opts grammar with
  | (inl e, grammar') => grammar' = grammar
  | (inr _, grammar') =>
      (exists newRule,
          get grammar' (name this) = Some (rulesIn grammar this ++ [newRule])
          /\ RHS newRule = rhsOf opts
          /\ terminal newRule = oTerminal opts
          /\ ruleShape newRule = true
          /\ ~ In (RHS newRule) (map RHS (rulesIn grammar this)))
      /\ (forall sym, sym <> name this -> get grammar' sym = get grammar sym)
      /\ (hasOwnProperty grammar (name this) = true ->
          keys grammar' = keys grammar)
  end.
Proof.
  pose proof (addRule_steps this opts grammar) as H.
  destruct (addRule this opts grammar) as [[e|[]] g']; [exact H|].
  destruct H as [rule [-> [Ht [Hs [Hrhs [_ [_ Hnew]]]]]]].
  split; [|split].
  - exists rule. rewrite get_set_same. auto.
  - intros sym Hne. now apply get_set_other.
  - apply keys_set.
Qed.

(** *** The grammars that are built *)

Lemma hasOwnProperty_set {V} (o : obj V) k v k' :
  hasOwnProperty (set o k v) k' = true
  <-> k' = k \/ hasOwnProperty o k' = true.
Proof.
  unfold hasOwnProperty.
  destruct (String.eqb_spec k' k) as [->|Hne].
  - rewrite get_set_same. tauto.
  - rewrite get_set_other by exact Hne.
    split; [auto | intros [H|H]; [contradiction | exact H]].
Qed.

Lemma keys_set_In {V} (o : obj V) k v k' :
  In k' (keys (set o k v)) -> k' = k \/ In k' (keys o).
Proof.
  induction o as [|[k0 v0] o IH]; simpl.
  - intros [<-|[]]. now left.
  - destruct (String.eqb_spec k0 k) as [->|Hne]; simpl; [tauto|].
    intros [<-|H]; [tauto|]. destruct (IH H); auto.
Qed.

Lemma Symbol_made chunks g this g' :
  Symbol chunks g = (inr this, g') ->
  g' = set g (name this) []
  /\ hasOwnProperty g (name this) = false
  /\ startsWithBracket (name this) = true
  /\ endsWithBracket (name this) = true.
Proof.
  rewrite Symbol_spec.
  destruct (existsb isUndefined chunks); [discriminate|].
  destruct (hasOwnProperty g _) eqn:E; [discriminate|].
  intros [= <- <-]. cbn [name]. repeat split; auto.
  exact (TreeFacts.endsWithBracket_app ("[" ++ join "-" chunks)).
Qed.

Lemma rulesIn_get g this :
  hasOwnProperty g (name this) = true -> get g (name this) = Some (rulesIn g this).
Proof.
  unfold hasOwnProperty, rulesIn. now destruct (get g (name this)).
Qed.

(** What holds of every rule of a grammar, in a grammar that is built. *)
Lemma constructed_rules (P : Grammar -> Rule -> Prop) :
  (forall g g' rule, P g rule ->
                     (forall k, hasOwnProperty g k = true ->
                                hasOwnProperty g' k = true) ->
                     P g' rule) ->
  (forall g this opts rule,
      hasOwnProperty g (name this) = true ->
      (forall sym, In sym (rhsSymbols (oRHS opts)) ->
                   hasOwnProperty g (name sym) = true) ->
      ruleShape rule = true ->
      (terminal rule = false -> RHS rule = map name (rhsSymbols (oRHS opts))) ->
      (semantic rule = None ->
       cost rule = baseCost (List.length (rulesIn g this))) ->
      P (set g (name this) (rulesIn g this ++ [rule])) rule) ->
  forall g, constructed g ->
            forall sym rules rule,
              get g sym = Some rules -> In rule rules -> P g rule.
Proof.
  intros Hmono Hnew g Hc.
  induction Hc as [|chunks g this g' Hc IH Hs|this opts g g' Hc IH Hreg Hrhs Ha];
    intros sym rules rule Hget Hin.
  - discriminate.
  - apply Symbol_made in Hs. destruct Hs as [-> [Hfresh _]].
    destruct (String.eqb_spec sym (name this)) as [->|Hne].
    + rewrite get_set_same in Hget. injection Hget as <-. destruct Hin.
    + rewrite get_set_other in Hget by exact Hne.
      eapply Hmono; [eapply IH; eauto|].
      intros k Hk. apply hasOwnProperty_set. auto.
  - pose proof (addRule_steps this opts g) as H. rewrite Ha in H.
    destruct H as [new [-> [Ht [Hshape [Hr [Hn [Hcost _]]]]]]].
    assert (Hgrow : forall k, hasOwnProperty g k = true ->
                      hasOwnProperty (set g (name this) (rulesIn g this ++ [new])) k
                      = true)
      by (intros k Hk; apply hasOwnProperty_set; auto).
    destruct (String.eqb_spec sym (name this)) as [->|Hne].
    + rewrite get_set_same in Hget. injection Hget as <-.
      apply in_app_iff in Hin. destruct Hin as [Hin|[<-|[]]].
      * eapply Hmono; [|exact Hgrow].
        eapply IH; [apply rulesIn_get; exact Hreg | exact Hin].
      * now apply (Hnew g this opts).
    + rewrite get_set_other in Hget by exact Hne.
      eapply Hmono; [eapply IH; eauto | exact Hgrow].
Qed.

Lemma constructed_keys g :
  constructed g ->
  forall sym, In sym (keys g) ->
              startsWithBracket sym = true /\ endsWithBracket sym = true.
Proof.
  intros Hc.
  induction Hc as [|chunks g this g' Hc IH Hs|this opts g g' Hc IH Hreg Hrhs Ha];
    intros sym Hin.
  - destruct Hin.
  - apply Symbol_made in Hs. destruct Hs as [-> [_ [H1 H2]]].
    apply keys_set_In in Hin. destruct Hin as [->|Hin]; auto.
  - pose proof (addRule_steps this opts g) as H. rewrite Ha in H.
    destruct H as [new [-> _]].
    rewrite keys_set in Hin by exact Hreg. auto.
Qed.

Lemma constructed_closed g : constructed g -> closedGrammar g.
Proof.
  intros Hc sym rules rule s Hget Hin Hterm Hs.
  refine (constructed_rules
            (fun g rule => terminal rule = false ->
                           forall s, In s (RHS rule) -> hasOwnProperty g s = true)
            _ _ g Hc sym rules rule Hget Hin Hterm s Hs).
  - intros g0 g' r H Hgrow Ht s0 Hs0. auto.
  - intros g0 this opts r Hreg Hrhs Hshape Hn _ Ht s0 Hs0.
    apply hasOwnProperty_set. right.
    rewrite (Hn Ht) in Hs0.
    apply in_map_iff in Hs0. destruct Hs0 as [symObj [<- Hin0]]. auto.
Qed.

Lemma constructed_shapes g :
  constructed g ->
  forall sym rules rule,
    get g sym = Some rules -> In rule rules -> ruleShape rule = true.
Proof.
  intros Hc sym rules rule Hget Hin.
  refine (constructed_rules (fun _ rule => ruleShape rule = true)
            _ _ g Hc sym rules rule Hget Hin); auto.
Qed.

Lemma ruleShape_binary rule :
  ruleShape rule = true -> Nat.leb (List.length (RHS rule)) 2 = true.
Proof.
  unfold ruleShape. intros H. apply andb_true_iff in H. destruct H as [_ H].
  destruct (terminal rule).
  - repeat (apply andb_true_iff in H; destruct H as [H _]).
    apply Nat.eqb_eq in H. now rewrite H.
  - now repeat (apply andb_true_iff in H; destruct H as [H _]).
Qed.

Lemma shapes_atMostBinary g :
  (forall sym rules rule,
      get g sym = Some rules -> In rule rules -> ruleShape rule = true) ->
  NoDup (keys g) ->
  atMostBinary g = true.
Proof.
  intros Hshape Hnd. unfold atMostBinary.
  apply forallb_forall. intros [sym rules] Hentry.
  apply forallb_forall. intros rule Hin. simpl in Hin.
  apply orb_true_iff. right. apply ruleShape_binary.
  apply (Hshape sym rules rule); [|exact Hin].
  clear -Hentry Hnd. induction g as [|[k v] g IH]; [destruct Hentry|].
  simpl in *. inversion Hnd as [|? ? Hk Hnd']; subst.
  destruct Hentry as [[= -> ->]|Hentry].
  - now rewrite String.eqb_refl.
  - destruct (String.eqb_spec k sym) as [->|Hne]; [|now apply IH].
    exfalso. apply Hk. apply in_map_iff. now exists (sym, rules).
Qed.

Lemma keys_set_fresh {V} (o : obj V) k v :
  hasOwnProperty o k = false -> keys (set o k v) = keys o ++ [k].
Proof.
  intros H. rewrite set_fresh.
  - unfold keys. now rewrite map_app.
  - unfold hasOwnProperty in H. now destruct (get o k).
Qed.

Lemma constructed_NoDup g : constructed g -> NoDup (keys g).
Proof.
  intros Hc.
  induction Hc as [|chunks g this g' Hc IH Hs|this opts g g' Hc IH Hreg Hrhs Ha].
  - constructor.
  - apply Symbol_made in Hs. destruct Hs as [-> [Hfresh _]].
    rewrite keys_set_fresh by exact Hfresh.
    apply NoDup_snoc; [exact IH|].
    intros Hin. apply In_keys_get in Hin. destruct Hin as [v Hv].
    unfold hasOwnProperty in Hfresh. now rewrite Hv in Hfresh.
  - pose proof (addRule_steps this opts g) as H. rewrite Ha in H.
    destruct H as [new [-> _]]. now rewrite keys_set.
Qed.

Lemma constructed_authored g : constructed g -> authored g.
Proof.
  intros Hc.
  induction Hc as [|chunks g this g' Hc IH Hs|this opts g g' Hc IH Hreg Hrhs Ha].
  - constructor.
  - econstructor 2; eauto.
  - econstructor 3; eauto.
Qed.

(** In a grammar built by [new Symbol] and [addRule], every symbol has a
    name in brackets, every symbol on the RHS of a nonterminal rule has
    an entry, every rule has the shape of its kind (so none has more than
    two RHS symbols, and none is an edit rule), and no two rules of a
    symbol have the same RHS. *)
Theorem constructed_grammar (grammar : Grammar) :
  constructed grammar ->
  (forall sym, In sym (keys grammar) ->
               startsWithBracket sym = true /\ endsWithBracket sym = true)
  /\ closedGrammar grammar
  /\ (forall sym rules rule,
         get grammar sym = Some rules -> In rule rules -> ruleShape rule = true)
  /\ atMostBinary grammar = true
  /\ withoutEditRules grammar = grammar
  /\ noDuplicateRHS grammar.
Proof.
  intros Hc. split; [now apply constructed_keys|].
  split; [now apply constructed_closed|].
  split; [now apply constructed_shapes|].
  split; [apply shapes_atMostBinary;
            [now apply constructed_shapes | now apply constructed_NoDup]|].
  split; [|now apply authored_noDuplicateRHS, constructed_authored].
  pose proof (constructed_shapes grammar Hc) as Hshape.
  pose proof (constructed_NoDup grammar Hc) as Hnd.
  assert (Hentry : forall sym rules, In (sym, rules) grammar ->
                                     get grammar sym = Some rules).
  { clear -Hnd. induction grammar as [|[k v] g IH]; intros sym rules []; simpl.
    - injection H as -> ->. now rewrite String.eqb_refl.
    - inversion Hnd as [|? ? Hk Hnd']; subst.
      destruct (String.eqb_spec k sym) as [->|Hne]; [|now apply IH].
      exfalso. apply Hk. apply in_map_iff. now exists (sym, rules). }
  unfold withoutEditRules.
  rewrite <- (map_id grammar) at 2. apply map_ext_in.
  intros [sym rules] Hin. simpl. f_equal.
  apply forallb_filter_id. apply forallb_forall. intros rule Hr.
  specialize (Hshape sym rules rule (Hentry _ _ Hin) Hr).
  unfold ruleShape in Hshape. apply andb_true_iff in Hshape. tauto.
Qed.

(** *** Costs by position *)

Lemma authored_costs g :
  authored g ->
  forall sym rules i rule,
    get g sym = Some rules -> nth_error rules i = Some rule ->
    semantic rule = None -> cost rule = baseCost i.
Proof.
  intros Ha.
  induction Ha as [|chunks g this g' Ha IH Hs|this opts g g' Ha IH Hadd];
    intros sym rules i rule Hget Hnth Hsem.
  - discriminate.
  - apply Symbol_made in Hs. destruct Hs as [-> _].
    destruct (String.eqb_spec sym (name this)) as [->|Hne].
    + rewrite get_set_same in Hget. injection Hget as <-. now destruct i.
    + rewrite get_set_other in Hget by exact Hne. eauto.
  - pose proof (addRule_steps this opts g) as H. rewrite Hadd in H.
    destruct H as [new [-> [_ [_ [_ [_ [Hcost _]]]]]]].
    destruct (String.eqb_spec sym (name this)) as [->|Hne].
    + rewrite get_set_same in Hget. injection Hget as <-.
      destruct (Nat.lt_ge_cases i (List.length (rulesIn g this))) as [Hlt|Hge].
      * rewrite nth_error_app1 in Hnth by exact Hlt.
        unfold rulesIn in Hnth, Hlt.
        destruct (get g (name this)) as [old|] eqn:E; [eauto|].
        simpl in Hlt. lia.
      * rewrite nth_error_app2 in Hnth by exact Hge.
        destruct (i - List.length (rulesIn g this)) as [|[|n]] eqn:Ei;
          try discriminate.
        injection Hnth as <-. replace i with (List.length (rulesIn g this)) by lia.
        auto.
    + rewrite get_set_other in Hget by exact Hne. eauto.
Qed.

(** The order of numbers that are not below zero. *)
Lemma ltb_trans x y z :
  notNegative x -> notNegative y -> notNegative z ->
  Numbers.ltb x y = true -> Numbers.ltb y z = true -> Numbers.ltb x z = true.
Proof.
  unfold Numbers.ltb, SFltb, SFcompare, notNegative.
  destruct x as [sx|sx| |sx mx ex], y as [sy|sy| |sy my ey],
           z as [sz|sz| |sz mz ez]; intros; subst; try discriminate;
    try reflexivity.
  change (Pos.compare_cont Eq mx my) with (Pos.compare mx my) in *.
  change (Pos.compare_cont Eq my mz) with (Pos.compare my mz) in *.
  change (Pos.compare_cont Eq mx mz) with (Pos.compare mx mz) in *.
  destruct (Z.compare_spec ex ey), (Z.compare_spec ey ez),
           (Z.compare_spec ex ez); try discriminate; try reflexivity;
    try lia; subst;
    destruct (Pos.compare_spec mx my), (Pos.compare_spec my mz),
             (Pos.compare_spec mx mz); try discriminate; try reflexivity; lia.
Qed.

Lemma costsRise_step n :
  forall i k,
    costsRise n i = true -> k < n ->
    Numbers.ltb (costOfIndex (i + Z.of_nat k))
                (costOfIndex (i + Z.of_nat (S k))) = true.
Proof.
  induction n as [|n IH]; intros i k H Hk; [lia|].
  cbn [costsRise] in H. apply andb_true_iff in H. destruct H as [H1 H2].
  destruct k as [|k].
  - replace (i + Z.of_nat 0)%Z with i by lia.
    replace (i + Z.of_nat 1)%Z with (i + 1)%Z by lia. exact H1.
  - replace (i + Z.of_nat (S k))%Z with (i + 1 + Z.of_nat k)%Z by lia.
    replace (i + Z.of_nat (S (S k)))%Z with (i + 1 + Z.of_nat (S k))%Z by lia.
    apply IH; [exact H2 | lia].
Qed.

(** The costs of the first indices, computed one by one. *)
Lemma costsRise_computed : costsRise indicesCompared 0 = true.
Proof. vm_compute. reflexivity. Qed.

Lemma baseCost_rises i j :
  i < j -> j <= indicesCompared ->
  Numbers.ltb (baseCost i) (baseCost j) = true.
Proof.
  intros Hlt Hj. induction j as [|j IH]; [lia|].
  assert (Hstep : Numbers.ltb (baseCost j) (baseCost (S j)) = true).
  { exact (costsRise_step indicesCompared 0 j costsRise_computed Hj). }
  destruct (Nat.eq_dec i j) as [->|Hne]; [exact Hstep|].
  eapply ltb_trans; try apply baseCost_notNegative; [|exact Hstep].
  apply IH; lia.
Qed.

(** The cost a rule was given when it was added is the cost it keeps: in
    a grammar built by [new Symbol] and [addRule], the rule at index [i]
    of a symbol costs [i * 1e-7], the product rounded to binary64, when
    it has no semantic; so among the first 2^16 rules of a symbol those
    that have none cost more the later they were added. *)
Theorem rule_costs_by_position (grammar : Grammar) (sym : string)
    (rules : list Rule) :
  authored grammar ->
  get grammar sym = Some rules ->
  (forall i rule,
      nth_error rules i = Some rule -> semantic rule = None ->
      cost rule = Numbers.mul (Numbers.ofNat i) c1e_7)
  /\ (forall i j ruleI ruleJ,
         nth_error rules i = Some ruleI -> nth_error rules j = Some ruleJ ->
         semantic ruleI = None -> semantic ruleJ = None ->
         i < j -> j <= 2 ^ 16 ->
         Numbers.ltb (cost ruleI) (cost ruleJ) = true).
Proof.
  intros Ha Hget. split.
  - intros i rule Hnth Hsem. exact (authored_costs _ Ha _ _ _ _ Hget Hnth Hsem).
  - intros i j ruleI ruleJ Hi Hj HsI HsJ Hlt Hmax.
    rewrite (authored_costs _ Ha _ _ _ _ Hget Hi HsI).
    rewrite (authored_costs _ Ha _ _ _ _ Hget Hj HsJ).
    now apply baseCost_rises.
Qed.

(** *** A grammar that is built can be searched *)

(** On a grammar built by [new Symbol] and [addRule], the enumeration of
    the paths of any of its symbols returns its table, whatever the
    limit: no symbol is missing from the grammar; and no path of the
    table has more than [symsLimit + 1] symbols, or five. *)
Theorem constructed_enumerates (grammar : Grammar) (opts : Opts)
                               (nontermSym : string) :
  constructed grammar ->
  In nontermSym (keys grammar) ->
  exists pathTab,
    pathTabOf grammar opts nontermSym = Done pathTab
    /\ forall path, pathIn pathTab path ->
                    symsCount path <= Nat.max 5 (symsLimit opts + 1).
Proof.
  intros Hc Hin.
  destruct (In_keys_get _ grammar nontermSym Hin) as [rules Hget].
  pose proof (constructed_closed grammar Hc) as Hclosed.
  assert (Hbin : atMostBinary grammar = true)
    by (apply shapes_atMostBinary;
        [now apply constructed_shapes | now apply constructed_NoDup]).
  pose proof (expandAll_initPaths_no_OutOfFuel grammar opts rules) as Hfuel.
  pose proof (expandAll_initPaths_no_TypeError grammar opts nontermSym rules
                Hclosed Hget rules (incl_refl _)) as Htype.
  unfold pathTabOf at 1. rewrite (rulesAt_own _ _ _ Hget).
  destruct (expandAll grammar opts (initPaths rules)) as [pathTab|[|]] eqn:E;
    [|congruence|congruence].
  exists pathTab. split; [reflexivity|].
  intros path [pathSets [terms [paths [Hps [Hterms Hp]]]]].
  assert (Htab : pathTabOf grammar opts nontermSym = Done pathTab)
    by (unfold pathTabOf; now rewrite (rulesAt_own _ _ _ Hget)).
  refine (proj1 (proj2 (pathTabOf_stored grammar opts (bounded opts) _
                          nontermSym pathTab _ Htab pathSets Hps terms paths path
                          Hterms Hp))).
  - intros lastPath rule rules0 [Hmax Hroot] [_ Hexp] Hget0 Hrule Hne.
    pose proof (PathMore.notEditRule_In
                  (fun rule => Nat.leb (List.length (RHS rule)) 2)
                  _ _ _ _ Hbin Hget0 Hrule Hne) as Hlen.
    apply Nat.leb_le in Hlen.
    unfold bounded. rewrite symsCount_newPath, prev_newPath.
    split; [|discriminate].
    destruct Hexp as [Hnone|Hlt]; [specialize (Hroot Hnone)|]; lia.
  - intros rule rules0 Hget0 Hrule Hne.
    pose proof (PathMore.notEditRule_In
                  (fun rule => Nat.leb (List.length (RHS rule)) 2)
                  _ _ _ _ Hbin Hget0 Hrule Hne) as Hlen.
    apply Nat.leb_le in Hlen.
    unfold bounded. rewrite PathMore.symsCount_rootPath. split; intros; lia.
Qed.

End GrammarMore.
(** ** More on verb sets *)

Module VerbSetMore.
Import VerbSet VerbSetSpec VerbRulesSpec VerbSetFacts.

(** *** The rules of one verb set *)

Lemma addForm_Ok cost textForms formTense form verbSym added st' :
  addForm cost textForms formTense form (verbSym, added) = Ok st' ->
  exists rule,
    st' = (verbSym ++ [rule], added ++ [form])
    /\ isTerminal rule = true /\ rhs rule = form
    /\ VerbSet.text rule = textForms
    /\ insertionCost rule = cost
    /\ tense rule = if String.eqb formTense "past" then Some formTense else None.
Proof.
  unfold addForm, createVerbTerminalRule.
  destruct (negb (String.eqb formTense "present")
            && negb (String.eqb formTense "past")); [discriminate|].
  unfold addRule.
  destruct cost as [c|]; cbn [rhs];
    match goal with
    | |- context [existsb ?f ?l] => destruct (existsb f l)
    end; try discriminate; intros [= <-]; eexists; repeat split.
Qed.

Lemma In_forms_optional verbTermSet form :
  given form = true ->
  form = past verbTermSet \/ form = presentSubjunctive verbTermSet
  \/ form = presentParticiple verbTermSet \/ form = pastParticiple verbTermSet ->
  In (formOf form) (forms verbTermSet).
Proof.
  intros Hg H. unfold forms. do 3 right.
  assert (Hin : In (formOf form) (optionalForm form))
    by (apply In_optionalForm; auto).
  rewrite !in_app_iff. destruct H as [-> | [-> | [-> | ->]]]; auto.
Qed.

Lemma rulesOfSet_more textForms cost verbTermSet n added :
  rulesOfSet textForms cost verbTermSet n added ->
  rulesOfSet textForms cost verbTermSet (S n) added.
Proof.
  intros [first [rest [E [H1 [H2 [H3 [H4 H5]]]]]]].
  exists first, rest. repeat split; auto; tauto.
Qed.

Lemma rulesOfSet_add textForms cost verbTermSet n added formTense form
      verbSym forms st' :
  rulesOfSet textForms cost verbTermSet n added ->
  In form (VerbSetSpec.forms verbTermSet) ->
  formTense = "present"
  \/ formTense = "past"
     /\ (given (past verbTermSet) = true /\ form = formOf (past verbTermSet)
         \/ given (pastParticiple verbTermSet) = true
            /\ form = formOf (pastParticiple verbTermSet)) ->
  addForm None textForms formTense form (verbSym ++ added, forms) = Ok st' ->
  exists added',
    st' = (verbSym ++ added', forms ++ [form])
    /\ rulesOfSet textForms cost verbTermSet (S n) added'.
Proof.
  intros [first [rest [-> [H1 [H2 [H3 [H4 [H5 H6]]]]]]]] Hin Htense Hadd.
  apply addForm_Ok in Hadd.
  destruct Hadd as [rule [-> [Ht [Hr [Htext [Hc Hten]]]]]].
  exists (first :: rest ++ [rule]). split.
  - now rewrite <- app_assoc.
  - exists first, (rest ++ [rule]). repeat split; auto.
    + rewrite length_app. simpl. lia.
    + apply Forall_app. split; [exact H5 | now constructor].
    + change (first :: rest ++ [rule]) with ((first :: rest) ++ [rule]).
      apply Forall_app. split; [exact H6|]. constructor; [|constructor].
      unfold ruleOfSet. rewrite Hr. repeat split; auto.
      destruct Htense as [-> | [-> Hpast]]; simpl in Hten; [now left|].
      right. split; [exact Hten | exact Hpast].
Qed.

(** A step of [addVerbTermSet] after the first: it adds the form, or
    leaves the rules. *)
Lemma step_sofar textForms cost verbTermSet verbSym n (wanted : bool)
      formTense form st st' :
  (exists added, fst st = verbSym ++ added
                 /\ rulesOfSet textForms cost verbTermSet n added) ->
  (wanted = true ->
   In form (forms verbTermSet)
   /\ (formTense = "present"
       \/ formTense = "past"
          /\ (given (past verbTermSet) = true /\ form = formOf (past verbTermSet)
              \/ given (pastParticiple verbTermSet) = true
                 /\ form = formOf (pastParticiple verbTermSet)))) ->
  (if wanted then addForm None textForms formTense form st else Ok st) = Ok st' ->
  exists added, fst st' = verbSym ++ added
                /\ rulesOfSet textForms cost verbTermSet (S n) added.
Proof.
  intros [added [Hfst Hrules]] Hwanted.
  destruct wanted.
  - destruct (Hwanted eq_refl) as [Hin Htense].
    destruct st as [syms forms]. simpl in Hfst. subst syms. intros Hadd.
    destruct (rulesOfSet_add _ _ _ _ _ _ _ _ _ _ Hrules Hin Htense Hadd)
      as [added' [-> H]].
    now exists added'.
  - intros [= <-]. exists added. split; [exact Hfst|].
    now apply rulesOfSet_more.
Qed.

Ltac step E :=
  match goal with
  | |- andThen ?x _ = _ -> _ =>
      destruct x as [?st|] eqn:E; [|cbn [andThen]; discriminate]
  end; cbn [andThen].

Lemma addVerbTermSet_rules textForms cost verbSym verbTermSet verbSym' :
  addVerbTermSet textForms cost verbSym verbTermSet = Ok verbSym' ->
  exists added,
    verbSym' = verbSym ++ added
    /\ rulesOfSet textForms cost verbTermSet 6 added.
Proof.
  unfold addVerbTermSet.
  step E1.
  apply addForm_Ok in E1. destruct E1 as [r1 [-> [Ht [Hr [Htext [Hc Hten]]]]]].
  assert (H1 : exists added,
             fst (verbSym ++ [r1], [] ++ [oneSg verbTermSet]) = verbSym ++ added
             /\ rulesOfSet textForms cost verbTermSet 0 added).
  { exists [r1]. split; [reflexivity|].
    exists r1, []. repeat split; auto. constructor; [|constructor].
    unfold ruleOfSet. rewrite Hr. repeat split; auto.
    unfold forms. now left. }
  revert H1. generalize (verbSym ++ [r1], [] ++ [oneSg verbTermSet]).
  clear r1 Ht Hr Htext Hc Hten. intros st1 H1.
  step E2.
  apply (step_sofar _ _ _ _ _ _ _ _ _ _ H1) in E2;
    [|intros _; split; [unfold forms; simpl; auto | now left]].
  step E3.
  apply (step_sofar _ _ _ _ _ _ _ _ _ _ E2) in E3;
    [|intros _; split; [unfold forms; simpl; auto | now left]].
  assert (E4 : forall st4,
             (if given (past verbTermSet) then
                if negb (notAdded (snd st0) (formOf (past verbTermSet)))
                then Error "Ill-formed verb"
                else addForm None textForms "past" (formOf (past verbTermSet)) st0
              else Ok st0) = Ok st4 ->
             exists added, fst st4 = verbSym ++ added
                           /\ rulesOfSet textForms cost verbTermSet 3 added).
  { intros st4. destruct (given (past verbTermSet)) eqn:Gpast.
    - destruct (negb (notAdded (snd st0) (formOf (past verbTermSet))));
        [discriminate|].
      intros E4. apply (step_sofar _ _ _ _ _ true _ _ _ _ E3) in E4; [exact E4|].
      intros _. split; [apply In_forms_optional; auto | right; auto].
    - intros E4.
      apply (step_sofar _ _ _ _ _ false "present" "x" _ _ E3) in E4;
        [exact E4 | discriminate]. }
  step E4'. specialize (E4 _ eq_refl).
  step E5.
  apply (step_sofar _ _ _ _ _ _ _ _ _ _ E4) in E5;
    [|intros Hw; apply andb_true_iff in Hw; destruct Hw as [Hw _]; split;
      [apply In_forms_optional; auto | now left]].
  step E6.
  apply (step_sofar _ _ _ _ _ _ _ _ _ _ E5) in E6;
    [|intros Hw; apply andb_true_iff in Hw; destruct Hw as [Hw _]; split;
      [apply In_forms_optional; auto | now left]].
  step E7.
  apply (step_sofar _ _ _ _ _ _ _ _ _ _ E6) in E7;
    [|intros Hw; apply andb_true_iff in Hw; destruct Hw as [Hw _]; split;
      [apply In_forms_optional; auto 6 | right; auto]].
  intros [= <-]. exact E7.
Qed.

(** *** The rules of all verb sets *)

Lemma acceptedLoop_rules options :
  forall sets i defaultTextForms verbSym verbSym' defaultTextForms',
    acceptedLoop options i sets defaultTextForms verbSym
    = Ok (verbSym', defaultTextForms') ->
    exists added,
      verbSym' = verbSym ++ added
      /\ rulesOfSets (fun verbTermSet => Some (verbSetTextForms verbTermSet))
                     (fun i => if Nat.eqb i 0 then optInsertionCost options
                               else None)
                     i sets added
      /\ defaultTextForms'
         = match sets with
           | first :: _ => if Nat.eqb i 0 then Some (verbSetTextForms first)
                           else defaultTextForms
           | [] => defaultTextForms
           end.
Proof.
  induction sets as [|verbTermSet sets IH]; intros i d verbSym verbSym' d'; simpl.
  - intros [= <- <-]. exists []. now rewrite app_nil_r.
  - destruct (addVerbTermSet _ _ verbSym verbTermSet) as [verbSym1|] eqn:E;
      [|discriminate].
    cbn [andThen]. intros H. apply IH in H.
    destruct H as [forRest [-> [Hrest Hd]]].
    apply addVerbTermSet_rules in E. destruct E as [forSet [-> Hset]].
    exists (forSet ++ forRest). split; [now rewrite app_assoc|].
    split; [now exists forSet, forRest|].
    rewrite Hd. now destruct sets.
Qed.

Lemma substitutedLoop_rules defaultTextForms :
  forall sets i verbSym verbSym',
    substitutedLoop sets defaultTextForms verbSym = Ok verbSym' ->
    exists added,
      verbSym' = verbSym ++ added
      /\ rulesOfSets (fun _ => defaultTextForms) (fun _ => None) i sets added.
Proof.
  induction sets as [|verbTermSet sets IH]; intros i verbSym verbSym'; simpl.
  - intros [= <-]. exists []. now rewrite app_nil_r.
  - destruct (addVerbTermSet _ _ verbSym verbTermSet) as [verbSym1|] eqn:E;
      [|discriminate].
    cbn [andThen]. intros H. apply (IH (S i)) in H.
    destruct H as [forRest [-> Hrest]].
    apply addVerbTermSet_rules in E. destruct E as [forSet [-> Hset]].
    exists (forSet ++ forRest). split; [now rewrite app_assoc|].
    now exists forSet, forRest.
Qed.

Lemma newVerbSet_rules options verbRules :
  newVerbSet options = Ok verbRules ->
  exists forAccepted forSubstituted,
    verbRules = forAccepted ++ forSubstituted
    /\ rulesOfSets (fun verbTermSet => Some (verbSetTextForms verbTermSet))
                   (fun i => if Nat.eqb i 0 then optInsertionCost options
                             else None)
                   0 (acceptedVerbTermSets options) forAccepted
    /\ rulesOfSets (fun _ => option_map verbSetTextForms
                               (hd_error (acceptedVerbTermSets options)))
                   (fun _ => None) 0 (substituted options) forSubstituted.
Proof.
  unfold newVerbSet, newSymbol, substituted.
  destruct (acceptedLoop options 0 (acceptedVerbTermSets options) None [])
    as [[verbSym d]|] eqn:E; [|discriminate].
  apply acceptedLoop_rules in E. destruct E as [forAccepted [-> [Hacc Hd]]].
  assert (Hd' : d = option_map verbSetTextForms
                      (hd_error (acceptedVerbTermSets options))).
  { rewrite Hd. now destruct (acceptedVerbTermSets options). }
  cbn [andThen fst snd app].
  destruct (substitutedVerbTermSets options) as [sets|].
  - intros H. apply (substitutedLoop_rules _ _ 0) in H.
    destruct H as [forSubstituted [-> Hsub]].
    exists forAccepted, forSubstituted. rewrite <- Hd'. auto.
  - intros [= <-]. exists forAccepted, []. rewrite app_nil_r. simpl. auto.
Qed.

Lemma rulesOfSets_Forall textFormsOf costOf sets :
  forall i added,
    rulesOfSets textFormsOf costOf i sets added ->
    Forall (fun rule => exists verbTermSet,
                In verbTermSet sets
                /\ ruleOfSet (textFormsOf verbTermSet) verbTermSet rule) added.
Proof.
  induction sets as [|verbTermSet sets IH]; intros i added; simpl.
  - intros ->. constructor.
  - intros [forSet [forRest [-> [Hset Hrest]]]].
    apply Forall_app. split.
    + destruct Hset as [first [rest [_ [_ [_ [_ [_ [_ H]]]]]]]].
      eapply Forall_impl; [|exact H]. intros rule Hr. exists verbTermSet. auto.
    + eapply Forall_impl; [|exact (IH _ _ Hrest)].
      intros rule [set [Hin Hr]]. exists set. auto.
Qed.

Lemma rulesOfSets_length textFormsOf costOf sets :
  forall i added,
    rulesOfSets textFormsOf costOf i sets added ->
    List.length sets <= List.length added <= 7 * List.length sets.
Proof.
  induction sets as [|verbTermSet sets IH]; intros i added; simpl.
  - intros ->. simpl. lia.
  - intros [forSet [forRest [-> [Hset Hrest]]]].
    destruct Hset as [first [rest [-> [_ [_ [_ [Hlen _]]]]]]].
    specialize (IH _ _ Hrest). rewrite length_app. simpl. lia.
Qed.

Lemma rulesOfSets_noCost textFormsOf costOf sets :
  forall i added,
    (forall j, i <= j -> costOf j = None) ->
    rulesOfSets textFormsOf costOf i sets added ->
    Forall (fun rule => insertionCost rule = None) added.
Proof.
  induction sets as [|verbTermSet sets IH]; intros i added Hcost; simpl.
  - intros ->. constructor.
  - intros [forSet [forRest [-> [Hset Hrest]]]].
    apply Forall_app. split.
    + destruct Hset as [first [rest [-> [_ [_ [Hc [_ [Hnone _]]]]]]]].
      constructor; [|exact Hnone]. rewrite Hc. apply Hcost. lia.
    + apply (IH (S i)); [|exact Hrest]. intros j Hj. apply Hcost. lia.
Qed.

(** The insertion cost goes to one rule: the first rule of the symbol,
    the rule of the [oneSg] form of the first accepted verb set.  No
    other rule is given an insertion cost, and none at all when no verb
    set is accepted. *)
Theorem newVerbSet_insertionCost (options : Options) (verbRules : list VerbRule) :
  newVerbSet options = Ok verbRules ->
  (forall first others,
      acceptedVerbTermSets options = first :: others ->
      exists rule rest,
        verbRules = rule :: rest
        /\ rhs rule = oneSg first
        /\ insertionCost rule = optInsertionCost options
        /\ Forall (fun rule => insertionCost rule = None) rest)
  /\ (acceptedVerbTermSets options = [] ->
      Forall (fun rule => insertionCost rule = None) verbRules).
Proof.
  intros H. apply newVerbSet_rules in H.
  destruct H as [forAccepted [forSubstituted [-> [Hacc Hsub]]]].
  assert (Hs : Forall (fun rule => insertionCost rule = None) forSubstituted)
    by (eapply rulesOfSets_noCost; [|exact Hsub]; reflexivity).
  split.
  - intros first others E. rewrite E in Hacc. simpl in Hacc.
    destruct Hacc as [forSet [forRest [-> [Hset Hrest]]]].
    destruct Hset as [rule [rest [-> [Hr [_ [Hc [_ [Hnone _]]]]]]]].
    exists rule, ((rest ++ forRest) ++ forSubstituted).
    split; [now rewrite <- !app_assoc|]. repeat split; auto.
    repeat (apply Forall_app; split); auto.
    eapply (rulesOfSets_noCost _ _ _ 1); [|exact Hrest].
    intros j Hj. destruct j; [lia | reflexivity].
  - intros E. rewrite E in Hacc. simpl in Hacc. subst forAccepted. exact Hs.
Qed.

(** The rules of an accepted verb set show the forms of their own set:
    each has the text object of the set it was made for.  The rules of
    the substituted verb sets all show the first accepted verb set: they
    have its text object, and no text when no verb set is accepted. *)
Theorem newVerbSet_text (options : Options) (verbRules : list VerbRule) :
  newVerbSet options = Ok verbRules ->
  exists forAccepted forSubstituted,
    verbRules = forAccepted ++ forSubstituted
    /\ Forall (fun rule => exists verbTermSet,
                   In verbTermSet (acceptedVerbTermSets options)
                   /\ VerbSet.text rule = Some (verbSetTextForms verbTermSet)
                   /\ In (rhs rule) (forms verbTermSet)) forAccepted
    /\ Forall (fun rule =>
                 VerbSet.text rule
                 = option_map verbSetTextForms
                              (hd_error (acceptedVerbTermSets options))
                 /\ exists verbTermSet,
                     In verbTermSet (substituted options)
                     /\ In (rhs rule) (forms verbTermSet)) forSubstituted.
Proof.
  intros H. apply newVerbSet_rules in H.
  destruct H as [forAccepted [forSubstituted [-> [Hacc Hsub]]]].
  exists forAccepted, forSubstituted. split; [reflexivity|]. split.
  - eapply Forall_impl; [|exact (rulesOfSets_Forall _ _ _ _ _ Hacc)].
    intros rule [set [Hin [_ [Ht [Hf _]]]]]. exists set. auto.
  - eapply Forall_impl; [|exact (rulesOfSets_Forall _ _ _ _ _ Hsub)].
    intros rule [set [Hin [_ [Ht [Hf _]]]]]. split; [exact Ht|]. exists set. auto.
Qed.

(** The rules made for verb sets in turn are those of the sets, set by
    set: a list of rules for each, of one rule to seven, each rule one of
    the set. *)
Lemma rulesOfSets_bySet textFormsOf costOf sets :
  forall i added,
    rulesOfSets textFormsOf costOf i sets added ->
    exists bySet,
      added = List.concat bySet
      /\ Forall2 (fun verbTermSet forSet =>
                    1 <= List.length forSet <= 7
                    /\ Forall (ruleOfSet (textFormsOf verbTermSet) verbTermSet)
                              forSet)
                 sets bySet.
Proof.
  induction sets as [|verbTermSet sets IH]; intros i added; simpl.
  - intros ->. exists []. split; [reflexivity | constructor].
  - intros [forSet [forRest [-> [Hset Hrest]]]].
    destruct (IH _ _ Hrest) as [bySet [-> Hall]].
    exists (forSet :: bySet). split; [reflexivity|].
    constructor; [|exact Hall].
    destruct Hset as [first [rest [-> [_ [_ [_ [Hlen [_ H]]]]]]]].
    split; [simpl; lia | exact H].
Qed.

(** Every rule of a verb set is terminal; a rule has the tense [past]
    only when its symbol is the past form or the past participle of its
    verb set; and each verb set has given the symbol at least one rule
    and at most seven: the rules of the symbol are those of the accepted
    verb sets and then of the substituted ones, set by set in their
    order, and the rules of a set are rules for forms of that set. *)
Theorem newVerbSet_rules_made (options : Options) (verbRules : list VerbRule) :
  newVerbSet options = Ok verbRules ->
  exists bySet,
    verbRules = List.concat bySet
    /\ Forall2 (fun verbTermSet forSet =>
                  1 <= List.length forSet <= 7
                  /\ Forall (fun rule =>
                               isTerminal rule = true
                               /\ In (rhs rule) (forms verbTermSet)
                               /\ (tense rule = None
                                   \/ tense rule = Some "past"
                                      /\ (given (past verbTermSet) = true
                                          /\ rhs rule = formOf (past verbTermSet)
                                          \/ given (pastParticiple verbTermSet)
                                             = true
                                             /\ rhs rule
                                                = formOf
                                                    (pastParticiple verbTermSet))))
                            forSet)
               (acceptedVerbTermSets options ++ substituted options) bySet.
Proof.
  intros H. apply newVerbSet_rules in H.
  destruct H as [forAccepted [forSubstituted [-> [Hacc Hsub]]]].
  apply rulesOfSets_bySet in Hacc. destruct Hacc as [byAccepted [-> Hacc]].
  apply rulesOfSets_bySet in Hsub. destruct Hsub as [bySubstituted [-> Hsub]].
  exists (byAccepted ++ bySubstituted). split; [now rewrite List.concat_app|].
  apply Forall2_app;
    [eapply Forall2_impl; [|exact Hacc] | eapply Forall2_impl; [|exact Hsub]];
    intros verbTermSet forSet [Hlen Hall]; (split; [exact Hlen|]);
    (eapply Forall_impl; [|exact Hall]);
    intros rule [Hterm [_ [Hform Htense]]]; auto.
Qed.

End VerbSetMore.
(** ** The checks of terminal rule sets *)

Module TerminalRuleSetsFacts.
Import VerbSet VerbSetSpec VerbRulesSpec TerminalRuleSets TerminalRuleSetsSpec
       VerbSetMore.

Lemma fails_printed options paramName sym terminalRule description :
  get options paramName = Some sym ->
  fails (printTerminalRuleSetErr options paramName terminalRule description)
  = Returns false (errorLogged options paramName sym terminalRule description).
Proof. intros H. unfold printTerminalRuleSetErr. now rewrite H. Qed.

(** [isVerb] and [isPresentVerb] look at the first rule of the symbol
    only.  They throw in the same cases: the option is missing, the
    symbol has no rule, or the first rule has no text.  They never both
    return [true].  When the text of the first rule is an object with the
    three present forms, exactly one of them returns [true], [isVerb]
    when the object has a past form, and the other returns [false],
    having logged the error of that rule and then the options object;
    when it is not, both log that it is no verb, and the options object,
    and return [false]. *)
Theorem isVerb_or_isPresentVerb (options : obj NSymbol) (paramName : string) :
  (isVerb options paramName = TypeError
   <-> isPresentVerb options paramName = TypeError)
  /\ (isVerb options paramName = TypeError
      <-> match get options paramName with
          | None => True
          | Some sym => match rules sym with
                        | [] => True
                        | terminalRule :: _ => text terminalRule = None
                        end
          end)
  /\ (forall loggedA loggedB,
         ~ (isVerb options paramName = Returns true loggedA
            /\ isPresentVerb options paramName = Returns true loggedB))
  /\ (forall sym terminalRule others textForms,
         get options paramName = Some sym ->
         rules sym = terminalRule :: others ->
         text terminalRule = Some textForms ->
         if notVerbText textForms then
           isVerb options paramName
           = Returns false
               (errorLogged options paramName sym terminalRule
                            "is not a verb created by `g.newVerbSet()`")
           /\ isPresentVerb options paramName
              = Returns false
                  (errorLogged options paramName sym terminalRule
                               "is not a verb created by `g.newVerbSet()`")
         else if given (pastOf textForms) then
           isVerb options paramName = Returns true []
           /\ isPresentVerb options paramName
              = Returns false
                  (errorLogged options paramName sym terminalRule
                               "has past tense inflection")
         else
           isVerb options paramName
           = Returns false
               (errorLogged options paramName sym terminalRule
                            "lacks past tense inflection")
           /\ isPresentVerb options paramName = Returns true []).
Proof.
  unfold isVerb, isPresentVerb, baseIsVerb.
  destruct (get options paramName) as [sym|] eqn:Hget.
  2: { split; [tauto|]. split; [tauto|].
       split; [intros ? ? [H _]; discriminate H | discriminate]. }
  destruct (rules sym) as [|terminalRule others] eqn:Hrules.
  { split; [tauto|]. split; [tauto|].
    split; [intros ? ? [H _]; discriminate H|].
    intros ? ? ? ? [= <-]. rewrite Hrules. discriminate. }
  destruct (text terminalRule) as [textForms|] eqn:Htext.
  2: { split; [tauto|]. split; [tauto|].
       split; [intros ? ? [H _]; discriminate H|].
       intros ? ? ? ? [= <-]. rewrite Hrules. intros [= <- <-]. congruence. }
  rewrite !(fails_printed _ _ _ _ _ Hget).
  split; [|split; [|split]].
  - destruct (notVerbText textForms); [split; discriminate|].
    destruct (given (pastOf textForms)); simpl; split; discriminate.
  - destruct (notVerbText textForms); [split; discriminate|].
    destruct (given (pastOf textForms)); simpl; split; discriminate.
  - intros la lb [Ha Hb]. destruct (notVerbText textForms); [discriminate|].
    destruct (given (pastOf textForms)); simpl in *; discriminate.
  - intros sym' rule' others' textForms' [= <-]. rewrite Hrules.
    intros [= <- <-]. rewrite Htext. intros [= <-].
    destruct (notVerbText textForms); [split; reflexivity|].
    destruct (given (pastOf textForms)); simpl; split; reflexivity.
Qed.

Lemma forTerminalRules_spec options paramName sym :
  get options paramName = Some sym ->
  forall terminalRules,
    match forTerminalRules options paramName terminalRules with
    | Returns true logged =>
        logged = []
        /\ Forall (fun rule => exists s, text rule = Some (StringText s))
                  terminalRules
    | Returns false logged =>
        exists before terminalRule after forms,
          terminalRules = before ++ terminalRule :: after
          /\ Forall (fun rule => exists s, text rule = Some (StringText s)) before
          /\ text terminalRule = Some (ObjectText forms)
          /\ logged = errorLogged options paramName sym terminalRule
                                  "has inflections"
    | TypeError =>
        exists before terminalRule after,
          terminalRules = before ++ terminalRule :: after
          /\ Forall (fun rule => exists s, text rule = Some (StringText s)) before
          /\ text terminalRule = None
    end.
Proof.
  intros Hget. induction terminalRules as [|rule terminalRules IH]; simpl.
  - split; [reflexivity | constructor].
  - destruct (text rule) as [[s|forms]|] eqn:Htext.
    + destruct (forTerminalRules options paramName terminalRules)
        as [[|] logged|].
      * destruct IH as [-> IH]. split; [reflexivity|]. constructor; eauto.
      * destruct IH as [before [r [after [forms [-> [Hb [Hr Hl]]]]]]].
        exists (rule :: before), r, after, forms. repeat split; auto.
        constructor; eauto.
      * destruct IH as [before [r [after [-> [Hb Hr]]]]].
        exists (rule :: before), r, after. repeat split; auto.
        constructor; eauto.
    + rewrite (fails_printed _ _ _ _ _ Hget).
      exists [], rule, terminalRules, forms. repeat split; auto.
    + exists [], rule, terminalRules. repeat split; auto.
Qed.

(** [isInvariableTerm] returns [true] exactly when every rule of the
    symbol has a string for its text, so for a symbol without rules; it
    stops at the first rule that has none: when the text is an object it
    logs the error [has inflections] with that text, and then the options
    object, and returns [false]; and when the rule has no text, or the
    option is missing, it throws a [TypeError]. *)
Theorem isInvariableTerm_first_other (options : obj NSymbol) (paramName : string) :
  match isInvariableTerm options paramName with
  | Returns true logged =>
      logged = []
      /\ exists sym,
          get options paramName = Some sym
          /\ Forall (fun rule => exists s, text rule = Some (StringText s))
                    (rules sym)
  | Returns false logged =>
      exists sym before terminalRule after forms,
        get options paramName = Some sym
        /\ rules sym = before ++ terminalRule :: after
        /\ Forall (fun rule => exists s, text rule = Some (StringText s)) before
        /\ text terminalRule = Some (ObjectText forms)
        /\ logged = errorLogged options paramName sym terminalRule
                                "has inflections"
  | TypeError =>
      get options paramName = None
      \/ exists sym before terminalRule after,
          get options paramName = Some sym
          /\ rules sym = before ++ terminalRule :: after
          /\ Forall (fun rule => exists s, text rule = Some (StringText s)) before
          /\ text terminalRule = None
  end.
Proof.
  unfold isInvariableTerm.
  destruct (get options paramName) as [sym|] eqn:Hget; [|now left].
  pose proof (forTerminalRules_spec options paramName sym Hget (rules sym)) as H.
  destruct (forTerminalRules options paramName (rules sym)) as [[|] logged|].
  - destruct H as [-> H]. split; [reflexivity|]. now exists sym.
  - destruct H as [before [r [after [forms H]]]]. now exists sym, before, r, after, forms.
  - destruct H as [before [r [after H]]]. right. now exists sym, before, r, after.
Qed.

(** The symbol [newVerbSet] returns passes the checks made for it: with
    the three present forms of the first accepted verb set not empty,
    [isVerb] returns [true] when that set has a past form and
    [isPresentVerb] when it has none, the other of the two returning
    [false]; and [isInvariableTerm] returns [false], having logged the
    error [has inflections] of the first rule, with the text object of
    that verb set, and then the options object. *)
Theorem newVerbSet_isVerb (options : Options) (verbRules : list VerbRule)
    (first : VerbTermSet) (others : list VerbTermSet) (paramName : string) :
  newVerbSet options = Ok verbRules ->
  acceptedVerbTermSets options = first :: others ->
  truthy (oneSg first) = true ->
  truthy (threeSg first) = true ->
  truthy (pl first) = true ->
  let sym := verbSymbol (symbolName options) verbRules in
  let checked := [(paramName, sym)] in
  (exists logged,
      isVerb checked paramName = Returns (given (past first)) logged)
  /\ (exists logged,
         isPresentVerb checked paramName
         = Returns (negb (given (past first))) logged)
  /\ isInvariableTerm checked paramName
     = Returns false
         [LogError ("'" ++ paramName ++ "' has inflections:")%string
                   (symbolName options)
                   (Some (ObjectText (verbSetTextForms first)));
          LogPathAndObject checked].
Proof.
  intros Hnew Hacc H1 H2 H3 sym checked.
  apply newVerbSet_rules in Hnew.
  destruct Hnew as [forAccepted [forSubstituted [-> [Hrules _]]]].
  rewrite Hacc in Hrules. simpl in Hrules.
  destruct Hrules as [forSet [forRest [-> [Hset _]]]].
  destruct Hset as [rule [rest [-> [_ [_ [_ [_ [_ Hall]]]]]]]].
  inversion Hall as [|? ? [_ [Htext _]] _]; subst.
  assert (Hget : get checked paramName = Some sym).
  { unfold checked. simpl. now rewrite String.eqb_refl. }
  unfold isVerb, isPresentVerb, isInvariableTerm, baseIsVerb.
  rewrite Hget. unfold sym at 1 2 3. simpl. rewrite Htext. simpl.
  rewrite H1, H2, H3. simpl.
  rewrite !(fails_printed _ _ _ _ _ Hget).
  destruct (given (past first)); simpl; repeat split; eauto.
Qed.

End TerminalRuleSetsFacts.

(** ** The toggles of the command line *)

Module CLIFacts.
Import CLI.

Lemma parserPath_after queries :
  forall st,
    parserPath st = parserNewPath \/ parserPath st = parserOldPath ->
    let st' := fold_left (fun st query => snd (fst (parseCommand query st)))
                         queries st in
    parserPath st' = parserNewPath \/ parserPath st' = parserOldPath.
Proof.
  induction queries as [|query queries IH]; intros st Hst; simpl; [exact Hst|].
  apply IH. unfold parseCommand.
  repeat match goal with
         | |- context [if String.eqb query ?s then _ else _] =>
             destruct (String.eqb query s)
         end; simpl; auto.
  destruct (String.eqb (parserPath st) parserNewPath); auto.
Qed.

(** [parseCommand] knows six commands and returns [false] on any other
    query, with nothing changed and nothing printed.  [-h] changes
    nothing either.  Each of the other five is its own inverse: after
    any commands, the same command given twice leaves every variable as
    it was, the parser path included, which is always one of the two
    paths. *)
Theorem parseCommand_toggles :
  (forall query st,
      fst (fst (parseCommand query st)) = true
      <-> In query ["-t"; "-s"; "-f"; "-g"; "-p"; "-h"])
  /\ (forall query st,
         fst (fst (parseCommand query st)) = false ->
         parseCommand query st = (false, st, []))
  /\ (forall st, snd (fst (parseCommand "-h" st)) = st)
  /\ (forall queries query,
         let st := after queries in
         snd (fst (parseCommand query (snd (fst (parseCommand query st))))) = st
         /\ (parserPath st = parserNewPath \/ parserPath st = parserOldPath)).
Proof.
  split; [|split; [|split]].
  - intros query st. unfold parseCommand. simpl.
    repeat match goal with
           | |- context [if String.eqb query ?s then _ else _] =>
               destruct (String.eqb_spec query s) as [->|?]
           end; simpl; intuition (try discriminate; try congruence).
  - intros query st. unfold parseCommand.
    repeat match goal with
           | |- context [if String.eqb query ?s then _ else _] =>
               destruct (String.eqb query s)
           end; simpl; try discriminate. reflexivity.
  - reflexivity.
  - intros queries query st.
    assert (Hpath : parserPath st = parserNewPath \/ parserPath st = parserOldPath).
    { unfold st, after. apply parserPath_after. now left. }
    split; [|exact Hpath]. clearbody st. destruct st as [t s f g p].
    simpl in Hpath. unfold parseCommand.
    repeat match goal with
           | |- context [if String.eqb query ?s then _ else _] =>
               destruct (String.eqb query s) eqn:?
           end; simpl; rewrite ?negb_involutive; try reflexivity.
    destruct Hpath as [-> | ->]; reflexivity.
Qed.

End CLIFacts.
(** ** How a grammar grows, and the rules of a category *)

Module GrowthFacts.
Import SymbolJs SymbolSpec GrammarSpec GrowthSpec CategoryJs CategorySpec SymbolFacts
       GrammarMore.

Lemma extends_refl g : extends g g.
Proof. intros sym rules H. exists []. now rewrite app_nil_r. Qed.

Lemma extends_trans g1 g2 g3 : extends g1 g2 -> extends g2 g3 -> extends g1 g3.
Proof.
  intros H12 H23 sym rules H.
  destruct (H12 _ _ H) as [more H2]. destruct (H23 _ _ H2) as [more' H3].
  exists (more ++ more'). now rewrite app_assoc.
Qed.

Lemma extends_hasOwnProperty g g' sym :
  extends g g' -> hasOwnProperty g sym = true -> hasOwnProperty g' sym = true.
Proof.
  unfold hasOwnProperty. intros H.
  destruct (get g sym) as [rules|] eqn:E; [|discriminate].
  destruct (H _ _ E) as [more ->]. reflexivity.
Qed.

Lemma extends_set_fresh g sym rules :
  hasOwnProperty g sym = false -> extends g (set g sym rules).
Proof.
  intros Hfresh k old Hk. exists []. rewrite app_nil_r.
  rewrite get_set_other; [exact Hk|].
  intros ->. unfold hasOwnProperty in Hfresh. now rewrite Hk in Hfresh.
Qed.

Lemma grows_ret {A} (a : A) : grows (ret a).
Proof. intros g. apply extends_refl. Qed.

Lemma grows_throw {A} logged thrown : grows (@throw A logged thrown).
Proof. intros g. apply extends_refl. Qed.

Lemma grows_bind {A B} (m : M A) (k : A -> M B) :
  grows m -> (forall a, grows (k a)) -> grows (bind m k).
Proof.
  intros Hm Hk g. unfold bind. specialize (Hm g).
  destruct (m g) as [[e|a] g1]; simpl in *; [exact Hm|].
  eapply extends_trans; [exact Hm | apply Hk].
Qed.

Lemma grows_Symbol chunks : grows (Symbol chunks).
Proof.
  intros g. rewrite Symbol_spec.
  destruct (existsb isUndefined chunks); [apply extends_refl|].
  destruct (hasOwnProperty g _) eqn:E; [apply extends_refl|].
  now apply extends_set_fresh.
Qed.

Lemma grows_addRule this opts : grows (addRule this opts).
Proof.
  intros g. pose proof (addRule_steps this opts g) as H.
  destruct (addRule this opts g) as [[e|[]] g']; simpl.
  - subst. apply extends_refl.
  - destruct H as [rule [-> _]]. intros sym rules Hget.
    destruct (String.eqb_spec sym (name this)) as [->|Hne].
    + rewrite get_set_same. unfold rulesIn. rewrite Hget. now exists [rule].
    + rewrite get_set_other by exact Hne. exists []. now rewrite app_nil_r.
Qed.

Lemma Symbol_again chunks g this g1 g2 :
  Symbol chunks g = (inr this, g1) -> extends g1 g2 ->
  Symbol chunks g2 = (inl duplicateSymbol, g2).
Proof.
  rewrite !Symbol_spec.
  destruct (existsb isUndefined chunks); [discriminate|].
  destruct (hasOwnProperty g _); [discriminate|].
  intros [= _ <-] Hext.
  rewrite (extends_hasOwnProperty _ g2 _ Hext); [reflexivity|].
  unfold hasOwnProperty. now rewrite get_set_same.
Qed.

(** Symbols and rules are only ever added.  A call of [new Symbol] or of
    [addRule], whether it returns or throws, leaves every symbol the
    grammar had, with the rules it had in their order and at most more
    rules after them.  So a symbol that was made cannot be made again:
    in any grammar that has grown from the one the constructor left, the
    same call throws [duplicate Symbol] and changes nothing. *)
Theorem grammar_only_grows :
  (forall chunks grammar, extends grammar (snd (Symbol chunks grammar)))
  /\ (forall this opts grammar, extends grammar (snd (addRule this opts grammar)))
  /\ (forall grammar1 grammar2 grammar3,
         extends grammar1 grammar2 -> extends grammar2 grammar3 ->
         extends grammar1 grammar3)
  /\ (forall chunks grammar this grammar1 grammar2,
         Symbol chunks grammar = (inr this, grammar1) ->
         extends grammar1 grammar2 ->
         Symbol chunks grammar2 = (inl duplicateSymbol, grammar2)).
Proof.
  split; [exact grows_Symbol|]. split; [exact grows_addRule|].
  split; [exact extends_trans | exact Symbol_again].
Qed.

(** *** [Category] *)

Ltac grow :=
  repeat first
    [ apply grows_ret
    | apply grows_Symbol
    | apply grows_addRule
    | apply grows_bind; [|intros ?]
    | match goal with
      | |- grows (if ?c then _ else _) => destruct c
      end ].

Lemma grows_mayPoss catOpts lhs head : grows (mayPoss catOpts lhs head).
Proof. unfold mayPoss. grow. Qed.

Lemma grows_entitySymbol catOpts catPl : grows (entitySymbol catOpts catPl).
Proof. unfold entitySymbol. grow. Qed.

Lemma grows_plusSymbols required catOpts catPl :
  grows (plusSymbols required catOpts catPl).
Proof. unfold plusSymbols. grow. Qed.

Lemma grows_Category required start catOpts :
  grows (Category required start catOpts).
Proof.
  unfold Category. cbv zeta.
  repeat first
    [ apply grows_ret
    | apply grows_Symbol
    | apply grows_addRule
    | apply grows_mayPoss
    | apply grows_entitySymbol
    | apply grows_plusSymbols
    | apply grows_bind; [|intros ?]
    | match goal with
      | |- grows (if ?c then _ else _) => destruct c
      end ].
Qed.

Lemma bind_inr {A B} (m : M A) (k : A -> M B) g b g' :
  bind m k g = (inr b, g') ->
  exists a g1, m g = (inr a, g1) /\ k a g1 = (inr b, g').
Proof.
  unfold bind. destruct (m g) as [[e|a] g1]; [discriminate|]. eauto.
Qed.

Lemma bind_inl {A B} (m : M A) (k : A -> M B) g e g' :
  m g = (inl e, g') -> bind m k g = (inl e, g').
Proof. unfold bind. now intros ->. Qed.

(** [Category] only adds to the grammar, whether it returns or throws;
    and it can be made once for a name: after [Category] has returned,
    in any grammar grown from the one it left, [Category] for the same
    [sg] throws [duplicate Symbol], at the first symbol it makes, and
    changes nothing. *)
Theorem Category_once (required : Required) (start : SymbolObj)
                      (catOpts : CatOpts) :
  (forall grammar,
      extends grammar (snd (Category required start catOpts grammar)))
  /\ (forall grammar made grammar1 grammar2 required' start' catOpts',
         Category required start catOpts grammar = (inr made, grammar1) ->
         extends grammar1 grammar2 ->
         sg catOpts' = sg catOpts ->
         Category required' start' catOpts' grammar2
         = (inl duplicateSymbol, grammar2)).
Proof.
  split; [exact (grows_Category required start catOpts)|].
  intros g made g1 g2 required' start' catOpts' Hmade Hext Hsg.
  unfold Category in Hmade. cbv zeta in Hmade.
  apply bind_inr in Hmade. destruct Hmade as [lhsSym [ga [Hsym Hrest]]].
  assert (Hgrow : extends ga g1).
  { match type of Hrest with
    | ?m ga = _ =>
        assert (Hm : grows m)
          by (repeat first
                [ apply grows_ret
                | apply grows_Symbol
                | apply grows_addRule
                | apply grows_mayPoss
                | apply grows_entitySymbol
                | apply grows_plusSymbols
                | apply grows_bind; [|intros ?]
                | match goal with
                  | |- grows (if ?c then _ else _) => destruct c
                  end ]);
        specialize (Hm ga); rewrite Hrest in Hm; exact Hm
    end. }
  unfold Category. cbv zeta. apply bind_inl. rewrite Hsg.
  eapply Symbol_again; [exact Hsym|].
  eapply extends_trans; eassumption.
Qed.

(** *** What [Category] leaves as it was *)

Section Frame.
Variable grammar0 : Grammar.
Variable start : string.
Hypothesis start_registered : hasOwnProperty grammar0 start = true.

Lemma framed_refl : framed grammar0 start grammar0.
Proof. intros sym H. auto. Qed.

Lemma framed_set_fresh g sym rules :
  framed grammar0 start g ->
  hasOwnProperty grammar0 sym = false ->
  framed grammar0 start (set g sym rules)
  /\ get (set g sym rules) start = get g start.
Proof.
  intros Hf Hfresh.
  assert (Hne : forall k, hasOwnProperty grammar0 k = true -> k <> sym)
    by (intros k Hk ->; congruence).
  split.
  - intros k Hk. destruct (Hf k Hk) as [Hin Hsame]. split.
    + apply hasOwnProperty_set. now right.
    + intros Hks. rewrite get_set_other by (apply Hne; exact Hk). auto.
  - apply get_set_other. apply Hne. exact start_registered.
Qed.

Lemma leads_conseq {A} (m : M A) (post post' : A -> Grammar -> Prop) :
  leads grammar0 start m post ->
  (forall a g, post a g -> post' a g) ->
  leads grammar0 start m post'.
Proof.
  intros Hm Himp g Hf Hs. specialize (Hm g Hf Hs).
  destruct (m g) as [[e|a] g']; auto.
Qed.

Lemma leads_ret {A} (a : A) (holds : A -> Prop) :
  holds a -> leads grammar0 start (ret a) (kept grammar0 start holds).
Proof. intros Ha g Hf Hs. cbn. split; [exact Hf|]. split; [exact Hs | exact Ha]. Qed.

Lemma leads_bind {A B} (m : M A) (k : A -> M B) (holds : A -> Prop)
      (post : B -> Grammar -> Prop) :
  leads grammar0 start m (kept grammar0 start holds) ->
  (forall a, holds a -> leads grammar0 start (k a) post) ->
  leads grammar0 start (bind m k) post.
Proof.
  intros Hm Hk g Hf Hs. unfold bind. specialize (Hm g Hf Hs).
  destruct (m g) as [[e|a] g1]; [exact I|].
  destruct Hm as [Hf1 [Hs1 Ha]]. exact (Hk a Ha g1 Hf1 Hs1).
Qed.

Lemma kept_Symbol chunks :
  leads grammar0 start (Symbol chunks)
        (kept grammar0 start (fresh grammar0 chunks)).
Proof.
  intros g Hf Hs. rewrite Symbol_spec. cbv zeta.
  destruct (existsb isUndefined chunks); [exact I|].
  destruct (hasOwnProperty g _) eqn:E; [exact I|].
  assert (Hfresh : hasOwnProperty grammar0 ("[" ++ join "-" chunks ++ "]") = false).
  { destruct (hasOwnProperty grammar0 ("[" ++ join "-" chunks ++ "]")) eqn:E0;
      [|reflexivity].
    destruct (Hf _ E0) as [Hin _]. congruence. }
  destruct (framed_set_fresh g _ [] Hf Hfresh) as [Hf' Hs'].
  unfold kept, fresh. cbn [name].
  split; [exact Hf'|]. split; [congruence|]. split; [exact Hfresh | reflexivity].
Qed.

Lemma kept_addRule this opts :
  hasOwnProperty grammar0 (name this) = false ->
  leads grammar0 start (addRule this opts)
        (kept grammar0 start (fun _ => True)).
Proof.
  intros Hfresh g Hf Hs. pose proof (addRule_steps this opts g) as H.
  destruct (addRule this opts g) as [[e|[]] g']; [exact I|].
  destruct H as [rule [-> _]].
  destruct (framed_set_fresh g _ (rulesIn g this ++ [rule]) Hf Hfresh)
    as [Hf' Hs'].
  unfold kept. split; [exact Hf'|]. split; [congruence | exact I].
Qed.

Lemma kept_weaken {A} (m : M A) (holds holds' : A -> Prop) :
  leads grammar0 start m (kept grammar0 start holds) ->
  (forall a, holds a -> holds' a) ->
  leads grammar0 start m (kept grammar0 start holds').
Proof.
  intros Hm Himp. eapply leads_conseq; [exact Hm|].
  intros a g [Hf [Hs Ha]]. split; [exact Hf|]. split; [exact Hs | auto].
Qed.

(** The last step of [Category]: the rule added to [start]. *)
Lemma leads_start {A} startSym syms (a : A) :
  name startSym = start ->
  leads grammar0 start
        (bind (addRule startSym (nontermRHS syms)) (fun _ => ret a))
        (fun a' g' =>
           a' = a
           /\ framed grammar0 start g'
           /\ exists rule,
               get g' start = Some (rulesIn grammar0 startSym ++ [rule])
               /\ terminal rule = false
               /\ RHS rule = map name syms).
Proof.
  intros Hname g Hf Hs. unfold bind.
  pose proof (addRule_steps startSym (nontermRHS syms) g) as H.
  destruct (addRule startSym (nontermRHS syms) g) as [[e|[]] g']; [exact I|].
  destruct H as [rule [-> [Hterm [_ [_ [Hrhs _]]]]]].
  cbn [ret]. split; [reflexivity|]. split.
  - intros k Hk. destruct (Hf k Hk) as [Hin Hsame]. split.
    + apply hasOwnProperty_set. now right.
    + intros Hne. rewrite get_set_other by (rewrite Hname; exact Hne). auto.
  - exists rule. rewrite Hname, get_set_same.
    assert (E : rulesIn g startSym = rulesIn grammar0 startSym)
      by (unfold rulesIn; rewrite Hname, Hs; reflexivity).
    rewrite E. split; [reflexivity|]. split; [exact Hterm|].
    exact (Hrhs Hterm).
Qed.

Ltac walk :=
  repeat first
    [ apply leads_ret; exact I
    | apply kept_addRule; assumption
    | eapply leads_bind; [apply kept_Symbol | intros ? [? ?]]
    | eapply leads_bind; [apply kept_addRule; assumption | intros _ _]
    | match goal with
      | |- leads _ _ (if ?c then _ else _) _ => destruct c
      | |- leads _ _ (bind (if ?c then _ else _) _) _ => destruct c
      end ].

Lemma kept_mayPoss catOpts lhs head :
  hasOwnProperty grammar0 (name head) = false ->
  leads grammar0 start (mayPoss catOpts lhs head)
        (kept grammar0 start (fun _ => True)).
Proof. intros Hhead. unfold mayPoss. walk. Qed.

Lemma kept_entitySymbol catOpts catPl :
  hasOwnProperty grammar0 (name catPl) = false ->
  leads grammar0 start (entitySymbol catOpts catPl)
        (kept grammar0 start (fun _ => True)).
Proof. intros Hpl. unfold entitySymbol. walk. Qed.

Lemma kept_plusSymbols required catOpts catPl :
  leads grammar0 start (plusSymbols required catOpts catPl)
        (kept grammar0 start (fun _ => True)).
Proof. unfold plusSymbols. walk. Qed.

Lemma leads_Category required startSym catOpts :
  name startSym = start ->
  leads grammar0 start (Category required startSym catOpts)
        (fun made g' =>
           framed grammar0 start g'
           /\ fresh grammar0 [part (pl catOpts)] (catPl made)
           /\ exists rule,
               get g' start = Some (rulesIn grammar0 startSym ++ [rule])
               /\ terminal rule = false
               /\ RHS rule = [name (catPl made)]).
Proof.
  intros Hname. unfold Category. cbv zeta.
  repeat first
    [ eapply leads_bind; [apply kept_Symbol | intros ? [? ?]]
    | eapply leads_bind; [apply kept_addRule; assumption | intros _ _]
    | eapply leads_bind; [apply kept_mayPoss; assumption | intros ? _]
    | eapply leads_bind; [apply kept_entitySymbol; assumption | intros ? _]
    | eapply leads_bind; [apply kept_plusSymbols | intros ? _]
    | eapply leads_bind;
      [ match goal with
        | |- leads _ _ (if ?c then _ else _) _ =>
            destruct c; apply kept_addRule; assumption
        end
      | intros _ _ ] ].
  eapply leads_conseq; [apply leads_start; exact Hname|].
  intros made g' [-> [Hf Hrule]]. cbn [catPl].
  split; [exact Hf|]. split; [split; assumption | exact Hrule].
Qed.

End Frame.

(** [Category] touches no symbol it has not made itself, but [start].
    When it returns, on a grammar that has the symbol [start]: every
    symbol the grammar had, but [start], has the rules it had; [start]
    has the rules it had and one more after them, a nonterminal rule
    whose RHS is the one symbol [catPl], which is a new symbol named
    after [catOpts.pl]. *)
Theorem Category_frame (required : Required) (start : SymbolObj)
        (catOpts : CatOpts) (grammar grammar' : Grammar) (made : CategoryObj) :
  hasOwnProperty grammar (name start) = true ->
  Category required start catOpts grammar = (inr made, grammar') ->
  (forall sym, hasOwnProperty grammar sym = true -> sym <> name start ->
               get grammar' sym = get grammar sym)
  /\ (exists rule,
         get grammar' (name start) = Some (rulesIn grammar start ++ [rule])
         /\ terminal rule = false
         /\ RHS rule = [name (catPl made)])
  /\ name (catPl made) = ("[" ++ pl catOpts ++ "]")%string
  /\ hasOwnProperty grammar (name (catPl made)) = false.
Proof.
  intros Hstart Hmade.
  pose proof (leads_Category grammar (name start) Hstart required start catOpts
                             eq_refl grammar
                             (framed_refl grammar (name start)) eq_refl) as H.
  rewrite Hmade in H. destruct H as [Hf [[Hfresh Hname] Hrule]].
  split; [|split; [exact Hrule|split; [|exact Hfresh]]].
  - intros sym Hin Hne. now apply Hf.
  - rewrite Hname. cbn. reflexivity.
Qed.

(** [Category] cannot be made for an entity whose singular and plural
    names are the same: it throws, on every grammar, since [catSg] would
    be the symbol [catPl] again.  And [Category] does not undo what it
    has done when it throws: the grammar it leaves has the symbols the
    grammar had, with their rules, and the symbol [lhs] of the category
    besides. *)
Theorem Category_same_name (required : Required) (start : SymbolObj)
        (catOpts : CatOpts) (grammar : Grammar) :
  entity catOpts = true ->
  pl catOpts = sg catOpts ->
  exists e grammar',
    Category required start catOpts grammar = (inl e, grammar')
    /\ extends grammar grammar'
    /\ hasOwnProperty grammar'
         ("[" ++ join "-" [part (sg catOpts); part "lhs"] ++ "]") = true.
Proof.
  intros Hentity Hsame.
  destruct (Category required start catOpts grammar) as [[e|made] g'] eqn:E.
  - exists e, g'. split; [reflexivity|]. split.
    { pose proof (grows_Category required start catOpts grammar) as H.
      now rewrite E in H. }
    unfold Category in E. cbv zeta in E.
    pose proof (Symbol_spec [part (sg catOpts); part "lhs"] grammar) as Hsym.
    cbv zeta in Hsym. cbn [existsb isUndefined orb] in Hsym.
    destruct (hasOwnProperty grammar
                ("[" ++ join "-" [part (sg catOpts); part "lhs"] ++ "]"))
      eqn:Hhad.
    + rewrite (bind_inl _ _ _ _ _ Hsym) in E. injection E as _ <-. exact Hhad.
    + rewrite (bind_returns Hsym) in E.
      match type of E with
      | ?m ?ga = _ =>
          assert (Hm : grows m)
            by (repeat first
                  [ apply grows_ret
                  | apply grows_Symbol
                  | apply grows_addRule
                  | apply grows_mayPoss
                  | apply grows_entitySymbol
                  | apply grows_plusSymbols
                  | apply grows_bind; [|intros ?]
                  | match goal with
                    | |- grows (if ?c then _ else _) => destruct c
                    end ]);
          specialize (Hm ga); rewrite E in Hm
      end.
      eapply extends_hasOwnProperty; [exact Hm|].
      unfold hasOwnProperty. now rewrite get_set_same.
  - exfalso. unfold Category in E. cbv zeta in E.
    repeat (apply bind_inr in E; destruct E as [? [? [? E]]]; cbv beta in E).
    match goal with
    | Hc : Symbol [part (pl catOpts)] _ = (inr ?c, ?g1),
      Ha : addRule ?c ?o ?g1 = (inr _, ?g2),
      He : entitySymbol catOpts ?c ?g2 = (inr _, _) |- _ =>
        unfold entitySymbol in He; rewrite Hentity in He;
        apply bind_inr in He; destruct He as [? [? [He _]]];
        rewrite Hsame in Hc;
        pose proof (grows_addRule c o g1) as Hg; rewrite Ha in Hg;
        cbn [snd] in Hg;
        rewrite (Symbol_again _ _ _ _ _ Hc Hg) in He; discriminate
    end.
Qed.

(** *** The grammar of a category is one that is built *)

Lemma builds_ret {A} known (a : A) : builds known (ret a).
Proof. intros g Hc _. split; [exact Hc | apply extends_refl]. Qed.

Lemma builds_bind {A B} known (m : M A) (k : A -> M B) :
  builds known m -> (forall a, builds known (k a)) -> builds known (bind m k).
Proof.
  intros Hm Hk g Hc Hknown. unfold bind.
  destruct (Hm g Hc Hknown) as [Hc1 He1].
  destruct (m g) as [[e|a] g1]; cbn [snd] in *; [now split|].
  destruct (Hk a g1 Hc1) as [Hc2 He2].
  - intros sym Hin. eapply extends_hasOwnProperty; eauto.
  - split; [exact Hc2 | eapply extends_trans; eassumption].
Qed.

Lemma Symbol_throws_same chunks g e g' :
  Symbol chunks g = (inl e, g') -> g' = g.
Proof.
  rewrite Symbol_spec. cbv zeta.
  destruct (existsb isUndefined chunks); [now intros [= _ <-]|].
  destruct (hasOwnProperty g _); [now intros [= _ <-] | discriminate].
Qed.

Lemma builds_Symbol {A} known chunks (k : SymbolObj -> M A) :
  (forall this, builds (name this :: known) (k this)) ->
  builds known (bind (Symbol chunks) k).
Proof.
  intros Hk g Hc Hknown. unfold bind.
  pose proof (grows_Symbol chunks g) as He1.
  destruct (Symbol chunks g) as [[e|this] g1] eqn:E; cbn [snd] in *.
  - apply Symbol_throws_same in E. subst g1. now split.
  - destruct (Symbol_made _ _ _ _ E) as [Hset _].
    destruct (Hk this g1) as [Hc2 He2].
    + econstructor 2; eassumption.
    + intros sym [<-|Hin].
      * rewrite Hset. unfold hasOwnProperty. now rewrite get_set_same.
      * eapply extends_hasOwnProperty; eauto.
    + split; [exact Hc2 | eapply extends_trans; eassumption].
Qed.

Lemma builds_addRule known this opts :
  In (name this) known ->
  Forall (fun sym => In (name sym) known) (rhsSymbols (oRHS opts)) ->
  builds known (addRule this opts).
Proof.
  intros Hthis Hrhs g Hc Hknown.
  pose proof (grows_addRule this opts g) as He.
  split; [|exact He].
  pose proof (addRule_steps this opts g) as H.
  destruct (addRule this opts g) as [[e|[]] g'] eqn:E; cbn [snd].
  - now subst g'.
  - apply (constructed_addRule this opts g g' Hc); auto.
    intros sym Hin. apply Hknown.
    exact (proj1 (Forall_forall _ _) Hrhs sym Hin).
Qed.

Ltac known :=
  first [ solve [repeat first [left; reflexivity | right]]
        | match goal with
          | |- context [if ?c then _ else _] =>
              destruct c; solve [repeat first [left; reflexivity | right]]
          end ].

Ltac build :=
  repeat first
    [ apply builds_ret
    | apply builds_Symbol; intros ?
    | apply builds_addRule;
      [known | repeat (apply Forall_cons; [known|]); apply Forall_nil]
    | apply builds_bind; [|intros ?]
    | match goal with
      | |- builds _ (if ?c then _ else _) => destruct c
      end ].

Lemma builds_Category required start catOpts :
  builds (name start :: map name (requiredSymbols required))
         (Category required start catOpts).
Proof.
  unfold Category, mayPoss, entitySymbol, plusSymbols.
  cbv zeta. cbn [map requiredSymbols].
  build.
Qed.

(** The grammar [Category] leaves is again one that is built, when the
    grammar was and has [start] and the symbols of the modules required:
    whether [Category] returns or throws, every rule it has added is on
    a symbol of the grammar and has only symbols of the grammar on its
    RHS. *)
Theorem Category_constructed (required : Required) (start : SymbolObj)
        (catOpts : CatOpts) (grammar : Grammar) :
  constructed grammar ->
  hasOwnProperty grammar (name start) = true ->
  (forall sym, In sym (requiredSymbols required) ->
               hasOwnProperty grammar (name sym) = true) ->
  constructed (snd (Category required start catOpts grammar))
  /\ DetectorSpec.closedGrammar (snd (Category required start catOpts grammar)).
Proof.
  intros Hc Hstart Hreq.
  assert (H : constructed (snd (Category required start catOpts grammar))).
  { apply (builds_Category required start catOpts grammar Hc).
    intros sym [<-|Hin]; [exact Hstart|].
    apply in_map_iff in Hin. destruct Hin as [s [<- Hs]]. now apply Hreq. }
  split; [exact H | now apply constructed_closed].
Qed.

End GrowthFacts.
(** ** The further properties on the examples *)

Module MoreFacts.
Import SymbolJs SymbolSpec GrammarSpec AmbiguityCheck DetectorSpec TreeSpec
       PathSpec FindSpec Examples MoreExamples.
Import PathMore FindMore GrammarMore VerbSetMore TerminalRuleSetsFacts.

Lemma pathIn_binary_SABx : pathIn binaryPathTab pathSABx.
Proof.
  exists [("", [pathSAB]); (" x", [pathSABx]); (" x y", [pathSABxy])],
         " x", [pathSABx].
  simpl. auto 6.
Defined.

(** The tree of [S -> A B -> "x" B]: its leaves are ["x"] and [B], its
    nodes the four symbols the path has counted. *)
Lemma path_tree_witness :
  exists tree terminalSyms,
    rulesToTree "[S]" (listToArray pathSABx) = Done tree
    /\ fringe tree = terminalSyms ++ pending pathSABx
    /\ spell terminalSyms = terminals pathSABx
    /\ size tree = symsCount pathSABx.
Proof.
  exact (path_tree binaryGrammar (options 14 false false) "[S]" binaryPathTab
           pathSABx eq_refl eq_refl eq_refl pathIn_binary_SABx).
Defined.

Lemma symsCount_bound_witness :
  symsCount pathSABx <= Nat.max 5 (symsLimit (options 14 false false) + 1)
  /\ (prev pathSABx = None -> symsCount pathSABx <= 3).
Proof.
  exact (symsCount_bound binaryGrammar (options 14 false false) "[S]"
           binaryPathTab pathSABx eq_refl eq_refl pathIn_binary_SABx).
Defined.

Lemma dangling_root_rules :
  List.length
    (initPaths [nonterminalRule ["[A]"]; nonterminalRule ["[B]"]]) <> 1.
Proof. discriminate. Defined.

Lemma missing_symbol_throws_witness :
  searchPaths danglingGrammar (options 14 false false) "[S]"
  = ([], Thrown TypeError)
  /\ pathTabOf danglingGrammar (options 14 false false) "[S]" = Throw TypeError.
Proof.
  exact (proj1 (missing_symbol_throws danglingGrammar (options 14 false false)
                  "[S]"
                  [nonterminalRule ["[A]"]; nonterminalRule ["[B]"]]
                  (nonterminalRule ["[B]"]) "[B]"
                  eq_refl dangling_root_rules (or_intror (or_introl eq_refl))
                  eq_refl eq_refl eq_refl eq_refl)
               eq_refl).
Defined.

(** Under [toString] the grammar inherits a function without parameters:
    the rule that begins with it is not expanded, its path staying alone
    in its set, and the search of its symbol ends without an error. *)
Lemma inherited_symbol_not_expanded :
  searchPaths inheritingGrammar (options 14 false false) "[S]" = ([], Next)
  /\ exists paths,
      pathTabOf inheritingGrammar (options 14 false false) "[S]"
      = Done [paths; [("", [rootPath (nonterminalRule ["toString"])])]].
Proof. split; [reflexivity | eexists; reflexivity]. Qed.

Lemma noOutput_quiet_witness :
  snd (ambiguityCheck [] directGrammar (quietOptions 14)) = Next
  /\ (forall treeA treeB,
         ~ In (Ambiguity treeA treeB)
              (fst (ambiguityCheck [] directGrammar (quietOptions 14))))
  /\ (useTestRules (quietOptions 14) = false ->
      ambiguityCheck [] directGrammar (quietOptions 14) = ([], Next)).
Proof.
  exact (noOutput_quiet [] directGrammar (quietOptions 14) eq_refl
           DetectorExamples.directGrammar_closed).
Defined.

Lemma default_prints_once_witness :
  2 * countAmbiguity
        (printed (fst (findAmbiguity (options 14 false false) "[S]" binaryPathTab)))
  <= List.length binaryPathTab * (List.length binaryPathTab - 1).
Proof.
  exact (default_prints_once (options 14 false false) "[S]" binaryPathTab eq_refl).
Defined.

Lemma findAll_prints_distinct_witness :
  distinctPairs
    (pairsPrinted
       (printed (fst (findAmbiguity (options 14 true false) "[S]" binaryPathTab)))).
Proof.
  exact (findAll_prints_distinct (options 14 true false) "[S]" binaryPathTab
           eq_refl).
Defined.

Lemma constructed_builtGrammar : constructed builtGrammar.
Proof.
  apply (constructed_addRule symB (terminalOpts "x") built6);
    [|reflexivity|intros sym []|reflexivity].
  apply (constructed_addRule symA (terminalOpts "x") built5);
    [|reflexivity|intros sym []|reflexivity].
  apply (constructed_addRule symS (nonterminalOpts [symB] None None) built4);
    [|reflexivity|intros sym [<-|[]]; reflexivity|reflexivity].
  apply (constructed_addRule symS (nonterminalOpts [symA] None None) built3);
    [|reflexivity|intros sym [<-|[]]; reflexivity|reflexivity].
  apply (constructed_Symbol [part "B"] built2 symB); [|reflexivity].
  apply (constructed_Symbol [part "A"] built1 symA); [|reflexivity].
  apply (constructed_Symbol [part "S"] [] symS); [|reflexivity].
  apply constructed_empty.
Defined.

Lemma constructed_grammar_witness :
  (forall sym, In sym (keys builtGrammar) ->
               startsWithBracket sym = true /\ endsWithBracket sym = true)
  /\ closedGrammar builtGrammar
  /\ (forall sym rules rule,
         get builtGrammar sym = Some rules -> In rule rules ->
         ruleShape rule = true)
  /\ atMostBinary builtGrammar = true
  /\ withoutEditRules builtGrammar = builtGrammar
  /\ noDuplicateRHS builtGrammar.
Proof. exact (constructed_grammar builtGrammar constructed_builtGrammar). Defined.

Lemma rule_costs_by_position_witness :
  (forall i rule,
      nth_error (rulesIn builtGrammar symS) i = Some rule ->
      semantic rule = None ->
      cost rule = Numbers.mul (Numbers.ofNat i) c1e_7)
  /\ (forall i j ruleI ruleJ,
         nth_error (rulesIn builtGrammar symS) i = Some ruleI ->
         nth_error (rulesIn builtGrammar symS) j = Some ruleJ ->
         semantic ruleI = None -> semantic ruleJ = None ->
         i < j -> j <= 2 ^ 16 ->
         Numbers.ltb (cost ruleI) (cost ruleJ) = true).
Proof.
  exact (rule_costs_by_position builtGrammar "[S]" (rulesIn builtGrammar symS)
           (constructed_authored _ constructed_builtGrammar) eq_refl).
Defined.

Lemma constructed_enumerates_witness :
  exists pathTab,
    pathTabOf builtGrammar (options 14 false false) "[S]" = Done pathTab
    /\ forall path, pathIn pathTab path ->
                    symsCount path
                    <= Nat.max 5 (symsLimit (options 14 false false) + 1).
Proof.
  apply (constructed_enumerates builtGrammar (options 14 false false) "[S]"
           constructed_builtGrammar).
  simpl. auto.
Defined.

Lemma newVerbSet_insertionCost_witness :
  (forall first others,
      VerbSet.acceptedVerbTermSets likeOptions = first :: others ->
      exists rule rest,
        likeRules = rule :: rest
        /\ VerbSet.rhs rule = VerbSet.oneSg first
        /\ VerbSet.insertionCost rule = VerbSet.optInsertionCost likeOptions
        /\ Forall (fun rule => VerbSet.insertionCost rule = None) rest)
  /\ (VerbSet.acceptedVerbTermSets likeOptions = [] ->
      Forall (fun rule => VerbSet.insertionCost rule = None) likeRules).
Proof. exact (newVerbSet_insertionCost likeOptions likeRules eq_refl). Defined.

Lemma newVerbSet_text_witness :
  exists forAccepted forSubstituted,
    likeRules = forAccepted ++ forSubstituted
    /\ Forall (fun rule => exists verbTermSet,
                   In verbTermSet (VerbSet.acceptedVerbTermSets likeOptions)
                   /\ VerbSet.text rule
                      = Some (VerbSet.verbSetTextForms verbTermSet)
                   /\ In (VerbSet.rhs rule) (VerbSetSpec.forms verbTermSet))
              forAccepted
    /\ Forall (fun rule =>
                 VerbSet.text rule
                 = option_map VerbSet.verbSetTextForms
                              (hd_error (VerbSet.acceptedVerbTermSets likeOptions))
                 /\ exists verbTermSet,
                     In verbTermSet (VerbRulesSpec.substituted likeOptions)
                     /\ In (VerbSet.rhs rule) (VerbSetSpec.forms verbTermSet))
              forSubstituted.
Proof. exact (newVerbSet_text likeOptions likeRules eq_refl). Defined.

Lemma newVerbSet_rules_made_witness :
  exists bySet,
    likeRules = List.concat bySet
    /\ Forall2 (fun verbTermSet forSet =>
                  1 <= List.length forSet <= 7
                  /\ Forall (fun rule =>
                               VerbSet.isTerminal rule = true
                               /\ In (VerbSet.rhs rule)
                                     (VerbSetSpec.forms verbTermSet)
                               /\ (VerbSet.tense rule = None
                                   \/ VerbSet.tense rule = Some "past"
                                      /\ (VerbSet.given
                                            (VerbSet.past verbTermSet) = true
                                          /\ VerbSet.rhs rule
                                             = VerbSet.formOf
                                                 (VerbSet.past verbTermSet)
                                          \/ VerbSet.given
                                               (VerbSet.pastParticiple
                                                  verbTermSet) = true
                                             /\ VerbSet.rhs rule
                                                = VerbSet.formOf
                                                    (VerbSet.pastParticiple
                                                       verbTermSet))))
                            forSet)
               (VerbSet.acceptedVerbTermSets likeOptions
                ++ VerbRulesSpec.substituted likeOptions)
               bySet.
Proof. exact (newVerbSet_rules_made likeOptions likeRules eq_refl). Defined.

Lemma newVerbSet_isVerb_witness :
  (exists logged,
      TerminalRuleSets.isVerb
        [("verb", TerminalRuleSets.verbSymbol "like" likeRules)] "verb"
      = TerminalRuleSets.Returns true logged)
  /\ (exists logged,
         TerminalRuleSets.isPresentVerb
           [("verb", TerminalRuleSets.verbSymbol "like" likeRules)] "verb"
         = TerminalRuleSets.Returns false logged)
  /\ TerminalRuleSets.isInvariableTerm
       [("verb", TerminalRuleSets.verbSymbol "like" likeRules)] "verb"
     = TerminalRuleSets.Returns false
         [TerminalRuleSets.LogError
            "'verb' has inflections:" "like"
            (Some (TerminalRuleSets.ObjectText
                     (VerbSet.verbSetTextForms likeVerb)));
          TerminalRuleSets.LogPathAndObject
            [("verb", TerminalRuleSets.verbSymbol "like" likeRules)]].
Proof.
  exact (newVerbSet_isVerb likeOptions likeRules likeVerb [] "verb"
           eq_refl eq_refl eq_refl eq_refl eq_refl).
Defined.

End MoreFacts.

(** ** The properties of a category on the examples *)

Module CategoryFacts.
Import SymbolJs SymbolSpec GrammarSpec GrowthSpec CategoryJs CategorySpec
       CategoryExamples.
Import GrowthFacts.

Lemma constructed_startGrammar : constructed startGrammar.
Proof.
  assert (H : builds [] makeStart) by (unfold makeStart, newStart; build).
  apply (H [] constructed_empty). intros sym [].
Defined.

Lemma userCategory_made :
  Category required (sym "[start]") userOpts startGrammar
  = (inr userCategory, userGrammar).
Proof. vm_compute. reflexivity. Defined.

(** After the category of users is made, a category of the same [sg]
    cannot be made: here one with another plural, on the grammar the
    first has left. *)
Lemma Category_once_witness :
  (forall grammar,
      extends grammar
              (snd (Category required (sym "[start]") userOpts grammar)))
  /\ Category required (sym "[start]")
              {| sg := "user"; pl := "people"; person := true; entity := false |}
              userGrammar
     = (inl duplicateSymbol, userGrammar).
Proof.
  destruct (Category_once required (sym "[start]") userOpts) as [Hgrows Honce].
  split; [exact Hgrows|].
  exact (Honce startGrammar userCategory userGrammar userGrammar
               required (sym "[start]")
               {| sg := "user"; pl := "people"; person := true; entity := false |}
               userCategory_made (extends_refl userGrammar) eq_refl).
Defined.

(** The category of users on a grammar whose [start] has a rule: that
    rule stays, the rule of [users] follows it, and [repos] is as it
    was. *)
Lemma Category_frame_witness :
  (forall sym, hasOwnProperty startGrammar sym = true -> sym <> "[start]" ->
               get userGrammar sym = get startGrammar sym)
  /\ (exists rule,
         get userGrammar "[start]"
         = Some (rulesIn startGrammar (sym "[start]") ++ [rule])
         /\ terminal rule = false
         /\ RHS rule = ["[users]"])
  /\ name (catPl userCategory) = "[users]"
  /\ hasOwnProperty startGrammar "[users]" = false.
Proof.
  exact (Category_frame required (sym "[start]") userOpts startGrammar
                        userGrammar userCategory eq_refl userCategory_made).
Defined.

(** A category of fish, whose plural is the singular. *)
Lemma Category_same_name_witness :
  exists e grammar',
    Category required (sym "[start]") fishOpts startGrammar = (inl e, grammar')
    /\ extends startGrammar grammar'
    /\ hasOwnProperty grammar' "[fish-lhs]" = true.
Proof.
  exact (Category_same_name required (sym "[start]") fishOpts startGrammar
                            eq_refl eq_refl).
Defined.

(** The category of users on a grammar that is built and has the
    symbols required. *)
Lemma Category_constructed_witness :
  constructed userGrammar /\ DetectorSpec.closedGrammar userGrammar.
Proof.
  apply (Category_constructed required (sym "[start]") userOpts startGrammar
                              constructed_startGrammar eq_refl).
  intros s Hin. cbn in Hin.
  repeat (destruct Hin as [<-|Hin]; [reflexivity|]). destruct Hin.
Defined.

End CategoryFacts.
